(** * Esperanto 0.6.18: a shallow embedding of the module rewriter

    The development follows [dist/esperanto.js].  JavaScript strings are
    [string], arrays are [list], objects used as dictionaries are either
    association lists (when [Object.keys] order is observable) or lists of
    keys (when only [hasOwnProperty] is asked).  Exceptions are values of
    [result]. *)

From Stdlib Require Import String Ascii List Arith ZArith Lia Bool DecimalString.
From stdpp Require Import gmap strings list.
Import ListNotations.
Set Warnings "-clear-no-such-hyp".
Set Warnings "-register-all".
Set Warnings "-notation-overridden".
Set Warnings "-notation-incompatible-prefix".
Open Scope string_scope.
Open Scope list_scope.

(** ** Errors

    [throw new Error(msg)], [throw new SyntaxError(msg)], the typed
    [EsperantoError] with its [code], the [TypeError]s the engine raises
    on [undefined.prop], and rejections of the file-system collaborator
    (an object with a [code]). *)

Inductive error : Type :=
| Error (message : string)
| SyntaxError (message : string)
| TypeError (message : string)
| EsperantoError (message : string) (code : string)
| FsError (code : string)
| Loop.   (* not an exception: the call does not return *)

Inductive result (A : Type) : Type :=
| Ok (a : A)
| Err (e : error).
Arguments Ok {A} a.
Arguments Err {A} e.

#[global] Instance result_bind : MBind result :=
  fun A B (k : A -> result B) (r : result A) =>
    match r with
    | Ok a => k a
    | Err e => Err e
    end.

#[global] Instance result_ret : MRet result := fun A a => Ok a.

Definition is_ok {A : Type} (r : result A) : bool :=
  match r with Ok _ => true | Err _ => false end.

(** ** String helpers (the JavaScript built-ins the code calls) *)

Definition str_eqb (a b : string) : bool := String.eqb a b.

(** [arr.indexOf(x) !== -1] / [hasOwnProperty] on a key list. *)
Definition mem (x : string) (l : list string) : bool :=
  existsb (str_eqb x) l.

(** [a.join(sep)] *)
Fixpoint join (sep : string) (l : list string) : string :=
  match l with
  | [] => ""
  | [x] => x
  | x :: t => x +:+ sep +:+ join sep t
  end.

(** [s.split(re)] for a regular expression that matches exactly one
    character out of a class: the result always has at least one part. *)
Fixpoint split_on (p : ascii -> bool) (s : string) : list string :=
  match s with
  | EmptyString => [EmptyString]
  | String c s' =>
      if p c then EmptyString :: split_on p s'
      else match split_on p s' with
           | h :: t => String c h :: t
           | [] => [String c EmptyString]
           end
  end.

(** [var pathSplitRE = /\/|\\/;] *)
Definition pathSplitRE (c : ascii) : bool :=
  Ascii.eqb c "/"%char || Ascii.eqb c "\"%char.

Definition splitPath (path : string) : list string :=
  split_on pathSplitRE path.

(** [resolved.replace( /\.js$/, '' )]: without the [m] flag [$] matches at
    the very end only. *)
Fixpoint strip_js (s : string) : string :=
  match s with
  | EmptyString => EmptyString
  | String c s' => if str_eqb s ".js" then EmptyString else String c (strip_js s')
  end.

(** [importPath[0] !== '.'] *)
Definition first_is_dot (s : string) : bool :=
  match s with
  | String c _ => Ascii.eqb c "."%char
  | EmptyString => false
  end.

(** ** utils/resolveId *)

(** [while ( importParts[0] === '..' ) { importParts.shift(); importerParts.pop(); }] *)
Fixpoint shift_dotdot (importParts importerParts : list string)
  : list string * list string :=
  match importParts with
  | p :: rest =>
      if str_eqb p ".." then shift_dotdot rest (removelast importerParts)
      else (importParts, importerParts)
  | [] => (importParts, importerParts)
  end.

(** [while ( importParts[0] === '.' ) { importParts.shift(); }] *)
Fixpoint shift_dot (importParts : list string) : list string :=
  match importParts with
  | p :: rest => if str_eqb p "." then shift_dot rest else importParts
  | [] => importParts
  end.

(** [if ( importParts[0] === '.' ) { importParts.shift(); }] *)
Definition shift_one_dot (importParts : list string) : list string :=
  match importParts with
  | p :: rest => if str_eqb p "." then rest else importParts
  | [] => importParts
  end.

Definition resolveId (importPath importerPath : string) : string :=
  let resolved :=
    if negb (first_is_dot importPath) then importPath
    else
      let importerParts := splitPath importerPath in
      let importParts := splitPath importPath in
      let importParts := shift_one_dot importParts in
      let importerParts := removelast importerParts in
      let '(importParts, importerParts) := shift_dotdot importParts importerParts in
      let importParts := shift_dot importParts in
      join "/" (importerParts ++ importParts)
  in
  strip_js resolved.

Definition resolveAgainst (importerPath : string) : string -> string :=
  fun importPath => resolveId importPath importerPath.

(** The older helper kept in [src/utils/resolve.js]: it splits on ['/']
    only and has no shift of a single leading ['.'] before the ['..'] loop. *)
Definition resolve (importPath importerPath : string) : string :=
  let resolved :=
    if negb (first_is_dot importPath) then importPath
    else
      let importerParts := split_on (fun c => Ascii.eqb c "/"%char) importerPath in
      let importParts := split_on (fun c => Ascii.eqb c "/"%char) importPath in
      let importerParts := removelast importerParts in
      let '(importParts, importerParts) := shift_dotdot importParts importerParts in
      let importParts := shift_dot importParts in
      join "/" (importerParts ++ importParts)
  in
  strip_js resolved.

(** The words of the interface description, kept apart from the code: the
    segments of [importPath] are read as [d] leading ["."] (one when the
    path starts with one, else none), then [k] segments [".."], then [m]
    segments ["."], then the remainder; [k] directory components are taken
    off [dirname(importerPath)]. *)
Fixpoint slashify (s : string) : string :=
  match s with
  | EmptyString => EmptyString
  | String c s' => String (if Ascii.eqb c "\"%char then "/"%char else c) (slashify s')
  end.

Fixpoint no_backslash (s : string) : bool :=
  match s with
  | EmptyString => true
  | String c s' => negb (Ascii.eqb c "\"%char) && no_backslash s'
  end.

Definition head_is (x : string) (l : list string) : bool :=
  match l with
  | h :: _ => str_eqb h x
  | [] => false
  end.

Definition leading_shape (parts : list string) (d k m : nat) (rest : list string) : Prop :=
  parts = repeat "." d ++ repeat ".." k ++ repeat "." m ++ rest /\
  d <= 1 /\ (d = 0 -> k = 0 -> m = 0) /\
  head_is "." rest = false /\ (m = 0 -> head_is ".." rest = false).

Definition resolve_spec (importerPath : string) (k : nat) (rest : list string) : string :=
  let parts := splitPath importerPath in
  strip_js (join "/" (firstn (length parts - 1 - k) parts ++ rest)).


(** ** Syntax trees

    The parser is a collaborator; a tree is what it returns.  A node has
    its [type], its offsets, the scalar properties the rewriter reads and
    its child nodes in the order the traversal visits them, each child
    remembering the property ([key]) of the parent it sits under.  The
    annotations ([_skip], [_topLevel], [_scope], [_blockScope]) are the
    properties [annotateAst] attaches to nodes. *)

Inductive ntype : Type :=
| Program | EmptyStatement | ExpressionStatement | BlockStatement | ReturnStatement
| VariableDeclaration | VariableDeclarator
| FunctionDeclaration | FunctionExpression | ArrowFunctionExpression
| ClassDeclaration | ClassExpression
| AssignmentExpression | UpdateExpression | MemberExpression
| CallExpression | BinaryExpression | ObjectExpression | Property
| TemplateLiteral | ThisExpression | Identifier | Literal
| ImportDeclaration | ImportSpecifier | ImportDefaultSpecifier | ImportNamespaceSpecifier
| ExportNamedDeclaration | ExportDefaultDeclaration | ExportSpecifier
| OtherType (t : string).

#[global] Instance ntype_eq_dec : EqDecision ntype.
Proof. solve_decision. Defined.

Definition is_type (a b : ntype) : bool := bool_decide (a = b).

(** A reference to a [Scope] object: its identity followed by the
    identities along its [parent] chain ([parent] is fixed at
    construction); the empty list stands for [undefined]. *)
Definition scope_ref : Type := list nat.

Record attrs : Type := {
  a_type : ntype;
  a_key : string;
  a_start : nat;
  a_end : nat;
  a_name : string;
  a_operator : string;
  a_kind : string;
  a_computed : bool;
  a_value : string
}.

Record annots : Type := {
  x_skip : bool;
  x_topLevel : bool;
  x_scope : option scope_ref;
  x_blockScope : option scope_ref
}.

#[warnings="-register-all"]
Inductive node : Type :=
  Node { n_attrs : attrs; n_annots : annots; n_children : list node }.

Definition no_annots : annots :=
  {| x_skip := false; x_topLevel := false; x_scope := None; x_blockScope := None |}.

Definition n_type (n : node) : ntype := a_type (n_attrs n).
Definition n_key (n : node) : string := a_key (n_attrs n).
Definition n_start (n : node) : nat := a_start (n_attrs n).
Definition n_end (n : node) : nat := a_end (n_attrs n).
Definition n_name (n : node) : string := a_name (n_attrs n).
Definition _skip (n : node) : bool := x_skip (n_annots n).
Definition _topLevel (n : node) : bool := x_topLevel (n_annots n).
Definition _scope (n : node) : option scope_ref := x_scope (n_annots n).
Definition _blockScope (n : node) : option scope_ref := x_blockScope (n_annots n).

(** [node.k] for a property holding one node (or [null]), and for a
    property holding an array of nodes. *)
Definition child (k : string) (n : node) : option node :=
  find (fun c => str_eqb (n_key c) k) (n_children n).

Definition child_list (k : string) (n : node) : list node :=
  filter (fun c => str_eqb (n_key c) k) (n_children n).

(** Constructors for trees as the parser returns them. *)
Definition mk (t : ntype) (k : string) (s e : nat) (cs : list node) : node :=
  Node {| a_type := t; a_key := k; a_start := s; a_end := e; a_name := "";
          a_operator := ""; a_kind := ""; a_computed := false; a_value := "" |}
       no_annots cs.

Definition mk_ident (k : string) (s e : nat) (name : string) : node :=
  Node {| a_type := Identifier; a_key := k; a_start := s; a_end := e; a_name := name;
          a_operator := ""; a_kind := ""; a_computed := false; a_value := "" |}
       no_annots [].

Definition mk_literal (k : string) (s e : nat) (value : string) : node :=
  Node {| a_type := Literal; a_key := k; a_start := s; a_end := e; a_name := "";
          a_operator := ""; a_kind := ""; a_computed := false; a_value := value |}
       no_annots [].

Definition mk_op (t : ntype) (k : string) (s e : nat) (op : string) (cs : list node) : node :=
  Node {| a_type := t; a_key := k; a_start := s; a_end := e; a_name := "";
          a_operator := op; a_kind := ""; a_computed := false; a_value := "" |}
       no_annots cs.

Definition mk_var (k : string) (s e : nat) (kind : string) (cs : list node) : node :=
  Node {| a_type := VariableDeclaration; a_key := k; a_start := s; a_end := e;
          a_name := ""; a_operator := ""; a_kind := kind; a_computed := false;
          a_value := "" |}
       no_annots cs.

Definition mk_member (k : string) (s e : nat) (computed : bool) (cs : list node) : node :=
  Node {| a_type := MemberExpression; a_key := k; a_start := s; a_end := e;
          a_name := ""; a_operator := ""; a_kind := ""; a_computed := computed;
          a_value := "" |}
       no_annots cs.

(** ** Scope *)

(** The [names] array of every [Scope] object, by identity. *)
Definition scope_names : Type := list (list string).

Definition names_of (names : scope_names) (id : nat) : list string :=
  default [] (names !! id).

(** [Scope.prototype.add] *)
Definition scope_add (names : scope_names) (id : nat) (name : string) : scope_names :=
  <[ id := names_of names id ++ [name] ]> names.

(** [Scope.prototype.contains]; the receiver is a defined scope. *)
Fixpoint contains (names : scope_names) (scope : scope_ref) (name : string)
  (ignoreTopLevel : bool) : bool :=
  match scope with
  | [] => false
  | id :: parent =>
      if ignoreTopLevel && bool_decide (parent = []) then false
      else if mem name (names_of names id) then true
      else contains names parent name ignoreTopLevel
  end.

(** [scope.contains(...)] where [scope] may be [undefined]. *)
Definition scope_contains (names : scope_names) (scope : scope_ref) (name : string)
  (ignoreTopLevel : bool) : result bool :=
  match scope with
  | [] => Err (TypeError "Cannot read property 'contains' of undefined")
  | _ => Ok (contains names scope name ignoreTopLevel)
  end.

(** [scope.parent] *)
Definition scope_parent (scope : scope_ref) : result scope_ref :=
  match scope with
  | [] => Err (TypeError "Cannot read property 'parent' of undefined")
  | _ :: parent => Ok parent
  end.

(** ** annotateAst *)

Record annot_state : Type := {
  s_names : scope_names;
  s_scope : scope_ref;
  s_blockScope : scope_ref;
  s_declared : list string;
  s_topLevelFunctionNames : list string;
  s_templateLiteralRanges : list (nat * nat);
  s_envDepth : Z
}.

(** [obj[key] = true] on an object used as a set; [Object.keys] keeps
    the order of first insertion. *)
Definition set_key (k : string) (keys : list string) : list string :=
  if mem k keys then keys else keys ++ [k].

(** [declarator.id.name] *)
Definition id_name (n : node) : result string :=
  match child "id" n with
  | Some i => Ok (n_name i)
  | None => Err (TypeError "Cannot read property 'name' of null")
  end.

Definition addToScope (declarator : node) (st : annot_state) : result annot_state :=
  name ← id_name declarator;
  match s_scope st with
  | [] => Err (TypeError "Cannot read property 'add' of undefined")
  | id :: _ =>
      Ok {| s_names := scope_add (s_names st) id name;
            s_scope := s_scope st;
            s_blockScope := s_blockScope st;
            s_declared := set_key name (s_declared st);
            s_topLevelFunctionNames := s_topLevelFunctionNames st;
            s_templateLiteralRanges := s_templateLiteralRanges st;
            s_envDepth := s_envDepth st |}
  end.

Definition addToBlockScope (declarator : node) (st : annot_state) : result annot_state :=
  name ← id_name declarator;
  match s_blockScope st with
  | [] => Err (TypeError "Cannot read property 'add' of undefined")
  | id :: _ =>
      Ok {| s_names := scope_add (s_names st) id name;
            s_scope := s_scope st;
            s_blockScope := s_blockScope st;
            s_declared := set_key name (s_declared st);
            s_topLevelFunctionNames := s_topLevelFunctionNames st;
            s_templateLiteralRanges := s_templateLiteralRanges st;
            s_envDepth := s_envDepth st |}
  end.

(** [arr.forEach(f)] for an [f] that may throw. *)
Fixpoint forEach {A S : Type} (f : A -> S -> result S) (l : list A) (st : S) : result S :=
  match l with
  | [] => Ok st
  | a :: l' => st' ← f a st; forEach f l' st'
  end.

Definition set_envDepth (d : Z) (st : annot_state) : annot_state :=
  {| s_names := s_names st; s_scope := s_scope st; s_blockScope := s_blockScope st;
     s_declared := s_declared st;
     s_topLevelFunctionNames := s_topLevelFunctionNames st;
     s_templateLiteralRanges := s_templateLiteralRanges st;
     s_envDepth := d |}.

(** The part of [enter] shared by the three function cases, after the
    fall-through. *)
Definition enter_function (n : node) (st : annot_state) : result (annots * annot_state) :=
  st1 ← match child "id" n with
        | Some i =>
            st' ← addToScope n st;
            parent ← scope_parent (s_scope st');
            Ok (if bool_decide (parent = []) && is_type (n_type n) FunctionDeclaration
                then {| s_names := s_names st'; s_scope := s_scope st';
                        s_blockScope := s_blockScope st';
                        s_declared := s_declared st';
                        s_topLevelFunctionNames :=
                          s_topLevelFunctionNames st' ++ [n_name i];
                        s_templateLiteralRanges := s_templateLiteralRanges st';
                        s_envDepth := s_envDepth st' |}
                else st')
        | None => Ok st
        end;
  let fresh := length (s_names st1) in
  let scope := fresh :: s_scope st1 in
  Ok ({| x_skip := false; x_topLevel := _topLevel n; x_scope := Some scope;
         x_blockScope := _blockScope n |},
      {| s_names := s_names st1 ++ [map n_name (child_list "params" n)];
         s_scope := scope;
         s_blockScope := s_blockScope st1;
         s_declared := s_declared st1;
         s_topLevelFunctionNames := s_topLevelFunctionNames st1;
         s_templateLiteralRanges := s_templateLiteralRanges st1;
         s_envDepth := s_envDepth st1 |}).

Definition unchanged (n : node) : annots :=
  {| x_skip := false; x_topLevel := _topLevel n; x_scope := _scope n;
     x_blockScope := _blockScope n |}.

(** [enter] for a node that is not skipped: the annotations the node
    receives and the new state. *)
Definition annotate_enter (n : node) (st : annot_state) : result (annots * annot_state) :=
  match n_type n with
  | FunctionExpression | FunctionDeclaration =>
      enter_function n (set_envDepth (s_envDepth st + 1) st)
  | ArrowFunctionExpression =>
      enter_function n st
  | BlockStatement =>
      let fresh := length (s_names st) in
      let blockScope := fresh :: s_blockScope st in
      Ok ({| x_skip := false; x_topLevel := _topLevel n; x_scope := _scope n;
             x_blockScope := Some blockScope |},
          {| s_names := s_names st ++ [[]];
             s_scope := s_scope st;
             s_blockScope := blockScope;
             s_declared := s_declared st;
             s_topLevelFunctionNames := s_topLevelFunctionNames st;
             s_templateLiteralRanges := s_templateLiteralRanges st;
             s_envDepth := s_envDepth st |})
  | VariableDeclaration =>
      st' ← forEach (if str_eqb (a_kind (n_attrs n)) "let" then addToBlockScope else addToScope)
                    (child_list "declarations" n) st;
      Ok (unchanged n, st')
  | ClassExpression | ClassDeclaration =>
      st' ← addToScope n st;
      Ok (unchanged n, st')
  | MemberExpression =>
      top_this ←
        (if (s_envDepth st =? 0)%Z
         then match child "object" n with
              | None => Err (TypeError "Cannot read property 'type' of undefined")
              | Some object => Ok (is_type (n_type object) ThisExpression)
              end
         else Ok false);
      if (top_this : bool)
      then Err (Error "`this` at the top level is undefined")
      else if negb (a_computed (n_attrs n)) && bool_decide (child "property" n = None)
      then Err (TypeError "Cannot set property '_skip' of undefined")
      else Ok (unchanged n, st)
  | Property =>
      match child "key" n with
      | None => Err (TypeError "Cannot set property '_skip' of undefined")
      | Some _ => Ok (unchanged n, st)
      end
  | TemplateLiteral =>
      Ok (unchanged n,
          {| s_names := s_names st; s_scope := s_scope st;
             s_blockScope := s_blockScope st; s_declared := s_declared st;
             s_topLevelFunctionNames := s_topLevelFunctionNames st;
             s_templateLiteralRanges := s_templateLiteralRanges st ++ [(n_start n, n_end n)];
             s_envDepth := s_envDepth st |})
  | ThisExpression =>
      Ok ({| x_skip := false;
             x_topLevel := if (s_envDepth st =? 0)%Z then true else _topLevel n;
             x_scope := _scope n; x_blockScope := _blockScope n |}, st)
  | _ => Ok (unchanged n, st)
  end.

(** [leave]; the traversal calls it for skipped nodes as well. *)
Definition annotate_leave (t : ntype) (st : annot_state) : result annot_state :=
  match t with
  | FunctionExpression | FunctionDeclaration =>
      parent ← scope_parent (s_scope st);
      Ok {| s_names := s_names st; s_scope := parent;
            s_blockScope := s_blockScope st; s_declared := s_declared st;
            s_topLevelFunctionNames := s_topLevelFunctionNames st;
            s_templateLiteralRanges := s_templateLiteralRanges st;
            s_envDepth := s_envDepth st - 1 |}
  | ArrowFunctionExpression =>
      parent ← scope_parent (s_scope st);
      Ok {| s_names := s_names st; s_scope := parent;
            s_blockScope := s_blockScope st; s_declared := s_declared st;
            s_topLevelFunctionNames := s_topLevelFunctionNames st;
            s_templateLiteralRanges := s_templateLiteralRanges st;
            s_envDepth := s_envDepth st |}
  | BlockStatement =>
      parent ← scope_parent (s_blockScope st);
      Ok {| s_names := s_names st; s_scope := s_scope st;
            s_blockScope := parent; s_declared := s_declared st;
            s_topLevelFunctionNames := s_topLevelFunctionNames st;
            s_templateLiteralRanges := s_templateLiteralRanges st;
            s_envDepth := s_envDepth st |}
  | _ => Ok st
  end.

(** [node.property._skip = true] and [node.key._skip = true]: whether
    entering [parent] marks its child [c]. *)
Definition marks (parent c : node) : bool :=
  match n_type parent with
  | MemberExpression => negb (a_computed (n_attrs parent)) && str_eqb (n_key c) "property"
  | Property => str_eqb (n_key c) "key"
  | _ => false
  end.

Definition with_skip (n : node) : annots :=
  {| x_skip := true; x_topLevel := _topLevel n; x_scope := _scope n;
     x_blockScope := _blockScope n |}.

(** The traversal of [annotateAst]: [marked] tells that the parent has
    set [_skip] on this node when it was entered. *)
Fixpoint annotate (marked : bool) (n : node) (st : annot_state)
  : result (node * annot_state) :=
  if _skip n || marked
     || is_type (n_type n) ImportDeclaration || is_type (n_type n) ExportSpecifier
  then
    st' ← annotate_leave (n_type n) st;
    Ok (Node (n_attrs n) (with_skip n) (n_children n), st')
  else
    '(ann, st1) ← annotate_enter n st;
    '(cs, st2) ←
      (fix go (cs : list node) (st : annot_state) : result (list node * annot_state) :=
         match cs with
         | [] => Ok ([], st)
         | c :: rest =>
             '(c', st') ← annotate (marks n c) c st;
             '(rest', st'') ← go rest st';
             Ok (c' :: rest', st'')
         end) (n_children n) st1;
    st3 ← annotate_leave (n_type n) st2;
    Ok (Node (n_attrs n) ann cs, st3).

(** What [annotateAst] leaves on the root: [ast._scope], [ast._blockScope],
    [ast._topLevelNames], [ast._topLevelFunctionNames], [ast._declared],
    [ast._templateLiteralRanges], and the scopes' names. *)
Record annotated : Type := {
  ast : node;
  names : scope_names;
  _topLevelNames : list string;
  _topLevelFunctionNames : list string;
  _declared : list string;
  _templateLiteralRanges : list (nat * nat)
}.

Definition annotateAst (ast : node) : result annotated :=
  let st0 := {| s_names := [[]; []]; s_scope := [0]; s_blockScope := [1];
                s_declared := []; s_topLevelFunctionNames := [];
                s_templateLiteralRanges := []; s_envDepth := 0 |} in
  '(ast', st) ← annotate false ast st0;
  match s_scope st, s_blockScope st with
  | scope_id :: _, blockScope_id :: _ =>
      Ok {| ast := Node (n_attrs ast')
                     {| x_skip := _skip ast'; x_topLevel := _topLevel ast';
                        x_scope := Some (s_scope st);
                        x_blockScope := Some (s_blockScope st) |}
                     (n_children ast');
            names := s_names st;
            _topLevelNames := names_of (s_names st) scope_id
                              ++ names_of (s_names st) blockScope_id;
            _topLevelFunctionNames := s_topLevelFunctionNames st;
            _declared := s_declared st;
            _templateLiteralRanges := s_templateLiteralRanges st |}
  | _, _ => Err (TypeError "Cannot read property 'names' of undefined")
  end.


(** ** Import and export declarations *)

Record Specifier : Type := {
  sp_isBatch : bool;
  sp_isDefault : bool;
  sp_name : string;
  sp_as : string
}.

Record ImportDecl : Type := {
  i_id : option string;          (* filled in by the bundler *)
  i_node : node;
  i_start : nat;
  i_end : nat;
  i_passthrough : bool;
  i_path : string;
  i_specifiers : list Specifier;
  i_isEmpty : bool;
  i_isDefault : bool;
  i_isBatch : bool;
  i_isNamed : bool;
  i_as : option string;
  i_next : option nat;
  i_name : option string         (* the module name chosen for the import *)
}.

Inductive export_type : Type :=
| anonFunction | namedFunction | anonClass | namedClass | expression
| varDeclaration | named | no_type.

#[global] Instance export_type_eq_dec : EqDecision export_type.
Proof. solve_decision. Defined.

Record ExportDecl : Type := {
  e_isDefault : bool;
  e_node : node;
  e_start : nat;
  e_end : nat;
  e_hasDeclaration : bool;
  e_type : export_type;
  e_name : option string;
  e_value : option string;
  e_valueStart : nat;            (* read only where a declaration exists *)
  e_specifiers : option (list string);   (* [{ name }] *)
  e_passthrough : option ImportDecl;
  e_next : option nat;
  e_isFinal : bool
}.

(** [node.k.name] *)
Definition prop_name (k : string) (n : node) : result string :=
  match child k n with
  | Some c => Ok (n_name c)
  | None => Err (TypeError "Cannot read property 'name' of undefined")
  end.

(** [arr.map(f)] for an [f] that may throw. *)
Fixpoint mapM {A B : Type} (f : A -> result B) (l : list A) : result (list B) :=
  match l with
  | [] => Ok []
  | a :: l' => b ← f a; bs ← mapM f l'; Ok (b :: bs)
  end.

Definition processSpecifier (passthrough : bool) (s : node) : result Specifier :=
  match n_type s with
  | ImportNamespaceSpecifier =>
      local ← prop_name "local" s;
      Ok {| sp_isBatch := true; sp_isDefault := false; sp_name := local; sp_as := local |}
  | ImportDefaultSpecifier =>
      local ← prop_name "local" s;
      Ok {| sp_isBatch := false; sp_isDefault := true; sp_name := "default"; sp_as := local |}
  | _ =>
      name ← prop_name (if passthrough then "exported" else "imported") s;
      local ← prop_name "local" s;
      Ok {| sp_isBatch := false; sp_isDefault := false; sp_name := name; sp_as := local |}
  end.

Definition processImport (node : node) (passthrough : bool) : result ImportDecl :=
  source ← match child "source" node with
           | Some src => Ok src
           | None => Err (TypeError "Cannot read property 'value' of null")
           end;
  specifiers ← mapM (processSpecifier passthrough) (child_list "specifiers" node);
  let x isEmpty isDefault isBatch isNamed as_ :=
    {| i_id := None; i_node := node; i_start := n_start node; i_end := n_end node;
       i_passthrough := passthrough; i_path := a_value (n_attrs source);
       i_specifiers := specifiers; i_isEmpty := isEmpty; i_isDefault := isDefault;
       i_isBatch := isBatch; i_isNamed := isNamed; i_as := as_;
       i_next := None; i_name := None |} in
  Ok match specifiers with
     | [] => x true false false false None
     | [s] =>
         if sp_isDefault s then x false true false false (Some (sp_as s))
         else if sp_isBatch s then x false false true false (Some (sp_name s))
         else x false false false true None
     | _ => x false false false true None
     end.

(** [source.slice( a, b )] *)
Definition slice (source : string) (a b : nat) : string :=
  String.substring a (b - a) source.

Definition processDefaultExport (node : node) (source : string) : result ExportDecl :=
  match child "declaration" node with
  | None => Err (TypeError "Cannot read property 'type' of null")
  | Some d =>
      let result hasDeclaration type name :=
        {| e_isDefault := true; e_node := node; e_start := n_start node;
           e_end := n_end node; e_hasDeclaration := hasDeclaration; e_type := type;
           e_name := name; e_value := Some (slice source (n_start d) (n_end d));
           e_valueStart := n_start d; e_specifiers := None; e_passthrough := None;
           e_next := None; e_isFinal := false |} in
      match n_type d with
      | FunctionExpression => Ok (result true anonFunction None)
      | FunctionDeclaration => name ← id_name d; Ok (result true namedFunction (Some name))
      | ClassExpression => Ok (result true anonClass None)
      | ClassDeclaration => name ← id_name d; Ok (result true namedClass (Some name))
      | _ => Ok (result false expression (Some "default"))
      end
  end.

Definition processExport (node : node) (source : string) : result ExportDecl :=
  match child "declaration" node with
  | Some d =>
      let result hasDeclaration type name :=
        {| e_isDefault := false; e_node := node; e_start := n_start node;
           e_end := n_end node; e_hasDeclaration := hasDeclaration; e_type := type;
           e_name := name; e_value := Some (slice source (n_start d) (n_end d));
           e_valueStart := n_start d; e_specifiers := None; e_passthrough := None;
           e_next := None; e_isFinal := false |} in
      match n_type d with
      | VariableDeclaration =>
          match child_list "declarations" d with
          | d0 :: _ => name ← id_name d0; Ok (result true varDeclaration (Some name))
          | [] => Err (TypeError "Cannot read property 'id' of undefined")
          end
      | FunctionDeclaration => name ← id_name d; Ok (result true namedFunction (Some name))
      | ClassDeclaration => name ← id_name d; Ok (result true namedClass (Some name))
      | _ => Ok (result false no_type None)
      end
  | None =>
      specifiers ← mapM (prop_name "local") (child_list "specifiers" node);
      Ok {| e_isDefault := false; e_node := node; e_start := n_start node;
            e_end := n_end node; e_hasDeclaration := false; e_type := named;
            e_name := None; e_value := None; e_valueStart := 0;
            e_specifiers := Some specifiers; e_passthrough := None;
            e_next := None; e_isFinal := false |}
  end.

(** [previousDeclaration] refers to an object that already sits in
    [imports] or [exports]; writing its [next] is seen through the array. *)
Inductive decl_ref : Type :=
| ImportRef (i : nat)
| ExportRef (i : nat).

Record fie_state : Type := {
  f_imports : list ImportDecl;
  f_exports : list ExportDecl;
  f_previous : option decl_ref;
  f_default : option nat          (* [mod.defaultExport], as a position in [exports] *)
}.

Definition import_set_next (next : nat) (isFinal : bool) (x : ImportDecl) : ImportDecl :=
  {| i_id := i_id x; i_node := i_node x; i_start := i_start x; i_end := i_end x;
     i_passthrough := i_passthrough x; i_path := i_path x;
     i_specifiers := i_specifiers x; i_isEmpty := i_isEmpty x;
     i_isDefault := i_isDefault x; i_isBatch := i_isBatch x; i_isNamed := i_isNamed x;
     i_as := i_as x; i_next := Some next; i_name := i_name x |}.

Definition export_set_next (next : nat) (isFinal : bool) (x : ExportDecl) : ExportDecl :=
  {| e_isDefault := e_isDefault x; e_node := e_node x; e_start := e_start x;
     e_end := e_end x; e_hasDeclaration := e_hasDeclaration x; e_type := e_type x;
     e_name := e_name x; e_value := e_value x; e_valueStart := e_valueStart x;
     e_specifiers := e_specifiers x; e_passthrough := e_passthrough x;
     e_next := Some next; e_isFinal := isFinal || e_isFinal x |}.

Definition set_next (r : decl_ref) (next : nat) (isFinal : bool) (st : fie_state) : fie_state :=
  match r with
  | ImportRef i =>
      {| f_imports := alter (import_set_next next isFinal) i (f_imports st);
         f_exports := f_exports st; f_previous := f_previous st;
         f_default := f_default st |}
  | ExportRef i =>
      {| f_imports := f_imports st;
         f_exports := alter (export_set_next next isFinal) i (f_exports st);
         f_previous := f_previous st; f_default := f_default st |}
  end.

Definition export_set_passthrough (p : ImportDecl) (x : ExportDecl) : ExportDecl :=
  {| e_isDefault := e_isDefault x; e_node := e_node x; e_start := e_start x;
     e_end := e_end x; e_hasDeclaration := e_hasDeclaration x; e_type := e_type x;
     e_name := e_name x; e_value := e_value x; e_valueStart := e_valueStart x;
     e_specifiers := e_specifiers x; e_passthrough := Some p;
     e_next := e_next x; e_isFinal := e_isFinal x |}.

(** The body of [ast.body.forEach( function ( node ) { ... } )]. *)
Definition findImportsAndExports_step (source : string) (node : node) (st : fie_state)
  : result fie_state :=
  let st :=
    match f_previous st with
    | Some r =>
        let st' := set_next r (n_start node) false st in
        {| f_imports := f_imports st'; f_exports := f_exports st';
           f_previous := if is_type (n_type node) EmptyStatement then Some r else None;
           f_default := f_default st' |}
    | None => st
    end in
  match n_type node with
  | ImportDeclaration =>
      declaration ← processImport node false;
      Ok {| f_imports := f_imports st ++ [declaration]; f_exports := f_exports st;
            f_previous := Some (ImportRef (length (f_imports st)));
            f_default := f_default st |}
  | ExportDefaultDeclaration =>
      declaration ← processDefaultExport node source;
      match f_default st with
      | Some _ => Err (Error "Duplicate default exports")
      | None =>
          Ok {| f_imports := f_imports st; f_exports := f_exports st ++ [declaration];
                f_previous := Some (ExportRef (length (f_exports st)));
                f_default := Some (length (f_exports st)) |}
      end
  | ExportNamedDeclaration =>
      declaration ← processExport node source;
      match child "source" node with
      | Some _ =>
          passthrough ← processImport node true;
          Ok {| f_imports := f_imports st ++ [passthrough];
                f_exports := f_exports st ++ [export_set_passthrough passthrough declaration];
                f_previous := Some (ExportRef (length (f_exports st)));
                f_default := f_default st |}
      | None =>
          Ok {| f_imports := f_imports st; f_exports := f_exports st ++ [declaration];
                f_previous := Some (ExportRef (length (f_exports st)));
                f_default := f_default st |}
      end
  | _ => Ok st
  end.

(** [findImportsAndExports( mod, source, ast )]: [imports], [exports] and
    the value left in [mod.defaultExport]. *)
Definition findImportsAndExports (source : string) (ast : node)
  : result (list ImportDecl * list ExportDecl * option ExportDecl) :=
  st ← forEach (findImportsAndExports_step source) (child_list "body" ast)
        {| f_imports := []; f_exports := []; f_previous := None; f_default := None |};
  let st := match f_previous st with
            | Some r => set_next r (String.length source) true st
            | None => st
            end in
  Ok (f_imports st, f_exports st,
      match f_default st with
      | Some i => f_exports st !! i
      | None => None
      end).

(** [disallowConflictingImports] *)
Definition checkName (name : string) (usedNames : list string) : result (list string) :=
  if mem name usedNames
  then Err (SyntaxError ("Duplicated import ('" +:+ name +:+ "')"))
  else Ok (usedNames ++ [name]).

Definition disallowConflictingImports (imports : list ImportDecl) : result unit :=
  _ ← forEach (fun x usedNames =>
                 match i_as x with
                 | Some name => checkName name usedNames
                 | None => forEach (fun s => checkName (sp_as s)) (i_specifiers x) usedNames
                 end) imports [];
  Ok tt.


(** ** The mutable text buffer

    The rewriter only issues commands to the buffer; the commands are
    recorded in the order they are issued. *)

Inductive edit : Type :=
| Remove (a b : nat)
| Replace (a b : nat) (content : string)
| Insert (index : nat) (content : string)
| Prepend (content : string)
| Append (content : string)
| Trim
| TrimLines
| Indent (indentStr : string).

Record MagicString : Type := {
  original : string;
  indentString : string;      (* what [getIndentString()] answers *)
  edits : list edit
}.

Definition issue (e : edit) (body : MagicString) : MagicString :=
  {| original := original body; indentString := indentString body;
     edits := edits body ++ [e] |}.

Definition nl : string := String "010"%char EmptyString.
Definition tab : string := String "009"%char EmptyString.

(** Modelled from the spec: the text buffer itself is a collaborator that is
    not part of the sources; the spec says that [remove], [replace] and
    [insert] are expressed in offsets of the original text and that
    [prepend], [append], [trim], [indent] and [toString] act on the whole
    text.  Every original character keeps a cell: the text inserted in
    front of it and the text that now stands for it. *)
Record cell : Type := { pre : string; cur : string }.

Inductive text : Type :=
| Keyed (intro : string) (cells : list cell) (last : string) (outro : string)
| Flat (s : string).

Fixpoint cells_of (s : string) : list cell :=
  match s with
  | EmptyString => []
  | String c s' => {| pre := ""; cur := String c EmptyString |} :: cells_of s'
  end.

Fixpoint concat_cells (cs : list cell) : string :=
  match cs with
  | [] => ""
  | c :: cs' => pre c +:+ cur c +:+ concat_cells cs'
  end.

Definition text_toString (t : text) : string :=
  match t with
  | Keyed intro cells last outro => intro +:+ concat_cells cells +:+ last +:+ outro
  | Flat s => s
  end.

Definition is_space (c : ascii) : bool :=
  let n := nat_of_ascii c in
  Nat.eqb n 32 || (Nat.leb 9 n && Nat.leb n 13).

Definition is_newline (c : ascii) : bool :=
  let n := nat_of_ascii c in
  Nat.eqb n 10 || Nat.eqb n 13.

Fixpoint trimStart (p : ascii -> bool) (s : string) : string :=
  match s with
  | EmptyString => EmptyString
  | String c s' => if p c then trimStart p s' else s
  end.

Fixpoint all_chars (p : ascii -> bool) (s : string) : bool :=
  match s with
  | EmptyString => true
  | String c s' => p c && all_chars p s'
  end.

Fixpoint trimEnd (p : ascii -> bool) (s : string) : string :=
  match s with
  | EmptyString => EmptyString
  | String c s' => if all_chars p s then EmptyString else String c (trimEnd p s')
  end.

Definition trim (s : string) : string := trimEnd is_space (trimStart is_space s).
Definition trimLines (s : string) : string := trimEnd is_newline (trimStart is_newline s).

(** Every non-empty line receives [indentStr]. *)
Fixpoint indent_from (atLineStart : bool) (indentStr s : string) : string :=
  match s with
  | EmptyString => EmptyString
  | String c s' =>
      if is_newline c then String c (indent_from true indentStr s')
      else (if atLineStart then indentStr else "") +:+ String c (indent_from false indentStr s')
  end.

Definition indent (indentStr s : string) : string := indent_from true indentStr s.

Definition cell_insert (content : string) (c : cell) : cell :=
  {| pre := pre c +:+ content; cur := cur c |}.

Fixpoint cells_remove (i a b : nat) (cs : list cell) : list cell :=
  match cs with
  | [] => []
  | c :: cs' =>
      (if Nat.leb a i && Nat.ltb i b
       then {| pre := if Nat.eqb a i then pre c else ""; cur := "" |}
       else c) :: cells_remove (S i) a b cs'
  end.

Definition apply_edit (e : edit) (t : text) : text :=
  match t, e with
  | Keyed intro cells last outro, Insert p content =>
      if Nat.ltb p (length cells)
      then Keyed intro (alter (cell_insert content) p cells) last outro
      else Keyed intro cells (last +:+ content) outro
  | Keyed intro cells last outro, Remove a b =>
      Keyed intro (cells_remove 0 a b cells) last outro
  | Keyed intro cells last outro, Replace a b content =>
      if Nat.ltb a b
      then Keyed intro
             (alter (fun c => {| pre := pre c; cur := content |}) a (cells_remove 0 a b cells))
             last outro
      else if Nat.ltb a (length cells)
      then Keyed intro (alter (cell_insert content) a cells) last outro
      else Keyed intro cells (last +:+ content) outro
  | Keyed intro cells last outro, Prepend content => Keyed (content +:+ intro) cells last outro
  | Keyed intro cells last outro, Append content => Keyed intro cells last (outro +:+ content)
  | _, Trim => Flat (trim (text_toString t))
  | _, TrimLines => Flat (trimLines (text_toString t))
  | _, Indent indentStr => Flat (indent indentStr (text_toString t))
  | Flat s, Prepend content => Flat (content +:+ s)
  | Flat s, Append content => Flat (s +:+ content)
  | Flat s, _ => Flat s
  end.

Definition render (original : string) (edits : list edit) : string :=
  text_toString (fold_left (fun t e => apply_edit e t) edits
                   (Keyed "" (cells_of original) "" "")).

(** [body.toString()] *)
Definition toString (body : MagicString) : string :=
  render (original body) (edits body).

(** ** The traversal collaborator

    [estraverse.traverse( ast, { enter, leave } )]: [enter] before the
    children, [leave] after them; [this.skip()] in [enter] leaves out the
    children, [leave] is still called.  [enter] answers [true] when it has
    called [this.skip()]. *)
Section estraverse.
Context {S : Type}.
Variable enter : node -> option node -> S -> result (bool * S).
Variable leave : node -> S -> result S.

Fixpoint traverse (parent : option node) (n : node) (st : S) : result S :=
    '(skip, st1) ← enter n parent st;
    if (skip : bool) then leave n st1
    else
      st2 ← (fix go (cs : list node) (st : S) : result S :=
               match cs with
               | [] => Ok st
               | c :: rest => st' ← traverse (Some n) c st; go rest st'
               end) (n_children n) st1;
      leave n st2.
End estraverse.

(** ** Objects with observable key order *)

Definition dict : Type := list (string * string).

Fixpoint get (k : string) (d : dict) : option string :=
  match d with
  | [] => None
  | (k', v) :: d' => if str_eqb k k' then Some v else get k d'
  end.

(** [d[k] = v] *)
Fixpoint put (k v : string) (d : dict) : dict :=
  match d with
  | [] => [(k, v)]
  | (k', v') :: d' => if str_eqb k k' then (k, v) :: d' else (k', v') :: put k v d'
  end.

Definition truthy (s : string) : bool := negb (str_eqb s "").

(** ** getReadOnlyIdentifiers *)

Definition getReadOnlyIdentifiers (imports : list ImportDecl) : list string * list string :=
  fold_left
    (fun acc x =>
       if i_passthrough x then acc
       else fold_left
              (fun '(importedBindings, importedNamespaces) s =>
                 if sp_isBatch s
                 then (importedBindings, set_key (sp_as s) importedNamespaces)
                 else (set_key (sp_as s) importedBindings, importedNamespaces))
              (i_specifiers x) acc)
    imports ([], []).

Definition bindingMessage : string := "Cannot reassign imported binding ".
Definition namespaceMessage : string := "Cannot reassign imported binding of namespace ".

(** The first lines shared by [disallowIllegalReassignment] and
    [rewriteExportAssignments]: [node.left] or [node.argument]. *)
Definition assignee_of (n : node) : option (result node) :=
  match n_type n with
  | AssignmentExpression =>
      Some (match child "left" n with
            | Some a => Ok a
            | None => Err (TypeError "Cannot read property 'type' of undefined")
            end)
  | UpdateExpression =>
      Some (match child "argument" n with
            | Some a => Ok a
            | None => Err (TypeError "Cannot read property 'type' of undefined")
            end)
  | _ => None
  end.

Definition disallowIllegalReassignment (names : scope_names) (node : node)
  (importedBindings importedNamespaces : list string) (scope : scope_ref) : result unit :=
  match assignee_of node with
  | None => Ok tt                                   (* not an assignment *)
  | Some r =>
      assignee ← r;
      '(assignee, isNamespaceAssignment) ←
        (if is_type (n_type assignee) MemberExpression
         then match child "object" assignee with
              | Some o => Ok (o, true)
              | None => Err (TypeError "Cannot read property 'type' of undefined")
              end
         else Ok (assignee, false));
      if negb (is_type (n_type assignee) Identifier) then Ok tt
      else
        let name := n_name assignee in
        if mem name (if (isNamespaceAssignment : bool)
                     then importedNamespaces else importedBindings)
        then
          declared ← scope_contains names scope name false;
          if (declared : bool) then Ok tt
          else Err (Error ((if isNamespaceAssignment then namespaceMessage else bindingMessage)
                           +:+ "`" +:+ name +:+ "`"))
        else Ok tt
  end.

Definition replaceIdentifiers (names : scope_names) (node : node)
  (identifierReplacements : dict) (scope : scope_ref) : result (list edit) :=
  let name := n_name node in
  match get name identifierReplacements with
  | Some replacement =>
      if truthy replacement && negb (str_eqb replacement name)
      then
        shadowed ← scope_contains names scope name true;
        if (shadowed : bool) then Ok []
        else Ok [Replace (n_start node) (n_end node) replacement]
      else Ok []
  | None => Ok []
  end.

(** An element of a [capturedUpdates] array. *)
Record capture : Type := { c_name : string; c_exportAs : string }.

Record trav_state : Type := {
  t_scope : scope_ref;
  t_blockScope : scope_ref;
  t_arrays : list (list capture);            (* every [capturedUpdates] array, by identity *)
  t_capturedUpdates : option nat;
  t_previousCapturedUpdates : option nat;
  t_body : list edit;                        (* the edits issued to [body] *)
  t_alreadyExported : list string
}.

Definition with_edits (es : list edit) (st : trav_state) : trav_state :=
  {| t_scope := t_scope st; t_blockScope := t_blockScope st;
     t_arrays := t_arrays st; t_capturedUpdates := t_capturedUpdates st;
     t_previousCapturedUpdates := t_previousCapturedUpdates st;
     t_body := t_body st ++ es; t_alreadyExported := t_alreadyExported st |}.

Definition rewriteExportAssignments (names : scope_names) (node : node)
  (exports : option dict) (isTopLevelNode : bool) (st : trav_state) : result trav_state :=
  match assignee_of node with
  | None => Ok st                                   (* not an assignment *)
  | Some r =>
      assignee ← r;
      if negb (is_type (n_type assignee) Identifier) then Ok st
      else
        let name := n_name assignee in
        shadowed ← scope_contains names (t_scope st) name true;
        if (shadowed : bool) then Ok st             (* shadows an export *)
        else
          match exports with
          | None => Ok st
          | Some exports =>
              match get name exports with
              | None => Ok st
              | Some exportAs =>
                  if negb (truthy exportAs) then Ok st
                  else
                    match t_capturedUpdates st with
                    | Some a =>
                        Ok {| t_scope := t_scope st; t_blockScope := t_blockScope st;
                              t_arrays :=
                                alter (fun l => l ++ [{| c_name := name; c_exportAs := exportAs |}])
                                      a (t_arrays st);
                              t_capturedUpdates := t_capturedUpdates st;
                              t_previousCapturedUpdates := t_previousCapturedUpdates st;
                              t_body := t_body st;
                              t_alreadyExported := t_alreadyExported st |}
                    | None =>
                        let operator := a_operator (n_attrs node) in
                        let e :=
                          if str_eqb operator "++" || str_eqb operator "--"
                          then Replace (n_end node) (n_end node)
                                 (", exports." +:+ exportAs +:+ " = " +:+ name)
                          else Replace (n_start node) (n_start node)
                                 ("exports." +:+ exportAs +:+ " = ") in
                        Ok {| t_scope := t_scope st; t_blockScope := t_blockScope st;
                              t_arrays := t_arrays st;
                              t_capturedUpdates := t_capturedUpdates st;
                              t_previousCapturedUpdates := t_previousCapturedUpdates st;
                              t_body := t_body st ++ [e];
                              t_alreadyExported :=
                                if isTopLevelNode then set_key name (t_alreadyExported st)
                                else t_alreadyExported st |}
                    end
              end
          end
  end.

Definition exportCapturedUpdate (c : capture) : string :=
  " exports." +:+ c_name c +:+ " = " +:+ c_exportAs c +:+ ";".

(** ** traverseAst *)

(** [if ( node._scope )]: the property is set and not [undefined]. *)
Definition is_set (o : option scope_ref) : option scope_ref :=
  match o with
  | Some (id :: parent) => Some (id :: parent)
  | _ => None
  end.

Section traverseAst.
Variable names : scope_names.
Variable ast : node.
Variable identifierReplacements : dict.
Variable importedBindings importedNamespaces : list string.
Variable exportNames : option dict.

Definition traverseAst_enter (n : node) (parent : option node) (st : trav_state)
    : result (bool * trav_state) :=
    (* we're only interested in references, not property names etc *)
    if _skip n then Ok (true, st)
    else
      let st :=
        match is_set (_scope n), is_set (_blockScope n) with
        | Some scope, _ =>
            {| t_scope := scope; t_blockScope := t_blockScope st;
               t_arrays := t_arrays st; t_capturedUpdates := t_capturedUpdates st;
               t_previousCapturedUpdates := t_previousCapturedUpdates st;
               t_body := t_body st; t_alreadyExported := t_alreadyExported st |}
        | None, Some blockScope =>
            {| t_scope := t_scope st; t_blockScope := blockScope;
               t_arrays := t_arrays st; t_capturedUpdates := t_capturedUpdates st;
               t_previousCapturedUpdates := t_previousCapturedUpdates st;
               t_body := t_body st; t_alreadyExported := t_alreadyExported st |}
        | None, None => st
        end in
      if is_type (n_type n) VariableDeclaration
      then
        Ok (false,
            {| t_scope := t_scope st; t_blockScope := t_blockScope st;
               t_arrays := t_arrays st ++ [[]];
               t_capturedUpdates := Some (length (t_arrays st));
               t_previousCapturedUpdates := t_capturedUpdates st;
               t_body := t_body st; t_alreadyExported := t_alreadyExported st |})
      else
        (* Catch illegal reassignments *)
        _ ← disallowIllegalReassignment names n importedBindings importedNamespaces
              (t_scope st);
        (* Rewrite assignments to exports *)
        st ← rewriteExportAssignments names n exportNames
               (bool_decide (t_scope st = default [] (_scope ast))) st;
        st ← (if is_type (n_type n) Identifier
              then match parent with
                   | None => Err (TypeError "Cannot read property 'type' of null")
                   | Some parent =>
                       if negb (is_type (n_type parent) FunctionExpression)
                       then es ← replaceIdentifiers names n identifierReplacements
                                   (t_scope st);
                            Ok (with_edits es st)
                       else Ok st
                   end
              else Ok st);
        (* Replace top-level this with undefined ES6 8.1.1.5.4 *)
        Ok (false,
            if is_type (n_type n) ThisExpression && _topLevel n
            then with_edits [Replace (n_start n) (n_end n) "undefined"] st
            else st).

Definition traverseAst_leave (n : node) (st : trav_state) : result trav_state :=
    st ← (if is_type (n_type n) VariableDeclaration
          then match t_capturedUpdates st with
               | None => Err (TypeError "Cannot read property 'length' of null")
               | Some a =>
                   let capturedUpdates := default [] (t_arrays st !! a) in
                   let st := match capturedUpdates with
                             | [] => st
                             | _ => with_edits
                                      [Insert (n_end n)
                                         (join "" (map exportCapturedUpdate capturedUpdates))]
                                      st
                             end in
                   Ok {| t_scope := t_scope st; t_blockScope := t_blockScope st;
                         t_arrays := t_arrays st;
                         t_capturedUpdates := t_previousCapturedUpdates st;
                         t_previousCapturedUpdates := t_previousCapturedUpdates st;
                         t_body := t_body st;
                         t_alreadyExported := t_alreadyExported st |}
               end
          else Ok st);
    match is_set (_scope n), is_set (_blockScope n) with
    | Some _, _ =>
        parent ← scope_parent (t_scope st);
        Ok {| t_scope := parent; t_blockScope := t_blockScope st;
              t_arrays := t_arrays st; t_capturedUpdates := t_capturedUpdates st;
              t_previousCapturedUpdates := t_previousCapturedUpdates st;
              t_body := t_body st; t_alreadyExported := t_alreadyExported st |}
    | None, Some _ =>
        parent ← scope_parent (t_blockScope st);
        Ok {| t_scope := t_scope st; t_blockScope := parent;
              t_arrays := t_arrays st; t_capturedUpdates := t_capturedUpdates st;
              t_previousCapturedUpdates := t_previousCapturedUpdates st;
              t_body := t_body st; t_alreadyExported := t_alreadyExported st |}
    | None, None => Ok st
    end.

  (** The edits issued to [body] and the keys put into [alreadyExported]. *)
Definition traverseAst : result (list edit * list string) :=
    st ← traverse traverseAst_enter traverseAst_leave None ast
           {| t_scope := default [] (_scope ast);
              t_blockScope := default [] (_blockScope ast);
              t_arrays := []; t_capturedUpdates := None;
              t_previousCapturedUpdates := None;
              t_body := []; t_alreadyExported := [] |};
    Ok (t_body st, t_alreadyExported st).
End traverseAst.


(** ** Names for imported modules (single-file mode) *)

Definition reserved : list string :=
  ["break"; "case"; "class"; "catch"; "const"; "continue"; "debugger"; "default";
   "delete"; "do"; "else"; "export"; "extends"; "finally"; "for"; "function"; "if";
   "import"; "in"; "instanceof"; "let"; "new"; "return"; "super"; "switch"; "this";
   "throw"; "try"; "typeof"; "var"; "void"; "while"; "with"; "yield"].

Definition is_alpha (c : ascii) : bool :=
  let n := nat_of_ascii c in
  (Nat.leb 65 n && Nat.leb n 90) || (Nat.leb 97 n && Nat.leb n 122).

Definition is_digit (c : ascii) : bool :=
  let n := nat_of_ascii c in Nat.leb 48 n && Nat.leb n 57.

Definition is_ident_char (c : ascii) : bool :=
  is_alpha c || is_digit c || Ascii.eqb c "_"%char || Ascii.eqb c "$"%char.

Fixpoint map_chars (f : ascii -> ascii) (s : string) : string :=
  match s with
  | EmptyString => EmptyString
  | String c s' => String (f c) (map_chars f s')
  end.

(** [sanitize]: [name[0]] of the empty string is [undefined], which the
    test reads as the text ["undefined"]. *)
Definition sanitize (name : string) : string :=
  let name := map_chars (fun c => if is_ident_char c then c else "_"%char) name in
  let name :=
    match name with
    | String c _ =>
        if negb (is_alpha c || Ascii.eqb c "_"%char || Ascii.eqb c "$"%char)
        then "_" +:+ name else name
    | EmptyString => name
    end in
  if mem name reserved then "_" +:+ name else name.

(** The inner [while ( i-- > 0 )] loop of [determineImportNames]: the
    candidates run from the last path component to the whole path. *)
Fixpoint first_candidate (prefix sep : string) (suffixes : list (list string))
  (usedNames : list string) : option string :=
  match suffixes with
  | [] => None
  | parts :: rest =>
      let candidate := prefix +:+ sanitize (join sep parts) in
      if mem candidate usedNames then first_candidate prefix sep rest usedNames
      else Some candidate
  end.

(** [parts.slice( i )] for [i = parts.length - 1] down to [0]. *)
Fixpoint suffixes_up {A : Type} (l : list A) : list (list A) :=
  match l with
  | [] => []
  | _ :: l' => suffixes_up l' ++ [l]
  end.

(** The [do { ... } while ( !name )] loop; it ends because the prefix
    grows, the fuel counts the used names. *)
Fixpoint name_loop (fuel : nat) (prefix : string) (parts : list string)
  (usedNames : list string) : result string :=
  match fuel with
  | O => Err Loop
  | S fuel' =>
      match first_candidate prefix "__" (suffixes_up parts) usedNames with
      | Some name => if truthy name then Ok name
                     else name_loop fuel' (prefix +:+ "_") parts usedNames
      | None => name_loop fuel' (prefix +:+ "_") parts usedNames
      end
  end.

Definition import_set_name (name : string) (x : ImportDecl) : ImportDecl :=
  {| i_id := i_id x; i_node := i_node x; i_start := i_start x; i_end := i_end x;
     i_passthrough := i_passthrough x; i_path := i_path x;
     i_specifiers := i_specifiers x; i_isEmpty := i_isEmpty x;
     i_isDefault := i_isDefault x; i_isBatch := i_isBatch x; i_isNamed := i_isNamed x;
     i_as := i_as x; i_next := i_next x; i_name := Some name |}.

Definition determineImportNames (imports : list ImportDecl)
  (userFn : option (string -> string)) (usedNames : list string)
  : result (list ImportDecl) :=
  (* first pass: a name for every path *)
  '(imports1, nameById, usedNames) ←
    forEach
      (fun x '(done, nameById, usedNames) =>
         let moduleId := i_path x in
         match get moduleId nameById with
         | Some name => Ok (done ++ [import_set_name name x], nameById, usedNames)
         | None =>
             name ←
               (match userFn with
                | Some f =>
                    if truthy (f moduleId)
                    then let name := sanitize (f moduleId) in
                         if mem name usedNames
                         then Err (Error ("Naming collision: module " +:+ moduleId
                                          +:+ " cannot be called " +:+ name))
                         else Ok name
                    else name_loop (S (S (length usedNames))) "" (splitPath moduleId) usedNames
                | None => name_loop (S (S (length usedNames))) "" (splitPath moduleId) usedNames
                end);
             Ok (done ++ [import_set_name name x], put moduleId name nameById,
                 set_key name usedNames)
         end)
      imports ([], [], usedNames);
  (* use inferred names for default imports, wherever they don't clash
     with path-based names *)
  let inferredNames :=
    fold_left (fun inferred x =>
                 match i_as x with
                 | Some as_ => if mem as_ usedNames then inferred
                               else put (i_path x) as_ inferred
                 | None => inferred
                 end) imports1 [] in
  Ok (map (fun x => match get (i_path x) inferredNames with
                    | Some name => import_set_name name x
                    | None => x
                    end) imports1).

(** ** getUnscopedNames *)

Section getUnscopedNames.
Variable names : scope_names.
Variable imports : list ImportDecl.

Definition imported (name : string) : bool :=
    existsb (fun i => negb (i_passthrough i)
                      && existsb (fun s => str_eqb (sp_as s) name) (i_specifiers i))
            imports.

  (** state: the [scope] variable and the [unscoped] array *)
Definition unscoped_enter (n : node) (parent : option node)
    (st : scope_ref * list string) : result (bool * (scope_ref * list string)) :=
    (* we're only interested in references, not property names etc *)
    if _skip n then Ok (true, st)
    else
      let '(scope, unscoped) := st in
      let scope := match is_set (_scope n) with Some s => s | None => scope end in
      if is_type (n_type n) Identifier
      then
        inScope ← scope_contains names scope (n_name n) false;
        if negb inScope && negb (imported (n_name n)) && negb (mem (n_name n) unscoped)
        then Ok (false, (scope, unscoped ++ [n_name n]))
        else Ok (false, (scope, unscoped))
      else Ok (false, (scope, unscoped)).

Definition unscoped_leave (n : node) (st : scope_ref * list string)
    : result (scope_ref * list string) :=
    if is_type (n_type n) Program then Ok st
    else match is_set (_scope n) with
         | Some _ => parent ← scope_parent (fst st); Ok (parent, snd st)
         | None => Ok st
         end.

Definition getUnscopedNames (ast : node) : result (list string) :=
    st ← traverse unscoped_enter unscoped_leave None ast ([], []);
    Ok (snd st).
End getUnscopedNames.

(** ** Modules *)

Record Module : Type := {
  m_id : string;
  m_source : string;
  m_relativePath : string;
  m_path : string;
  body : MagicString;
  m_ast : annotated;
  imports : list ImportDecl;
  exports : list ExportDecl;
  defaultExport : option ExportDecl;
  identifierReplacements : dict;
  doesExport : list string;
  m_name : string;
  _exportsNamespace : bool
}.

(** A comment reported by the parser through [onComment]. *)
Record comment : Type := {
  cm_block : bool;
  cm_text : string;
  cm_start : nat;
  cm_end : nat
}.

Fixpoint prefix_of (p s : string) : bool :=
  match p, s with
  | EmptyString, _ => true
  | String a p', String b s' => Ascii.eqb a b && prefix_of p' s'
  | String _ _, EmptyString => false
  end.

Definition not_annotated (ast : node) : annotated :=
  {| ast := ast; names := []; _topLevelNames := []; _topLevelFunctionNames := [];
     _declared := []; _templateLiteralRanges := [] |}.

Section standalone.
  (** The parser and the buffer's indentation guess are collaborators. *)
Variable acorn_parse : string -> result (node * list comment).
Variable guessIndent : string -> string.

Definition getStandaloneModule (source : string)
    (getModuleName : option (string -> string)) (strict : bool) : result Module :=
    '(tree, comments) ← acorn_parse source;
    (* sourceMappingURL comments should be removed *)
    let toRemove :=
      filter (fun c => negb (cm_block c) && prefix_of "# sourceMappingURL=" (cm_text c))
             comments in
    let body := fold_left (fun b c => issue (Remove (cm_start c) (cm_end c)) b) toRemove
                  {| original := source; indentString := guessIndent source; edits := [] |} in
    '(imports, exports, defaultExport) ← findImportsAndExports source tree;
    _ ← disallowConflictingImports imports;
    '(annotated, conflicts) ←
      (if strict
       then a ← annotateAst tree;
            unscoped ← getUnscopedNames (names a) imports (ast a);
            Ok (a, fold_left (fun c n => set_key n c) (_declared a ++ unscoped) [])
       else Ok (not_annotated tree, []));
    imports ← determineImportNames imports getModuleName conflicts;
    Ok {| m_id := ""; m_source := source; m_relativePath := ""; m_path := "";
          body := body; m_ast := annotated; imports := imports; exports := exports;
          defaultExport := defaultExport; identifierReplacements := [];
          doesExport := []; m_name := ""; _exportsNamespace := false |}.
End standalone.

Definition hasNamedImports (mdl : Module) : bool :=
  existsb i_isNamed (imports mdl).

Definition hasNamedExports (mdl : Module) : bool :=
  existsb (fun x => negb (e_isDefault x)) (exports mdl).


(** ** Options

    A string option that the code only tests for truthiness and reads
    when truthy is kept as a string, the empty string standing for an
    absent option. *)

Inductive sourceMapOption : Type :=
| NoSourceMap              (* falsy *)
| InlineSourceMap          (* ['inline'] *)
| FileSourceMap.           (* any other truthy value *)

#[global] Instance sourceMapOption_eq_dec : EqDecision sourceMapOption.
Proof. solve_decision. Defined.

Record Options : Type := {
  o_strict : bool;
  o_name : string;
  o_amdName : string;
  o_getModuleName : option (string -> string);
  o_absolutePaths : bool;
  o_sourceMap : sourceMapOption;
  o_sourceMapFile : string;
  o_sourceMapSource : string;
  o_banner : string;
  o_footer : string;
  o_defaultOnly : bool;             (* ['defaultOnly' in options] *)
  o_evilES3SafeReExports : bool
}.

(** ** utils/mappers *)

Definition dquote : ascii := "034"%char.
Definition backslash : string := String "\"%char EmptyString.

Definition hex_digit (n : nat) : ascii :=
  ascii_of_nat (if Nat.ltb n 10 then 48 + n else 87 + n).

(** [JSON.stringify(str).slice(1, -1)] *)
Fixpoint json_escape (s : string) : string :=
  match s with
  | EmptyString => EmptyString
  | String c s' =>
      let n := nat_of_ascii c in
      (if Ascii.eqb c dquote then backslash +:+ String dquote EmptyString
       else if Ascii.eqb c "\"%char then backslash +:+ backslash
       else if Nat.eqb n 8 then backslash +:+ "b"
       else if Nat.eqb n 9 then backslash +:+ "t"
       else if Nat.eqb n 10 then backslash +:+ "n"
       else if Nat.eqb n 12 then backslash +:+ "f"
       else if Nat.eqb n 13 then backslash +:+ "r"
       else if Nat.ltb n 32
            then backslash +:+ "u00" +:+ String (hex_digit (n / 16))
                                          (String (hex_digit (n mod 16)) EmptyString)
       else String c EmptyString) +:+ json_escape s'
  end.

(** [s.replace( /'/g, "\\'" )] *)
Fixpoint escape_quotes (s : string) : string :=
  match s with
  | EmptyString => EmptyString
  | String c s' =>
      (if Ascii.eqb c "'"%char then backslash +:+ "'" else String c EmptyString)
      +:+ escape_quotes s'
  end.

Definition quote (str : string) : string :=
  "'" +:+ escape_quotes (json_escape str) +:+ "'".

Definition req (path : string) : string := "require(" +:+ quote path +:+ ")".

Definition nat_to_string (n : nat) : string :=
  DecimalString.NilEmpty.string_of_uint (Nat.to_uint n).

(** [/^__dep\d+__$/.test( name )] *)
Definition is_placeholder (name : string) : bool :=
  prefix_of "__dep" name &&
  (let rest := String.substring 5 (String.length name - 5) name in
   let digits := String.substring 0 (String.length rest - 2) rest in
   Nat.leb 3 (String.length rest)
   && str_eqb (String.substring (String.length rest - 2) 2 rest) "__"
   && all_chars is_digit digits).

Definition globalify (name : string) : string :=
  if is_placeholder name then "undefined" else "global." +:+ name.

(** [s.replace( /\t/g, indentStr )] *)
Fixpoint replace_tabs (indentStr s : string) : string :=
  match s with
  | EmptyString => EmptyString
  | String c s' =>
      (if Ascii.eqb c "009"%char then indentStr else String c EmptyString)
      +:+ replace_tabs indentStr s'
  end.

(** ** Packaging the result *)

Definition isAbsolutePath (path : string) : bool :=
  let sep c := Ascii.eqb c "/"%char || Ascii.eqb c "\"%char in
  match path with
  | String a (String b (String c _)) =>
      sep a || (is_alpha a && Ascii.eqb b ":"%char && sep c)
  | String a _ => sep a
  | EmptyString => false
  end.

(** [while ( fromParts[0] === toParts[0] ) { fromParts.shift(); toParts.shift(); }]:
    when both arrays run out together the test compares [undefined] with
    [undefined] for ever. *)
Fixpoint shift_common (fromParts toParts : list string)
  : result (list string * list string) :=
  match fromParts, toParts with
  | f :: fs, t :: ts => if str_eqb f t then shift_common fs ts else Ok (fromParts, toParts)
  | [], [] => Err Loop
  | _, _ => Ok (fromParts, toParts)
  end.

Definition getRelativePath (from to : string) : result string :=
  '(fromParts, toParts) ← shift_common (removelast (splitPath from)) (splitPath to);
  match fromParts with
  | _ :: _ => Ok (join "/" (map (fun _ => "..") fromParts ++ toParts))
  | [] => Ok (join "/" ("." :: toParts))
  end.

Record Output (SourceMap : Type) : Type := {
  code : string;
  map_ : option SourceMap;
  methodName : string
}.
Arguments code {SourceMap} o.
Arguments map_ {SourceMap} o.
Arguments methodName {SourceMap} o.

Section packageResult.
  (** Source maps are made by the buffer, a collaborator: [generateMap]
      receives the buffer, the trees whose node starts
      were marked as locations, and the [file] and [source] options. *)
Context {SourceMap : Type}.
Variable generateMap :
    MagicString -> list node -> option string -> option string -> SourceMap.
Variable toUrl : SourceMap -> string.

  (** [trees] are the trees of the module, or of the bundle's modules, whose
      node starts are marked in the buffer before the map is made.  The
      buffer is changed in place: the second component is [body] after the
      call, whether it has thrown or not. *)
Definition packageResult (trees : list node) (body : MagicString) (options : Options)
    (methodName : string) (isBundle : bool) : result (Output SourceMap) * MagicString :=
    (* wrap output *)
    let body := if truthy (o_banner options) then issue (Prepend (o_banner options)) body
                else body in
    let body := if truthy (o_footer options) then issue (Append (o_footer options)) body
                else body in
    let code := toString body in
    (match o_sourceMap options with
     | NoSourceMap => Ok {| code := code; map_ := None; methodName := methodName |}
     | sm =>
         if negb (bool_decide (sm = InlineSourceMap)) && negb (truthy (o_sourceMapFile options))
         then Err (Error "You must provide `sourceMapFile` option")
         else if negb isBundle && negb (truthy (o_sourceMapSource options))
         then Err (Error "You must provide `sourceMapSource` option")
         else
           let sourceMapFile :=
             match sm with
             | InlineSourceMap => None
             | _ => Some (if isAbsolutePath (o_sourceMapFile options)
                          then o_sourceMapFile options
                          else "./" +:+ List.last (splitPath (o_sourceMapFile options)) "")
             end in
           source ← match sourceMapFile with
                    | Some f => if isBundle then Ok None
                                else r ← getRelativePath f (o_sourceMapSource options);
                                     Ok (Some r)
                    | None => Ok None
                    end;
           let map := generateMap body trees sourceMapFile source in
           match sourceMapFile with
           | None =>
               Ok {| code := code +:+ nl +:+ "//# sourceMappingURL=" +:+ toUrl map;
                     map_ := None; methodName := methodName |}
           | Some f =>
               Ok {| code := code +:+ nl +:+ "//# sourceMappingURL=" +:+ f +:+ ".map";
                     map_ := Some map; methodName := methodName |}
           end
     end, body).
End packageResult.


(** ** Single-file builders, defaults mode *)

Definition export_type_name (t : export_type) : string :=
  match t with
  | anonFunction => "anonFunction"
  | namedFunction => "namedFunction"
  | anonClass => "anonClass"
  | namedClass => "namedClass"
  | expression => "expression"
  | varDeclaration => "varDeclaration"
  | named => "named"
  | no_type => "undefined"
  end.

(** A property that is [undefined] where a string is built from it. *)
Definition str (o : option string) : string := default "undefined" o.
Definition num (o : option nat) : nat := default 0 o.

Definition transformExportDeclaration (declaration : option ExportDecl) (body : MagicString)
  : result MagicString :=
  match declaration with
  | None => Ok body
  | Some declaration =>
      '(body, exportedValue) ←
        match e_type declaration with
        | namedFunction | namedClass =>
            Ok (issue (Remove (e_start declaration) (e_valueStart declaration)) body,
                str (e_name declaration))
        | anonFunction | anonClass =>
            let '(body, exportedValue) :=
              if e_isFinal declaration
              then (issue (Replace (e_start declaration) (e_valueStart declaration) "return ") body,
                    "")
              else (issue (Replace (e_start declaration) (e_valueStart declaration)
                             "var __export = ") body,
                    "__export") in
            (* add semi-colon, if necessary *)
            Ok (if bool_decide (String.get (e_end declaration - 1) (original body) = Some ";"%char)
                then body
                else issue (Insert (e_end declaration) ";") body,
                exportedValue)
        | expression =>
            Ok (issue (Remove (e_start declaration) (num (e_next declaration))) body,
                str (e_value declaration))
        | t => Err (Error ("Unexpected export type '" +:+ export_type_name t +:+ "'"))
        end;
      Ok (if truthy exportedValue
          then issue (Append (nl +:+ "return " +:+ exportedValue +:+ ";")) body
          else body)
  end.

(** The loop over [mod.imports] shared by [amd] and [umd] in defaults mode:
    the paths, the names, and the edits that remove the declarations. *)
Record import_acc : Type := {
  ia_seen : list string;
  ia_paths : list string;
  ia_names : list string;
  ia_placeholders : nat;
  ia_body : MagicString
}.

(** [while ( placeholders ) { importNames.push( '__dep' + importNames.length + '__' ); placeholders--; }] *)
Fixpoint fill_placeholders (placeholders : nat) (importNames : list string) : list string :=
  match placeholders with
  | O => importNames
  | S p => fill_placeholders p
             (importNames ++ ["__dep" +:+ nat_to_string (length importNames) +:+ "__"])
  end.

Definition gather_step (pathOf : ImportDecl -> string) (x : ImportDecl) (acc : import_acc)
  : import_acc :=
  let path := pathOf x in
  let acc :=
    if mem path (ia_seen acc) then acc
    else
      let '(names, placeholders) :=
        match i_as x with
        | Some as_ => (fill_placeholders (ia_placeholders acc) (ia_names acc) ++ [as_], 0)
        | None => (ia_names acc, S (ia_placeholders acc))
        end in
      {| ia_seen := ia_seen acc ++ [path]; ia_paths := ia_paths acc ++ [path];
         ia_names := names; ia_placeholders := placeholders; ia_body := ia_body acc |} in
  {| ia_seen := ia_seen acc; ia_paths := ia_paths acc; ia_names := ia_names acc;
     ia_placeholders := ia_placeholders acc;
     ia_body := issue (Remove (i_start x) (num (i_next x))) (ia_body acc) |}.

Section builders.
Context {SourceMap : Type}.
Variable generateMap :
    MagicString -> list node -> option string -> option string -> SourceMap.
Variable toUrl : SourceMap -> string.

Definition amd__amd (mdl : Module) (options : Options) : result (Output SourceMap) :=
    (* gather imports, and remove import declarations *)
    let acc := fold_left
                 (fun acc x =>
                    gather_step (fun x => if o_absolutePaths options
                                          then resolveId (i_path x) (o_amdName options)
                                          else i_path x) x acc)
                 (imports mdl)
                 {| ia_seen := []; ia_paths := []; ia_names := []; ia_placeholders := 0;
                    ia_body := body mdl |} in
    body ← transformExportDeclaration (head (exports mdl)) (ia_body acc);
    let intro :=
      "define("
      +:+ (if truthy (o_amdName options) then "'" +:+ o_amdName options +:+ "', " else "")
      +:+ (match ia_paths acc with
           | [] => ""
           | paths => "[" +:+ join ", " (map quote paths) +:+ "], "
           end)
      +:+ "function (" +:+ join ", " (ia_names acc) +:+ ") {" +:+ nl +:+ nl in
    let body := issue Trim body in
    let body := issue (Prepend ("'use strict';" +:+ nl +:+ nl)) body in
    let body := issue Trim body in
    let body := issue (Indent (indentString body)) body in
    let body := issue (Prepend intro) body in
    let body := issue (Append (nl +:+ nl +:+ "});")) body in
    fst (packageResult generateMap toUrl [ast (m_ast mdl)] body options "toAmd" false).

  (** [exportDeclaration.node.declaration] *)
Definition node_declaration (x : ExportDecl) : result node :=
    match child "declaration" (e_node x) with
    | Some d => Ok d
    | None => Err (TypeError "Cannot read property 'start' of null")
    end.

Definition cjs__cjs (mdl : Module) (options : Options) : result (Output SourceMap) :=
    let '(body, _) :=
      fold_left
        (fun '(body, seen) x =>
           if mem (i_path x) seen
           then (issue (Remove (i_start x) (num (i_next x))) body, seen)
           else
             let replacement :=
               if i_isEmpty x then req (i_path x) +:+ ";"
               else "var " +:+ str (i_as x) +:+ " = " +:+ req (i_path x) +:+ ";" in
             (issue (Replace (i_start x) (i_end x) replacement) body, seen ++ [i_path x]))
        (imports mdl) (body mdl, []) in
    body ←
      match head (exports mdl) with
      | None => Ok body
      | Some exportDeclaration =>
          d ← node_declaration exportDeclaration;
          match e_type exportDeclaration with
          | namedFunction | namedClass =>
              name ← id_name d;
              let body := issue (Remove (e_start exportDeclaration) (n_start d)) body in
              Ok (issue (Replace (e_end exportDeclaration) (e_end exportDeclaration)
                           (nl +:+ "module.exports = " +:+ name +:+ ";")) body)
          | _ =>
              Ok (issue (Replace (e_start exportDeclaration) (n_start d) "module.exports = ")
                    body)
          end
      end;
    let body := issue (Prepend ("'use strict';" +:+ nl +:+ nl)) body in
    let body := issue TrimLines body in
    fst (packageResult generateMap toUrl [ast (m_ast mdl)] body options "toCjs" false).

Definition standaloneUmdIntro (amdName indentStr : string) : string :=
    let amdName := if truthy amdName then quote amdName +:+ ", " else "" in
    replace_tabs indentStr
      ("(function (factory) {"
       +:+ nl +:+ tab +:+ "!(typeof exports === 'object' && typeof module !== 'undefined') &&"
       +:+ nl +:+ tab +:+ "typeof define === 'function' && define.amd ? define("
       +:+ amdName +:+ "factory) :"
       +:+ nl +:+ tab +:+ "factory()"
       +:+ nl +:+ "}(function () { 'use strict';"
       +:+ nl
       +:+ nl).

Definition defaultUmdIntro (hasExports : bool) (importPaths importNames : list string)
    (amdName : string) (absolutePaths : bool) (name : string) (indentStr : string) : string :=
    let amdNameText := if truthy amdName then quote amdName +:+ ", " else "" in
    let amdDeps :=
      match importPaths with
      | [] => ""
      | _ => "[" +:+ join ", " (map quote (if absolutePaths
                                            then map (resolveAgainst amdName) importPaths
                                            else importPaths)) +:+ "], "
      end in
    let cjsDeps := join ", " (map req importPaths) in
    let globalDeps := join ", " (map globalify importNames) in
    let args := join ", " importNames in
    let cjsExport := (if hasExports then "module.exports = " else "")
                     +:+ "factory(" +:+ cjsDeps +:+ ")" in
    let globalExport := (if hasExports then "global." +:+ name +:+ " = " else "")
                        +:+ "factory(" +:+ globalDeps +:+ ")" in
    replace_tabs indentStr
      ("(function (global, factory) {"
       +:+ nl +:+ tab +:+ "typeof exports === 'object' && typeof module !== 'undefined' ? "
       +:+ cjsExport +:+ " :"
       +:+ nl +:+ tab +:+ "typeof define === 'function' && define.amd ? define("
       +:+ amdNameText +:+ amdDeps +:+ "factory) :"
       +:+ nl +:+ tab +:+ globalExport
       +:+ nl +:+ "}(this, function (" +:+ args +:+ ") { 'use strict';"
       +:+ nl
       +:+ nl).

Definition requireName (options : Options) : result unit :=
    if negb (truthy (o_name options))
    then Err (EsperantoError "You must supply a `name` option for UMD modules" "MISSING_NAME")
    else Ok tt.

Definition umd__umd (mdl : Module) (options : Options) : result (Output SourceMap) :=
    _ ← requireName options;
    let hasImports := negb (bool_decide (imports mdl = [])) in
    let hasExports := negb (bool_decide (exports mdl = [])) in
    '(intro, body) ←
      (if negb hasImports && negb hasExports
       then Ok (standaloneUmdIntro (o_amdName options) (indentString (body mdl)), body mdl)
       else
         (* gather imports, and remove import declarations *)
         let acc := fold_left (fun acc x => gather_step i_path x acc) (imports mdl)
                      {| ia_seen := []; ia_paths := []; ia_names := [];
                         ia_placeholders := 0; ia_body := body mdl |} in
         body ← transformExportDeclaration (head (exports mdl)) (ia_body acc);
         Ok (defaultUmdIntro hasExports (ia_paths acc) (ia_names acc) (o_amdName options)
               (o_absolutePaths options) (o_name options) (indentString body),
             body));
    let body := issue (Indent (indentString body)) body in
    let body := issue (Prepend intro) body in
    let body := issue TrimLines body in
    let body := issue (Append (nl +:+ nl +:+ "}));")) body in
    fst (packageResult generateMap toUrl [ast (m_ast mdl)] body options "toUmd" false).
End builders.


(** ** Single-file builders, strict mode *)

Definition gatherImports (imports : list ImportDecl) : dict * dict :=
  fold_left
    (fun acc x =>
       fold_left
         (fun '(chains, identifierReplacements) s =>
            if sp_isBatch s then (chains, identifierReplacements)
            else
              let name := sp_as s in
              let replacement :=
                str (i_name x) +:+ (if sp_isDefault s then "['default']"
                                    else "." +:+ sp_name s) in
              (put name replacement chains,
               if i_passthrough x then identifierReplacements
               else put name replacement identifierReplacements))
         (i_specifiers x) acc)
    imports ([], []).

Definition getExportNames (exports : list ExportDecl) : result dict :=
  forEach
    (fun x result =>
       if e_isDefault x then Ok result
       else if e_hasDeclaration x
       then Ok (put (str (e_name x)) (str (e_name x)) result)
       else match e_specifiers x with
            | Some specifiers => Ok (fold_left (fun r s => put s s r) specifiers result)
            | None => Err (TypeError "Cannot read property 'forEach' of undefined")
            end)
    exports [].

(** [while ( hasOwnProp.call( declared, name ) ) { name = '_' + name; }];
    each round tries a longer name, the fuel counts the declared names. *)
Fixpoint deconflict_loop (fuel : nat) (name : string) (declared : list string) : string :=
  match fuel with
  | O => name
  | S fuel' => if mem name declared then deconflict_loop fuel' ("_" +:+ name) declared
               else name
  end.

Definition deconflict (name : string) (declared : list string) : string :=
  deconflict_loop (S (length declared)) name declared.

Record transform_options : Type := {
  header : string;
  intro : string;
  outro : string;
  tb_evilES3SafeReExports : bool
}.

(** [/^named/.test( x.type )] *)
Definition type_is_named (t : export_type) : bool :=
  match t with
  | namedFunction | namedClass | named => true
  | _ => false
  end.

Definition utils_transformBody__transformBody (mdl : Module) (body : MagicString)
  (options : transform_options) : result MagicString :=
  let '(chains, identifierReplacements) := gatherImports (imports mdl) in
  exportNames ← getExportNames (exports mdl);
  let '(importedBindings, importedNamespaces) := getReadOnlyIdentifiers (imports mdl) in
  (* ensure no conflict with `exports` *)
  let identifierReplacements :=
    put "exports" (deconflict "exports" (_declared (m_ast mdl))) identifierReplacements in
  '(es, alreadyExported) ←
    traverseAst (names (m_ast mdl)) (ast (m_ast mdl)) identifierReplacements
      importedBindings importedNamespaces (Some exportNames);
  let body := fold_left (fun b e => issue e b) es body in
  (* Remove import statements from the body of the module *)
  let body := fold_left (fun b x => if i_passthrough x then b
                                    else issue (Remove (i_start x) (num (i_next x))) b)
                (imports mdl) body in
  (* Prepend require() statements (CommonJS output only) *)
  let body := if truthy (header options)
              then issue (Prepend (header options +:+ nl +:+ nl)) body else body in
  (* Remove export statements (but keep declarations) *)
  let body :=
    fold_left
      (fun b x =>
         if e_isDefault x
         then if type_is_named (e_type x)
              then (* export default function answer () { return 42; } *)
                issue (Insert (e_end x) (nl +:+ "exports['default'] = " +:+ str (e_name x) +:+ ";"))
                  (issue (Remove (e_start x) (e_valueStart x)) b)
              else (* everything else *)
                issue (Replace (e_start x) (e_valueStart x) "exports['default'] = ") b
         else match e_type x with
              | varDeclaration | namedFunction | namedClass =>
                  issue (Remove (e_start x) (e_valueStart x)) b
              | named => issue (Remove (e_start x) (num (e_next x))) b
              | _ => issue (Replace (e_start x) (e_valueStart x) "exports['default'] = ") b
              end)
      (exports mdl) body in
  (* Append export block (this is the same for all module types, unlike imports) *)
  let '(earlyExports, lateExports) :=
    fold_left
      (fun '(earlyExports, lateExports) '(name, exportAs) =>
         match get name chains with
         | Some chain =>
             (* special case - a binding from another module *)
             if negb (tb_evilES3SafeReExports options)
             then (earlyExports ++
                     ["Object.defineProperty(exports, '" +:+ exportAs
                      +:+ "', { enumerable: true, get: function () { return "
                      +:+ chain +:+ "; }});"],
                   lateExports)
             else (earlyExports,
                   lateExports ++ ["exports." +:+ exportAs +:+ " = " +:+ chain +:+ ";"])
         | None =>
             if mem name (_topLevelFunctionNames (m_ast mdl))
             then (* functions should be exported early, in case of cyclic dependencies *)
               (earlyExports ++ ["exports." +:+ exportAs +:+ " = " +:+ name +:+ ";"],
                lateExports)
             else if negb (mem name alreadyExported)
             then (earlyExports,
                   lateExports ++ ["exports." +:+ exportAs +:+ " = " +:+ name +:+ ";"])
             else (earlyExports, lateExports)
         end)
      exportNames ([], []) in
  (* Function exports should be exported immediately after 'use strict' *)
  let body := match earlyExports with
              | [] => body
              | _ => issue (Prepend (join nl earlyExports +:+ nl +:+ nl)) (issue Trim body)
              end in
  (* Everything else should be exported at the end *)
  let body := match lateExports with
              | [] => body
              | _ => issue (Append (nl +:+ nl +:+ join nl lateExports)) (issue Trim body)
              end in
  Ok (if truthy (intro options) && truthy (outro options)
      then issue (Append (outro options))
             (issue TrimLines
                (issue (Prepend (intro options))
                   (issue (Indent (indentString body)) body)))
      else body).

Definition getImportSummary (mdl : Module) : list string * list string :=
  let '(importPaths, importNames, _, _) :=
    fold_left
      (fun '(importPaths, importNames, seen, placeholders) x =>
         if mem (i_path x) seen then (importPaths, importNames, seen, placeholders)
         else
           match i_specifiers x with
           | _ :: _ =>
               (importPaths ++ [i_path x],
                fill_placeholders placeholders importNames ++ [str (i_name x)],
                seen ++ [i_path x], 0)
           | [] =>
               (importPaths ++ [i_path x], importNames, seen ++ [i_path x], S placeholders)
           end)
      (imports mdl) ([], [], [], 0) in
  (importPaths, importNames).

Section strict_builders.
Context {SourceMap : Type}.
Variable generateMap :
    MagicString -> list node -> option string -> option string -> SourceMap.
Variable toUrl : SourceMap -> string.

Definition strictMode_amd__amd (mdl : Module) (options : Options)
    : result (Output SourceMap) :=
    let '(importPaths, importNames) := getImportSummary mdl in
    let '(importPaths, importNames) :=
      match exports mdl with
      | _ :: _ => ("exports" :: importPaths, "exports" :: importNames)
      | [] => (importPaths, importNames)
      end in
    let intro :=
      replace_tabs (indentString (body mdl))
        ("define("
         +:+ (if truthy (o_amdName options) then "'" +:+ o_amdName options +:+ "', " else "")
         +:+ (match importPaths with
              | [] => ""
              | _ => "[" +:+ join ", " (map quote
                                          (if o_absolutePaths options
                                           then map (resolveAgainst (o_amdName options)) importPaths
                                           else importPaths)) +:+ "], "
              end)
         +:+ "function (" +:+ join ", " importNames +:+ ") {"
         +:+ nl +:+ nl +:+ tab +:+ "'use strict';" +:+ nl +:+ nl) in
    body ← utils_transformBody__transformBody mdl (body mdl)
             {| header := ""; intro := intro; outro := nl +:+ nl +:+ "});";
                tb_evilES3SafeReExports := o_evilES3SafeReExports options |};
    fst (packageResult generateMap toUrl [ast (m_ast mdl)] body options "toAmd" false).

Definition strictMode_cjs__cjs (mdl : Module) (options : Options)
    : result (Output SourceMap) :=
    (* Create block of require statements *)
    let '(statements, _) :=
      fold_left
        (fun '(statements, seen) x =>
           if mem (i_path x) seen then (statements, seen)
           else
             (statements ++
                [if i_isEmpty x then req (i_path x) +:+ ";"
                 else "var " +:+ str (i_name x) +:+ " = " +:+ req (i_path x) +:+ ";"],
              seen ++ [i_path x]))
        (imports mdl) ([], []) in
    let importBlock := join nl statements in
    body ← utils_transformBody__transformBody mdl (body mdl)
             {| header := importBlock; intro := ""; outro := "";
                tb_evilES3SafeReExports := o_evilES3SafeReExports options |};
    let body := issue TrimLines (issue (Prepend ("'use strict';" +:+ nl +:+ nl)) body) in
    fst (packageResult generateMap toUrl [ast (m_ast mdl)] body options "toCjs" false).

  (** An external module of a bundle. *)
Definition strictUmdIntro (hasExports : bool) (importPaths importNames : list string)
    (externalDefaults : list (string * bool))   (* name, needsNamed *)
    (amdName : string) (absolutePaths : bool) (name : string) (indentStr : string) : string :=
    let amdNameText := if truthy amdName then "'" +:+ amdName +:+ "', " else "" in
    let amdDeps :=
      if hasExports || negb (bool_decide (importPaths = []))
      then "[" +:+ join ", " (map quote ((if hasExports then ["exports"] else [])
                                          ++ (if absolutePaths
                                              then map (resolveAgainst amdName) importPaths
                                              else importPaths)))
           +:+ "], "
      else "" in
    let cjsDeps := join ", " ((if hasExports then ["exports"] else []) ++ map req importPaths) in
    let globalDeps :=
      join ", " ((if hasExports then ["(global." +:+ name +:+ " = {})"] else [])
                 ++ map globalify importNames) in
    let args := join ", " ((if hasExports then ["exports"] else []) ++ importNames) in
    let defaultsBlock :=
      match externalDefaults with
      | [] => ""
      | _ =>
          join nl (map (fun '(xname, needsNamed) =>
                          tab +:+ (if (needsNamed : bool) then "var " +:+ xname +:+ "__default"
                                   else xname)
                          +:+ " = ('default' in " +:+ xname +:+ " ? " +:+ xname
                          +:+ "['default'] : " +:+ xname +:+ ");")
                       externalDefaults)
          +:+ nl +:+ nl
      end in
    replace_tabs indentStr
      ("(function (global, factory) {"
       +:+ nl +:+ tab +:+ "typeof exports === 'object' && typeof module !== 'undefined' ? factory("
       +:+ cjsDeps +:+ ") :"
       +:+ nl +:+ tab +:+ "typeof define === 'function' && define.amd ? define("
       +:+ amdNameText +:+ amdDeps +:+ "factory) :"
       +:+ nl +:+ tab +:+ "factory(" +:+ globalDeps +:+ ")"
       +:+ nl +:+ "}(this, function (" +:+ args +:+ ") { 'use strict';"
       +:+ nl
       +:+ nl +:+ defaultsBlock).

Definition strictMode_umd__umd (mdl : Module) (options : Options)
    : result (Output SourceMap) :=
    _ ← requireName options;
    let '(importPaths, importNames) := getImportSummary mdl in
    let hasImports := negb (bool_decide (imports mdl = [])) in
    let hasExports := negb (bool_decide (exports mdl = [])) in
    let intro :=
      if negb hasImports && negb hasExports
      then standaloneUmdIntro (o_amdName options) (indentString (body mdl))
      else strictUmdIntro hasExports importPaths importNames [] (o_amdName options)
             (o_absolutePaths options) (o_name options) (indentString (body mdl)) in
    body ← utils_transformBody__transformBody mdl (body mdl)
             {| header := ""; intro := intro; outro := nl +:+ nl +:+ "}));";
                tb_evilES3SafeReExports := o_evilES3SafeReExports options |};
    fst (packageResult generateMap toUrl [ast (m_ast mdl)] body options "toUmd" false).
End strict_builders.

(** ** The public surface, single-file mode *)

Inductive format : Type := amd | cjs | umd.

Definition deprecateMessage : string :=
  "options.defaultOnly has been deprecated, and is now standard behaviour. To use named imports/exports, pass `strict: true`.".

(** The program's globals: the flag [alreadyWarned], the keys of [warned],
    and what has been written to the console. *)
Record globals : Type := {
  alreadyWarned : bool;
  warned : list string;
  console : list string
}.

Section transpile.
Context {SourceMap : Type}.
Variable acorn_parse : string -> result (node * list comment).
Variable guessIndent : string -> string.
Variable generateMap :
    MagicString -> list node -> option string -> option string -> SourceMap.
Variable toUrl : SourceMap -> string.

Definition transpileMethod (format : format) (source : string) (options : Options)
    (g : globals) : result (Output SourceMap) * globals :=
    match getStandaloneModule acorn_parse guessIndent source
            (o_getModuleName options) (o_strict options) with
    | Err e => (Err e, g)
    | Ok mdl =>
        let g :=
          if o_defaultOnly options && negb (alreadyWarned g)
          then {| alreadyWarned := true; warned := warned g;
                  console := console g ++ [deprecateMessage] |}
          else g in
        (if o_absolutePaths options && negb (truthy (o_amdName options))
         then Err (Error "You must specify an `amdName` in order to use the `absolutePaths` option")
         else if negb (o_strict options)
         then
           (* ensure there are no named imports/exports *)
           if hasNamedImports mdl || hasNamedExports mdl
           then Err (Error "You must be in strict mode (pass `strict: true`) to use named imports or exports")
           else match format with
                | amd => amd__amd generateMap toUrl mdl options
                | cjs => cjs__cjs generateMap toUrl mdl options
                | umd => umd__umd generateMap toUrl mdl options
                end
         else match format with
              | amd => strictMode_amd__amd generateMap toUrl mdl options
              | cjs => strictMode_cjs__cjs generateMap toUrl mdl options
              | umd => strictMode_umd__umd generateMap toUrl mdl options
              end,
         g)
    end.

  (** The [toString] method of a result. *)
Definition output_toString (o : Output SourceMap) (g : globals) : string * globals :=
    (code o,
     if mem (methodName o) (warned g) then g
     else {| alreadyWarned := alreadyWarned g;
             warned := warned g ++ [methodName o];
             console := console g ++
               ["Warning: esperanto." +:+ methodName o
                +:+ "() returns an object with a 'code' property. You should use this instead of using the returned value directly"] |}).
End transpile.


(** ** Sample modules

    Trees as the parser returns them for the given texts. *)

Definition plain_options (strict : bool) : Options :=
  {| o_strict := strict; o_name := ""; o_amdName := ""; o_getModuleName := None;
     o_absolutePaths := false; o_sourceMap := NoSourceMap; o_sourceMapFile := "";
     o_sourceMapSource := ""; o_banner := ""; o_footer := ""; o_defaultOnly := false;
     o_evilES3SafeReExports := false |}.

Definition fresh_globals : globals :=
  {| alreadyWarned := false; warned := []; console := [] |}.

(** [export var x = 1; x = 2; x++;] *)
Definition S2_source : string := "export var x = 1; x = 2; x++;".

Definition S2_ast : node :=
  mk Program "" 0 29
    [ mk ExportNamedDeclaration "body" 0 17
        [ mk_var "declaration" 7 17 "var"
            [ mk VariableDeclarator "declarations" 11 16
                [ mk_ident "id" 11 12 "x"; mk_literal "init" 15 16 "1" ] ] ];
      mk ExpressionStatement "body" 18 24
        [ mk_op AssignmentExpression "expression" 18 23 "="
            [ mk_ident "left" 18 19 "x"; mk_literal "right" 22 23 "2" ] ];
      mk ExpressionStatement "body" 25 29
        [ mk_op UpdateExpression "expression" 25 28 "++"
            [ mk_ident "argument" 25 26 "x" ] ] ].

(** [export var x = 1; var f = function () { var y = 0; }; x = 2;] *)
Definition nested_var_source : string :=
  "export var x = 1; var f = function () { var y = 0; }; x = 2;".

Definition nested_var_ast : node :=
  mk Program "" 0 60
    [ mk ExportNamedDeclaration "body" 0 17
        [ mk_var "declaration" 7 17 "var"
            [ mk VariableDeclarator "declarations" 11 16
                [ mk_ident "id" 11 12 "x"; mk_literal "init" 15 16 "1" ] ] ];
      mk_var "body" 18 53 "var"
        [ mk VariableDeclarator "declarations" 22 52
            [ mk_ident "id" 22 23 "f";
              mk FunctionExpression "init" 26 52
                [ mk BlockStatement "body" 38 52
                    [ mk_var "body" 40 50 "var"
                        [ mk VariableDeclarator "declarations" 44 49
                            [ mk_ident "id" 44 45 "y"; mk_literal "init" 48 49 "0" ] ] ] ] ] ];
      mk ExpressionStatement "body" 54 60
        [ mk_op AssignmentExpression "expression" 54 59 "="
            [ mk_ident "left" 54 55 "x"; mk_literal "right" 58 59 "2" ] ] ].

(** [import { x } from 'a';] at the start of a text *)
Definition import_x : node :=
  mk ImportDeclaration "body" 0 22
    [ mk ImportSpecifier "specifiers" 9 10
        [ mk_ident "imported" 9 10 "x"; mk_ident "local" 9 10 "x" ];
      mk_literal "source" 18 21 "a" ].

(** [import { x } from 'a'; x = 1;] *)
Definition S3_source : string := "import { x } from 'a'; x = 1;".

Definition S3_assignment : node :=
  mk_op AssignmentExpression "expression" 23 28 "="
    [ mk_ident "left" 23 24 "x"; mk_literal "right" 27 28 "1" ].

Definition S3_ast : node :=
  mk Program "" 0 29 [ import_x; mk ExpressionStatement "body" 23 29 [ S3_assignment ] ].

(** [import { x } from 'a'; function f(x) { x = 1; }] *)
Definition shadow_source : string := "import { x } from 'a'; function f(x) { x = 1; }".

Definition shadow_assignment : node :=
  mk_op AssignmentExpression "expression" 39 44 "="
    [ mk_ident "left" 39 40 "x"; mk_literal "right" 43 44 "1" ].

Definition shadow_ast : node :=
  mk Program "" 0 47
    [ import_x;
      mk FunctionDeclaration "body" 23 47
        [ mk_ident "id" 32 33 "f"; mk_ident "params" 34 35 "x";
          mk BlockStatement "body" 37 47
            [ mk ExpressionStatement "body" 39 45 [ shadow_assignment ] ] ] ].

(** [import { x } from 'a'; function f() { let x; x = 1; }] *)
Definition let_source : string := "import { x } from 'a'; function f() { let x; x = 1; }".

Definition let_ast : node :=
  mk Program "" 0 53
    [ import_x;
      mk FunctionDeclaration "body" 23 53
        [ mk_ident "id" 32 33 "f";
          mk BlockStatement "body" 36 53
            [ mk_var "body" 38 44 "let"
                [ mk VariableDeclarator "declarations" 42 43 [ mk_ident "id" 42 43 "x" ] ];
              mk ExpressionStatement "body" 45 51
                [ mk_op AssignmentExpression "expression" 45 50 "="
                    [ mk_ident "left" 45 46 "x"; mk_literal "right" 49 50 "1" ] ] ] ] ].

(** [import * as ns from 'a'; ns.p = 1;] *)
Definition ns_source : string := "import * as ns from 'a'; ns.p = 1;".

Definition ns_ast : node :=
  mk Program "" 0 34
    [ mk ImportDeclaration "body" 0 24
        [ mk ImportNamespaceSpecifier "specifiers" 7 14 [ mk_ident "local" 12 14 "ns" ];
          mk_literal "source" 20 23 "a" ];
      mk ExpressionStatement "body" 25 34
        [ mk_op AssignmentExpression "expression" 25 33 "="
            [ mk_member "left" 25 29 false
                [ mk_ident "object" 25 27 "ns"; mk_ident "property" 28 29 "p" ];
              mk_literal "right" 32 33 "1" ] ] ].

(** [var exports = 1;] *)
Definition exports_source : string := "var exports = 1;".

Definition exports_ast : node :=
  mk Program "" 0 16
    [ mk_var "body" 0 16 "var"
        [ mk VariableDeclarator "declarations" 4 15
            [ mk_ident "id" 4 11 "exports"; mk_literal "init" 14 15 "1" ] ] ].

(** A parser that knows one text. *)
Definition parser_of (source : string) (tree : node) : string -> result (node * list comment) :=
  fun s => if str_eqb s source then Ok (tree, []) else Err (SyntaxError "Unexpected token").

(** The text of a result, or the error. *)
Definition code_of {SourceMap : Type} (r : result (Output SourceMap)) : result string :=
  o ← r; Ok (code o).


(** ** Bundles

    The arrays [modules] and [externalModules] and the maps [moduleLookup]
    and [externalModuleLookup] hold the same objects; a module is looked up
    by its [id] in the array, so that a change made through one is seen
    through the other. *)

Record ExternalModule : Type := {
  x_id : string;
  x_name : string;
  needsDefault : bool;
  needsNamed : bool
}.

Record Bundle : Type := {
  entry : string;
  base : string;
  modules : list Module;
  externalModules : list ExternalModule;
  skip : list string;
  b_names : dict;                      (* the user's [names] *)
  chains : dict;
  b_exports : list (string * dict);    (* [bundle.exports] *)
  b_body : MagicString
}.

Definition moduleLookup (b : Bundle) (id : string) : option Module :=
  find (fun m => str_eqb (m_id m) id) (modules b).

Definition externalModuleLookup (b : Bundle) (id : string) : option ExternalModule :=
  find (fun m => str_eqb (x_id m) id) (externalModules b).

Definition entryModule (b : Bundle) : option Module := moduleLookup b (entry b).

(** [x.id] once the loader has resolved it *)
Definition import_id (x : ImportDecl) : string := default "null" (i_id x).

(** *** Re-export chains *)

Definition set_exportsNamespace (id : string) (ms : list Module) : list Module :=
  map (fun m =>
         if str_eqb (m_id m) id
         then {| m_id := m_id m; m_source := m_source m; m_relativePath := m_relativePath m;
                 m_path := m_path m; body := body m; m_ast := m_ast m;
                 imports := imports m; exports := exports m;
                 defaultExport := defaultExport m;
                 identifierReplacements := identifierReplacements m;
                 doesExport := doesExport m; m_name := m_name m;
                 _exportsNamespace := true |}
         else m) ms.

(** [resolveChains( modules, moduleLookup )]: the chains, and the modules
    after the writes to [_exportsNamespace]. *)
Definition resolveChains (ms : list Module) : dict * list Module :=
  fold_left
    (fun '(chains, store) mdl =>
       let '(origin, store) :=
         fold_left
           (fun acc x =>
              fold_left
                (fun '(origin, store) s =>
                   if sp_isBatch s
                   then (origin, set_exportsNamespace (import_id x) store)
                   else (put (sp_as s) (import_id x +:+ "@" +:+ sp_name s) origin, store))
                (i_specifiers x) acc)
           (imports mdl) ([], store) in
       (fold_left
          (fun chains x =>
             match e_specifiers x with
             | None => chains
             | Some specifiers =>
                 fold_left
                   (fun chains s =>
                      match get s origin with
                      | Some o => put (m_id mdl +:+ "@" +:+ s) o chains
                      | None => chains
                      end)
                   specifiers chains
             end)
          (exports mdl) chains,
        store))
    ms ([], ms).

(** *** Unique names *)

Definition builtins : list string :=
  ["Array"; "ArrayBuffer"; "DataView"; "Date"; "Error"; "EvalError"; "Float32Array";
   "Float64Array"; "Function"; "Generator"; "GeneratorFunction"; "Infinity";
   "Int16Array"; "Int32Array"; "Int8Array"; "InternalError"; "Intl"; "Iterator";
   "JSON"; "Map"; "Math"; "NaN"; "Number"; "Object"; "ParallelArray"; "Promise";
   "Proxy"; "RangeError"; "ReferenceError"; "Reflect"; "RegExp"; "Set";
   "StopIteration"; "String"; "Symbol"; "SyntaxError"; "TypeError"; "TypedArray";
   "URIError"; "Uint16Array"; "Uint32Array"; "Uint8Array"; "Uint8ClampedArray";
   "WeakMap"; "WeakSet"; "decodeURI"; "decodeURIComponent"; "encodeURI";
   "encodeURIComponent"; "escape"; "eval"; "exports"; "isFinite"; "isNaN"; "null";
   "parseFloat"; "parseInt"; "undefined"; "unescape"; "uneval"].

(** The [while ( i-- )] loop of [getUniqueNames]: the last candidate tried
    stays in [name] when all of them are used. *)
Fixpoint compact_name (suffixes : list (list string)) (used : list string) (last : string)
  : string :=
  match suffixes with
  | [] => last
  | parts :: rest =>
      let name := sanitize (join "_" parts) in
      if mem name used then compact_name rest used name else name
  end.

Definition getUniqueNames (ms : list Module) (externals : list ExternalModule)
  (userNames : dict) : dict :=
  (* copy builtins, copy user-specified names *)
  let used := fold_left (fun u '(_, v) => set_key v u) userNames builtins in
  let names := fold_left (fun ns '(k, v) => put k v ns) userNames [] in
  (* infer names from default imports *)
  let '(names, used) :=
    fold_left
      (fun acc mdl =>
         fold_left
           (fun '(names, used) x =>
              if i_isDefault x && bool_decide (get (import_id x) names = None)
                 && negb (mem (str (i_as x)) used)
              then (put (import_id x) (str (i_as x)) names, set_key (str (i_as x)) used)
              else (names, used))
           (imports mdl) acc)
      ms (names, used) in
  (* for the rest, make names as compact as possible without introducing
     conflicts *)
  fst (fold_left
         (fun '(names, used) id =>
            match get id names with
            | Some _ => (names, used)
            | None =>
                let name := compact_name (suffixes_up (splitPath id)) used "undefined" in
                let name := deconflict_loop (S (length used)) name used in
                (put id name names, set_key name used)
            end)
         (map m_id ms ++ map x_id externals) (names, used)).

Definition module_set_name (name : string) (m : Module) : Module :=
  {| m_id := m_id m; m_source := m_source m; m_relativePath := m_relativePath m;
     m_path := m_path m; body := body m; m_ast := m_ast m; imports := imports m;
     exports := exports m; defaultExport := defaultExport m;
     identifierReplacements := identifierReplacements m; doesExport := doesExport m;
     m_name := name; _exportsNamespace := _exportsNamespace m |}.

Definition module_set_replacements (r : dict) (m : Module) : Module :=
  {| m_id := m_id m; m_source := m_source m; m_relativePath := m_relativePath m;
     m_path := m_path m; body := body m; m_ast := m_ast m; imports := imports m;
     exports := exports m; defaultExport := defaultExport m;
     identifierReplacements := r; doesExport := doesExport m;
     m_name := m_name m; _exportsNamespace := _exportsNamespace m |}.

Definition populateExternalModuleImports (ms : list Module) (externals : list ExternalModule)
  : list ExternalModule :=
  fold_left
    (fun externals mdl =>
       fold_left
         (fun externals x =>
            fold_left
              (fun externals s =>
                 map (fun e =>
                        if str_eqb (x_id e) (import_id x)
                        then if sp_isDefault s
                             then {| x_id := x_id e; x_name := x_name e;
                                     needsDefault := true; needsNamed := needsNamed e |}
                             else {| x_id := x_id e; x_name := x_name e;
                                     needsDefault := needsDefault e; needsNamed := true |}
                        else e) externals)
              (i_specifiers x) externals)
         (imports mdl) externals)
    ms externals.

(** *** Conflicts between top-level scopes *)

Definition getRenamedImports (mdl : Module) : list string :=
  fold_left
    (fun renamed x =>
       fold_left
         (fun renamed s =>
            if negb (str_eqb (sp_name s) (sp_as s)) && negb (mem (sp_name s) renamed)
            then renamed ++ [sp_name s] else renamed)
         (i_specifiers x) renamed)
    (imports mdl) [].

Definition topLevelScopeConflicts (ms : list Module) (externals : list ExternalModule)
  : result (list string) :=
  let importNames := map x_name externals in
  '(conflicts, _) ←
    forEach
      (fun mdl '(conflicts, inBundle) =>
         unscoped ← getUnscopedNames (names (m_ast mdl)) (imports mdl) (ast (m_ast mdl));
         let names :=
           builtins
           (* all top defined identifiers are in top scope *)
           ++ _topLevelNames (m_ast mdl)
           (* all unattributed identifiers could collide with top scope *)
           ++ unscoped
           ++ importNames
           ++ getRenamedImports mdl in
         let conflicts :=
           if _exportsNamespace mdl then set_key (m_name mdl) conflicts else conflicts in
         (* merge this module's top scope with bundle top scope *)
         Ok (fold_left
               (fun '(conflicts, inBundle) name =>
                  if mem name inBundle then (set_key name conflicts, inBundle)
                  else (conflicts, inBundle ++ [name]))
               names (conflicts, inBundle)))
      ms ([], []);
  Ok conflicts.

(** *** Identifier replacements *)

(** [otherModulesDeclare( mod, replacement )]; [mod] is the module at
    position [i] of [bundle.modules]. *)
Definition otherModulesDeclare (ms : list Module) (i : nat) (replacement : string) : bool :=
  existsb (fun '(j, otherMod) =>
             negb (Nat.eqb i j) && mem replacement (_declared (m_ast otherMod)))
          (imap (fun j m => (j, m)) ms).

(** The identifier created for a default export. *)
Definition default_replacement (conflicts : list string) (ms : list Module) (i : nat)
  (mdl : Module) (x : ExportDecl) : string :=
  if e_hasDeclaration x && truthy (default "" (e_name x))
  then
    if mem (str (e_name x)) conflicts || otherModulesDeclare ms i (str (e_name x))
    then m_name mdl +:+ "__" +:+ str (e_name x)
    else str (e_name x)
  else
    if mem (m_name mdl) conflicts
       || (negb (bool_decide (e_value x = Some (m_name mdl)))
           && mem (m_name mdl) (_topLevelNames (m_ast mdl)))
       || otherModulesDeclare ms i (m_name mdl)
    then m_name mdl +:+ "__default"
    else m_name mdl.

(** [while ( hasOwnProp.call( bundle.chains, hash ) ) { hash = bundle.chains[ hash ]; }];
    a cycle of chains keeps the loop running. *)
Fixpoint follow_chain (fuel : nat) (chains : dict) (hash : string) (isChained : bool)
  : result (string * bool) :=
  match get hash chains with
  | None => Ok (hash, isChained)
  | Some next =>
      match fuel with
      | O => Err Loop
      | S fuel' => follow_chain fuel' chains next true
      end
  end.

(** [hash.indexOf( '@' )], [hash.substr( 0, i )], [hash.substring( i + 1 )] *)
Fixpoint split_at (c : ascii) (s : string) : string * string :=
  match s with
  | EmptyString => (EmptyString, EmptyString)
  | String a s' => if Ascii.eqb a c then (EmptyString, s')
                   else let '(l, r) := split_at c s' in (String a l, r)
  end.

Definition lookup_name (ms : list Module) (externals : list ExternalModule) (id : string)
  : option string :=
  match find (fun m => str_eqb (m_id m) id) ms with
  | Some m => Some (m_name m)
  | None => match find (fun m => str_eqb (x_id m) id) externals with
            | Some e => Some (x_name e)
            | None => None
            end
  end.

(** The replacement chosen for one import specifier ([""] stands for
    [undefined], both are falsy where the replacement is used). *)
Definition specifier_replacement (conflicts : list string) (chains : dict)
  (ms : list Module) (externals : list ExternalModule) (x : ImportDecl) (s : Specifier)
  : result string :=
  let externalModule := find (fun m => str_eqb (x_id m) (import_id x)) externals in
  if sp_isBatch s
  then match lookup_name ms externals (import_id x) with
       | Some name => Ok name
       | None => Err (TypeError "Cannot read property 'name' of undefined")
       end
  else
    '(hash, isChained) ←
      follow_chain (length chains) chains (import_id x +:+ "@" +:+ sp_name s) false;
    let '(moduleId, specifierName) :=
      if (isChained : bool) then split_at "@"%char hash else (import_id x, sp_name s) in
    let moduleName := str (lookup_name ms externals moduleId) in
    if str_eqb specifierName "default"
    then match externalModule with
         | Some e => Ok (if needsNamed e then moduleName +:+ "__default" else moduleName)
         | None =>
             match find (fun m => str_eqb (m_id m) moduleId) ms with
             | Some m => Ok (default "" (get "default" (identifierReplacements m)))
             | None =>
                 match find (fun m => str_eqb (x_id m) moduleId) externals with
                 | Some _ => Err (TypeError "Cannot read property 'default' of undefined")
                 | None => Ok ""
                 end
             end
         end
    else match externalModule with
         | None => Ok (if mem specifierName conflicts
                       then moduleName +:+ "__" +:+ specifierName
                       else specifierName)
         | Some _ => Ok (moduleName +:+ "." +:+ specifierName)
         end.

(** [populateIdentifierReplacements]: the modules with their
    [identifierReplacements] filled in. *)
Definition populateIdentifierReplacements (ms : list Module) (externals : list ExternalModule)
  (chains : dict) : result (list Module) :=
  (* first, discover conflicts *)
  conflicts ← topLevelScopeConflicts ms externals;
  (* then figure out what identifiers need to be created for default exports *)
  let ms1 :=
    imap (fun i mdl =>
            match defaultExport mdl with
            | Some x =>
                module_set_replacements
                  (put "default" (default_replacement conflicts ms i mdl x)
                     (identifierReplacements mdl)) mdl
            | None => mdl
            end) ms in
  (* then determine which existing identifiers need to be replaced *)
  forEach
    (fun i store =>
       match store !! i with
       | None => Ok store
       | Some mdl =>
           let moduleIdentifiers :=
             fold_left (fun r n => put n (if mem n conflicts then m_name mdl +:+ "__" +:+ n
                                          else n) r)
               (_topLevelNames (m_ast mdl)) (identifierReplacements mdl) in
           moduleIdentifiers ←
             forEach
               (fun x r =>
                  if i_passthrough x then Ok r
                  else forEach
                         (fun s r =>
                            replacement ← specifier_replacement conflicts chains
                                            (<[ i := module_set_replacements r mdl ]> store)
                                            externals x s;
                            Ok (if negb (str_eqb replacement (sp_as s))
                                then put (sp_as s) replacement r else r))
                         (i_specifiers x) r)
               (imports mdl) moduleIdentifiers;
           Ok (<[ i := module_set_replacements moduleIdentifiers mdl ]> store)
       end)
    (seq 0 (length ms1)) ms1.

(** *** resolveExports *)

Definition addExport (moduleId name as_ : string) (bundleExports : list (string * dict))
  : list (string * dict) :=
  if existsb (fun '(k, _) => str_eqb k moduleId) bundleExports
  then map (fun '(k, d) => if str_eqb k moduleId then (k, put name as_ d) else (k, d))
           bundleExports
  else bundleExports ++ [(moduleId, [(name, as_)])].

Definition resolveExports (b : Bundle) : result (list (string * dict)) :=
  match entryModule b with
  | None => Err (TypeError "Cannot read property 'exports' of undefined")
  | Some entryModule =>
      forEach
        (fun x bundleExports =>
           match e_specifiers x with
           | Some specifiers =>
               forEach
                 (fun s bundleExports =>
                    '(hash, _) ← follow_chain (length (chains b)) (chains b)
                                   (m_id entryModule +:+ "@" +:+ s) false;
                    let '(moduleId, name) := split_at "@"%char hash in
                    Ok (addExport moduleId (fst (split_at "@"%char name)) s bundleExports))
                 specifiers bundleExports
           | None =>
               if negb (e_isDefault x) && truthy (default "" (e_name x))
               then Ok (addExport (entry b) (str (e_name x)) (str (e_name x)) bundleExports)
               else Ok bundleExports
           end)
        (exports entryModule) []
  end.

Fixpoint lookup_exports (id : string) (l : list (string * dict)) : option dict :=
  match l with
  | [] => None
  | (k, d) :: l' => if str_eqb k id then Some d else lookup_exports id l'
  end.


(** *** The body rewriter for a module of a bundle *)

Definition transformBody__transformBody (b : Bundle) (mdl : Module) (body : MagicString)
  : result MagicString :=
  let identifierReplacements := identifierReplacements mdl in
  let '(importedBindings, importedNamespaces) := getReadOnlyIdentifiers (imports mdl) in
  let exportNames := lookup_exports (m_id mdl) (b_exports b) in
  '(es, alreadyExported) ←
    traverseAst (names (m_ast mdl)) (ast (m_ast mdl)) identifierReplacements
      importedBindings importedNamespaces exportNames;
  let body := fold_left (fun b e => issue e b) es body in
  (* Remove import statements *)
  let body := fold_left (fun b x => if i_passthrough x then b
                                    else issue (Remove (i_start x) (num (i_next x))) b)
                (imports mdl) body in
  (* Remove export statements *)
  let body :=
    fold_left
      (fun b x =>
         if e_isDefault x
         then
           match e_type x with
           | namedFunction | namedClass =>
               (* remove the `export default `, keep the rest *)
               issue (Remove (e_start x) (e_valueStart x)) b
           | _ =>
               let name := match child "declaration" (e_node x) with
                           | Some d => n_name d
                           | None => ""
                           end in
               if truthy name
               then
                 if bool_decide (Some name = get "default" identifierReplacements)
                 then issue (Remove (e_start x) (e_end x)) b
                 else
                   let original := default name (get name identifierReplacements) in
                   issue (Replace (e_start x) (e_end x)
                            ("var " +:+ str (get "default" identifierReplacements)
                             +:+ " = " +:+ original +:+ ";")) b
               else
                 issue (Replace (e_start x) (e_valueStart x)
                          ("var " +:+ str (get "default" identifierReplacements) +:+ " = ")) b
           end
         else if e_hasDeclaration x
         then issue (Remove (e_start x) (e_valueStart x)) b
         else issue (Remove (e_start x) (num (e_next x))) b)
      (exports mdl) body in
  (* If this module exports a namespace - i.e. another module does
     `import * from 'foo'` - then we need to make all this module's
     exports available *)
  let indentStr := indentString body in
  body ←
    (if _exportsNamespace mdl
     then
       namespaceExports ←
         forEach
           (fun x namespaceExports =>
              if e_hasDeclaration x
              then Ok (namespaceExports ++
                         [indentStr +:+ "get " +:+ str (e_name x) +:+ " () { return "
                          +:+ str (get (str (e_name x)) identifierReplacements) +:+ "; }"])
              else if e_isDefault x
              then Ok (namespaceExports ++
                         [indentStr +:+ "get default () { return "
                          +:+ str (get "default" identifierReplacements) +:+ "; }"])
              else match e_specifiers x with
                   | Some specifiers =>
                       Ok (namespaceExports ++
                             map (fun s => indentStr +:+ "get " +:+ s +:+ " () { return "
                                           +:+ s +:+ "; }") specifiers)
                   | None => Err (TypeError "Cannot read property 'forEach' of undefined")
                   end)
           (exports mdl) [];
       Ok (issue (Prepend ("var " +:+ m_name mdl +:+ " = {" +:+ nl
                           +:+ join ("," +:+ nl) namespaceExports
                           +:+ nl +:+ "};" +:+ nl +:+ nl)) body)
     else Ok body);
  (* If this module is responsible for one of the bundle's exports, we
     write exports here *)
  let body :=
    match exportNames with
    | Some exportNames =>
        let exportBlock :=
          fold_left
            (fun exportBlock '(name, exportAs) =>
               if negb (mem name alreadyExported)
               then exportBlock ++
                      ["exports." +:+ exportAs +:+ " = "
                       +:+ str (get name identifierReplacements) +:+ ";"]
               else exportBlock)
            exportNames [] in
        match exportBlock with
        | [] => body
        | _ => issue (Append (nl +:+ nl +:+ join nl exportBlock)) (issue Trim body)
        end
    | None => body
    end in
  Ok (issue Trim body).

(** *** combine *)

Definition set_external_name (names : dict) (e : ExternalModule) : ExternalModule :=
  {| x_id := x_id e; x_name := str (get (x_id e) names);
     needsDefault := needsDefault e; needsNamed := needsNamed e |}.

Definition with_modules (ms : list Module) (b : Bundle) : Bundle :=
  {| entry := entry b; base := base b; modules := ms;
     externalModules := externalModules b; skip := skip b; b_names := b_names b;
     chains := chains b; b_exports := b_exports b; b_body := b_body b |}.

Definition combine (b : Bundle) : result Bundle :=
  (* populate names *)
  let uniqueNames := getUniqueNames (modules b) (externalModules b) (b_names b) in
  let ms := map (fun m => module_set_name (str (get (m_id m) uniqueNames)) m) (modules b) in
  let externals := map (set_external_name uniqueNames) (externalModules b) in
  (* determine which specifiers are imported from external modules *)
  let externals := populateExternalModuleImports ms externals in
  (* determine which identifiers need to be replaced inside this bundle *)
  ms ← populateIdentifierReplacements ms externals (chains b);
  let b := {| entry := entry b; base := base b; modules := ms;
              externalModules := externals; skip := skip b; b_names := b_names b;
              chains := chains b; b_exports := b_exports b; b_body := b_body b |} in
  bundleExports ← resolveExports b;
  let b := {| entry := entry b; base := base b; modules := modules b;
              externalModules := externalModules b; skip := skip b;
              b_names := b_names b; chains := chains b; b_exports := bundleExports;
              b_body := b_body b |} in
  '(sources, ms) ←
    forEach
      (fun mdl '(sources, store) =>
         (* verify that this module doesn't import non-exported identifiers *)
         _ ← forEach
               (fun x (_ : unit) =>
                  match moduleLookup b (import_id x) with
                  | None => Ok tt
                  | Some importedModule =>
                      if i_isBatch x then Ok tt
                      else forEach
                             (fun s (_ : unit) =>
                                if mem (sp_name s) (doesExport importedModule) then Ok tt
                                else Err (Error ("Module " +:+ m_id importedModule
                                                 +:+ " does not export " +:+ sp_name s
                                                 +:+ " (imported by " +:+ m_id mdl +:+ ")")))
                             (i_specifiers x) tt
                  end)
               (imports mdl) tt;
         content ← transformBody__transformBody b mdl (body mdl);
         Ok (sources ++ [content],
             map (fun m => if str_eqb (m_id m) (m_id mdl)
                           then {| m_id := m_id m; m_source := m_source m;
                                   m_relativePath := m_relativePath m; m_path := m_path m;
                                   body := content; m_ast := m_ast m; imports := imports m;
                                   exports := exports m; defaultExport := defaultExport m;
                                   identifierReplacements := identifierReplacements m;
                                   doesExport := doesExport m; m_name := m_name m;
                                   _exportsNamespace := _exportsNamespace m |}
                           else m) store))
      (modules b) ([], modules b);
  Ok {| entry := entry b; base := base b; modules := ms;
        externalModules := externalModules b; skip := skip b; b_names := b_names b;
        chains := chains b; b_exports := b_exports b;
        b_body := {| original := join (nl +:+ nl) (map toString sources);
                     indentString := match sources with
                                     | s :: _ => indentString s
                                     | [] => tab
                                     end;
                     edits := [] |} |}.

(** *** getModule *)

Definition flattenExports (exports : list ExportDecl) : list string :=
  fold_left
    (fun flattened x =>
       if e_isDefault x then flattened ++ ["default"]
       else if truthy (default "" (e_name x)) then flattened ++ [str (e_name x)]
       else match e_specifiers x with
            | Some specifiers => flattened ++ specifiers
            | None => flattened
            end)
    exports [].

Section getModule.
Variable acorn_parse : string -> result (node * list comment).
Variable guessIndent : string -> string.

Definition getModule (source id relativePath path : string) : result Module :=
    '(tree, _) ← acorn_parse source;
    a ← annotateAst tree;
    '(imports, exports, defaultExport) ← findImportsAndExports source (ast a);
    _ ← disallowConflictingImports imports;
    (* collect exports by name, for quick lookup when verifying that this
       module exports a given identifier *)
    doesExport ←
      forEach
        (fun x doesExport =>
           if e_isDefault x then Ok (set_key "default" doesExport)
           else if truthy (default "" (e_name x))
           then Ok (set_key (str (e_name x)) doesExport)
           else match e_specifiers x with
                | Some specifiers => Ok (fold_left (fun d s => set_key s d) specifiers doesExport)
                | None => Err (Error "Unexpected export type")
                end)
        exports [];
    Ok {| m_id := id; m_source := source; m_relativePath := relativePath; m_path := path;
          body := {| original := source; indentString := guessIndent source; edits := [] |};
          m_ast := a; imports := imports; exports := exports;
          defaultExport := defaultExport; identifierReplacements := [];
          doesExport := doesExport; m_name := ""; _exportsNamespace := false |}.
End getModule.


(** ** sortModules

    [moduleLookup] is the loader's map from ids to modules and [seen] the
    set of ids already included; [visit] calls itself once for every import,
    at most as deep as there are modules, which the fuel counts. *)

(** [mod.imports.forEach( function ( x ) { visit( moduleLookup[ x.id ] ); } )] *)
Fixpoint visit_imports (visit : option Module -> gset string * list Module
                                -> option (gset string * list Module))
  (moduleLookup : gmap string Module) (xs : list ImportDecl)
  (st : gset string * list Module) : option (gset string * list Module) :=
  match xs with
  | [] => Some st
  | x :: xs' =>
      match visit (moduleLookup !! import_id x) st with
      | Some st' => visit_imports visit moduleLookup xs' st'
      | None => None
      end
  end.

Fixpoint visit (fuel : nat) (moduleLookup : gmap string Module) (mdl : option Module)
  (st : gset string * list Module) : option (gset string * list Module) :=
  match fuel with
  | O => None
  | S fuel' =>
      match mdl with
      | None => Some st                (* ignore external modules *)
      | Some m =>
          if decide (m_id m ∈ st.1) then Some st   (* and modules we've already included *)
          else
            match visit_imports (visit fuel' moduleLookup) moduleLookup (imports m)
                    ({[ m_id m ]} ∪ st.1, st.2) with
            | Some st' => Some (st'.1, st'.2 ++ [m])
            | None => None
            end
      end
  end.

Definition sortModules (entry : option Module) (moduleLookup : gmap string Module)
  : option (list Module) :=
  match visit (S (size moduleLookup)) moduleLookup entry (∅, []) with
  | Some st => Some st.2
  | None => None
  end.

(** The local imports of a module, as a relation on ids. *)
Definition imports_local (moduleLookup : gmap string Module) (a b : string) : Prop :=
  exists m x, moduleLookup !! a = Some m /\ x ∈ imports m /\ import_id x = b
              /\ is_Some (moduleLookup !! b).

(** Modules are stored under their own id. *)
Definition own_ids (moduleLookup : gmap string Module) : Prop :=
  forall k m, moduleLookup !! k = Some m -> m_id m = k.

Definition acyclic (moduleLookup : gmap string Module) : Prop :=
  forall a, ~ tc (imports_local moduleLookup) a a.

(** Position [i] comes before position [j] and holds the module [d]. *)
Definition precedes (ordered : list Module) (d : string) (j : nat) : Prop :=
  exists i m, i < j /\ ordered !! i = Some m /\ m_id m = d.


(** ** Loading a bundle

    The file system, the path functions of the platform, the parser and the
    user's hooks are collaborators.  A promise is kept as the result it is
    settled with: [p.then( f, g )] applies [f] to a value and [g] to a
    rejection of [p] itself (an exception raised inside [f] is not given to
    [g]), and [Promise.all] is rejected as soon as one member is.  The
    callbacks run depth first in the order of the imports, which is one of
    the orders in which the reads can complete; the fuel bounds the number
    of nested fetches. *)

Record loader_options : Type := {
  l_entry : string;
  l_base : string;
  l_skip : option (list string);
  l_names : dict;
  l_transform : option (string -> string -> result string);
  l_resolvePath : option (string -> option string -> result string)
}.

Record loader_state : Type := {
  promiseByPath : list string;
  ld_modules : list Module;                   (* in the order of loading *)
  ld_moduleLookup : gmap string Module;
  ld_externalModules : list ExternalModule
}.

Definition import_set_id (id : string) (x : ImportDecl) : ImportDecl :=
  {| i_id := Some id; i_node := i_node x; i_start := i_start x; i_end := i_end x;
     i_passthrough := i_passthrough x; i_path := i_path x;
     i_specifiers := i_specifiers x; i_isEmpty := i_isEmpty x;
     i_isDefault := i_isDefault x; i_isBatch := i_isBatch x; i_isNamed := i_isNamed x;
     i_as := i_as x; i_next := i_next x; i_name := i_name x |}.

Definition module_set_imports (xs : list ImportDecl) (m : Module) : Module :=
  {| m_id := m_id m; m_source := m_source m; m_relativePath := m_relativePath m;
     m_path := m_path m; body := body m; m_ast := m_ast m; imports := xs;
     exports := exports m; defaultExport := defaultExport m;
     identifierReplacements := identifierReplacements m; doesExport := doesExport m;
     m_name := m_name m; _exportsNamespace := _exportsNamespace m |}.

(** [err.code === 'ENOENT'] *)
Definition is_ENOENT (err : error) : bool :=
  match err with
  | FsError code => str_eqb code "ENOENT"
  | EsperantoError _ code => str_eqb code "ENOENT"
  | _ => false
  end.

Section loader.
Variable acorn_parse : string -> result (node * list comment).
Variable guessIndent : string -> string.
Variable stat : string -> result unit.
Variable readFile : string -> result string.
Variable path_resolve : list string -> string.
Variable path_relative : string -> string -> string.
Variable cwd : string.

Definition tryPath (path : string) : result string :=
    _ ← stat path; Ok path.

Definition resolvePath (base moduleId : string) (importerPath : option string)
    (resolver : option (string -> option string -> result string)) : result string :=
    match tryPath (path_resolve [base; moduleId +:+ ".js"]) with
    | Ok path => Ok path
    | Err _ =>
        match tryPath (path_resolve [base; moduleId; "index.js"]) with
        | Ok path => Ok path
        | Err err =>
            match resolver with
            | Some resolver => resolver moduleId importerPath
            | None => Err err
            end
        end
    end.

  (** The rejection handler of an import's [resolvePath] promise. *)
Definition handleError (id : string) (err : error) (st : loader_state)
    : result loader_state :=
    if is_ENOENT err
    then
      (* Most likely an external module *)
      if existsb (fun e => str_eqb (x_id e) id) (ld_externalModules st) then Ok st
      else Ok {| promiseByPath := promiseByPath st; ld_modules := ld_modules st;
                 ld_moduleLookup := ld_moduleLookup st;
                 ld_externalModules :=
                   ld_externalModules st ++
                     [{| x_id := id; x_name := ""; needsDefault := false;
                         needsNamed := false |}] |}
    else Err err.

  (** The rejection handler of the entry's [resolvePath] promise. *)
Definition entryError (entry : string) (err : error) : error :=
    if is_ENOENT err
    then Error ("Could not find entry module (" +:+ entry +:+ ")")
    else err.

  (** What [module.imports.map] starts for one import, with [fetch] the
      nested [fetchModule]. *)
Definition fetchImport (fetch : string -> string -> loader_state -> result loader_state)
    (options : loader_options) (base modulePath : string) (x : ImportDecl)
    (st : loader_state) : result loader_state :=
    (* Some modules can be skipped *)
    if match l_skip options with
       | Some skip => mem (import_id x) skip
       | None => false
       end
    then Ok st
    else
      match resolvePath base (import_id x) (Some modulePath) (l_resolvePath options) with
      | Ok path =>
          (* short-circuit cycles *)
          if mem path (promiseByPath st) then Ok st
          else fetch (import_id x) path st
      | Err err => handleError (import_id x) err st
      end.

Fixpoint fetchModule (fuel : nat) (options : loader_options) (base : string)
    (moduleId modulePath : string) (st : loader_state) : result loader_state :=
    match fuel with
    | O => Err Loop
    | S fuel' =>
        if mem modulePath (promiseByPath st) then Ok st
        else
          let st := {| promiseByPath := promiseByPath st ++ [modulePath];
                       ld_modules := ld_modules st;
                       ld_moduleLookup := ld_moduleLookup st;
                       ld_externalModules := ld_externalModules st |} in
          source ← readFile modulePath;
          source ← match l_transform options with
                   | Some transform => transform source modulePath
                   | None => Ok source
                   end;
          mdl ← getModule acorn_parse guessIndent source moduleId
                  (path_relative base modulePath) modulePath;
          (* the synchronous part of [module.imports.map]: the ids, the check
             for a module importing itself *)
          xs ← mapM (fun x =>
                       let id := resolveId (i_path x) (m_relativePath mdl) in
                       if str_eqb id moduleId
                       then Err (Error ("A module (" +:+ moduleId
                                        +:+ ") cannot import itself"))
                       else Ok (import_set_id id x))
                    (imports mdl);
          let mdl := module_set_imports xs mdl in
          let st := {| promiseByPath := promiseByPath st;
                       ld_modules := ld_modules st ++ [mdl];
                       ld_moduleLookup := <[ moduleId := mdl ]> (ld_moduleLookup st);
                       ld_externalModules := ld_externalModules st |} in
          forEach (fetchImport (fetchModule fuel' options base) options base modulePath) xs st
    end.

  (** The entry path of a call of [getBundle]. *)
Definition bundle_base (options : loader_options) : string :=
    (if truthy (l_base options) then path_resolve [l_base options] else cwd) +:+ "/".

Definition bundle_entry (options : loader_options) : string :=
    let entry := strip_js (l_entry options) in
    let base := bundle_base options in
    if prefix_of base entry
    then String.substring (String.length base) (String.length entry - String.length base) entry
    else entry.

Definition getBundle (fuel : nat) (options : loader_options) : result Bundle :=
    let base := bundle_base options in
    let entry := bundle_entry options in
    match resolvePath base entry None None with
    | Err err => Err (entryError entry err)
    | Ok entryPath =>
        st ← fetchModule fuel options base entry entryPath
               {| promiseByPath := []; ld_modules := []; ld_moduleLookup := ∅;
                  ld_externalModules := [] |};
        modules ← match sortModules (ld_moduleLookup st !! entry) (ld_moduleLookup st) with
                  | Some ms => Ok ms
                  | None => Err Loop
                  end;
        let '(chains, modules) := resolveChains modules in
        combine {| entry := entry; base := base; modules := modules;
                   externalModules := ld_externalModules st;
                   skip := default [] (l_skip options); b_names := l_names options;
                   chains := chains; b_exports := [];
                   b_body := {| original := ""; indentString := tab; edits := [] |} |}
    end.
End loader.


(** ** Bundle builders

    A builder writes to [bundle.body] in place; it answers the result and
    the bundle as the call leaves it. *)

Definition with_body (body : MagicString) (b : Bundle) : Bundle :=
  {| entry := entry b; base := base b; modules := modules b;
     externalModules := externalModules b; skip := skip b; b_names := b_names b;
     chains := chains b; b_exports := b_exports b; b_body := body |}.

Definition quoteId (m : ExternalModule) : string := "'" +:+ x_id m +:+ "'".

Definition getExportBlock (entry : Module) : string :=
  "exports['default'] = " +:+ str (get "default" (identifierReplacements entry)) +:+ ";".

(** ['define(<%= amdName %><%= amdDeps %>function (<%= names %>) {\n\n\t\'use strict\';\n\n'] *)
Definition bundle_amd_intro (amdName amdDeps names indentStr : string) : string :=
  replace_tabs indentStr
    ("define(" +:+ amdName +:+ amdDeps +:+ "function (" +:+ names +:+ ") {"
     +:+ nl +:+ nl +:+ tab +:+ "'use strict';" +:+ nl +:+ nl).

Definition default_line (x : ExternalModule) : string :=
  " = ('default' in " +:+ x_name x +:+ " ? " +:+ x_name x +:+ "['default'] : "
  +:+ x_name x +:+ ");".

Section bundle_builders.
Context {SourceMap : Type}.
Variable generateMap :
    MagicString -> list node -> option string -> option string -> SourceMap.
Variable toUrl : SourceMap -> string.

Definition package (b : Bundle) (body : MagicString) (options : Options)
    (methodName : string) : result (Output SourceMap) * Bundle :=
    let '(r, body) := packageResult generateMap toUrl (map (fun m => ast (m_ast m)) (modules b))
                        body options methodName true in
    (r, with_body body b).

Definition no_entry : error := TypeError "Cannot read property 'identifierReplacements' of undefined".

Definition defaultsMode_amd__amd (b : Bundle) (options : Options)
    : result (Output SourceMap) * Bundle :=
    match entryModule b with
    | None => (Err no_entry, b)
    | Some entry =>
        let defaultName := default "" (get "default" (identifierReplacements entry)) in
        let body := if truthy defaultName
                    then issue (Append (nl +:+ nl +:+ "return " +:+ defaultName +:+ ";")) (b_body b)
                    else b_body b in
        let intro :=
          bundle_amd_intro
            (if truthy (o_amdName options) then quote (o_amdName options) +:+ ", " else "")
            (match externalModules b with
             | [] => ""
             | xs => "[" +:+ join ", " (map quoteId xs) +:+ "], "
             end)
            (join ", " (map x_name (externalModules b)))
            (indentString body) in
        let body := issue (Indent (indentString body)) body in
        let body := issue (Prepend intro) body in
        let body := issue TrimLines body in
        let body := issue (Append (nl +:+ nl +:+ "});")) body in
        package b body options "toAmd"
    end.

Definition defaultsMode_cjs__cjs (b : Bundle) (options : Options)
    : result (Output SourceMap) * Bundle :=
    let importBlock :=
      join nl (map (fun x => "var " +:+ x_name x +:+ " = " +:+ req (x_id x) +:+ ";")
                   (externalModules b)) in
    let body := if truthy importBlock
                then issue (Prepend (importBlock +:+ nl +:+ nl)) (b_body b)
                else b_body b in
    match entryModule b with
    | None => (Err no_entry, with_body body b)
    | Some entry =>
        let defaultName := default "" (get "default" (identifierReplacements entry)) in
        let body := if truthy defaultName
                    then issue (Append (nl +:+ nl +:+ "module.exports = " +:+ defaultName +:+ ";")) body
                    else body in
        let body := issue (Prepend ("'use strict';" +:+ nl +:+ nl)) body in
        let body := issue TrimLines body in
        package b body options "toCjs"
    end.

Definition defaultsMode_umd__umd (b : Bundle) (options : Options)
    : result (Output SourceMap) * Bundle :=
    match requireName options with
    | Err e => (Err e, b)
    | Ok _ =>
        match entryModule b with
        | None => (Err (TypeError "Cannot read property 'exports' of undefined"), b)
        | Some entry =>
            let hasImports := negb (bool_decide (externalModules b = [])) in
            let hasExports := negb (bool_decide (exports entry = [])) in
            let '(intro, body) :=
              if negb hasImports && negb hasExports
              then (standaloneUmdIntro (o_amdName options) (indentString (b_body b)), b_body b)
              else
                let defaultName := default "" (get "default" (identifierReplacements entry)) in
                let body := if truthy defaultName
                            then issue (Append (nl +:+ nl +:+ "return " +:+ defaultName +:+ ";"))
                                   (b_body b)
                            else b_body b in
                (defaultUmdIntro hasExports (map x_id (externalModules b))
                   (map x_name (externalModules b)) (o_amdName options) false
                   (o_name options) (indentString body),
                 body) in
            let body := issue (Indent (indentString body)) body in
            let body := issue (Prepend intro) body in
            let body := issue TrimLines body in
            let body := issue (Append (nl +:+ nl +:+ "}));")) body in
            package b body options "toUmd"
        end
    end.

Definition builders_strictMode_amd__amd (b : Bundle) (options : Options)
    : result (Output SourceMap) * Bundle :=
    let externalDefaults := filter (fun x => needsDefault x = true) (externalModules b) in
    match entryModule b with
    | None => (Err (TypeError "Cannot read property 'exports' of undefined"), b)
    | Some entry =>
        let importIds := map x_id (externalModules b) in
        let importNames := map x_name (externalModules b) in
        let body :=
          match externalDefaults with
          | [] => b_body b
          | _ =>
              issue (Prepend
                       (join nl (map (fun x =>
                                        (* Case 1: default is used, and named is not;
                                           Case 2: both default and named are used *)
                                        (if needsNamed x then "var " +:+ x_name x +:+ "__default"
                                         else x_name x) +:+ default_line x)
                                     externalDefaults)
                        +:+ nl +:+ nl))
                (b_body b)
          end in
        let '(importIds, importNames, body) :=
          match exports entry with
          | [] => (importIds, importNames, body)
          | _ => ("exports" :: importIds, "exports" :: importNames,
                  match defaultExport entry with
                  | Some _ => issue (Append (nl +:+ nl +:+ getExportBlock entry)) body
                  | None => body
                  end)
          end in
        let intro :=
          bundle_amd_intro
            (if truthy (o_amdName options) then quote (o_amdName options) +:+ ", " else "")
            (match importIds with
             | [] => ""
             | _ => "[" +:+ join ", " (map quote importIds) +:+ "], "
             end)
            (join ", " importNames)
            (indentString body) in
        let body := issue (Indent (indentString body)) body in
        let body := issue (Prepend intro) body in
        let body := issue TrimLines body in
        let body := issue (Append (nl +:+ nl +:+ "});")) body in
        package b body options "toAmd"
    end.

Definition builders_strictMode_cjs__cjs (b : Bundle) (options : Options)
    : result (Output SourceMap) * Bundle :=
    match entryModule b with
    | None => (Err (TypeError "Cannot read property 'defaultExport' of undefined"), b)
    | Some entry =>
        let importBlock :=
          join nl (map (fun x =>
                          "var " +:+ x_name x +:+ " = " +:+ req (x_id x) +:+ ";"
                          +:+ (if needsDefault x
                               then nl +:+ (if needsNamed x
                                            then "var " +:+ x_name x +:+ "__default"
                                            else x_name x) +:+ default_line x
                               else ""))
                       (externalModules b)) in
        let body := if truthy importBlock
                    then issue (Prepend (importBlock +:+ nl +:+ nl)) (b_body b)
                    else b_body b in
        let body := match defaultExport entry with
                    | Some _ => issue (Append (nl +:+ nl +:+ getExportBlock entry)) body
                    | None => body
                    end in
        let body := issue (Prepend ("'use strict';" +:+ nl +:+ nl)) body in
        let body := issue TrimLines body in
        package b body options "toCjs"
    end.

Definition builders_strictMode_umd__umd (b : Bundle) (options : Options)
    : result (Output SourceMap) * Bundle :=
    match requireName options with
    | Err e => (Err e, b)
    | Ok _ =>
        match entryModule b with
        | None => (Err (TypeError "Cannot read property 'exports' of undefined"), b)
        | Some entry =>
            let hasImports := negb (bool_decide (externalModules b = [])) in
            let hasExports := negb (bool_decide (exports entry = [])) in
            let '(intro, body) :=
              if negb hasImports && negb hasExports
              then (standaloneUmdIntro (o_amdName options) (indentString (b_body b)), b_body b)
              else
                let body := if hasExports && bool_decide (is_Some (defaultExport entry))
                            then issue (Append (nl +:+ nl +:+ getExportBlock entry)) (b_body b)
                            else b_body b in
                (strictUmdIntro hasExports (map x_id (externalModules b))
                   (map x_name (externalModules b))
                   (map (fun x => (x_name x, needsNamed x))
                        (filter (fun x => needsDefault x = true) (externalModules b)))
                   (o_amdName options) false (o_name options) (indentString body),
                 body) in
            let body := issue (Indent (indentString body)) body in
            let body := issue (Prepend intro) body in
            let body := issue TrimLines body in
            let body := issue (Append (nl +:+ nl +:+ "}));")) body in
            package b body options "toUmd"
        end
    end.

  (** The options of [concat] that [packageResult] does not read. *)
Record concat_options : Type := {
    c_intro : option string;                 (* ['intro' in options] *)
    c_outro : option string;
    c_indent : option (option string)        (* absent; [true]; a string *)
  }.

Definition concat (b : Bundle) (copts : concat_options) (options : Options)
    : result (Output SourceMap) * Bundle :=
    match entryModule b with
    | None => (Err (TypeError "Cannot read property 'exports' of undefined"), b)
    | Some entry =>
        (* This bundle must be self-contained - no imports or exports *)
        if negb (bool_decide (externalModules b = [])) || negb (bool_decide (exports entry = []))
        then (Err (Error ("bundle.concat() can only be used with bundles that have no imports/exports (imports: ["
                          +:+ join ", " (map x_id (externalModules b))
                          +:+ "], exports: ["
                          +:+ join ", " (map (fun _ => "[object Object]") (exports entry))
                          +:+ "])")), b)
        else
          let intro := default ("(function () { 'use strict';" +:+ nl +:+ nl) (c_intro copts) in
          let outro := default (nl +:+ nl +:+ "})();") (c_outro copts) in
          let indent := match c_indent copts with
                        | None | Some None => indentString (b_body b)
                        | Some (Some s) => s
                        end in
          let body := issue TrimLines (b_body b) in
          let body := issue (Indent indent) body in
          let body := issue (Prepend intro) body in
          let body := issue (Append outro) body in
          package b body options "toString"
    end.

  (** The [toAmd], [toCjs] and [toUmd] methods of a loaded bundle. *)
Definition bundle_transpile (format : format) (b : Bundle) (options : Options)
    (g : globals) : result (Output SourceMap) * Bundle * globals :=
    let g :=
      if o_defaultOnly options && negb (alreadyWarned g)
      then {| alreadyWarned := true; warned := warned g;
              console := console g ++ [deprecateMessage] |}
      else g in
    if negb (o_strict options)
    then
      (* ensure there are no named imports/exports *)
      match entryModule b with
      | None => (Err (TypeError "Cannot read property 'exports' of undefined"), b, g)
      | Some entry =>
          if hasNamedExports entry
          then (Err (Error "Entry module can only have named exports in strict mode (pass `strict: true`)"),
                b, g)
          else if existsb
                    (fun m =>
                       existsb (fun x =>
                                  bool_decide (is_Some (externalModuleLookup b (import_id x)))
                                  && negb (i_isDefault x) && negb (i_isBatch x))
                               (imports m))
                    (modules b)
          then (Err (Error "You can only have named external imports in strict mode (pass `strict: true`)"),
                b, g)
          else (match format with
                | amd => defaultsMode_amd__amd b options
                | cjs => defaultsMode_cjs__cjs b options
                | umd => defaultsMode_umd__umd b options
                end, g)
      end
    else (match format with
          | amd => builders_strictMode_amd__amd b options
          | cjs => builders_strictMode_cjs__cjs b options
          | umd => builders_strictMode_umd__umd b options
          end, g).
End bundle_builders.


(** ** Sample bundles *)

(** A parser that knows the given texts. *)
Definition parser_table (table : list (string * node))
  : string -> result (node * list comment) :=
  fun s => match find (fun '(src, _) => str_eqb src s) table with
           | Some (_, tree) => Ok (tree, [])
           | None => Err (SyntaxError "Unexpected token")
           end.

(** A file system that holds the given files and nothing else. *)
Definition files_stat (files : list (string * string)) (path : string) : result unit :=
  match get path files with
  | Some _ => Ok tt
  | None => Err (FsError "ENOENT")
  end.

Definition files_read (files : list (string * string)) (path : string) : result string :=
  match get path files with
  | Some content => Ok content
  | None => Err (FsError "ENOENT")
  end.

(** [path.resolve] and [path.relative] on the plain paths of the samples. *)
Definition sample_resolve (parts : list string) : string :=
  match parts with
  | [] => ""
  | base :: rest => fold_left (fun p r => trimEnd (fun c => Ascii.eqb c "/"%char) p +:+ "/" +:+ r)
                      rest base
  end.

Definition sample_relative (base path : string) : string :=
  if prefix_of base path
  then String.substring (String.length base) (String.length path - String.length base) path
  else path.

Definition sample_options (entry : string) : loader_options :=
  {| l_entry := entry; l_base := ""; l_skip := None; l_names := [];
     l_transform := None; l_resolvePath := None |}.

(** [a.js]: [import './b';] and [b.js]: [import './a';] *)
Definition cycle_a_source : string := "import './b';".
Definition cycle_b_source : string := "import './a';".

Definition bare_import (path : string) : node :=
  mk Program "" 0 13
    [ mk ImportDeclaration "body" 0 13 [ mk_literal "source" 7 12 path ] ].

Definition cycle_files : list (string * string) :=
  [("/proj/a.js", cycle_a_source); ("/proj/b.js", cycle_b_source)].

Definition cycle_parser : string -> result (node * list comment) :=
  parser_table [(cycle_a_source, bare_import "./b"); (cycle_b_source, bare_import "./a")].

Definition cycle_load : result loader_state :=
  fetchModule cycle_parser (fun _ => tab) (files_stat cycle_files) (files_read cycle_files)
    sample_resolve sample_relative 10 (sample_options "a") "/proj/" "a" "/proj/a.js"
    {| promiseByPath := []; ld_modules := []; ld_moduleLookup := ∅;
       ld_externalModules := [] |}.

Definition cycle_state : loader_state :=
  match cycle_load with
  | Ok st => st
  | Err _ => {| promiseByPath := []; ld_modules := []; ld_moduleLookup := ∅;
                ld_externalModules := [] |}
  end.

(** [a.js]: [import './b';] and [b.js]: nothing *)
Definition chain_files : list (string * string) :=
  [("/proj/a.js", cycle_a_source); ("/proj/b.js", "")].

Definition chain_parser : string -> result (node * list comment) :=
  parser_table [(cycle_a_source, bare_import "./b"); ("", mk Program "" 0 0 [])].

Definition chain_state : loader_state :=
  match fetchModule chain_parser (fun _ => tab) (files_stat chain_files)
          (files_read chain_files) sample_resolve sample_relative 10
          (sample_options "a") "/proj/" "a" "/proj/a.js"
          {| promiseByPath := []; ld_modules := []; ld_moduleLookup := ∅;
             ld_externalModules := [] |} with
  | Ok st => st
  | Err _ => {| promiseByPath := []; ld_modules := []; ld_moduleLookup := ∅;
                ld_externalModules := [] |}
  end.

(** An entry [a.js] that imports ['./b']; no [b.js] and no [b/index.js]. *)
Definition lone_files : list (string * string) := [("/proj/a.js", cycle_a_source)].

Definition lone_parser : string -> result (node * list comment) :=
  parser_table [(cycle_a_source, bare_import "./b")].

(** A user resolver that answers a path where there is no file. *)
Definition elsewhere (moduleId : string) (importerPath : option string) : result string :=
  Ok ("/elsewhere/" +:+ moduleId +:+ ".js").

Definition lone_bundle (resolver : option (string -> option string -> result string))
  (entry : string) : result Bundle :=
  getBundle lone_parser (fun _ => tab) (files_stat lone_files) (files_read lone_files)
    sample_resolve sample_relative "/proj" 10
    {| l_entry := entry; l_base := ""; l_skip := None; l_names := [];
       l_transform := None; l_resolvePath := resolver |}.

(** ** Kinds of failure *)

(** The failure is the typed error with code [MISSING_NAME]. *)
Definition missing_name {A : Type} (r : result A) : bool :=
  match r with
  | Err (EsperantoError _ code) => str_eqb code "MISSING_NAME"
  | _ => false
  end.

(** Not a typed [EsperantoError]. *)
Definition untyped (e : error) : Prop :=
  match e with
  | EsperantoError _ _ => False
  | _ => True
  end.

Definition untyped_result {A : Type} (r : result A) : Prop :=
  forall e, r = Err e -> untyped e.

(** A bundle of one file, [m.js]: [export default 42;] *)
Definition S1_source : string := "export default 42;".

Definition S1_ast : node :=
  mk Program "" 0 18
    [ mk ExportDefaultDeclaration "body" 0 18 [ mk_literal "declaration" 15 17 "42" ] ].

Definition S1_bundle : result Bundle :=
  getBundle (parser_of S1_source S1_ast) (fun _ => tab)
    (files_stat [("/proj/m.js", S1_source)]) (files_read [("/proj/m.js", S1_source)])
    sample_resolve sample_relative "/proj" 10 (sample_options "m").

(** Two calls of a method on the same loaded bundle, with no source map:
    the texts of the two results. *)
Definition emit_twice (format : format) (b : Bundle) (options : Options)
  : result string * result string :=
  let '(r1, b1, g1) :=
    bundle_transpile (SourceMap := unit) (fun _ _ _ _ => tt) (fun _ => "")
      format b options fresh_globals in
  let '(r2, _, _) :=
    bundle_transpile (SourceMap := unit) (fun _ _ _ _ => tt) (fun _ => "")
      format b1 options g1 in
  (code_of r1, code_of r2).

(** A bundle of two files.  [e.js]: [import { a as b } from './m'; export { b };]
    and [m.js]: [export var a = 1; var y = a++;] *)
Definition renamed_entry_source : string := "import { a as b } from './m'; export { b };".
Definition renamed_m_source : string := "export var a = 1; var y = a++;".

Definition renamed_entry_ast : node :=
  mk Program "" 0 43
    [ mk ImportDeclaration "body" 0 29
        [ mk ImportSpecifier "specifiers" 9 15
            [ mk_ident "imported" 9 10 "a"; mk_ident "local" 14 15 "b" ];
          mk_literal "source" 23 28 "./m" ];
      mk ExportNamedDeclaration "body" 30 43
        [ mk ExportSpecifier "specifiers" 39 40
            [ mk_ident "local" 39 40 "b"; mk_ident "exported" 39 40 "b" ] ] ].

Definition renamed_m_ast : node :=
  mk Program "" 0 30
    [ mk ExportNamedDeclaration "body" 0 17
        [ mk_var "declaration" 7 17 "var"
            [ mk VariableDeclarator "declarations" 11 16
                [ mk_ident "id" 11 12 "a"; mk_literal "init" 15 16 "1" ] ] ];
      mk_var "body" 18 30 "var"
        [ mk VariableDeclarator "declarations" 22 29
            [ mk_ident "id" 22 23 "y";
              mk_op UpdateExpression "init" 26 29 "++" [ mk_ident "argument" 26 27 "a" ] ] ] ].

Definition renamed_files : list (string * string) :=
  [("/proj/e.js", renamed_entry_source); ("/proj/m.js", renamed_m_source)].

Definition renamed_bundle : result Bundle :=
  getBundle
    (parser_table [(renamed_entry_source, renamed_entry_ast);
                   (renamed_m_source, renamed_m_ast)])
    (fun _ => tab) (files_stat renamed_files) (files_read renamed_files)
    sample_resolve sample_relative "/proj" 10 (sample_options "e").

(** The rewritten text of the module [id] of a bundle. *)
Definition module_text (id : string) (r : result Bundle) : result string :=
  b ← r;
  match moduleLookup b id with
  | Some m => Ok (toString (body m))
  | None => Err (Error "no such module")
  end.

(** A single-file transpile of [source], parsed into [tree], with no
    source map: the text of the result. *)
Definition transpile_sample (format : format) (source : string) (tree : node)
  (options : Options) : result string :=
  code_of (fst (transpileMethod (SourceMap := unit) (parser_of source tree) (fun _ => tab)
                  (fun _ _ _ _ => tt) (fun _ => "") format source options fresh_globals)).

(** The scope of the function [f] in the samples, and the names of all
    scopes after annotation of [shadow_ast]: the top-level scope holds [f],
    the scope of [f] its parameter [x], the block scopes nothing. *)
Definition shadow_names : scope_names := [["f"]; []; ["x"]; []].
Definition shadow_scope : scope_ref := [2; 0].

(** The same for [let_ast]: [x] sits in the block scope 3, which the scope
    of [f] (2) does not reach. *)
Definition let_names : scope_names := [["f"]; []; []; ["x"]].

(** [export var x = 1; var y = x++;]: an update of an export inside the
    initializer of a declaration *)
Definition captured_source : string := "export var x = 1; var y = x++;".

Definition captured_ast : node :=
  mk Program "" 0 30
    [ mk ExportNamedDeclaration "body" 0 17
        [ mk_var "declaration" 7 17 "var"
            [ mk VariableDeclarator "declarations" 11 16
                [ mk_ident "id" 11 12 "x"; mk_literal "init" 15 16 "1" ] ] ];
      mk_var "body" 18 30 "var"
        [ mk VariableDeclarator "declarations" 22 29
            [ mk_ident "id" 22 23 "y";
              mk_op UpdateExpression "init" 26 29 "++" [ mk_ident "argument" 26 27 "x" ] ] ] ].

(** Two files, [e.js]: [import a from './a'; function g () { var foo = a; }]
    and [a.js]: [export default function foo () {}]; the name [foo] of the
    default export is declared inside a function of the other module. *)
Definition default_entry_source : string :=
  "import a from './a'; function g () { var foo = a; }".
Definition default_a_source : string := "export default function foo () {}".

Definition default_entry_ast : node :=
  mk Program "" 0 51
    [ mk ImportDeclaration "body" 0 20
        [ mk ImportDefaultSpecifier "specifiers" 7 8 [ mk_ident "local" 7 8 "a" ];
          mk_literal "source" 14 19 "./a" ];
      mk FunctionDeclaration "body" 21 51
        [ mk_ident "id" 30 31 "g";
          mk BlockStatement "body" 35 51
            [ mk_var "body" 37 49 "var"
                [ mk VariableDeclarator "declarations" 41 48
                    [ mk_ident "id" 41 44 "foo"; mk_ident "init" 47 48 "a" ] ] ] ] ].

Definition default_a_ast : node :=
  mk Program "" 0 33
    [ mk ExportDefaultDeclaration "body" 0 33
        [ mk FunctionDeclaration "declaration" 15 33
            [ mk_ident "id" 24 27 "foo"; mk BlockStatement "body" 31 33 [] ] ] ].

Definition default_files : list (string * string) :=
  [("/proj/e.js", default_entry_source); ("/proj/a.js", default_a_source)].

Definition default_bundle : result Bundle :=
  getBundle
    (parser_table [(default_entry_source, default_entry_ast);
                   (default_a_source, default_a_ast)])
    (fun _ => tab) (files_stat default_files) (files_read default_files)
    sample_resolve sample_relative "/proj" 10 (sample_options "e").

(** The modules of a loaded bundle as they go into the planning of
    identifiers: named, and with no replacement yet. *)
Definition planning_input (r : result Bundle) : list Module :=
  match r with
  | Ok b => map (module_set_replacements []) (modules b)
  | Err _ => []
  end.

(** [var a = 1; function f(x) { x = a; a++; }]: no import, no export, no
    [this] *)
Definition plain_source : string := "var a = 1; function f(x) { x = a; a++; }".

Definition plain_ast : node :=
  mk Program "" 0 40
    [ mk_var "body" 0 10 "var"
        [ mk VariableDeclarator "declarations" 4 9
            [ mk_ident "id" 4 5 "a"; mk_literal "init" 8 9 "1" ] ];
      mk FunctionDeclaration "body" 11 40
        [ mk_ident "id" 20 21 "f"; mk_ident "params" 22 23 "x";
          mk BlockStatement "body" 25 40
            [ mk ExpressionStatement "body" 27 33
                [ mk_op AssignmentExpression "expression" 27 32 "="
                    [ mk_ident "left" 27 28 "x"; mk_ident "right" 31 32 "a" ] ];
              mk ExpressionStatement "body" 34 38
                [ mk_op UpdateExpression "expression" 34 37 "++"
                    [ mk_ident "argument" 34 35 "a" ] ] ] ] ].

Definition plain_bundle : result Bundle :=
  getBundle (parser_table [(plain_source, plain_ast)])
    (fun _ => tab) (files_stat [("/proj/p.js", plain_source)])
    (files_read [("/proj/p.js", plain_source)])
    sample_resolve sample_relative "/proj" 10 (sample_options "p").

(** The options of the body rewriter when nothing is to be put around the
    body. *)
Definition bare : transform_options :=
  {| header := ""; intro := ""; outro := ""; tb_evilES3SafeReExports := false |}.

(** Options with a [name] for the universal wrapper. *)
Definition named_options (strict : bool) (name : string) : Options :=
  {| o_strict := strict; o_name := name; o_amdName := ""; o_getModuleName := None;
     o_absolutePaths := false; o_sourceMap := NoSourceMap; o_sourceMapFile := "";
     o_sourceMapSource := ""; o_banner := ""; o_footer := ""; o_defaultOnly := false;
     o_evilES3SafeReExports := false |}.

(** [toUmd] of the single-file mode on a sample, with no source map. *)
Definition to_umd (source : string) (tree : node) (options : Options)
  : result (Output unit) :=
  fst (transpileMethod (SourceMap := unit) (parser_of source tree) (fun _ => tab)
         (fun _ _ _ _ => tt) (fun _ => "") umd source options fresh_globals).

(** [import x from 'a'; x = 1;]: a default import that is assigned to *)
Definition default_import_source : string := "import x from 'a'; x = 1;".

Definition default_import_ast : node :=
  mk Program "" 0 25
    [ mk ImportDeclaration "body" 0 18
        [ mk ImportDefaultSpecifier "specifiers" 7 8 [ mk_ident "local" 7 8 "x" ];
          mk_literal "source" 14 17 "a" ];
      mk ExpressionStatement "body" 19 25
        [ mk_op AssignmentExpression "expression" 19 24 "="
            [ mk_ident "left" 19 20 "x"; mk_literal "right" 23 24 "1" ] ] ].


(** ** Modules the rewriter has nothing to do in *)

(** Every replacement is the name itself, or none. *)
Definition identity_on (d : dict) : bool :=
  forallb (fun '(name, replacement) =>
             str_eqb replacement name || negb (truthy replacement)) d.

(** No [this] that [annotateAst] has marked as top-level is reached by the
    traversal. *)
Fixpoint no_top_level_this (n : node) : bool :=
  negb (_skip n)
  && negb (is_type (n_type n) ThisExpression && _topLevel n)
  && forallb no_top_level_this (n_children n)
  || _skip n.

(** The target of an assignment or update is there, and so is the object
    of a member expression that is such a target. *)
Definition has_target (n : node) : bool :=
  match assignee_of n with
  | None => true
  | Some (Err _) => false
  | Some (Ok assignee) =>
      negb (is_type (n_type assignee) MemberExpression)
      || bool_decide (is_Some (child "object" assignee))
  end.

(** The annotations of a tree as the traversal of [traverseAst] needs
    them, below the function scope [scope] and the block scope
    [blockScope]: a scope set on a node has the scope around it as parent,
    a skipped node carries no scope and is no variable declaration, and no
    identifier is the root. *)
Fixpoint well_scoped (root : bool) (scope blockScope : scope_ref) (n : node) : bool :=
  if _skip n
  then match is_set (_scope n), is_set (_blockScope n) with
       | None, None => negb (is_type (n_type n) VariableDeclaration)
       | _, _ => false
       end
  else
    match is_set (_scope n), is_set (_blockScope n) with
    | Some s, _ =>
        (root || bool_decide (tl s = scope))
        && (is_type (n_type n) VariableDeclaration
            || has_target n && negb (is_type (n_type n) Identifier && root))
        && forallb (well_scoped false s blockScope) (n_children n)
    | None, Some b =>
        bool_decide (tl b = blockScope) && negb (bool_decide (scope = []))
        && (is_type (n_type n) VariableDeclaration
            || has_target n && negb (is_type (n_type n) Identifier && root))
        && forallb (well_scoped false scope b) (n_children n)
    | None, None =>
        negb (bool_decide (scope = []))
        && (is_type (n_type n) VariableDeclaration
            || has_target n && negb (is_type (n_type n) Identifier && root))
        && forallb (well_scoped false scope blockScope) (n_children n)
    end.

(** ** Trees as the parser returns them *)

(** The tree without its annotations. *)
Fixpoint erase (n : node) : node :=
  Node (n_attrs n) no_annots (map erase (n_children n)).

(** The node types that open a function scope or a block scope. *)
Definition opens_scope (t : ntype) : bool :=
  match t with
  | FunctionExpression | FunctionDeclaration | ArrowFunctionExpression | BlockStatement =>
      true
  | _ => false
  end.

(** A tree fresh from the parser, as far as [annotateAst] and the rewriter
    depend on it: it has no annotation yet; a node that [annotateAst]
    skips (an import declaration, an export specifier, the name of a
    property or of a member) is neither a function nor a block nor a
    variable declaration; an assignment or update has its target.
    [marked] tells that the parent marks this node as skipped. *)
Fixpoint parsed (marked : bool) (n : node) : bool :=
  negb (_skip n)
  && bool_decide (_scope n = None) && bool_decide (_blockScope n = None)
  && if marked || is_type (n_type n) ImportDeclaration || is_type (n_type n) ExportSpecifier
     then negb (opens_scope (n_type n)) && negb (is_type (n_type n) VariableDeclaration)
     else (is_type (n_type n) VariableDeclaration || has_target n)
          && forallb (fun c => parsed (marks n c) c) (n_children n).


(** ** Vocabulary of the proofs *)

(** The ids of a list of modules. *)
Definition ids (l : list Module) : gset string := list_to_set (m_id <$> l).

(** What a visit adds: the new modules are stored modules reachable from
    a root, and every local import of a new module is either placed
    before it, or was in progress when the visit started, or is placed
    at or after it and reaches it. *)
Definition visited (L : gmap string Module) (root : string -> Prop) (seen : gset string)
  (ord new : list Module) : Prop :=
  (forall n, n ∈ new ->
             L !! m_id n = Some n /\ exists r, root r /\ rtc (imports_local L) r (m_id n)) /\
  (forall j n d, new !! j = Some n -> imports_local L (m_id n) d ->
                 d ∈ ids (ord ++ take j new)
                 \/ (d ∈ seen /\ d ∉ ids ord)
                 \/ (d ∈ ids (drop j new) /\ rtc (imports_local L) d (m_id n))).

(** Neither a top-level name nor the local name of an import is
    [default] (a reserved word). *)
Definition default_free (mdl : Module) : bool :=
  negb (mem "default" (_topLevelNames (m_ast mdl)))
  && forallb (fun y => forallb (fun s => negb (str_eqb (sp_as s) "default"))
                         (i_specifiers y))
       (imports mdl).

(** What holds of the modules during the second loop of
    [populateIdentifierReplacements]: each is the module it was, with
    other replacements, and the entry for a default export is the one the
    first loop wrote. *)
Definition planned (ms : list Module) (conflicts : list string) (store : list Module)
  : Prop :=
  forall i mdl, ms !! i = Some mdl ->
    exists r, store !! i = Some (module_set_replacements r mdl) /\
              forall x, defaultExport mdl = Some x -> default_free mdl = true ->
                        get "default" r = Some (default_replacement conflicts ms i mdl x).

(** No name of the module is exported. *)
Definition no_export_names (exportNames : option dict) : Prop :=
  exportNames = None \/ exportNames = Some [].

(** What the traversal keeps when it has nothing to do: no edit, nothing
    exported, every [capturedUpdates] array empty. *)
Definition quiet (st : trav_state) : Prop :=
  t_body st = [] /\ t_alreadyExported st = [] /\ Forall (fun l => l = []) (t_arrays st).

Definition capturing (st : trav_state) : Prop := is_Some (t_capturedUpdates st).
Definition has_previous (st : trav_state) : Prop := is_Some (t_previousCapturedUpdates st).

(** The scopes after [enter] on [n]. *)
Definition scope_in (n : node) (scope : scope_ref) : scope_ref :=
  match is_set (_scope n) with Some s => s | None => scope end.

Definition blockScope_in (n : node) (blockScope : scope_ref) : scope_ref :=
  match is_set (_scope n), is_set (_blockScope n) with
  | None, Some b => b
  | _, _ => blockScope
  end.

(** What a traversal of a subtree leaves behind. *)
Definition kept (root : bool) (st st' : trav_state) : Prop :=
  quiet st' /\
  (root = false -> t_scope st' = t_scope st /\ t_blockScope st' = t_blockScope st) /\
  (capturing st -> capturing st') /\
  (capturing st -> has_previous st -> has_previous st').

Definition passes (names : scope_names) (ast : node) (identifierReplacements : dict)
  (exportNames : option dict) (n : node) : Prop :=
  forall root parent st,
    (root = false -> is_Some parent) ->
    well_scoped root (t_scope st) (t_blockScope st) n = true ->
    no_top_level_this n = true ->
    quiet st ->
    exists st', traverse (traverseAst_enter names ast identifierReplacements [] [] exportNames)
                 traverseAst_leave parent n st = Ok st' /\ kept root st st'.

(** The loop over the children inside [annotate]. *)
Fixpoint annotate_children (p : node) (cs : list node) (st : annot_state)
  : result (list node * annot_state) :=
  match cs with
  | [] => Ok ([], st)
  | c :: rest =>
      '(c', st') ← annotate (marks p c) c st;
      '(rest', st'') ← annotate_children p rest st';
      Ok (c' :: rest', st'')
  end.

(** The scopes of [annotateAst] are those of an earlier state. *)
Definition same_scopes (st st' : annot_state) : Prop :=
  s_scope st' = s_scope st /\ s_blockScope st' = s_blockScope st.

(** What [enter] of [annotateAst] does to the scopes, by the type of the
    node. *)
Definition enter_effect (n : node) (st : annot_state) (ann : annots) (st1 : annot_state)
  : Prop :=
  x_skip ann = false /\
  match n_type n with
  | FunctionExpression | FunctionDeclaration | ArrowFunctionExpression =>
      exists id, x_scope ann = Some (id :: s_scope st) /\ x_blockScope ann = _blockScope n /\
                 s_scope st1 = id :: s_scope st /\ s_blockScope st1 = s_blockScope st
  | BlockStatement =>
      exists id, x_scope ann = _scope n /\ x_blockScope ann = Some (id :: s_blockScope st) /\
                 s_scope st1 = s_scope st /\ s_blockScope st1 = id :: s_blockScope st
  | _ =>
      x_scope ann = _scope n /\ x_blockScope ann = _blockScope n /\
      s_scope st1 = s_scope st /\ s_blockScope st1 = s_blockScope st
  end.

(** What [annotate] does to a parsed subtree: the scopes are as before,
    the tree is well scoped below them, and only annotations have changed. *)
Definition annotates (n : node) : Prop :=
  forall marked st n' st',
    parsed marked n = true -> annotate marked n st = Ok (n', st') -> s_scope st <> [] ->
    same_scopes st st' /\
    well_scoped false (s_scope st) (s_blockScope st) n' = true /\
    erase n' = erase n.

(** ** Vocabulary of the further properties *)

(** ** Sample modules *)

(** A module without text. *)
Definition empty_module : Module :=
  {| m_id := ""; m_source := ""; m_relativePath := ""; m_path := "";
     body := {| original := ""; indentString := tab; edits := [] |};
     m_ast := not_annotated (mk Program "" 0 0 []);
     imports := []; exports := []; defaultExport := None;
     identifierReplacements := []; doesExport := []; m_name := "";
     _exportsNamespace := false |}.

(** The module at a position of a loaded bundle. *)
Definition module_at (r : result Bundle) (i : nat) : Module :=
  default empty_module (planning_input r !! i).

(** A bundle without modules, and the bundle of a load. *)
Definition empty_bundle : Bundle :=
  {| entry := ""; base := ""; modules := []; externalModules := []; skip := [];
     b_names := []; chains := []; b_exports := [];
     b_body := {| original := ""; indentString := tab; edits := [] |} |}.

Definition bundle_of (r : result Bundle) : Bundle :=
  match r with Ok b => b | Err _ => empty_bundle end.

(** [export default 42;export default 42;] *)
Definition twice_default_source : string := S1_source +:+ S1_source.

Definition twice_default_ast : node :=
  mk Program "" 0 36
    [ mk ExportDefaultDeclaration "body" 0 18 [ mk_literal "declaration" 15 17 "42" ];
      mk ExportDefaultDeclaration "body" 18 36 [ mk_literal "declaration" 33 35 "42" ] ].

(** The first character, if any, may start an identifier. *)
Definition starts_identifier (s : string) : bool :=
  match s with
  | String c _ => is_alpha c || Ascii.eqb c "_"%char || Ascii.eqb c "$"%char
  | EmptyString => true
  end.

(** The local names a list of import declarations introduces, in source
    order. *)
Definition local_names (imports : list ImportDecl) : list string :=
  flat_map (fun x => match i_as x with
                     | Some name => [name]
                     | None => map sp_as (i_specifiers x)
                     end) imports.

(** [k] underscores in front of a name. *)
Fixpoint underscores (k : nat) (name : string) : string :=
  match k with
  | O => name
  | S k' => underscores k' ("_" +:+ name)
  end.

(** No part of a path is [.] or [..]. *)
Definition plain_parts (path : string) : bool :=
  forallb (fun p => negb (str_eqb p ".") && negb (str_eqb p "..")) (splitPath path).

(** The first import of a path. *)
Definition first_import (imports : list ImportDecl) (path : string) : option ImportDecl :=
  List.find (fun x => str_eqb (i_path x) path) imports.

(** The name that [getImportSummary] gives to the path at position [i]. *)
Definition summary_name (i : nat) (x : ImportDecl) : string :=
  match i_specifiers x with
  | [] => "__dep" +:+ nat_to_string i +:+ "__"
  | _ :: _ => str (i_name x)
  end.

(** The loop of [getImportSummary]. *)
Definition summary_step
  : list string * list string * list string * nat -> ImportDecl
    -> list string * list string * list string * nat :=
  fun '(importPaths, importNames, seen, placeholders) x =>
  if mem (i_path x) seen then (importPaths, importNames, seen, placeholders)
  else
    match i_specifiers x with
    | _ :: _ =>
        (importPaths ++ [i_path x],
         fill_placeholders placeholders importNames ++ [str (i_name x)],
         seen ++ [i_path x], 0)
    | [] =>
        (importPaths ++ [i_path x], importNames, seen ++ [i_path x], S placeholders)
    end.

(** What holds of the loop's variables after the imports [done]. *)
Definition summarised (done : list ImportDecl)
  (st : list string * list string * list string * nat) : Prop :=
  let '(importPaths, importNames, seen, placeholders) := st in
  seen = importPaths /\ NoDup importPaths /\
  (forall p, p ∈ importPaths <-> exists x, x ∈ done /\ i_path x = p) /\
  length importNames + placeholders = length importPaths /\
  forall i p, importPaths !! i = Some p ->
    exists x, first_import done p = Some x /\
              match importNames !! i with
              | Some name => name = summary_name i x
              | None => i_specifiers x = []
              end.

(** The prefix of the round [k] of the naming loop: [k] underscores
    after the first prefix. *)
Fixpoint grown (k : nat) (prefix : string) : string :=
  match k with
  | O => prefix
  | S k' => grown k' (prefix +:+ "_")
  end.

(** An import without the name chosen for it. *)
Definition unnamed (x : ImportDecl) : ImportDecl :=
  {| i_id := i_id x; i_node := i_node x; i_start := i_start x; i_end := i_end x;
     i_passthrough := i_passthrough x; i_path := i_path x;
     i_specifiers := i_specifiers x; i_isEmpty := i_isEmpty x;
     i_isDefault := i_isDefault x; i_isBatch := i_isBatch x; i_isNamed := i_isNamed x;
     i_as := i_as x; i_next := i_next x; i_name := None |}.

(** The names of the user, as [getUniqueNames] copies them. *)
Definition given_names (userNames : dict) : dict :=
  fold_left (fun ns '(k, v) => put k v ns) userNames [].

(** What [getUniqueNames] keeps of [names] and [used]: the names of the
    user stay, every name is marked as used, so is every builtin, no name
    that is not the user's is a builtin, and two ids share a name only
    when the user gave it to both. *)
Definition unique_names (given : dict) (st : dict * list string) : Prop :=
  let '(names, used) := st in
  (forall k v, get k given = Some v -> get k names = Some v) /\
  (forall k v, get k names = Some v -> mem v used = true) /\
  (forall n, mem n builtins = true -> mem n used = true) /\
  (forall k v, get k names = Some v -> get k given = None -> mem v builtins = false) /\
  (forall k1 k2 v, k1 <> k2 -> get k1 names = Some v -> get k2 names = Some v ->
                   get k1 given = Some v /\ get k2 given = Some v).

(** Every stored module is stored under its own id, each of its imports
    carries the id that [resolveId] gives to its path, and none of them is
    the module itself. *)
Definition loaded (L : gmap string Module) : Prop :=
  forall k m, L !! k = Some m ->
    m_id m = k /\
    forall x, x ∈ imports m ->
              i_id x = Some (resolveId (i_path x) (m_relativePath m)) /\ import_id x <> k.

(** How often a name occurs in a list. *)
Definition occurrences (n : string) (l : list string) : nat :=
  length (List.filter (str_eqb n) l).

(** The names that [topLevelScopeConflicts] merges for one module. *)
Definition top_scope (externals : list ExternalModule) (mdl : Module) (ns : list string)
  : Prop :=
  exists unscoped,
    getUnscopedNames (names (m_ast mdl)) (imports mdl) (ast (m_ast mdl)) = Ok unscoped /\
    ns = builtins ++ _topLevelNames (m_ast mdl) ++ unscoped
         ++ map x_name externals ++ getRenamedImports mdl.

(** The merge of one list of names into the scope of the bundle. *)
Definition merge_names : list string * list string -> string -> list string * list string :=
  fun '(conflicts, inBundle) name =>
    if mem name inBundle then (set_key name conflicts, inBundle)
    else (conflicts, inBundle ++ [name]).

(** One link of a chain: the hash [a] is re-exported from [b]. *)
Definition chained (chains : dict) (a b : string) : Prop := get a chains = Some b.

(** The statements that [findImportsAndExports] turns into exports and
    into imports. *)
Definition is_export_node (n : node) : bool :=
  is_type (n_type n) ExportDefaultDeclaration || is_type (n_type n) ExportNamedDeclaration.

Definition is_import_node (n : node) : bool :=
  is_type (n_type n) ImportDeclaration
  || is_type (n_type n) ExportNamedDeclaration && bool_decide (is_Some (child "source" n)).

(** The first statement of a list that is no empty statement. *)
Definition first_statement (rest : list node) : option node :=
  List.find (fun n => negb (is_type (n_type n) EmptyStatement)) rest.

(** Where the text of a declaration ends for the rewriter: at the start
    of the first statement after it that is no empty statement, or at the
    end of the source. *)
Definition next_of (source : string) (rest : list node) : nat :=
  match first_statement rest with
  | Some n => n_start n
  | None => String.length source
  end.

(** The first part of the loop body of [findImportsAndExports]: the write
    to [previousDeclaration.next]. *)
Definition settle (node : node) (st : fie_state) : fie_state :=
  match f_previous st with
  | Some r =>
      let st' := set_next r (n_start node) false st in
      {| f_imports := f_imports st'; f_exports := f_exports st';
         f_previous := if is_type (n_type node) EmptyStatement then Some r else None;
         f_default := f_default st' |}
  | None => st
  end.

(** A declaration at position [k] of the statements read so far has its
    [next], or is the previous declaration [r]. *)
Definition settled (pre : list node) (k : nat) (next : option nat)
  (previous : option decl_ref) (r : decl_ref) : Prop :=
  match first_statement (drop (S k) pre) with
  | Some n => next = Some (n_start n) /\ previous <> Some r
  | None => previous = Some r
  end.

(** What the loop of [findImportsAndExports] keeps, after the statements
    [pre]. *)
Definition declarations_of (pre : list node) (st : fie_state) : Prop :=
  map e_node (f_exports st) = List.filter is_export_node pre /\
  map i_node (f_imports st) = List.filter is_import_node pre /\
  (forall j x, f_exports st !! j = Some x ->
               e_isFinal x = false /\
               exists k, pre !! k = Some (e_node x) /\
                         settled pre k (e_next x) (f_previous st) (ExportRef j)) /\
  (forall j x, f_imports st !! j = Some x ->
               if i_passthrough x
               then i_next x = None /\ f_previous st <> Some (ImportRef j)
               else exists k, pre !! k = Some (i_node x) /\
                              settled pre k (i_next x) (f_previous st) (ImportRef j)).

(** The inside of a string literal in single quotes: a backslash takes
    the character after it along, and no quote, backslash, line feed or
    carriage return stands alone. *)
Fixpoint literal_body (s : string) : bool :=
  match s with
  | EmptyString => true
  | String c s' =>
      if Ascii.eqb c "\"%char
      then match s' with
           | String _ s'' => literal_body s''
           | EmptyString => false
           end
      else negb (Ascii.eqb c "'"%char) && negb (Ascii.eqb c "010"%char)
           && negb (Ascii.eqb c "013"%char) && literal_body s'
  end.

From Stdlib Require DecimalNat.

(** A module as [combine] leaves it when it has written its body. *)
Definition same_module (m m' : Module) : Prop :=
  m_id m' = m_id m /\ imports m' = imports m /\ doesExport m' = doesExport m.

(** Some import of the external module [id] in the modules [ms] has a
    specifier with the property [p]. *)
Definition imported_as (p : Specifier -> bool) (ms : list Module) (id : string) : bool :=
  existsb (fun mdl =>
             existsb (fun x => str_eqb id (import_id x) && existsb p (i_specifiers x))
                     (imports mdl))
          ms.

(** An external module with more needs. *)
Definition need_more (byDefault named : bool) (e : ExternalModule) : ExternalModule :=
  {| x_id := x_id e; x_name := x_name e;
     needsDefault := needsDefault e || byDefault;
     needsNamed := needsNamed e || named |}.

Definition is_default_node (n : node) : bool :=
  is_type (n_type n) ExportDefaultDeclaration.

(** The failures of the engine on a tree that lacks a property. *)
Definition type_error {A : Type} (r : result A) : Prop :=
  forall e, r = Err e -> exists message, e = TypeError message.

(** What the loop of [findImportsAndExports] keeps of [mod.defaultExport],
    after the statements [pre]. *)
Definition default_of (pre : list node) (st : fie_state) : Prop :=
  (forall j x, f_exports st !! j = Some x ->
               e_isDefault x = is_default_node (e_node x) /\ e_node x ∈ pre) /\
  match f_default st with
  | None => List.filter is_default_node pre = []
  | Some i => length (List.filter is_default_node pre) = 1 /\
              exists x, f_exports st !! i = Some x /\ e_isDefault x = true
  end.

(** A link that [resolveChains] may write: the module [mdl] exports, in
    an export list, the local name of a specifier that it imports. *)
Definition chain_link (ms : list Module) (k v : string) : Prop :=
  exists mdl x sp e specifiers,
    mdl ∈ ms /\ x ∈ imports mdl /\ sp ∈ i_specifiers x /\ sp_isBatch sp = false /\
    e ∈ exports mdl /\ e_specifiers e = Some specifiers /\ sp_as sp ∈ specifiers /\
    k = m_id mdl +:+ "@" +:+ sp_as sp /\
    v = import_id x +:+ "@" +:+ sp_name sp.

(** A module whose namespace is imported. *)
Definition exports_namespace (imported : bool) (m : Module) : Module :=
  {| m_id := m_id m; m_source := m_source m; m_relativePath := m_relativePath m;
     m_path := m_path m; body := body m; m_ast := m_ast m;
     imports := imports m; exports := exports m;
     defaultExport := defaultExport m;
     identifierReplacements := identifierReplacements m;
     doesExport := doesExport m; m_name := m_name m;
     _exportsNamespace := _exportsNamespace m || imported |}.

(** The loops of [resolveChains] over the specifiers of an import and
    over the imports of a module. *)
Definition origin_of_specifier (x : ImportDecl)
  : dict * list Module -> Specifier -> dict * list Module :=
  fun '(origin, store) s =>
    if sp_isBatch s
    then (origin, set_exportsNamespace (import_id x) store)
    else (put (sp_as s) (import_id x +:+ "@" +:+ sp_name s) origin, store).

Definition origin_of_import (acc : dict * list Module) (x : ImportDecl)
  : dict * list Module :=
  fold_left (origin_of_specifier x) (i_specifiers x) acc.

(** Some import that is no export with a source has a specifier with the
    property [p] and the local name [n]. *)
Definition binds (p : Specifier -> bool) (imports : list ImportDecl) (n : string) : Prop :=
  exists x s, x ∈ imports /\ i_passthrough x = false /\ s ∈ i_specifiers x /\
              p s = true /\ sp_as s = n.

(** The export [x] exports the name [k]: it is no default export, and
    declares [k] or lists it. *)
Definition exports_name (x : ExportDecl) (k : string) : Prop :=
  e_isDefault x = false /\
  (e_hasDeclaration x = true /\ str (e_name x) = k
   \/ e_hasDeclaration x = false /\ exists specifiers, e_specifiers x = Some specifiers
                                                       /\ k ∈ specifiers).

(** * Properties *)

(** ** Path resolution *)

Lemma str_eqb_eq (a b : string) : str_eqb a b = true <-> a = b.
Proof. unfold str_eqb. apply String.eqb_eq. Qed.

Lemma str_eqb_refl (a : string) : str_eqb a a = true.
Proof. apply str_eqb_eq. reflexivity. Qed.

Lemma str_eqb_neq (a b : string) : str_eqb a b = false <-> a <> b.
Proof. unfold str_eqb. apply String.eqb_neq. Qed.

Lemma removelast_firstn_len {A : Type} (l : list A) :
  removelast l = firstn (length l - 1) l.
Proof.
  induction l as [|a l IH]; [reflexivity|].
  destruct l as [|b l]; [reflexivity|].
  change (removelast (a :: b :: l)) with (a :: removelast (b :: l)).
  rewrite IH. simpl. rewrite Nat.sub_0_r. reflexivity.
Qed.

Lemma removelast_firstn_sub {A : Type} (l : list A) (n : nat) :
  removelast (firstn (length l - n) l) = firstn (length l - S n) l.
Proof.
  rewrite removelast_firstn_len.
  rewrite firstn_firstn, length_firstn.
  f_equal. lia.
Qed.

Lemma shift_dotdot_repeat (k : nat) (tl dir : list string) :
  head_is ".." tl = false ->
  shift_dotdot (repeat ".." k ++ tl) dir = (tl, Nat.iter k (@removelast string) dir).
Proof.
  intros Htl. revert dir. induction k as [|k IH]; intros dir.
  - simpl. destruct tl as [|h t]; [reflexivity|].
    simpl in *. rewrite Htl. reflexivity.
  - simpl repeat. simpl app. simpl shift_dotdot.
    rewrite IH. f_equal.
    clear. induction k as [|k IH]; [reflexivity|].
    simpl. rewrite IH. reflexivity.
Qed.

Lemma iter_removelast_firstn (k : nat) (l : list string) :
  Nat.iter k (@removelast string) (removelast l) = firstn (length l - 1 - k) l.
Proof.
  induction k as [|k IH].
  - simpl. rewrite Nat.sub_0_r. apply removelast_firstn_len.
  - simpl. rewrite IH.
    replace (length l - 1 - k) with (length l - S k) by lia.
    rewrite removelast_firstn_sub. f_equal. lia.
Qed.

Lemma shift_dot_repeat (m : nat) (rest : list string) :
  head_is "." rest = false ->
  shift_dot (repeat "." m ++ rest) = rest.
Proof.
  intros Hr. induction m as [|m IH].
  - simpl. destruct rest as [|h t]; [reflexivity|].
    simpl in *. rewrite Hr. reflexivity.
  - simpl. exact IH.
Qed.

Lemma head_is_dotdot_dots (m : nat) (rest : list string) :
  (m = 0 -> head_is ".." rest = false) ->
  head_is ".." (repeat "." m ++ rest) = false.
Proof.
  destruct m as [|m]; intros H; [apply H; reflexivity | reflexivity].
Qed.

Lemma split_on_slashify (s : string) :
  splitPath (slashify s) = splitPath s.
Proof.
  unfold splitPath, slashify.
  induction s as [|c s IH]; [reflexivity|].
  simpl. rewrite IH.
  destruct (Ascii.eqb c "\"%char) eqn:E; [|reflexivity].
  apply Ascii.eqb_eq in E. subst c. reflexivity.
Qed.

Lemma first_is_dot_slashify (s : string) :
  first_is_dot (slashify s) = first_is_dot s.
Proof.
  destruct s as [|c s]; [reflexivity|].
  simpl. destruct (Ascii.eqb c "\"%char) eqn:E; [|reflexivity].
  apply Ascii.eqb_eq in E. subst c. reflexivity.
Qed.

Lemma shift_one_dot_id (l : list string) :
  head_is "." l = false -> shift_one_dot l = l.
Proof.
  destruct l as [|h t]; [reflexivity|]. simpl. intros ->. reflexivity.
Qed.

Lemma resolveId_relative (importPath importerPath : string) :
  first_is_dot importPath = true ->
  resolveId importPath importerPath =
  let '(ip, er) := shift_dotdot (shift_one_dot (splitPath importPath))
                     (removelast (splitPath importerPath)) in
  strip_js (join "/" (er ++ shift_dot ip)).
Proof.
  intros H. unfold resolveId. rewrite H. simpl negb. cbv iota.
  cbv zeta. destruct (shift_dotdot _ _). reflexivity.
Qed.

(** Every segment list has a reading of the required shape. *)
Lemma segments_shape (parts : list string) :
  exists (d k m : nat) (rest : list string), leading_shape parts d k m rest.
Proof.
  unfold leading_shape.
  assert (Hdots : forall l : list string, exists m rest,
             l = repeat "." m ++ rest /\ head_is "." rest = false /\
             (head_is "." l = false -> m = 0)).
  { induction l as [|h t IH].
    - exists 0, []. repeat split; reflexivity.
    - destruct (str_eqb h ".") eqn:E.
      + apply str_eqb_eq in E. subst h.
        destruct IH as (m & rest & -> & Hr & _).
        exists (S m), rest. repeat split; [exact Hr | discriminate].
      + exists 0, (h :: t). repeat split; exact E. }
  assert (Hups : forall l : list string, exists k m rest,
             l = repeat ".." k ++ repeat "." m ++ rest /\
             head_is "." rest = false /\ (m = 0 -> head_is ".." rest = false) /\
             (head_is "." l = false -> k = 0 -> m = 0)).
  { induction l as [|h t IH].
    - exists 0, 0, []. repeat split; reflexivity.
    - destruct (str_eqb h "..") eqn:E.
      + apply str_eqb_eq in E. subst h.
        destruct IH as (k & m & rest & -> & Hr & Hm & _).
        exists (S k), m, rest. repeat split; try assumption. discriminate.
      + destruct (Hdots (h :: t)) as (m & rest & Heq & Hr & Hz).
        exists 0, m, rest. split; [exact Heq|]. split; [exact Hr|].
        split; [|intros H _; exact (Hz H)].
        intros ->. simpl in Heq. subst rest. exact E. }
  destruct parts as [|h t].
  - exists 0, 0, 0, []. repeat split; try reflexivity. lia.
  - destruct (str_eqb h ".") eqn:E.
    + apply str_eqb_eq in E. subst h.
      destruct (Hups t) as (k & m & rest & -> & Hr & Hm & _).
      exists 1, k, m, rest. repeat split; try assumption; try lia.
    + destruct (Hups (h :: t)) as (k & m & rest & Heq & Hr & Hm & Hz).
      exists 0, k, m, rest. repeat split; try assumption; try lia.
      intros _. apply Hz. exact E.
Qed.

Lemma shape_resolves (d k m : nat) (rest dir : list string) :
  d <= 1 -> (d = 0 -> k = 0 -> m = 0) ->
  head_is "." rest = false -> (m = 0 -> head_is ".." rest = false) ->
  shift_dotdot (shift_one_dot (repeat "." d ++ repeat ".." k ++ repeat "." m ++ rest)) dir
  = (repeat "." m ++ rest, Nat.iter k (@removelast string) dir).
Proof.
  intros Hd Hcanon Hrest Hm.
  assert (Hhead : head_is ".." (repeat "." m ++ rest) = false)
    by (apply head_is_dotdot_dots; exact Hm).
  destruct d as [|[|d]]; [| |lia].
  - destruct k as [|k].
    + rewrite (Hcanon eq_refl eq_refl) in *. simpl repeat. simpl app.
      rewrite shift_one_dot_id by exact Hrest.
      apply (shift_dotdot_repeat 0). exact (Hm eq_refl).
    + rewrite shift_one_dot_id by reflexivity.
      apply shift_dotdot_repeat. exact Hhead.
  - change (shift_one_dot (repeat "." 1 ++ repeat ".." k ++ repeat "." m ++ rest))
      with (repeat ".." k ++ repeat "." m ++ rest).
    apply shift_dotdot_repeat. exact Hhead.
Qed.

(** The older helper [resolve]: on paths in which no ['\'] occurs it
    splits as [resolveId] does, and the results agree unless a leading ["."]
    is followed by [".."]. *)
Lemma split_slash_only (s : string) :
  no_backslash s = true ->
  split_on (fun c => Ascii.eqb c "/"%char) s = splitPath s.
Proof.
  unfold splitPath, pathSplitRE. induction s as [|c s IH]; [reflexivity|].
  simpl. intros H. apply andb_true_iff in H as [Hc Hs].
  apply negb_true_iff in Hc. rewrite Hc, orb_false_r, (IH Hs). reflexivity.
Qed.

Lemma resolve_agrees (importPath importerPath : string) (d k m : nat) (rest : list string) :
  no_backslash importPath = true -> no_backslash importerPath = true ->
  leading_shape (splitPath importPath) d k m rest -> (d = 1 -> k = 0) ->
  resolve importPath importerPath = resolveId importPath importerPath.
Proof.
  intros Hip Her (Hsplit & Hd & Hcanon & Hrest & Hm) Hk.
  unfold resolve, resolveId. destruct (negb (first_is_dot importPath)); [reflexivity|].
  rewrite !split_slash_only by assumption. rewrite Hsplit.
  generalize (removelast (splitPath importerPath)). intros dir.
  destruct d as [|[|d]]; [| |lia].
  - rewrite shift_one_dot_id; [reflexivity|].
    destruct k as [|k]; [|reflexivity].
    rewrite (Hcanon eq_refl eq_refl). exact Hrest.
  - rewrite (Hk eq_refl).
    change (shift_one_dot (repeat "." 1 ++ repeat ".." 0 ++ repeat "." m ++ rest))
      with (repeat "." m ++ rest).
    change (repeat "." 1 ++ repeat ".." 0 ++ repeat "." m ++ rest)
      with ("." :: repeat "." m ++ rest).
    rewrite (shift_dotdot_repeat 0 (repeat "." m ++ rest))
      by (apply head_is_dotdot_dots; exact Hm).
    reflexivity.
Qed.

Lemma resolve_differs :
  resolve ".\b" "x\a.js" = ".\b" /\ resolveId ".\b" "x\a.js" = "x/b" /\
  resolve "./../b" "x/y/a.js" = "x/y/../b" /\ resolveId "./../b" "x/y/a.js" = "x/b".
Proof. repeat split; vm_compute; reflexivity. Qed.



(** ** The reassignment guard *)

Lemma scope_contains_defined (names : scope_names) (scope : scope_ref) (name : string)
  (ignoreTopLevel : bool) :
  scope <> [] ->
  scope_contains names scope name ignoreTopLevel
  = Ok (contains names scope name ignoreTopLevel).
Proof. destruct scope; [congruence | reflexivity]. Qed.

(** Decides the type tests between constructors. *)
Ltac type_tests :=
  repeat match goal with
         | |- context [is_type ?a ?b] =>
             let v := eval vm_compute in (is_type a b) in
             lazymatch v with
             | true => change (is_type a b) with true
             | false => change (is_type a b) with false
             end
         end.

(** What [disallowIllegalReassignment] answers for an assignment or update
    whose target is an identifier. *)
Lemma disallow_identifier (names : scope_names) (nd assignee : node)
  (importedBindings importedNamespaces : list string) (scope : scope_ref) :
  assignee_of nd = Some (Ok assignee) ->
  n_type assignee = Identifier ->
  scope <> [] ->
  disallowIllegalReassignment names nd importedBindings importedNamespaces scope
  = if mem (n_name assignee) importedBindings
         && negb (contains names scope (n_name assignee) false)
    then Err (Error (bindingMessage +:+ "`" +:+ n_name assignee +:+ "`"))
    else Ok tt.
Proof.
  intros Ha Ht Hs. unfold disallowIllegalReassignment. rewrite Ha.
  cbn -[mem contains scope_contains]. rewrite !Ht. type_tests.
  cbn -[mem contains scope_contains]. rewrite !Ht. type_tests.
  cbn -[mem contains scope_contains].
  destruct (mem (n_name assignee) importedBindings); [|reflexivity].
  rewrite scope_contains_defined by exact Hs. cbn -[mem contains].
  destruct (contains names scope (n_name assignee) false); reflexivity.
Qed.

(** The same for a target that is a member expression on an identifier. *)
Lemma disallow_member (names : scope_names) (nd assignee object : node)
  (importedBindings importedNamespaces : list string) (scope : scope_ref) :
  assignee_of nd = Some (Ok assignee) ->
  n_type assignee = MemberExpression ->
  child "object" assignee = Some object ->
  n_type object = Identifier ->
  scope <> [] ->
  disallowIllegalReassignment names nd importedBindings importedNamespaces scope
  = if mem (n_name object) importedNamespaces
         && negb (contains names scope (n_name object) false)
    then Err (Error (namespaceMessage +:+ "`" +:+ n_name object +:+ "`"))
    else Ok tt.
Proof.
  intros Ha Ht Ho Hot Hs. unfold disallowIllegalReassignment. rewrite Ha.
  cbn -[mem contains scope_contains child]. rewrite !Ht. type_tests.
  cbn -[mem contains scope_contains child]. rewrite Ho.
  cbn -[mem contains scope_contains child]. rewrite !Hot. type_tests.
  cbn -[mem contains scope_contains child].
  destruct (mem (n_name object) importedNamespaces); [|reflexivity].
  rewrite scope_contains_defined by exact Hs. cbn -[mem contains].
  destruct (contains names scope (n_name object) false); reflexivity.
Qed.

(** The scenarios, run through the whole single-file transpile. *)

Lemma S3_run :
  transpile_sample cjs S3_source S3_ast (plain_options true)
  = Err (Error "Cannot reassign imported binding `x`").
Proof. vm_compute. reflexivity. Qed.

Lemma namespace_member_run :
  transpile_sample cjs ns_source ns_ast (plain_options true)
  = Err (Error "Cannot reassign imported binding of namespace `ns`").
Proof. vm_compute. reflexivity. Qed.

Lemma shadowed_parameter_run :
  transpile_sample cjs shadow_source shadow_ast (plain_options true)
  = Ok ("'use strict';" +:+ nl +:+ nl +:+ "var a = require('a');" +:+ nl +:+ nl
        +:+ "function f(x) { x = 1; }").
Proof. vm_compute. reflexivity. Qed.

Lemma shadow_annotation :
  (a ← annotateAst shadow_ast; Ok (names a)) = Ok shadow_names.
Proof. vm_compute. reflexivity. Qed.

Lemma let_annotation :
  (a ← annotateAst let_ast; Ok (names a)) = Ok let_names.
Proof. vm_compute. reflexivity. Qed.

Lemma let_in_block_run :
  transpile_sample cjs let_source let_ast (plain_options true)
  = Err (Error "Cannot reassign imported binding `x`").
Proof. vm_compute. reflexivity. Qed.

Lemma S2_run :
  transpile_sample cjs S2_source S2_ast (plain_options true)
  = Ok ("'use strict';" +:+ nl +:+ nl
        +:+ "var x = 1; exports.x = x = 2; x++, exports.x = x;").
Proof. vm_compute. reflexivity. Qed.

Lemma exports_renamed_run :
  transpile_sample cjs exports_source exports_ast (plain_options true)
  = Ok ("'use strict';" +:+ nl +:+ nl +:+ "var _exports = 1;").
Proof. vm_compute. reflexivity. Qed.

(** Entering a node that is not skipped and is no variable declaration
    checks it, in the scope the node opens or else the current one. *)
Lemma enter_checks (names : scope_names) (ast : node) (replacements : dict)
  (bindings namespaces : list string) (exportNames : option dict)
  (n : node) (parent : option node) (st : trav_state) (e : error) :
  _skip n = false ->
  is_type (n_type n) VariableDeclaration = false ->
  disallowIllegalReassignment names n bindings namespaces
    (match is_set (_scope n) with Some s => s | None => t_scope st end) = Err e ->
  traverseAst_enter names ast replacements bindings namespaces exportNames n parent st
  = Err e.
Proof.
  intros Hskip Hvar Hd. unfold traverseAst_enter. rewrite Hskip, Hvar.
  destruct (is_set (_scope n)) as [s|]; [|destruct (is_set (_blockScope n))];
    cbn [t_scope] in *; rewrite Hd; reflexivity.
Qed.






(** ** The order of modules *)

Section sorting.
Variable L : gmap string Module.
Hypothesis Hown : own_ids L.

Let edge : string -> string -> Prop := imports_local L.

Lemma ids_app (l1 l2 : list Module) : ids (l1 ++ l2) = ids l1 ∪ ids l2.
Proof. unfold ids. rewrite fmap_app. apply list_to_set_app_L. Qed.

Lemma ids_elem (l : list Module) (n : Module) : n ∈ l -> m_id n ∈ ids l.
Proof. intros H. unfold ids. apply elem_of_list_to_set, list_elem_of_fmap. eauto. Qed.

Lemma ids_elem_inv (l : list Module) (d : string) :
    d ∈ ids l -> exists i m, l !! i = Some m /\ m_id m = d.
Proof.
    unfold ids. intros H. apply elem_of_list_to_set, list_elem_of_fmap in H.
    destruct H as (m & -> & Hm). apply list_elem_of_lookup in Hm as [i Hi]. eauto.
Qed.

Lemma visited_nil root seen ord : visited L root seen ord [].
Proof.
    split.
    - intros n H. by apply elem_of_nil in H.
    - intros j n d H. by rewrite lookup_nil in H.
Qed.

Lemma visited_app root seen ord new1 new2 :
    visited L root seen ord new1 ->
    visited L root (seen ∪ ids new1) (ord ++ new1) new2 ->
    visited L root seen ord (new1 ++ new2).
Proof.
    intros [H1a H1b] [H2a H2b]. split.
    - intros n Hn. apply elem_of_app in Hn as [Hn|Hn]; eauto.
    - intros j n d Hj He.
      destruct (decide (j < length new1)) as [Hlt|Hge].
      + rewrite lookup_app_l in Hj by exact Hlt.
        destruct (H1b j n d Hj He) as [H|[H|[H Hr]]].
        * left. rewrite take_app_le by lia. exact H.
        * right. left. exact H.
        * right. right. split; [|exact Hr].
          rewrite drop_app_le by lia. rewrite ids_app. set_solver.
      + rewrite lookup_app_r in Hj by lia.
        destruct (H2b _ n d Hj He) as [H|[H|[H Hr]]].
        * left. rewrite take_app_ge by lia. rewrite app_assoc. exact H.
        * right. left. rewrite ids_app in H. set_solver.
        * right. right. split; [|exact Hr].
          rewrite drop_app_ge by lia. exact H.
Qed.

Lemma visited_root (root root' : string -> Prop) seen ord new :
    (forall r, root r -> root' r) ->
    visited L root seen ord new -> visited L root' seen ord new.
Proof.
    intros Hr [Ha Hb]. split; [|exact Hb].
    intros n Hn. destruct (Ha n Hn) as (Hl & r & Hrr & Hreach). eauto.
Qed.

Section loop.
Variable fuel : nat.
Hypothesis IH : forall mo seen ord seen' ord',
        visit fuel L mo (seen, ord) = Some (seen', ord') ->
        ids ord ⊆ seen ->
        (forall m, mo = Some m -> L !! m_id m = Some m) ->
        exists new, ord' = ord ++ new /\ seen' = seen ∪ ids new /\
                    (forall m, mo = Some m -> m_id m ∈ seen') /\
                    visited L (fun r => exists m, mo = Some m /\ m_id m = r) seen ord new.

Lemma visit_imports_spec xs seen ord seen' ord' :
      visit_imports (visit fuel L) L xs (seen, ord) = Some (seen', ord') ->
      ids ord ⊆ seen ->
      exists new, ord' = ord ++ new /\ seen' = seen ∪ ids new /\
                  (forall x, x ∈ xs -> is_Some (L !! import_id x) -> import_id x ∈ seen') /\
                  visited L (fun r => exists x, x ∈ xs /\ import_id x = r /\ is_Some (L !! r))
                    seen ord new.
Proof.
      revert seen ord. induction xs as [|x xs IHxs]; intros seen ord Hv Hsub.
      - simpl in Hv. injection Hv as <- <-. exists [].
        rewrite app_nil_r. split; [done|]. split; [set_solver|].
        split; [|apply visited_nil]. intros x H. by apply elem_of_nil in H.
      - simpl in Hv.
        destruct (visit fuel L (L !! import_id x) (seen, ord)) as [[s1 o1]|] eqn:E1;
          [|discriminate].
        assert (Hlook : forall m, L !! import_id x = Some m -> L !! m_id m = Some m).
        { intros m Hm. rewrite (Hown _ _ Hm). exact Hm. }
        destruct (IH _ _ _ _ _ E1 Hsub Hlook) as (new1 & -> & -> & Hin1 & Hv1).
        destruct (IHxs _ _ Hv) as (new2 & -> & -> & Hin2 & Hv2).
        { rewrite ids_app. set_solver. }
        exists (new1 ++ new2). split; [by rewrite app_assoc|].
        split; [rewrite ids_app; set_solver|]. split.
        + intros y Hy Hsome. apply elem_of_cons in Hy as [->|Hy].
          * destruct Hsome as [m Hm]. specialize (Hin1 m Hm).
            rewrite (Hown _ _ Hm) in Hin1. set_solver.
          * apply (Hin2 y Hy Hsome).
        + apply visited_app.
          * eapply visited_root; [|exact Hv1].
            intros r (m & Hm & <-). exists x. split; [left|].
            rewrite (Hown _ _ Hm). split; [done|]. rewrite <- (Hown _ _ Hm) at 1.
            rewrite (Hown _ _ Hm). eauto.
          * eapply visited_root; [|exact Hv2].
            intros r (y & Hy & Hr & Hs). exists y. split; [by right|done].
Qed.
End loop.

Lemma visit_spec fuel : forall mo seen ord seen' ord',
      visit fuel L mo (seen, ord) = Some (seen', ord') ->
      ids ord ⊆ seen ->
      (forall m, mo = Some m -> L !! m_id m = Some m) ->
      exists new, ord' = ord ++ new /\ seen' = seen ∪ ids new /\
                  (forall m, mo = Some m -> m_id m ∈ seen') /\
                  visited L (fun r => exists m, mo = Some m /\ m_id m = r) seen ord new.
Proof.
    induction fuel as [|fuel IH]; intros mo seen ord seen' ord' Hv Hsub Hmo;
      [discriminate|].
    simpl in Hv. destruct mo as [m|].
    - destruct (decide (m_id m ∈ seen)) as [Hin|Hnin].
      + injection Hv as <- <-. exists []. rewrite app_nil_r.
        split; [done|]. split; [set_solver|]. split; [|apply visited_nil].
        intros m' [= <-]. exact Hin.
      + destruct (visit_imports (visit fuel L) L (imports m) ({[m_id m]} ∪ seen, ord))
          as [[s1 o1]|] eqn:E; [|discriminate].
        injection Hv as <- <-.
        destruct (visit_imports_spec fuel IH _ _ _ _ _ E) as (new & -> & -> & Hin & Hvis);
          [set_solver|].
        pose proof (Hmo m eq_refl) as Hm.
        assert (Hedge : forall r, (exists x, x ∈ imports m /\ import_id x = r
                                             /\ is_Some (L !! r)) -> edge (m_id m) r).
        { intros r (x & Hx & Hr & Hs). exists m, x. done. }
        exists (new ++ [m]). split; [by rewrite app_assoc|].
        split; [rewrite ids_app; unfold ids at 3; simpl; set_solver|].
        split; [intros m' [= <-]; set_solver|].
        destruct Hvis as [Ha Hb]. split.
        * intros n Hn. apply elem_of_app in Hn as [Hn|Hn].
          -- destruct (Ha n Hn) as (Hl & r & Hr & Hreach). split; [exact Hl|].
             exists (m_id m). split; [eauto|].
             eapply rtc_l; [apply Hedge; exact Hr | exact Hreach].
          -- apply list_elem_of_singleton in Hn as ->. split; [exact Hm|].
             exists (m_id m). split; [eauto | apply rtc_refl].
        * intros j n d Hj He.
          destruct (decide (j < length new)) as [Hlt|Hge].
          -- rewrite lookup_app_l in Hj by exact Hlt.
             destruct (Hb j n d Hj He) as [H|[[H1 H2]|[H Hr]]].
             ++ left. rewrite take_app_le by lia. exact H.
             ++ destruct (decide (d = m_id m)) as [->|Hne].
                ** right. right. split.
                   --- rewrite drop_app_le by lia. rewrite ids_app.
                       unfold ids at 2. simpl. set_solver.
                   --- destruct (Ha n) as (_ & r & Hr & Hreach).
                       { eapply list_elem_of_lookup_2. exact Hj. }
                       eapply rtc_l; [apply Hedge; exact Hr | exact Hreach].
                ** right. left. set_solver.
             ++ right. right. split; [|exact Hr].
                rewrite drop_app_le by lia. rewrite ids_app. set_solver.
          -- rewrite lookup_app_r in Hj by lia.
             assert (j = length new) as ->.
             { apply lookup_lt_Some in Hj. simpl in Hj. lia. }
             rewrite Nat.sub_diag in Hj. injection Hj as <-.
             destruct He as (m' & x & Hm' & Hx & Hd & Hs).
             rewrite Hm in Hm'. injection Hm' as <-.
             pose proof (Hin x Hx) as Hseen. rewrite Hd in Hseen. specialize (Hseen Hs).
             destruct (decide (d = m_id m)) as [->|Hne].
             ++ right. right. split; [|apply rtc_refl].
                rewrite drop_app_length. unfold ids. simpl. set_solver.
             ++ destruct (decide (d ∈ ids ord)) as [Ho|Ho].
                ** left. rewrite !ids_app. set_solver.
                ** destruct (decide (d ∈ seen)) as [Hs'|Hs'].
                   --- right. left. done.
                   --- left. rewrite take_app_length. rewrite ids_app. set_solver.
    - injection Hv as <- <-. exists []. rewrite app_nil_r.
      split; [done|]. split; [set_solver|]. split; [|apply visited_nil].
      intros m [=].
Qed.

Lemma visit_mono fuel : forall mo st st',
      visit fuel L mo st = Some st' -> st.1 ⊆ st'.1.
Proof.
    induction fuel as [|fuel IH]; intros mo st st' Hv; [discriminate|].
    simpl in Hv. destruct mo as [m|]; [|by injection Hv as <-].
    destruct (decide (m_id m ∈ st.1)); [by injection Hv as <-|].
    destruct (visit_imports _ _ _ _) as [st1|] eqn:E; [|discriminate].
    injection Hv as <-. simpl.
    assert (Hloop : forall xs s s', visit_imports (visit fuel L) L xs s = Some s' ->
                                    s.1 ⊆ s'.1).
    { induction xs as [|x xs IHxs]; intros s s' H; simpl in H.
      - by injection H as <-.
      - destruct (visit fuel L (L !! import_id x) s) as [s1|] eqn:E1; [|discriminate].
        apply IH in E1. apply IHxs in H. set_solver. }
    apply Hloop in E. simpl in E. set_solver.
Qed.

  (** With as much fuel as there are unseen modules, and one more, the
      visit comes back. *)
Lemma visit_total fuel : forall mo st,
      size (dom L ∖ st.1) < fuel ->
      (forall m, mo = Some m -> L !! m_id m = Some m) ->
      is_Some (visit fuel L mo st).
Proof.
    induction fuel as [|fuel IH]; intros mo st Hsize Hmo; [lia|].
    simpl. destruct mo as [m|]; [|eauto].
    destruct (decide (m_id m ∈ st.1)) as [Hin|Hnin]; [eauto|].
    assert (Hsmall : size (dom L ∖ ({[m_id m]} ∪ st.1)) < fuel).
    { assert (dom L ∖ ({[m_id m]} ∪ st.1) ⊂ dom L ∖ st.1) as Hsub.
      { assert (m_id m ∈ dom L) by (apply elem_of_dom; rewrite (Hmo m eq_refl); eauto).
        set_solver. }
      apply subset_size in Hsub. lia. }
    assert (Hloop : forall xs s, size (dom L ∖ s.1) < fuel ->
                                 is_Some (visit_imports (visit fuel L) L xs s)).
    { induction xs as [|x xs IHxs]; intros s Hs; simpl; [eauto|].
      destruct (IH (L !! import_id x) s Hs) as [s1 E1].
      { intros m' Hm'. rewrite (Hown _ _ Hm'). exact Hm'. }
      rewrite E1. apply IHxs. apply visit_mono in E1.
      assert (dom L ∖ s1.1 ⊆ dom L ∖ s.1) as Hsub by set_solver.
      apply subseteq_size in Hsub. lia. }
    destruct (Hloop (imports m) ({[m_id m]} ∪ st.1, st.2) Hsmall) as [s' ->]. eauto.
Qed.
End sorting.





(** ** Errors while loading a bundle *)

Lemma forEach_app {A S : Type} (f : A -> S -> result S) (l1 l2 : list A) (st : S) :
  forEach f (l1 ++ l2) st = st' ← forEach f l1 st; forEach f l2 st'.
Proof.
  revert st. induction l1 as [|a l1 IH]; intros st; [reflexivity|].
  simpl. destruct (f a st) as [st1|e]; [apply IH | reflexivity].
Qed.

(** A failing step fails the whole loop. *)
Lemma forEach_step_fails {A S : Type} (f : A -> S -> result S) (l1 l2 : list A) (a : A)
  (st st1 : S) (e : error) :
  forEach f l1 st = Ok st1 -> f a st1 = Err e ->
  forEach f (l1 ++ a :: l2) st = Err e.
Proof.
  intros H1 H2. rewrite forEach_app, H1. simpl. rewrite H2. reflexivity.
Qed.

Section loading.
Variable acorn_parse : string -> result (node * list comment).
Variable guessIndent : string -> string.
Variable stat : string -> result unit.
Variable readFile : string -> result string.
Variable path_resolve : list string -> string.
Variable path_relative : string -> string -> string.
Variable cwd : string.

End loading.


Lemma entry_missing_reported :
  lone_bundle None "c" = Err (Error "Could not find entry module (c)").
Proof. vm_compute. reflexivity. Qed.


(** ** Induction on trees *)

Lemma node_induction (P : node -> Prop) :
  (forall a x cs, Forall P cs -> P (Node a x cs)) -> forall n, P n.
Proof.
  intros H. fix IH 1. intros [a x cs]. apply H.
  induction cs as [|c cs IHcs]; constructor; [apply IH | exact IHcs].
Qed.

(** ** The universal wrapper needs a name *)

Lemma untyped_bind {A B : Type} (r : result A) (k : A -> result B) :
  untyped_result r -> (forall a, untyped_result (k a)) -> untyped_result (r ≫= k).
Proof.
  intros Hr Hk e H. destruct r as [a|e']; simpl in H.
  - exact (Hk a e H).
  - injection H as <-. apply Hr. reflexivity.
Qed.

Lemma untyped_ok {A : Type} (a : A) : untyped_result (Ok a).
Proof. intros e H. discriminate. Qed.

Lemma untyped_err {A : Type} (e : error) : untyped e -> untyped_result (@Err A e).
Proof. intros He e' H. injection H as <-. exact He. Qed.

Lemma untyped_forEach {A S : Type} (f : A -> S -> result S) (l : list A) (st : S) :
  (forall a s, untyped_result (f a s)) -> untyped_result (forEach f l st).
Proof.
  intros Hf. revert st. induction l as [|a l IH]; intros st; simpl.
  - apply untyped_ok.
  - apply untyped_bind; [apply Hf | intros s; apply IH].
Qed.

Lemma untyped_assignee (nd : node) (r : result node) :
  assignee_of nd = Some r -> untyped_result r.
Proof.
  unfold assignee_of. intros H e He.
  destruct (n_type nd); try discriminate; injection H as H; subst r;
    destruct (child _ nd); try discriminate; injection He as <-; exact I.
Qed.

Create HintDb untyped.

Ltac untyped_cases :=
  repeat first
    [ solve [auto with untyped nocore]
    | apply untyped_ok
    | apply untyped_err; exact I
    | match goal with
      | H : assignee_of _ = Some ?r |- untyped_result ?r => exact (untyped_assignee _ _ H)
      end
    | apply untyped_bind; [|intros]
    | apply untyped_forEach; intros
    | match goal with
      | |- untyped_result (match ?x with _ => _ end) => destruct x eqn:?
      | |- untyped_result (if ?c then _ else _) => destruct c
      | |- untyped_result (let '(_, _) := ?p in _) => destruct p
      end ].

Lemma untyped_scope_contains names scope name ign :
  untyped_result (scope_contains names scope name ign).
Proof. unfold scope_contains. untyped_cases. Qed.
#[local] Hint Resolve untyped_scope_contains : untyped.

Lemma untyped_scope_parent scope : untyped_result (scope_parent scope).
Proof. unfold scope_parent. untyped_cases. Qed.
#[local] Hint Resolve untyped_scope_parent : untyped.

Lemma untyped_disallow names nd bindings namespaces scope :
  untyped_result (disallowIllegalReassignment names nd bindings namespaces scope).
Proof.
  unfold disallowIllegalReassignment. untyped_cases.
Qed.
#[local] Hint Resolve untyped_disallow : untyped.

Lemma untyped_rewrite names nd exports top st :
  untyped_result (rewriteExportAssignments names nd exports top st).
Proof.
  unfold rewriteExportAssignments. untyped_cases.
Qed.
#[local] Hint Resolve untyped_rewrite : untyped.

Lemma untyped_replace names nd replacements scope :
  untyped_result (replaceIdentifiers names nd replacements scope).
Proof.
  unfold replaceIdentifiers. untyped_cases.
Qed.
#[local] Hint Resolve untyped_replace : untyped.

Lemma untyped_enter names ast replacements bindings namespaces exportNames n parent st :
  untyped_result
    (traverseAst_enter names ast replacements bindings namespaces exportNames n parent st).
Proof.
  unfold traverseAst_enter. untyped_cases.
Qed.

Lemma untyped_leave n st : untyped_result (traverseAst_leave n st).
Proof. unfold traverseAst_leave. untyped_cases. Qed.

Lemma untyped_traverse {S : Type} (enter : node -> option node -> S -> result (bool * S))
  (leave : node -> S -> result S) :
  (forall n p st, untyped_result (enter n p st)) ->
  (forall n st, untyped_result (leave n st)) ->
  forall n parent st, untyped_result (traverse enter leave parent n st).
Proof.
  intros He Hl n. induction n as [a x cs IH] using node_induction. intros parent st.
  simpl. apply untyped_bind; [apply He|]. intros [skip st1].
  destruct skip; [apply Hl|].
  apply untyped_bind; [|intros; apply Hl].
  simpl. generalize (Some (Node a x cs)). intros p. clear st. revert st1.
  induction IH as [|c cs Hc _ IHcs]; intros st1.
  - apply untyped_ok.
  - apply untyped_bind; [apply Hc | apply IHcs].
Qed.

Lemma untyped_traverseAst names ast replacements bindings namespaces exportNames :
  untyped_result (traverseAst names ast replacements bindings namespaces exportNames).
Proof.
  unfold traverseAst. apply untyped_bind; [|intros; apply untyped_ok].
  apply untyped_traverse; intros; [apply untyped_enter | apply untyped_leave].
Qed.

Lemma untyped_getExportNames exports : untyped_result (getExportNames exports).
Proof. unfold getExportNames. untyped_cases. Qed.
#[local] Hint Resolve untyped_getExportNames : untyped.

Lemma untyped_transformBody mdl body options :
  untyped_result (utils_transformBody__transformBody mdl body options).
Proof.
  unfold utils_transformBody__transformBody.
  destruct (gatherImports _). 
  apply untyped_bind; [apply untyped_getExportNames|]. intros exportNames.
  destruct (getReadOnlyIdentifiers _).
  apply untyped_bind; [apply untyped_traverseAst|]. intros [es alreadyExported].
  destruct (fold_left _ exportNames _). apply untyped_ok.
Qed.

Lemma untyped_transformExportDeclaration declaration body :
  untyped_result (transformExportDeclaration declaration body).
Proof. unfold transformExportDeclaration. untyped_cases. Qed.
#[local] Hint Resolve untyped_transformExportDeclaration : untyped.

Lemma untyped_getRelativePath from to : untyped_result (getRelativePath from to).
Proof.
  unfold getRelativePath. apply untyped_bind; [|intros [f t]; untyped_cases].
  generalize (removelast (splitPath from)) (splitPath to).
  induction l as [|f fs IH]; intros [|t ts]; simpl; untyped_cases; try apply IH.
Qed.
#[local] Hint Resolve untyped_getRelativePath : untyped.

Section names.
Context {SourceMap : Type}.
Variable acorn_parse : string -> result (node * list comment).
Variable guessIndent : string -> string.
Variable generateMap :
    MagicString -> list node -> option string -> option string -> SourceMap.
Variable toUrl : SourceMap -> string.

Lemma untyped_packageResult trees body options methodName isBundle :
    untyped_result
      (fst (packageResult generateMap toUrl trees body options methodName isBundle)).
Proof.
    unfold packageResult. cbn [fst]. untyped_cases.
Qed.

End names.


(** ** Determinism *)

Section determinism.
Context {SourceMap : Type}.
Variable acorn_parse : string -> result (node * list comment).
Variable guessIndent : string -> string.
Variable generateMap :
    MagicString -> list node -> option string -> option string -> SourceMap.
Variable toUrl : SourceMap -> string.

End determinism.



(** * Mirroring of reassigned exports *)

(** A captured update is written with the local name after [exports.] and
    the output name on the right. *)
Lemma captured_swaps_names :
  exportCapturedUpdate {| c_name := "a"; c_exportAs := "b" |} = " exports.a = b;".
Proof. reflexivity. Qed.

(** C1. Scenario S2 comes out as the claim says, and so does an update
    inside an initializer when the export has its own name as output name and
    no declaration is nested in another. The claim fails in two places.
    After a declaration whose initializer holds a function with a declaration
    of its own ([export var x = 1; var f = function () { var y = 0; }; x = 2;])
    the top-level assignment [x = 2] is left without its [exports.x = ]
    prefix. And in a bundle where [m.js] holds [export var a = 1; var y = a++;]
    and the entry imports [a] as [b] and exports [b], the update captured in
    the initializer is emitted as [exports.a = b;], local name and output
    name exchanged. *)
Theorem export_mirroring :
  transpile_sample cjs S2_source S2_ast (plain_options true)
  = Ok ("'use strict';" +:+ nl +:+ nl
        +:+ "var x = 1; exports.x = x = 2; x++, exports.x = x;") /\
  transpile_sample cjs captured_source captured_ast (plain_options true)
  = Ok ("'use strict';" +:+ nl +:+ nl
        +:+ "var x = 1; var y = x++; exports.x = x;" +:+ nl +:+ nl
        +:+ "exports.x = x;") /\
  transpile_sample cjs nested_var_source nested_var_ast (plain_options true)
  = Ok ("'use strict';" +:+ nl +:+ nl
        +:+ "var x = 1; var f = function () { var y = 0; }; x = 2;" +:+ nl +:+ nl
        +:+ "exports.x = x;") /\
  (b ← renamed_bundle; Ok (lookup_exports "m" (b_exports b))) = Ok (Some [("a", "b")]) /\
  module_text "m" renamed_bundle
  = Ok ("var m__a = 1; var y = m__a++; exports.a = b;" +:+ nl +:+ nl
        +:+ "exports.b = m__a;").
Proof.
  split; [exact S2_run|].
  repeat split; vm_compute; reflexivity.
Qed.


(** * Identifiers of default exports *)

Lemma get_put_eq (k v : string) (d : dict) : get k (put k v d) = Some v.
Proof.
  induction d as [|[k' v'] d IH]; simpl.
  - rewrite str_eqb_refl. reflexivity.
  - destruct (str_eqb k k') eqn:E; simpl; rewrite ?str_eqb_refl, ?E; auto.
Qed.

Lemma get_put_ne (k k' v : string) (d : dict) :
  k <> k' -> get k (put k' v d) = get k d.
Proof.
  intros Hne. apply str_eqb_neq in Hne.
  induction d as [|[k2 v2] d IH]; simpl.
  - rewrite Hne. reflexivity.
  - destruct (str_eqb k' k2) eqn:E; simpl.
    + apply str_eqb_eq in E. subst k2. rewrite Hne. reflexivity.
    + rewrite IH. reflexivity.
Qed.

Lemma mem_cons_false (k n : string) (l : list string) :
  mem k (n :: l) = false -> k <> n /\ mem k l = false.
Proof.
  unfold mem. simpl. intros H. apply orb_false_iff in H as [H1 H2].
  split; [|exact H2]. apply str_eqb_neq. exact H1.
Qed.

(** Writing the replacements of other names leaves an entry alone. *)
Lemma fold_put_other (k : string) (g : string -> string) (l : list string) (r : dict) :
  mem k l = false ->
  get k (fold_left (fun r n => put n (g n) r) l r) = get k r.
Proof.
  revert r. induction l as [|n l IH]; intros r H; [reflexivity|].
  apply mem_cons_false in H as [Hne H]. simpl. rewrite IH by exact H.
  apply get_put_ne. exact Hne.
Qed.

(** A property kept by every step that returns is kept by the loop. *)
Lemma forEach_invariant {A S : Type} (P : S -> Prop) (f : A -> S -> result S)
  (l : list A) (st st' : S) :
  (forall a s s', a ∈ l -> P s -> f a s = Ok s' -> P s') ->
  P st -> forEach f l st = Ok st' -> P st'.
Proof.
  revert st. induction l as [|a l IH]; intros st Hstep HP H; simpl in H.
  - injection H as <-. exact HP.
  - destruct (f a st) as [s1|e] eqn:E; [|discriminate].
    apply (IH s1); [| |exact H].
    + intros b s s' Hb. apply Hstep. apply elem_of_cons. right. exact Hb.
    + apply (Hstep a st s1); [apply elem_of_cons; left; reflexivity | exact HP | exact E].
Qed.

Section planning.
Variable ms : list Module.
Variable externals : list ExternalModule.
Variable chains : dict.
Variable conflicts : list string.

Lemma planned_first_loop :
    planned ms conflicts (imap (fun i mdl =>
                     match defaultExport mdl with
                     | Some x =>
                         module_set_replacements
                           (put "default" (default_replacement conflicts ms i mdl x)
                              (identifierReplacements mdl)) mdl
                     | None => mdl
                     end) ms).
Proof.
    intros i mdl Hi. rewrite list_lookup_imap, Hi. simpl.
    destruct (defaultExport mdl) as [x|] eqn:Hx.
    - eexists. split; [reflexivity|]. intros x' Hx' _. injection Hx' as <-.
      apply get_put_eq.
    - exists (identifierReplacements mdl). split; [destruct mdl; reflexivity|].
      intros x' Hx'. discriminate.
Qed.

Lemma planned_step (i0 : nat) (store store' : list Module) :
    planned ms conflicts store ->
    match store !! i0 with
    | None => Ok store
    | Some mdl =>
        let moduleIdentifiers :=
          fold_left (fun r n => put n (if mem n conflicts then m_name mdl +:+ "__" +:+ n
                                       else n) r)
            (_topLevelNames (m_ast mdl)) (identifierReplacements mdl) in
        moduleIdentifiers ←
          forEach
            (fun x r =>
               if i_passthrough x then Ok r
               else forEach
                      (fun s r =>
                         replacement ← specifier_replacement conflicts chains
                                         (<[ i0 := module_set_replacements r mdl ]> store)
                                         externals x s;
                         Ok (if negb (str_eqb replacement (sp_as s))
                             then put (sp_as s) replacement r else r))
                      (i_specifiers x) r)
            (imports mdl) moduleIdentifiers;
        Ok (<[ i0 := module_set_replacements moduleIdentifiers mdl ]> store)
    end = Ok store' ->
    planned ms conflicts store'.
Proof.
    intros Hp Hstep. destruct (store !! i0) as [m0|] eqn:Hm0.
    2:{ injection Hstep as <-. exact Hp. }
    cbn zeta in Hstep.
    match type of Hstep with
    | (mbind _ ?loop) = _ => destruct loop as [r'|e] eqn:Hloop; [|discriminate]
    end.
    simpl in Hstep. injection Hstep as <-.
    intros i mdl Hi. destruct (decide (i = i0)) as [->|Hne].
    2:{ rewrite list_lookup_insert_ne by congruence. apply Hp. exact Hi. }
    destruct (Hp i0 mdl Hi) as (r & Hr & Hdef). rewrite Hm0 in Hr.
    injection Hr as ->.
    rewrite list_lookup_insert_eq by (eapply lookup_lt_Some; exact Hm0).
    exists r'. split; [reflexivity|].
    intros x Hx Hfree. rewrite <- (Hdef x Hx Hfree).
    apply andb_true_iff in Hfree as [Htop Has]. apply negb_true_iff in Htop.
    rewrite forallb_forall in Has. simpl in Hloop.
    eapply (forEach_invariant (fun d => get "default" d = get "default" r)); [| |exact Hloop].
    - intros y d d' Hy Hd Hf. cbv beta in Hf. destruct (i_passthrough y).
      { injection Hf as <-. exact Hd. }
      eapply (forEach_invariant (fun d => get "default" d = get "default" r));
        [|exact Hd|exact Hf].
      intros s d1 d2 Hs Hd1 Hf1. cbv beta in Hf1.
      destruct (specifier_replacement _ _ _ _ _ _) as [replacement|e]; [|discriminate].
      simpl in Hf1. injection Hf1 as <-.
      destruct (negb _); [|exact Hd1].
      rewrite get_put_ne; [exact Hd1|]. intros Heq.
      apply list_elem_of_In in Hy, Hs. specialize (Has y Hy).
      rewrite forallb_forall in Has. specialize (Has s Hs).
      rewrite <- Heq, str_eqb_refl in Has. discriminate.
    - apply fold_put_other. exact Htop.
Qed.

Lemma planned_result (ms' : list Module) :
    topLevelScopeConflicts ms externals = Ok conflicts ->
    populateIdentifierReplacements ms externals chains = Ok ms' ->
    planned ms conflicts ms'.
Proof.
    intros Hc H. unfold populateIdentifierReplacements in H. rewrite Hc in H.
    cbn [mbind result_bind] in H.
    eapply (forEach_invariant (planned ms conflicts)); [|apply planned_first_loop|exact H].
    intros i0 store store' _ Hp Hstep. exact (planned_step i0 store store' Hp Hstep).
Qed.
End planning.

(** C4 (amended). After [populateIdentifierReplacements], a module with a
    default export (and no name [default] of its own) has as output
    identifier of the default: for a declaration with an intrinsic name
    [n], [<moduleName>__n] when [n] conflicts or another module of the bundle
    declares [n] in any of its scopes, and [n] otherwise; for an anonymous
    default, [<moduleName>__default] when the module's name conflicts, or is
    a top-level name of the module itself while the exported expression is
    not that name, or is declared by another module, and [<moduleName>]
    otherwise. *)
Theorem default_export_identifier :
  forall ms externals chains conflicts ms' i mdl x,
    topLevelScopeConflicts ms externals = Ok conflicts ->
    populateIdentifierReplacements ms externals chains = Ok ms' ->
    ms !! i = Some mdl ->
    defaultExport mdl = Some x ->
    default_free mdl = true ->
    exists mdl',
      ms' !! i = Some mdl' /\
      m_id mdl' = m_id mdl /\
      (forall n, e_hasDeclaration x = true -> e_name x = Some n -> n <> "" ->
         get "default" (identifierReplacements mdl')
         = Some (if mem n conflicts || otherModulesDeclare ms i n
                 then m_name mdl +:+ "__" +:+ n else n)) /\
      (e_hasDeclaration x = false \/ e_name x = None ->
         get "default" (identifierReplacements mdl')
         = Some (if mem (m_name mdl) conflicts
                    || (negb (bool_decide (e_value x = Some (m_name mdl)))
                        && mem (m_name mdl) (_topLevelNames (m_ast mdl)))
                    || otherModulesDeclare ms i (m_name mdl)
                 then m_name mdl +:+ "__default" else m_name mdl)).
Proof.
  intros ms externals chains conflicts ms' i mdl x Hc Hp Hi Hx Hfree.
  destruct (planned_result ms externals chains conflicts ms' Hc Hp i mdl Hi)
    as (r & Hr & Hdef).
  exists (module_set_replacements r mdl). split; [exact Hr|]. split; [reflexivity|].
  cbn [identifierReplacements module_set_replacements].
  rewrite (Hdef x Hx Hfree). unfold default_replacement. split.
  - intros n Hd Hn Hne. rewrite Hd, Hn. unfold str, truthy. simpl. apply str_eqb_neq in Hne. rewrite Hne. reflexivity.
  - intros [Hd|Hn]; [rewrite Hd|rewrite Hn, andb_false_r]; reflexivity.
Qed.

(** The theorem on the two modules of [default_bundle]. *)
Lemma default_export_identifier_witness :
  exists ms',
    populateIdentifierReplacements (planning_input default_bundle) [] [] = Ok ms' /\
    (ms' !! 0) ≫= (fun m => get "default" (identifierReplacements m)) = Some "a__foo".
Proof.
  eexists. split; [vm_compute; reflexivity|].
  edestruct (default_export_identifier (planning_input default_bundle) [] []) with (i := 0)
    as (mdl' & Hl & _ & Hnamed & _).
  - vm_compute; reflexivity.
  - vm_compute; reflexivity.
  - vm_compute; reflexivity.
  - vm_compute; reflexivity.
  - vm_compute; reflexivity.
  - rewrite Hl. cbn [mbind option_bind].
    rewrite (Hnamed "foo"); [vm_compute; reflexivity|reflexivity|reflexivity|discriminate].
Defined.

(** C4, the claim as written: in the bundle of
    [import a from './a'; function g () { var foo = a; }] and
    [a.js]: [export default function foo () {}] the default export of [a]
    has the intrinsic name [foo], which is no conflict, and its output
    identifier is [a__foo]. *)
Lemma default_renamed_without_conflict :
  exists b conflicts a x,
    default_bundle = Ok b /\
    topLevelScopeConflicts (planning_input default_bundle) [] = Ok conflicts /\
    modules b !! 0 = Some a /\
    m_name a = "a" /\
    defaultExport a = Some x /\
    e_hasDeclaration x = true /\
    e_name x = Some "foo" /\
    mem "foo" conflicts = false /\
    get "default" (identifierReplacements a) = Some "a__foo".
Proof.
  do 4 eexists.
  do 8 (split; [vm_compute; reflexivity|]).
  vm_compute; reflexivity.
Qed.


(** * Modules without imports and exports *)

Lemma identity_on_get (d : dict) (name r : string) :
  identity_on d = true -> get name d = Some r ->
  truthy r && negb (str_eqb r name) = false.
Proof.
  induction d as [|[k v] d IH]; simpl; [discriminate|].
  intros H Hg. apply andb_true_iff in H as [Hkv Hd].
  destruct (str_eqb name k) eqn:E.
  - apply str_eqb_eq in E. subst k. injection Hg as ->.
    apply orb_true_iff in Hkv as [H|H].
    + rewrite H. apply andb_false_r.
    + apply negb_true_iff in H. rewrite H. reflexivity.
  - apply IH; assumption.
Qed.

Lemma replace_nothing (names : scope_names) (n : node) (d : dict) (scope : scope_ref) :
  identity_on d = true -> replaceIdentifiers names n d scope = Ok [].
Proof.
  intros Hid. unfold replaceIdentifiers.
  destruct (get (n_name n) d) as [r|] eqn:Hg; [|reflexivity].
  rewrite (identity_on_get d _ r Hid Hg). reflexivity.
Qed.

Lemma disallow_nothing (names : scope_names) (n : node) (scope : scope_ref) :
  has_target n = true ->
  disallowIllegalReassignment names n [] [] scope = Ok tt.
Proof.
  unfold has_target, disallowIllegalReassignment. intros H.
  destruct (assignee_of n) as [[a|e]|]; [|discriminate|reflexivity].
  cbn [mbind result_bind].
  destruct (is_type (n_type a) MemberExpression).
  - simpl in H. apply bool_decide_eq_true in H as [o Ho]. rewrite Ho.
    cbn [mbind result_bind]. destruct (is_type (n_type o) Identifier); reflexivity.
  - cbn [mbind result_bind]. destruct (is_type (n_type a) Identifier); reflexivity.
Qed.

Lemma rewrite_nothing (names : scope_names) (n : node) (exportNames : option dict)
  (isTopLevelNode : bool) (st : trav_state) :
  has_target n = true -> t_scope st <> [] -> no_export_names exportNames ->
  rewriteExportAssignments names n exportNames isTopLevelNode st = Ok st.
Proof.
  unfold has_target, rewriteExportAssignments. intros H Hs He.
  destruct (assignee_of n) as [[a|e]|]; [|discriminate|reflexivity].
  cbn [mbind result_bind]. destruct (is_type (n_type a) Identifier); [|reflexivity].
  cbn [negb]. rewrite (scope_contains_defined _ _ _ _ Hs). cbn [mbind result_bind].
  destruct (contains _ _ _ _); [reflexivity|].
  destruct He as [->| ->]; reflexivity.
Qed.

Lemma is_set_defined (o : option scope_ref) (s : scope_ref) :
  is_set o = Some s -> s <> [].
Proof. destruct o as [[|i p]|]; simpl; intros H; congruence. Qed.

Lemma traverse_unfold {S : Type} (enter : node -> option node -> S -> result (bool * S))
  (leave : node -> S -> result S) (parent : option node) (n : node) (st : S) :
  traverse enter leave parent n st
  = x ← enter n parent st;
    if (fst x : bool) then leave n (snd x)
    else st2 ← forEach (traverse enter leave (Some n)) (n_children n) (snd x);
         leave n st2.
Proof.
  destruct n as [a x cs]. simpl.
  destruct (enter (Node a x cs) parent st) as [[skip st1]|e]; [|reflexivity].
  simpl. destruct skip; [reflexivity|]. f_equal.
  generalize (Some (Node a x cs)). intros p. revert st1.
  induction cs as [|c cs IH]; intros st1; [reflexivity|].
  simpl. destruct (traverse enter leave p c st1); simpl; [apply IH | reflexivity].
Qed.

Lemma well_scoped_skipped (root : bool) (scope blockScope : scope_ref) (n : node) :
  _skip n = true -> well_scoped root scope blockScope n = true ->
  is_set (_scope n) = None /\ is_set (_blockScope n) = None /\
  is_type (n_type n) VariableDeclaration = false.
Proof.
  intros Hskip H. destruct n as [a x cs]. simpl in H. rewrite Hskip in H.
  destruct (is_set (_scope _)); [discriminate|].
  destruct (is_set (_blockScope _)); [discriminate|].
  apply negb_true_iff in H. auto.
Qed.

Lemma well_scoped_entered (root : bool) (scope blockScope : scope_ref) (n : node) :
  _skip n = false -> well_scoped root scope blockScope n = true ->
  (is_set (_scope n) <> None -> root = false -> tl (scope_in n scope) = scope) /\
  (is_set (_scope n) = None -> is_set (_blockScope n) <> None ->
   tl (blockScope_in n blockScope) = blockScope) /\
  scope_in n scope <> [] /\
  (is_type (n_type n) VariableDeclaration = false ->
   has_target n = true /\ (is_type (n_type n) Identifier = true -> root = false)) /\
  forallb (well_scoped false (scope_in n scope) (blockScope_in n blockScope)) (n_children n)
  = true.
Proof.
  intros Hskip H. destruct n as [a x cs]. unfold scope_in, blockScope_in.
  simpl in H. rewrite Hskip in H.
  assert (Hrest : forall v t i r,
             v || t && negb (i && r) = true ->
             v = false -> t = true /\ (i = true -> r = false)).
  { intros v t i r Hv ->. simpl in Hv. apply andb_true_iff in Hv as [-> Hv].
    apply negb_true_iff in Hv. split; [reflexivity|]. intros ->. exact Hv. }
  destruct (is_set (_scope _)) as [s|] eqn:Hs; [|destruct (is_set (_blockScope _)) as [b|] eqn:Hb].
  - apply andb_true_iff in H as [H Hcs]. apply andb_true_iff in H as [Hp Ht].
    split; [|split; [|split; [|split]]].
    + intros _ ->. simpl in Hp. apply bool_decide_eq_true in Hp. exact Hp.
    + intros; congruence.
    + eapply is_set_defined. exact Hs.
    + apply Hrest. exact Ht.
    + exact Hcs.
  - apply andb_true_iff in H as [H Hcs]. apply andb_true_iff in H as [H Ht].
    apply andb_true_iff in H as [Hp Hn]. apply bool_decide_eq_true in Hp.
    apply negb_true_iff, bool_decide_eq_false in Hn.
    split; [|split; [|split; [|split]]].
    + intros; congruence.
    + intros _ _. exact Hp.
    + exact Hn.
    + apply Hrest. exact Ht.
    + exact Hcs.
  - apply andb_true_iff in H as [H Hcs]. apply andb_true_iff in H as [Hn Ht].
    apply negb_true_iff, bool_decide_eq_false in Hn.
    split; [|split; [|split; [|split]]].
    + intros; congruence.
    + intros; congruence.
    + exact Hn.
    + apply Hrest. exact Ht.
    + exact Hcs.
Qed.

Lemma no_top_level_this_entered (n : node) :
  _skip n = false -> no_top_level_this n = true ->
  is_type (n_type n) ThisExpression && _topLevel n = false /\
  forallb no_top_level_this (n_children n) = true.
Proof.
  intros Hskip H. destruct n as [a x cs]. simpl in H. rewrite Hskip in H.
  rewrite orb_false_r in H. apply andb_true_iff in H as [H Hcs].
  apply andb_true_iff in H as [_ H]. apply negb_true_iff in H. auto.
Qed.

Section nothing_to_do.
Variable names : scope_names.
Variable ast : node.
Variable identifierReplacements : dict.
Variable exportNames : option dict.
Hypothesis Hidentity : identity_on identifierReplacements = true.
Hypothesis Hexports : no_export_names exportNames.

Local Abbreviation enter :=
    (traverseAst_enter names ast identifierReplacements [] [] exportNames).
Local Abbreviation leave := traverseAst_leave.

Lemma enter_declaration (n : node) (parent : option node) (st : trav_state) :
    _skip n = false ->
    is_type (n_type n) VariableDeclaration = true ->
    quiet st ->
    exists st1,
      enter n parent st = Ok (false, st1) /\ quiet st1 /\
      t_scope st1 = scope_in n (t_scope st) /\
      t_blockScope st1 = blockScope_in n (t_blockScope st) /\
      capturing st1 /\
      t_previousCapturedUpdates st1 = t_capturedUpdates st.
Proof.
    intros Hskip Hvar (Hb & He & Ha). unfold traverseAst_enter, scope_in, blockScope_in.
    rewrite Hskip.
    destruct (is_set (_scope n)) as [s|]; [|destruct (is_set (_blockScope n)) as [b|]];
      cbn [t_scope t_blockScope t_arrays t_capturedUpdates t_previousCapturedUpdates
           t_body t_alreadyExported]; rewrite Hvar;
      (eexists; split; [reflexivity|]; repeat split; simpl; try assumption;
       try (apply Forall_app; split; [assumption | repeat constructor]);
       try (eexists; reflexivity)).
Qed.

Lemma enter_other (n : node) (parent : option node) (st : trav_state) :
    _skip n = false ->
    is_type (n_type n) VariableDeclaration = false ->
    has_target n = true ->
    scope_in n (t_scope st) <> [] ->
    (is_type (n_type n) Identifier = true -> is_Some parent) ->
    is_type (n_type n) ThisExpression && _topLevel n = false ->
    quiet st ->
    exists st1,
      enter n parent st = Ok (false, st1) /\ quiet st1 /\
      t_scope st1 = scope_in n (t_scope st) /\
      t_blockScope st1 = blockScope_in n (t_blockScope st) /\
      t_capturedUpdates st1 = t_capturedUpdates st /\
      t_previousCapturedUpdates st1 = t_previousCapturedUpdates st.
Proof.
    intros Hskip Hvar Htarget Hscope Hparent Hthis (Hb & He & Ha).
    unfold traverseAst_enter. rewrite Hskip.
    set (st0 := match is_set (_scope n), is_set (_blockScope n) with
                | Some scope, _ => _ | None, Some blockScope => _ | None, None => st end).
    assert (H0 : quiet st0 /\ t_scope st0 = scope_in n (t_scope st) /\
                 t_blockScope st0 = blockScope_in n (t_blockScope st) /\
                 t_capturedUpdates st0 = t_capturedUpdates st /\
                 t_previousCapturedUpdates st0 = t_previousCapturedUpdates st).
    { unfold st0, scope_in, blockScope_in, quiet.
      destruct (is_set (_scope n)); [|destruct (is_set (_blockScope n))]; simpl; tauto. }
    clearbody st0. destruct H0 as ((Hb0 & He0 & Ha0) & Hs0 & Hbs0 & Hc0 & Hp0).
    rewrite Hvar, disallow_nothing by exact Htarget. cbn [mbind result_bind].
    rewrite rewrite_nothing; [|exact Htarget|rewrite Hs0; exact Hscope|exact Hexports].
    cbn [mbind result_bind]. rewrite Hthis.
    assert (Hw : with_edits [] st0 = st0).
    { destruct st0; unfold with_edits; simpl in *. rewrite app_nil_r. reflexivity. }
    destruct (is_type (n_type n) Identifier).
    - destruct (Hparent eq_refl) as [p ->].
      destruct (negb _).
      + rewrite replace_nothing by exact Hidentity. cbn [mbind result_bind]. rewrite Hw.
        exists st0. unfold quiet. tauto.
      + cbn [mbind result_bind]. exists st0. unfold quiet. tauto.
    - cbn [mbind result_bind]. exists st0. unfold quiet. tauto.
Qed.

Lemma leave_nothing (n : node) (st : trav_state) :
    quiet st ->
    (is_type (n_type n) VariableDeclaration = true -> capturing st) ->
    (is_set (_scope n) <> None -> t_scope st <> []) ->
    (is_set (_scope n) = None -> is_set (_blockScope n) <> None -> t_blockScope st <> []) ->
    exists st',
      leave n st = Ok st' /\ quiet st' /\
      t_scope st' = (match is_set (_scope n) with
                     | Some _ => tl (t_scope st) | None => t_scope st end) /\
      t_blockScope st' = (match is_set (_scope n), is_set (_blockScope n) with
                          | None, Some _ => tl (t_blockScope st)
                          | _, _ => t_blockScope st end) /\
      t_capturedUpdates st' = (if is_type (n_type n) VariableDeclaration
                               then t_previousCapturedUpdates st
                               else t_capturedUpdates st) /\
      t_previousCapturedUpdates st' = t_previousCapturedUpdates st.
Proof.
    intros (Hb & He & Ha) Hcap Hs Hbs. unfold traverseAst_leave.
    set (r := if is_type (n_type n) VariableDeclaration then _ else Ok st).
    assert (Hr : exists st1, r = Ok st1 /\ quiet st1 /\ t_scope st1 = t_scope st /\
                             t_blockScope st1 = t_blockScope st /\
                             t_capturedUpdates st1
                             = (if is_type (n_type n) VariableDeclaration
                                then t_previousCapturedUpdates st
                                else t_capturedUpdates st) /\
                             t_previousCapturedUpdates st1 = t_previousCapturedUpdates st).
    { unfold r. destruct (is_type (n_type n) VariableDeclaration).
      - destruct (Hcap eq_refl) as [i Hi]. rewrite Hi.
        assert (Hempty : default [] (t_arrays st !! i) = []).
        { destruct (t_arrays st !! i) as [l|] eqn:Hl; [|reflexivity].
          simpl. eapply Forall_lookup_1 in Ha; [exact Ha | exact Hl]. }
        rewrite Hempty. eexists. split; [reflexivity|]. unfold quiet. simpl. tauto.
      - exists st. unfold quiet. tauto. }
    clearbody r. destruct Hr as (st1 & -> & (Hb1 & He1 & Ha1) & Hs1 & Hbs1 & Hc1 & Hp1).
    cbn [mbind result_bind].
    destruct (is_set (_scope n)) as [s|]; [|destruct (is_set (_blockScope n)) as [b|]].
    - destruct (t_scope st1) as [|i p] eqn:E; [exfalso; apply Hs; congruence|].
      simpl. eexists. split; [reflexivity|]. unfold quiet. simpl.
      rewrite <- Hs1. simpl. tauto.
    - destruct (t_blockScope st1) as [|i p] eqn:E; [exfalso; apply Hbs; congruence|].
      simpl. eexists. split; [reflexivity|]. unfold quiet. simpl.
      rewrite <- Hbs1. simpl. tauto.
    - exists st1. unfold quiet. tauto.
Qed.

Lemma children_pass (p : option node) (cs : list node) :
    Forall (passes names ast identifierReplacements exportNames) cs -> is_Some p ->
    forall st,
      forallb (well_scoped false (t_scope st) (t_blockScope st)) cs = true ->
      forallb no_top_level_this cs = true ->
      quiet st ->
      exists st', forEach (traverse enter leave p) cs st = Ok st' /\ kept false st st'.
Proof.
    intros Hcs Hp. induction Hcs as [|c cs Hc _ IH]; intros st Hws Hthis Hq.
    - exists st. split; [reflexivity|]. unfold kept. tauto.
    - simpl in Hws, Hthis. apply andb_true_iff in Hws as [Hw Hws].
      apply andb_true_iff in Hthis as [Ht Hthis].
      destruct (Hc false p st (fun _ => Hp) Hw Ht Hq) as (st1 & H1 & Hq1 & Hs1 & Hc1 & Hp1).
      destruct (Hs1 eq_refl) as [Hsc Hbs].
      destruct (IH st1) as (st2 & H2 & Hq2 & Hs2 & Hc2 & Hp2);
        [rewrite Hsc, Hbs; exact Hws | exact Hthis | exact Hq1 |].
      exists st2. simpl. rewrite H1. cbn [mbind result_bind]. split; [exact H2|].
      destruct (Hs2 eq_refl) as [Hsc2 Hbs2]. unfold kept.
      split; [exact Hq2|]. split; [intros _; split; congruence|]. split; auto.
Qed.

Lemma traverse_passes (n : node) :
    passes names ast identifierReplacements exportNames n.
Proof.
    induction n as [a x cs IH] using node_induction.
    intros root parent st Hparent Hws Hthis Hq. set (n := Node a x cs) in *.
    rewrite traverse_unfold. destruct (_skip n) eqn:Hskip.
    - (* a skipped node: only [leave] runs *)
      destruct (well_scoped_skipped _ _ _ _ Hskip Hws) as (Hs & Hb & Hvar).
      assert (He : enter n parent st = Ok (true, st)).
      { unfold traverseAst_enter. rewrite Hskip. reflexivity. }
      rewrite He. cbn [mbind result_bind fst snd].
      destruct (leave_nothing n st Hq) as (st' & Hl & Hq' & Hs' & Hb' & Hc' & Hp');
        [rewrite Hvar; discriminate | rewrite Hs; congruence | rewrite Hb; congruence |].
      exists st'. split; [exact Hl|]. rewrite Hs in Hs', Hb'. rewrite Hb in Hb'.
      rewrite Hvar in Hc'. unfold kept, capturing, has_previous.
      rewrite Hc', Hp'. tauto.
    - destruct (well_scoped_entered _ _ _ _ Hskip Hws) as (Hup & Hbup & Hdef & Hother & Hcs).
      destruct (no_top_level_this_entered _ Hskip Hthis) as (Hnothis & Hthis_cs).
      assert (Hentered : exists st1,
                 enter n parent st = Ok (false, st1) /\ quiet st1 /\
                 t_scope st1 = scope_in n (t_scope st) /\
                 t_blockScope st1 = blockScope_in n (t_blockScope st) /\
                 (if is_type (n_type n) VariableDeclaration
                  then capturing st1
                       /\ t_previousCapturedUpdates st1 = t_capturedUpdates st
                  else t_capturedUpdates st1 = t_capturedUpdates st
                       /\ t_previousCapturedUpdates st1 = t_previousCapturedUpdates st)).
      { destruct (is_type (n_type n) VariableDeclaration) eqn:Hvar.
        - destruct (enter_declaration n parent st Hskip Hvar Hq)
            as (st1 & H1 & Hq1 & Hs1 & Hb1 & Hc1 & Hp1).
          exists st1. tauto.
        - destruct (Hother eq_refl) as [Htarget Hident].
          destruct (enter_other n parent st Hskip Hvar Htarget Hdef) as (st1 & H1 & Hrest);
            [intros Hi; apply Hparent, Hident, Hi | exact Hnothis | exact Hq |].
          exists st1. tauto. }
      destruct Hentered as (st1 & H1 & Hq1 & Hs1 & Hb1 & Hcap1).
      rewrite H1. cbn [mbind result_bind fst snd].
      destruct (children_pass (Some n) (n_children n) IH ltac:(eexists; reflexivity) st1)
        as (st2 & H2 & Hq2 & Hs2 & Hc2 & Hp2);
        [rewrite Hs1, Hb1; exact Hcs | exact Hthis_cs | exact Hq1 |].
      rewrite H2. cbn [mbind result_bind].
      destruct (Hs2 eq_refl) as [Hsc2 Hbs2].
      destruct (leave_nothing n st2 Hq2) as (st3 & H3 & Hq3 & Hs3 & Hb3 & Hc3 & Hp3).
      { intros Hvar. rewrite Hvar in Hcap1. apply Hc2. tauto. }
      { intros _. rewrite Hsc2, Hs1. exact Hdef. }
      { intros Hn Hb. rewrite Hbs2, Hb1. unfold blockScope_in. rewrite Hn.
        destruct (is_set (_blockScope n)) as [b|] eqn:E; [|congruence].
        eapply is_set_defined. exact E. }
      exists st3. split; [exact H3|]. unfold kept. split; [exact Hq3|].
      split; [|split].
      + intros ->. rewrite Hs3, Hb3, Hsc2, Hbs2, Hs1, Hb1. split.
        * destruct (is_set (_scope n)) eqn:E.
          -- apply Hup; congruence.
          -- unfold scope_in. rewrite E. reflexivity.
        * destruct (is_set (_scope n)) eqn:E.
          -- unfold blockScope_in. rewrite E. reflexivity.
          -- destruct (is_set (_blockScope n)) eqn:E'.
             ++ apply Hbup; congruence.
             ++ unfold blockScope_in. rewrite E, E'. reflexivity.
      + unfold capturing, has_previous in *. rewrite Hc3.
        destruct (is_type (n_type n) VariableDeclaration).
        * intros Hc. apply Hp2; [tauto|]. destruct Hcap1 as [_ ->]. exact Hc.
        * intros Hc. apply Hc2. destruct Hcap1 as [-> _]. exact Hc.
      + unfold capturing, has_previous in *. rewrite Hp3.
        destruct (is_type (n_type n) VariableDeclaration).
        * intros Hc _. apply Hp2; [tauto|]. destruct Hcap1 as [_ ->]. exact Hc.
        * intros Hc Hp. destruct Hcap1 as [E1 E2]. apply Hp2; congruence.
Qed.
End nothing_to_do.

Lemma traverseAst_nothing (names : scope_names) (ast : node) (replacements : dict)
  (exportNames : option dict) :
  identity_on replacements = true ->
  no_export_names exportNames ->
  well_scoped true (default [] (_scope ast)) (default [] (_blockScope ast)) ast = true ->
  no_top_level_this ast = true ->
  traverseAst names ast replacements [] [] exportNames = Ok ([], []).
Proof.
  intros Hid Hex Hws Hthis. unfold traverseAst.
  edestruct (traverse_passes names ast replacements exportNames Hid Hex ast true None)
    as (st' & -> & (Hb & He & _) & _); [discriminate | exact Hws | exact Hthis | |].
  - unfold quiet. simpl. auto.
  - cbn [mbind result_bind]. rewrite Hb, He. reflexivity.
Qed.

Lemma concat_cells_of (s : string) : concat_cells (cells_of s) = s.
Proof. induction s as [|c s IH]; simpl; [reflexivity | rewrite IH; reflexivity]. Qed.

Lemma append_empty (s : string) : s +:+ "" = s.
Proof.
  induction s as [|c s IH]; [reflexivity|].
  change (String c (s +:+ "") = String c s). f_equal. exact IH.
Qed.

Lemma toString_original (source indentStr : string) :
  toString {| original := source; indentString := indentStr; edits := [] |} = source.
Proof.
  unfold toString, render. cbn [original edits fold_left text_toString].
  rewrite concat_cells_of. change (source +:+ "" = source). apply append_empty.
Qed.

Lemma toString_trim (body : MagicString) :
  toString (issue Trim body) = trim (toString body).
Proof.
  unfold toString, render, issue. simpl. rewrite fold_left_app. simpl.
  destruct (fold_left _ (edits body) _); reflexivity.
Qed.

(** ** The scopes [annotateAst] sets *)

Lemma erase_type (n : node) : n_type (erase n) = n_type n.
Proof. destruct n; reflexivity. Qed.

Lemma child_erase (k : string) (n : node) : child k (erase n) = erase <$> child k n.
Proof.
  destruct n as [a x cs]. unfold child. simpl.
  induction cs as [|c cs IH]; [reflexivity|].
  simpl. replace (n_key (erase c)) with (n_key c) by (destruct c; reflexivity).
  destruct (str_eqb (n_key c) k); [reflexivity | exact IH].
Qed.

Lemma has_target_erase (n : node) : has_target (erase n) = has_target n.
Proof.
  unfold has_target, assignee_of. rewrite erase_type.
  destruct (n_type n); try reflexivity;
    rewrite child_erase; destruct (child _ n) as [a|]; try reflexivity;
    simpl; rewrite erase_type, child_erase;
    destruct (child "object" a); reflexivity.
Qed.

Lemma has_target_same (n n' : node) : erase n' = erase n -> has_target n' = has_target n.
Proof. intros H. rewrite <- (has_target_erase n'), H. apply has_target_erase. Qed.

Lemma type_same (n n' : node) : erase n' = erase n -> n_type n' = n_type n.
Proof. intros H. rewrite <- (erase_type n'), H. apply erase_type. Qed.

Lemma annotate_unfold (marked : bool) (n : node) (st : annot_state) :
  annotate marked n st
  = if _skip n || marked
       || is_type (n_type n) ImportDeclaration || is_type (n_type n) ExportSpecifier
    then st' ← annotate_leave (n_type n) st;
         Ok (Node (n_attrs n) (with_skip n) (n_children n), st')
    else '(ann, st1) ← annotate_enter n st;
         '(cs, st2) ← annotate_children n (n_children n) st1;
         st3 ← annotate_leave (n_type n) st2;
         Ok (Node (n_attrs n) ann cs, st3).
Proof.
  destruct n as [a x cs]. simpl.
  destruct (_ || _ || _ || _); [reflexivity|].
  destruct (annotate_enter (Node a x cs) st) as [[ann st1]|e]; [|reflexivity].
  simpl. f_equal. generalize (Node a x cs). intros p. revert st1.
  induction cs as [|c cs IH]; intros st1; [reflexivity|].
  simpl. destruct (annotate (marks p c) c st1) as [[c' st']|e]; [|reflexivity].
  simpl. rewrite IH. reflexivity.
Qed.

Lemma addToScope_scopes (d : node) (st st' : annot_state) :
  addToScope d st = Ok st' -> same_scopes st st'.
Proof.
  unfold addToScope. destruct (id_name d); [|discriminate]. simpl.
  destruct (s_scope st) eqn:E; [discriminate|].
  intros H. injection H as <-. split; simpl; congruence.
Qed.

Lemma addToBlockScope_scopes (d : node) (st st' : annot_state) :
  addToBlockScope d st = Ok st' -> same_scopes st st'.
Proof.
  unfold addToBlockScope. destruct (id_name d); [|discriminate]. simpl.
  destruct (s_blockScope st) eqn:E; [discriminate|].
  intros H. injection H as <-. split; simpl; congruence.
Qed.

Lemma enter_function_effect (n : node) (st : annot_state) (ann : annots)
  (st1 : annot_state) :
  enter_function n st = Ok (ann, st1) ->
  x_skip ann = false /\
  exists id, x_scope ann = Some (id :: s_scope st) /\ x_blockScope ann = _blockScope n /\
             s_scope st1 = id :: s_scope st /\ s_blockScope st1 = s_blockScope st.
Proof.
  unfold enter_function.
  set (r := match child "id" n with Some i => _ | None => Ok st end).
  assert (Hr : forall st0, r = Ok st0 -> same_scopes st st0).
  { unfold r. destruct (child "id" n) as [i|].
    - intros st0. destruct (addToScope n st) as [st'|e] eqn:Ha; [|discriminate].
      apply addToScope_scopes in Ha. cbn [mbind result_bind].
      destruct (scope_parent (s_scope st')); [|discriminate]. cbn [mbind result_bind].
      destruct (_ && _); intros H; injection H as <-; exact Ha.
    - intros st0 H. injection H as <-. split; reflexivity. }
  clearbody r. destruct r as [st0|e]; [|discriminate].
  destruct (Hr st0 eq_refl) as [Hs Hb]. cbn [mbind result_bind].
  intros H. injection H as <- <-. split; [reflexivity|].
  eexists. simpl. rewrite Hs, Hb. repeat split; reflexivity.
Qed.

Lemma annotate_enter_effect (n : node) (st : annot_state) (ann : annots)
  (st1 : annot_state) :
  annotate_enter n st = Ok (ann, st1) -> enter_effect n st ann st1.
Proof.
  unfold annotate_enter, enter_effect.
  destruct (n_type n) eqn:T;
    try (intros H; injection H as <- <-; repeat split; reflexivity).
  - (* BlockStatement *)
    intros H. injection H as <- <-. split; [reflexivity|].
    eexists. repeat split; reflexivity.
  - (* VariableDeclaration *)
    destruct (forEach _ _ st) as [st'|e] eqn:Hf; [|discriminate].
    cbn [mbind result_bind]. intros H. injection H as <- <-.
    split; [reflexivity|]. split; [reflexivity|]. split; [reflexivity|].
    eapply (forEach_invariant (same_scopes st)); [| |exact Hf].
    + intros d s s' _ [Hs Hb] Hd.
      destruct (str_eqb _ "let");
        [apply addToBlockScope_scopes in Hd | apply addToScope_scopes in Hd];
        destruct Hd as [Hs' Hb']; split; congruence.
    + split; reflexivity.
  - (* FunctionDeclaration *)
    intros H. apply enter_function_effect in H. exact H.
  - (* FunctionExpression *)
    intros H. apply enter_function_effect in H. exact H.
  - (* ArrowFunctionExpression *)
    intros H. apply enter_function_effect in H. exact H.
  - (* ClassDeclaration *)
    destruct (addToScope n st) as [st'|e] eqn:Ha; [|discriminate].
    cbn [mbind result_bind]. intros H. injection H as <- <-.
    apply addToScope_scopes in Ha. destruct Ha. repeat split; assumption.
  - (* ClassExpression *)
    destruct (addToScope n st) as [st'|e] eqn:Ha; [|discriminate].
    cbn [mbind result_bind]. intros H. injection H as <- <-.
    apply addToScope_scopes in Ha. destruct Ha. repeat split; assumption.
  - (* MemberExpression *)
    destruct (if (s_envDepth st =? 0)%Z then _ else Ok false) as [[|]|e];
      cbn [mbind result_bind]; try discriminate.
    destruct (_ && _); [discriminate|].
    intros H. injection H as <- <-. repeat split; reflexivity.
  - (* Property *)
    destruct (child "key" n); [|discriminate].
    intros H. injection H as <- <-. repeat split; reflexivity.
Qed.

Lemma annotate_leave_effect (t : ntype) (st st' : annot_state) :
  annotate_leave t st = Ok st' ->
  match t with
  | FunctionExpression | FunctionDeclaration | ArrowFunctionExpression =>
      s_scope st' = tl (s_scope st) /\ s_blockScope st' = s_blockScope st
  | BlockStatement =>
      s_scope st' = s_scope st /\ s_blockScope st' = tl (s_blockScope st)
  | _ => st' = st
  end.
Proof.
  unfold annotate_leave.
  destruct t; try (intros H; injection H as <-; reflexivity).
  - destruct (s_blockScope st); [discriminate|]. simpl.
    intros H. injection H as <-. split; reflexivity.
  - destruct (s_scope st); [discriminate|]. simpl.
    intros H. injection H as <-. split; reflexivity.
  - destruct (s_scope st); [discriminate|]. simpl.
    intros H. injection H as <-. split; reflexivity.
  - destruct (s_scope st); [discriminate|]. simpl.
    intros H. injection H as <-. split; reflexivity.
Qed.

Lemma well_scoped_intro (root : bool) (scope blockScope : scope_ref) (n : node) :
  _skip n = false ->
  (is_set (_scope n) <> None -> root = true \/ tl (scope_in n scope) = scope) ->
  (is_set (_scope n) = None -> is_set (_blockScope n) <> None ->
   tl (blockScope_in n blockScope) = blockScope) ->
  scope_in n scope <> [] ->
  is_type (n_type n) VariableDeclaration
  || has_target n && negb (is_type (n_type n) Identifier && root) = true ->
  forallb (well_scoped false (scope_in n scope) (blockScope_in n blockScope)) (n_children n)
  = true ->
  well_scoped root scope blockScope n = true.
Proof.
  intros Hskip Hup Hbup Hdef Ht Hcs. destruct n as [a x cs].
  unfold scope_in, blockScope_in in *. simpl in Ht, Hcs |- *. rewrite Hskip.
  destruct (is_set (_scope _)) as [s|] eqn:Hs; [|destruct (is_set (_blockScope _)) as [b|] eqn:Hb].
  - rewrite Ht, Hcs. destruct Hup as [-> | Hup]; [congruence|reflexivity|].
    rewrite (bool_decide_eq_true_2 _ Hup). rewrite orb_true_r. reflexivity.
  - assert (Hb' : tl b = blockScope) by (apply Hbup; congruence).
    rewrite Ht, Hcs. rewrite (bool_decide_eq_true_2 _ Hb').
    rewrite (bool_decide_eq_false_2 _ Hdef). reflexivity.
  - rewrite Ht, Hcs. rewrite (bool_decide_eq_false_2 _ Hdef). reflexivity.
Qed.

Lemma enter_effect_scopes (n : node) (st : annot_state) (ann : annots) (st1 : annot_state)
  (cs' : list node) :
  enter_effect n st ann st1 ->
  _scope n = None -> _blockScope n = None -> s_scope st <> [] ->
  scope_in (Node (n_attrs n) ann cs') (s_scope st) = s_scope st1 /\
  blockScope_in (Node (n_attrs n) ann cs') (s_blockScope st) = s_blockScope st1 /\
  s_scope st1 <> [] /\
  (is_set (x_scope ann) <> None -> tl (s_scope st1) = s_scope st) /\
  (is_set (x_scope ann) = None -> is_set (x_blockScope ann) <> None ->
   tl (s_blockScope st1) = s_blockScope st) /\
  (forall st2 st3, same_scopes st1 st2 -> annotate_leave (n_type n) st2 = Ok st3 ->
                   same_scopes st st3).
Proof.
  intros [Hx He] Hsc Hbs Hs. unfold scope_in, blockScope_in, _scope, _blockScope in *.
  cbn [n_annots].
  assert (Hleave : forall st2 st3, annotate_leave (n_type n) st2 = Ok st3 -> _) by
    (intros st2 st3 H; exact (annotate_leave_effect _ _ _ H)).
  destruct (n_type n);
    try (destruct He as (H1 & H2 & H3 & H4); rewrite H1, H2, H3, H4, Hsc, Hbs; simpl;
         refine (conj _ (conj _ (conj _ (conj _ (conj _ _))))); try congruence;
         intros st2 st3 [E1 E2] Hl; apply Hleave in Hl; subst st3; split; congruence);
    destruct He as (id & H1 & H2 & H3 & H4); rewrite H1, H2, H3, H4, ?Hsc, ?Hbs; simpl;
    refine (conj _ (conj _ (conj _ (conj _ (conj _ _))))); try congruence;
    intros st2 st3 [E1 E2] Hl; apply Hleave in Hl; destruct Hl as [L1 L2];
    split; rewrite ?L1, ?L2, ?E1, ?E2, ?H3, ?H4; reflexivity.
Qed.

Lemma parsed_inv (marked : bool) (n : node) :
  parsed marked n = true ->
  _skip n = false /\ _scope n = None /\ _blockScope n = None /\
  if marked || is_type (n_type n) ImportDeclaration || is_type (n_type n) ExportSpecifier
  then opens_scope (n_type n) = false /\ is_type (n_type n) VariableDeclaration = false
  else is_type (n_type n) VariableDeclaration || has_target n = true /\
       forallb (fun c => parsed (marks n c) c) (n_children n) = true.
Proof.
  destruct n as [a x cs]. simpl. intros H.
  apply andb_true_iff in H as [H Hrest]. apply andb_true_iff in H as [H Hb].
  apply andb_true_iff in H as [Hk Hs].
  apply negb_true_iff in Hk. apply bool_decide_eq_true in Hs, Hb.
  split; [exact Hk|]. split; [exact Hs|]. split; [exact Hb|].
  destruct (_ || _ || _).
  - apply andb_true_iff in Hrest as [H1 H2]. apply negb_true_iff in H1, H2. auto.
  - apply andb_true_iff in Hrest. exact Hrest.
Qed.

Lemma children_annotated (p : node) (cs : list node) :
  Forall annotates cs ->
  forall st cs' st',
    forallb (fun c => parsed (marks p c) c) cs = true ->
    annotate_children p cs st = Ok (cs', st') -> s_scope st <> [] ->
    same_scopes st st' /\
    forallb (well_scoped false (s_scope st) (s_blockScope st)) cs' = true /\
    map erase cs' = map erase cs.
Proof.
  intros Hcs. induction Hcs as [|c cs Hc _ IH]; intros st cs' st' Hp H Hs.
  - injection H as <- <-. repeat split.
  - simpl in Hp, H. apply andb_true_iff in Hp as [Hpc Hp].
    destruct (annotate (marks p c) c st) as [[c' st1]|e] eqn:Ha; [|discriminate].
    cbn [mbind result_bind] in H.
    destruct (annotate_children p cs st1) as [[rest st2]|e] eqn:Hr; [|discriminate].
    cbn [mbind result_bind] in H. injection H as <- <-.
    destruct (Hc _ _ _ _ Hpc Ha Hs) as ([E1 E2] & Hw & He).
    destruct (IH _ _ _ Hp Hr) as ([F1 F2] & Hws & Hes); [congruence|].
    split; [split; congruence|]. split.
    + simpl. rewrite Hw. rewrite E1, E2 in Hws. exact Hws.
    + simpl. rewrite He, Hes. reflexivity.
Qed.

Lemma annotate_annotates (n : node) : annotates n.
Proof.
  induction n as [a x cs IH] using node_induction.
  intros marked st n' st' Hp H Hs.
  destruct (parsed_inv _ _ Hp) as (Hskip & Hsc & Hbs & Hrest).
  rewrite annotate_unfold, Hskip, orb_false_l in H.
  destruct (marked || _ || _).
  - (* skipped: only [leave] runs, on a node that opens no scope *)
    destruct Hrest as [Hopen Hvar].
    destruct (annotate_leave _ st) as [st1|e] eqn:Hl; [|discriminate].
    cbn [mbind result_bind] in H. injection H as <- <-.
    apply annotate_leave_effect in Hl.
    assert (Hst : st1 = st) by (destruct (n_type _); try discriminate Hopen; exact Hl).
    subst st1. split; [split; reflexivity|]. split; [|reflexivity].
    unfold _scope, _blockScope in Hsc, Hbs. simpl in Hsc, Hbs |- *.
    change (_scope (Node a (with_skip (Node a x cs)) cs)) with (x_scope x).
    change (_blockScope (Node a (with_skip (Node a x cs)) cs)) with (x_blockScope x).
    rewrite Hsc, Hbs. cbn [is_set].
    change (n_type (Node a (with_skip (Node a x cs)) cs)) with (n_type (Node a x cs)).
    rewrite Hvar. reflexivity.
  - destruct Hrest as [Htarget Hchildren].
    destruct (annotate_enter _ st) as [[ann st1]|e] eqn:He; [|discriminate].
    cbn [mbind result_bind] in H.
    destruct (annotate_children _ _ st1) as [[cs' st2]|e] eqn:Hc; [|discriminate].
    cbn [mbind result_bind] in H.
    destruct (annotate_leave _ st2) as [st3|e] eqn:Hl; [|discriminate].
    cbn [mbind result_bind] in H. injection H as <- <-.
    apply annotate_enter_effect in He.
    destruct (enter_effect_scopes _ _ _ _ cs' He Hsc Hbs Hs)
      as (Hin & Hbin & Hdef & Hup & Hbup & Hleave).
    destruct He as [Hx _].
    destruct (children_annotated _ _ IH _ _ _ Hchildren Hc Hdef) as (Hsame & Hws & Her).
    assert (Herase : erase (Node a ann cs') = erase (Node a x cs))
      by (simpl; rewrite Her; reflexivity).
    split; [exact (Hleave _ _ Hsame Hl)|]. split; [|exact Herase].
    apply well_scoped_intro.
    + exact Hx.
    + intros Hset. right. cbn [n_attrs] in Hin. rewrite Hin. apply Hup. exact Hset.
    + intros Hn Hset. cbn [n_attrs] in Hbin. rewrite Hbin. apply Hbup; assumption.
    + cbn [n_attrs] in Hin. rewrite Hin. exact Hdef.
    + rewrite andb_false_r. cbn [negb]. rewrite andb_true_r.
      rewrite (has_target_same _ _ Herase). exact Htarget.
    + cbn [n_attrs] in Hin, Hbin. rewrite Hin, Hbin. exact Hws.
Qed.

(** The tree [annotateAst] returns for a parsed program is well scoped. *)
Lemma annotateAst_well_scoped (tree : node) (a : annotated) :
  parsed false tree = true -> n_type tree = Program ->
  annotateAst tree = Ok a ->
  well_scoped true (default [] (_scope (ast a))) (default [] (_blockScope (ast a))) (ast a)
  = true.
Proof.
  intros Hp Htype H. unfold annotateAst in H.
  destruct (annotate false tree _) as [[ast' st]|e] eqn:Ha; [|discriminate].
  cbn [mbind result_bind] in H.
  destruct (annotate_annotates tree _ _ _ _ Hp Ha) as ([Hs Hb] & Hws & Her);
    [discriminate|].
  cbn [s_scope s_blockScope] in Hs, Hb, Hws. rewrite Hs, Hb in H. injection H as <-.
  destruct (parsed_inv _ _ Hp) as (Hk & Hsc & Hbs & _).
  assert (Hshape : exists cs', ast' = Node (n_attrs tree) (unchanged tree) cs').
  { rewrite annotate_unfold, Hk, Htype in Ha.
    unfold annotate_enter in Ha. rewrite Htype in Ha. simpl in Ha.
    destruct (annotate_children _ _ _) as [[cs' st2]|e]; [|discriminate].
    simpl in Ha. injection Ha as <- _. eexists. reflexivity. }
  destruct Hshape as [cs' ->].
  assert (Hskip : _skip (Node (n_attrs tree) (unchanged tree) cs') = false) by reflexivity.
  destruct (well_scoped_entered _ _ _ _ Hskip Hws) as (_ & _ & _ & Hother & Hcs).
  destruct Hother as [Htarget _]; [unfold n_type in *; simpl; rewrite Htype; reflexivity|].
  assert (Hin : scope_in (Node (n_attrs tree) (unchanged tree) cs') [0] = [0])
    by (unfold scope_in; change (_scope (Node (n_attrs tree) (unchanged tree) cs'))
                           with (_scope tree); rewrite Hsc; reflexivity).
  assert (Hbin : blockScope_in (Node (n_attrs tree) (unchanged tree) cs') [1] = [1])
    by (unfold blockScope_in;
        change (_scope (Node (n_attrs tree) (unchanged tree) cs')) with (_scope tree);
        change (_blockScope (Node (n_attrs tree) (unchanged tree) cs'))
          with (_blockScope tree);
        rewrite Hsc, Hbs; reflexivity).
  rewrite Hin, Hbin in Hcs. cbn [n_children] in Hcs.
  cbn [ast n_attrs n_children]. unfold _scope, _blockScope. simpl.
  rewrite Hcs.
  match goal with
  | |- context [has_target ?N] =>
      rewrite (has_target_same (Node (n_attrs tree) (unchanged tree) cs') N eq_refl);
      change (n_type N) with (n_type tree)
  end.
  rewrite Htarget, Htype. reflexivity.
Qed.

(** What [getStandaloneModule] returns in strict mode for a text without
    comments: the tree as [annotateAst] leaves it, and a body without
    edits. *)
Lemma standalone_module (acorn_parse : string -> result (node * list comment))
  (guessIndent : string -> string) (source : string)
  (getModuleName : option (string -> string)) (tree : node) (mdl : Module) :
  acorn_parse source = Ok (tree, []) ->
  getStandaloneModule acorn_parse guessIndent source getModuleName true = Ok mdl ->
  annotateAst tree = Ok (m_ast mdl) /\
  body mdl = {| original := source; indentString := guessIndent source; edits := [] |}.
Proof.
  intros Hparse H. unfold getStandaloneModule in H. rewrite Hparse in H.
  cbn [mbind result_bind filter fold_left] in H.
  destruct (findImportsAndExports source tree) as [[[imps exps] dflt]|e]; [|discriminate].
  cbn [mbind result_bind] in H.
  destruct (disallowConflictingImports imps) as [u|e]; [|discriminate].
  cbn [mbind result_bind] in H.
  destruct (annotateAst tree) as [a|e]; [|discriminate].
  cbn [mbind result_bind] in H.
  destruct (getUnscopedNames _ _ _) as [unscoped|e]; [|discriminate].
  cbn [mbind result_bind] in H.
  destruct (determineImportNames _ _ _) as [imps'|e]; [|discriminate].
  cbn [mbind result_bind] in H. injection H as <-. split; reflexivity.
Qed.

(** ** [deconflict] returns

    The loop of [deconflict] tries [name], [_name], [__name], ...; each is
    longer than the one before, so a list of declared names can hold back
    at most as many candidates as it is long, and the fuel of the model is
    enough: the answer is not declared. *)
Lemma length_underscore (name : string) :
  String.length ("_" +:+ name) = S (String.length name).
Proof. reflexivity. Qed.

Lemma deconflict_loop_length (fuel : nat) (name : string) (declared : list string) :
  String.length name <= String.length (deconflict_loop fuel name declared).
Proof.
  revert name. induction fuel as [|fuel IH]; intros name; simpl; [lia|].
  destruct (mem name declared); [|lia].
  specialize (IH ("_" +:+ name)). rewrite length_underscore in IH. lia.
Qed.

Lemma mem_filter_ne (c name : string) (declared : list string) :
  c <> name ->
  mem c (List.filter (fun d => negb (str_eqb d name)) declared) = mem c declared.
Proof.
  intros Hne. unfold mem. induction declared as [|d ds IH]; [reflexivity|].
  simpl. destruct (str_eqb d name) eqn:E.
  - apply str_eqb_eq in E. subst d.
    apply str_eqb_neq in Hne. simpl. rewrite Hne, IH. reflexivity.
  - simpl. rewrite IH. reflexivity.
Qed.

Lemma deconflict_loop_filter (fuel : nat) (c name : string) (declared : list string) :
  String.length name < String.length c ->
  deconflict_loop fuel c (List.filter (fun d => negb (str_eqb d name)) declared)
  = deconflict_loop fuel c declared.
Proof.
  revert c. induction fuel as [|fuel IH]; intros c Hlen; [reflexivity|].
  simpl. rewrite mem_filter_ne by (intros ->; lia).
  rewrite IH by (rewrite length_underscore; lia). reflexivity.
Qed.

Lemma filter_mem_shorter (name : string) (declared : list string) :
  mem name declared = true ->
  length (List.filter (fun d => negb (str_eqb d name)) declared) < length declared.
Proof.
  unfold mem. induction declared as [|d ds IH]; [discriminate|].
  simpl. destruct (str_eqb name d) eqn:E.
  - intros _. apply str_eqb_eq in E. subst d. rewrite str_eqb_refl. simpl.
    pose proof (List.filter_length_le (fun d => negb (str_eqb d name)) ds) as H.
    lia.
  - simpl. intros H. specialize (IH H).
    destruct (negb (str_eqb d name)); simpl; lia.
Qed.

Lemma deconflict_loop_free (fuel : nat) (name : string) (declared : list string) :
  length declared < fuel ->
  mem (deconflict_loop fuel name declared) declared = false.
Proof.
  revert name declared. induction fuel as [|fuel IH]; intros name declared Hlen; [lia|].
  simpl. destruct (mem name declared) eqn:Hm; [|exact Hm].
  pose proof (filter_mem_shorter name declared Hm) as Hshort.
  rewrite <- (deconflict_loop_filter fuel ("_" +:+ name) name declared)
    by (rewrite length_underscore; lia).
  rewrite <- (mem_filter_ne _ name declared).
  - apply IH. lia.
  - intros Heq.
    pose proof (deconflict_loop_length fuel ("_" +:+ name)
                  (List.filter (fun d => negb (str_eqb d name)) declared)) as Hl.
    rewrite Heq, length_underscore in Hl. lia.
Qed.

Lemma deconflict_free (name : string) (declared : list string) :
  mem (deconflict name declared) declared = false.
Proof. unfold deconflict. apply deconflict_loop_free. lia. Qed.





(** * The theorems at concrete inputs *)




(** The modules loaded for [a.js] importing [./b]. *)
Lemma chain_own_ids : own_ids (ld_moduleLookup chain_state).
Proof.
  apply (bool_decide_unpack
           (map_Forall (fun k m => m_id m = k) (ld_moduleLookup chain_state))).
  vm_compute. exact I.
Qed.

Lemma chain_acyclic : acyclic (ld_moduleLookup chain_state).
Proof.
  assert (Hall : map_Forall
                   (fun k m => k = "a" /\ import_id <$> imports m = ["b"]
                               \/ length (imports m) = 0)
                   (ld_moduleLookup chain_state)).
  { refine (bool_decide_unpack _ _). vm_compute. exact I. }
  assert (Hedge : forall a d, imports_local (ld_moduleLookup chain_state) a d ->
                              a = "a" /\ d = "b").
  { intros a d (m & x & Hm & Hx & Hd & _).
    destruct (Hall a m Hm) as [[-> Himp]|Hnone].
    - split; [reflexivity|].
      assert (Hd' : import_id x ∈ import_id <$> imports m)
        by (apply list_elem_of_fmap; eexists; split; [reflexivity | exact Hx]).
      rewrite Himp, Hd in Hd'. apply list_elem_of_singleton in Hd'. exact Hd'.
    - destruct (imports m); [|discriminate Hnone]. apply elem_of_nil in Hx. destruct Hx. }
  assert (Hfrom : forall x y, tc (imports_local (ld_moduleLookup chain_state)) x y ->
                              x = "a" /\ y = "b").
  { intros x y H. induction H as [x y H|x y z H _ IH].
    - exact (Hedge x y H).
    - destruct (Hedge x y H) as [-> ->]. destruct IH as [IH _]. discriminate IH. }
  intros a Ht. destruct (Hfrom a a Ht) as [-> H]. discriminate H.
Qed.




(** * Further properties *)



(** * More of the rewriter *)

(** ** Scopes *)

Lemma names_of_add_same (names : scope_names) (id : nat) (name : string) :
  id < length names ->
  names_of (scope_add names id name) id = names_of names id ++ [name].
Proof.
  intros H. unfold names_of, scope_add, scope_names in *.
  rewrite list_lookup_insert_eq by exact H. reflexivity.
Qed.

Lemma names_of_add_other (names : scope_names) (id id' : nat) (name : string) :
  id <> id' -> names_of (scope_add names id name) id' = names_of names id'.
Proof.
  intros H. unfold names_of, scope_add, scope_names in *.
  rewrite list_lookup_insert_ne by exact H. reflexivity.
Qed.

Lemma mem_app (x : string) (l1 l2 : list string) :
  mem x (l1 ++ l2) = mem x l1 || mem x l2.
Proof. unfold mem. apply existsb_app. Qed.

Lemma mem_names_of_add (names : scope_names) (id id' : nat) (name other : string) :
  mem other (names_of names id') = true ->
  mem other (names_of (scope_add names id name) id') = true.
Proof.
  intros H. destruct (decide (id = id')) as [<-|Hne].
  - destruct (decide (id < length names)) as [Hlt|Hge].
    + rewrite names_of_add_same by exact Hlt. rewrite mem_app, H. reflexivity.
    + unfold names_of, scope_add, scope_names in *.
      rewrite list_insert_ge by lia. exact H.
  - rewrite names_of_add_other by exact Hne. exact H.
Qed.

Lemma contains_cons (names : scope_names) (id : nat) (parent : scope_ref) (name : string)
  (ignoreTopLevel : bool) :
  contains names (id :: parent) name ignoreTopLevel
  = if ignoreTopLevel && bool_decide (parent = []) then false
    else if mem name (names_of names id) then true
    else contains names parent name ignoreTopLevel.
Proof. reflexivity. Qed.



(** ** Names made from module ids *)


Lemma underscore_not_reserved (s : string) : mem ("_" +:+ s) reserved = false.
Proof. reflexivity. Qed.

Lemma map_chars_ident (s : string) :
  all_chars is_ident_char
    (map_chars (fun c => if is_ident_char c then c else "_"%char) s) = true.
Proof.
  induction s as [|c s IH]; [reflexivity|].
  simpl. rewrite IH, andb_true_r.
  destruct (is_ident_char c) eqn:E; [exact E | reflexivity].
Qed.

Lemma map_chars_ident_id (s : string) :
  all_chars is_ident_char s = true ->
  map_chars (fun c => if is_ident_char c then c else "_"%char) s = s.
Proof.
  induction s as [|c s IH]; [reflexivity|].
  simpl. intros H. apply andb_true_iff in H as [Hc Hs].
  rewrite Hc, (IH Hs). reflexivity.
Qed.

Lemma all_chars_underscore (s : string) :
  all_chars is_ident_char s = true -> all_chars is_ident_char ("_" +:+ s) = true.
Proof. intros H. change ("_" +:+ s) with (String "_" s). simpl. exact H. Qed.

Lemma sanitize_fixed (r : string) :
  all_chars is_ident_char r = true -> starts_identifier r = true ->
  mem r reserved = false -> sanitize r = r.
Proof.
  intros Ha Hs Hr. unfold sanitize. rewrite (map_chars_ident_id r Ha).
  destruct r as [|c r]; [reflexivity|].
  simpl in Hs. rewrite Hs. cbn [negb]. rewrite Hr. reflexivity.
Qed.

(** X2. [sanitize] answers a text of identifier characters that does not
    start with a digit and is no reserved word, and leaves such a text as
    it is: applied twice it does what it does once.  The empty text stays
    empty. *)
Theorem sanitize_identifier (name : string) :
  all_chars is_ident_char (sanitize name) = true /\
  starts_identifier (sanitize name) = true /\
  mem (sanitize name) reserved = false /\
  sanitize (sanitize name) = sanitize name /\
  (sanitize name = "" <-> name = "").
Proof.
  assert (H : all_chars is_ident_char (sanitize name) = true /\
              starts_identifier (sanitize name) = true /\
              mem (sanitize name) reserved = false /\
              (sanitize name = "" <-> name = "")).
  { unfold sanitize.
    set (mapped := map_chars (fun c => if is_ident_char c then c else "_"%char) name).
    assert (Hmapped : all_chars is_ident_char mapped = true) by apply map_chars_ident.
    set (fixed := match mapped with
                  | String c _ =>
                      if negb (is_alpha c || Ascii.eqb c "_"%char || Ascii.eqb c "$"%char)
                      then "_" +:+ mapped else mapped
                  | EmptyString => mapped
                  end).
    assert (Hfixed : all_chars is_ident_char fixed = true
                     /\ starts_identifier fixed = true).
    { unfold fixed. destruct mapped as [|c m]; [split; reflexivity|].
      destruct (is_alpha c || Ascii.eqb c "_"%char || Ascii.eqb c "$"%char) eqn:E; simpl.
      - split; [exact Hmapped | exact E].
      - split; [exact Hmapped | reflexivity]. }
    destruct Hfixed as [Hall Hstart].
    assert (Hempty : fixed = "" <-> name = "").
    { unfold fixed, mapped. destruct name as [|c n]; [split; reflexivity|].
      simpl. destruct (negb _); split; discriminate. }
    clearbody fixed. clear mapped Hmapped.
    destruct (mem fixed reserved) eqn:Hres.
    - split; [apply all_chars_underscore; exact Hall|]. split; [reflexivity|].
      split; [apply underscore_not_reserved|].
      split; [discriminate|]. intros ->.
      assert (fixed = "") as -> by (apply Hempty; reflexivity). discriminate Hres.
    - split; [exact Hall|]. split; [exact Hstart|]. split; [exact Hres|]. exact Hempty. }
  destruct H as (Ha & Hs & Hr & He).
  split; [exact Ha|]. split; [exact Hs|]. split; [exact Hr|]. split; [|exact He].
  apply sanitize_fixed; assumption.
Qed.

(** ** Conflicting imports *)


Lemma mem_true_iff (x : string) (l : list string) : mem x l = true <-> x ∈ l.
Proof.
  unfold mem. rewrite existsb_exists. split.
  - intros (y & Hy & E). apply str_eqb_eq in E. subst y. apply list_elem_of_In. exact Hy.
  - intros H. exists x. split; [apply list_elem_of_In; exact H | apply str_eqb_refl].
Qed.

Lemma mem_false_iff (x : string) (l : list string) : mem x l = false <-> x ∉ l.
Proof.
  rewrite <- mem_true_iff. split.
  - intros H H'. congruence.
  - intros H. destruct (mem x l); [exfalso; apply H; reflexivity | reflexivity].
Qed.

Lemma forEach_checkName (ns used : list string) :
  match forEach checkName ns used with
  | Ok r => r = used ++ ns /\ (NoDup used -> NoDup (used ++ ns))
  | Err e => exists before name after,
      ns = before ++ name :: after /\ name ∈ used ++ before /\
      e = SyntaxError ("Duplicated import ('" +:+ name +:+ "')")
  end.
Proof.
  revert used. induction ns as [|n ns IH]; intros used.
  - simpl. rewrite app_nil_r. auto.
  - cbn [forEach].
    assert (Hc : checkName n used
                 = if mem n used
                   then Err (SyntaxError ("Duplicated import ('" +:+ n +:+ "')"))
                   else Ok (used ++ [n])) by reflexivity.
    rewrite Hc. clear Hc. destruct (mem n used) eqn:Hm.
    + cbn [mbind result_bind]. exists [], n, ns. split; [reflexivity|].
      split; [|reflexivity]. rewrite app_nil_r. apply mem_true_iff. exact Hm.
    + cbn [mbind result_bind]. specialize (IH (used ++ [n])).
      destruct (forEach checkName ns (used ++ [n])) as [r|e].
      * destruct IH as [-> Hnd]. rewrite <- app_assoc. split; [reflexivity|].
        intros Hu. rewrite <- app_assoc in Hnd. apply Hnd.
        apply NoDup_app. split; [exact Hu|]. split; [|apply NoDup_singleton].
        intros x Hx Hx'. apply list_elem_of_singleton in Hx'. subst x.
        apply mem_false_iff in Hm. contradiction.
      * destruct IH as (before & name & after & -> & Hin & ->).
        exists (n :: before), name, after. split; [reflexivity|].
        split; [|reflexivity]. rewrite <- app_assoc in Hin. exact Hin.
Qed.

Lemma disallow_flat (imports : list ImportDecl) (used : list string) :
  forEach (fun x usedNames =>
             match i_as x with
             | Some name => checkName name usedNames
             | None => forEach (fun s => checkName (sp_as s)) (i_specifiers x) usedNames
             end) imports used
  = forEach checkName (local_names imports) used.
Proof.
  revert used. induction imports as [|x xs IH]; intros used; [reflexivity|].
  simpl. rewrite forEach_app. destruct (i_as x) as [name|].
  - simpl. destruct (checkName name used); simpl; [apply IH | reflexivity].
  - assert (H : forall l u, forEach (fun s => checkName (sp_as s)) l u
                            = forEach checkName (map sp_as l) u).
    { induction l as [|s l IHl]; intros u; [reflexivity|].
      simpl. destruct (checkName (sp_as s) u); simpl; [apply IHl | reflexivity]. }
    rewrite H. destruct (forEach checkName _ used); simpl; [apply IH | reflexivity].
Qed.



(** ** Names that are free *)


Lemma deconflict_loop_shape (fuel : nat) (name : string) (declared : list string) :
  exists k, k <= fuel /\ deconflict_loop fuel name declared = underscores k name /\
            forall j, j < k -> mem (underscores j name) declared = true.
Proof.
  revert name. induction fuel as [|fuel IH]; intros name.
  - exists 0. split; [lia|]. split; [reflexivity|]. intros j Hj. lia.
  - simpl. destruct (mem name declared) eqn:Hm.
    + destruct (IH ("_" +:+ name)) as (k & Hk & Heq & Hused).
      exists (S k). split; [lia|]. split; [exact Heq|].
      intros [|j] Hj; [exact Hm|]. apply (Hused j). lia.
    + exists 0. split; [lia|]. split; [reflexivity|]. intros j Hj. lia.
Qed.

Lemma length_underscores (j : nat) (name : string) :
  String.length (underscores j name) = j + String.length name.
Proof.
  revert name. induction j as [|j IH]; intros name; [reflexivity|].
  simpl. rewrite IH. rewrite length_underscore. lia.
Qed.

(** X4. [deconflict] ends and answers the name with as many underscores in
    front as it takes to leave the declared names: the answer is not
    declared, every shorter candidate is, and a name that is not declared
    is answered as it is. *)
Theorem deconflict_fresh (name : string) (declared : list string) :
  mem (deconflict name declared) declared = false /\
  (exists k, deconflict name declared = underscores k name /\
             k <= length declared /\
             forall j, j < k -> mem (underscores j name) declared = true) /\
  (mem name declared = false -> deconflict name declared = name).
Proof.
  split; [apply deconflict_free|]. split.
  - destruct (deconflict_loop_shape (S (length declared)) name declared)
      as (k & Hk & Heq & Hused).
    exists k. split; [exact Heq|]. split; [|exact Hused].
    destruct (decide (k <= length declared)) as [H|H]; [exact H|].
    assert (k = S (length declared)) as -> by lia.
    (* more used candidates than declared names *)
    exfalso.
    assert (Hinj : forall i j, underscores i name = underscores j name -> i = j).
    { intros i j E. apply (f_equal String.length) in E. rewrite !length_underscores in E. lia. }
    pose (cands := map (fun j => underscores j name) (seq 0 (S (length declared)))).
    assert (Hnd : NoDup cands).
    { unfold cands. apply NoDup_fmap_2; [|apply NoDup_seq].
      intros i j E. exact (Hinj i j E). }
    assert (Hsub : cands ⊆ declared).
    { intros c Hc. unfold cands in Hc. apply list_elem_of_In, in_map_iff in Hc.
      destruct Hc as (j & <- & Hj). apply in_seq in Hj.
      apply mem_true_iff. apply Hused. lia. }
    pose proof (submseteq_length cands declared (NoDup_submseteq _ _ Hnd Hsub)) as Hle.
    unfold cands in Hle. rewrite length_map, length_seq in Hle. lia.
  - intros H. unfold deconflict. simpl. rewrite H. reflexivity.
Qed.

(** ** What the sorted list holds *)

Section sorted_members.
Variable L : gmap string Module.

Lemma ids_snoc (l : list Module) (m : Module) : ids (l ++ [m]) = ids l ∪ {[ m_id m ]}.
Proof. unfold ids. rewrite fmap_app, list_to_set_app_L. simpl. set_solver. Qed.

Lemma ids_append (l1 l2 : list Module) : ids (l1 ++ l2) = ids l1 ∪ ids l2.
Proof. unfold ids. rewrite fmap_app. apply list_to_set_app_L. Qed.

Lemma ids_member (l : list Module) (d : string) : d ∈ ids l <-> d ∈ m_id <$> l.
Proof. unfold ids. apply elem_of_list_to_set. Qed.

  (** A visit adds modules that were not seen, each once, the visited
      module last. *)
Lemma visit_once fuel : forall mo seen ord seen' ord',
      visit fuel L mo (seen, ord) = Some (seen', ord') ->
      exists new, ord' = ord ++ new /\ seen' = seen ∪ ids new /\
                  NoDup (m_id <$> new) /\ (forall d, d ∈ ids new -> d ∉ seen) /\
                  (forall m, mo = Some m -> m_id m ∉ seen -> last new = Some m).
Proof.
    induction fuel as [|fuel IH]; intros mo seen ord seen' ord' Hv; [discriminate|].
    simpl in Hv. destruct mo as [m|].
    - destruct (decide (m_id m ∈ seen)) as [Hin|Hnin].
      + injection Hv as <- <-. exists []. rewrite app_nil_r.
        split; [done|]. split; [set_solver|]. split; [constructor|].
        split; [set_solver|]. intros m' [= <-] H. done.
      + destruct (visit_imports (visit fuel L) L (imports m) ({[m_id m]} ∪ seen, ord))
          as [[s1 o1]|] eqn:E; [|discriminate].
        injection Hv as <- <-.
        assert (Hloop : forall xs s o s' o',
                   visit_imports (visit fuel L) L xs (s, o) = Some (s', o') ->
                   exists new, o' = o ++ new /\ s' = s ∪ ids new /\
                               NoDup (m_id <$> new) /\ (forall d, d ∈ ids new -> d ∉ s)).
        { clear E. induction xs as [|x xs IHxs]; intros s o s' o' H; simpl in H.
          - injection H as <- <-. exists []. rewrite app_nil_r.
            split; [done|]. split; [set_solver|]. split; [constructor|set_solver].
          - destruct (visit fuel L (L !! import_id x) (s, o)) as [[s2 o2]|] eqn:E2;
              [|discriminate].
            destruct (IH _ _ _ _ _ E2) as (new1 & -> & -> & Hnd1 & Hd1 & _).
            destruct (IHxs _ _ _ _ H) as (new2 & -> & -> & Hnd2 & Hd2).
            exists (new1 ++ new2). split; [by rewrite app_assoc|].
            split; [rewrite ids_append; set_solver|]. split.
            + rewrite fmap_app. apply NoDup_app. split; [exact Hnd1|]. split; [|exact Hnd2].
              intros d H1 H2. apply ids_member in H1, H2. apply (Hd2 d H2). set_solver.
            + intros d Hd. rewrite ids_append in Hd. apply elem_of_union in Hd as [Hd|Hd].
              * by apply Hd1.
              * specialize (Hd2 d Hd). set_solver. }
        destruct (Hloop _ _ _ _ _ E) as (new & -> & -> & Hnd & Hd).
        exists (new ++ [m]). split; [by rewrite app_assoc|].
        split; [rewrite ids_snoc; set_solver|]. split.
        * rewrite fmap_app. apply NoDup_app. split; [exact Hnd|].
          split; [|apply NoDup_singleton].
          intros d H1 H2. simpl in H2. apply list_elem_of_singleton in H2 as ->.
          apply ids_member in H1. specialize (Hd _ H1). set_solver.
        * split.
          -- intros d H. rewrite ids_snoc in H. apply elem_of_union in H as [H|H].
             ++ specialize (Hd d H). set_solver.
             ++ set_solver.
          -- intros m' [= <-] _. apply last_snoc.
    - injection Hv as <- <-. exists []. rewrite app_nil_r.
      split; [done|]. split; [set_solver|]. split; [constructor|].
      split; [set_solver|]. intros m [=].
Qed.
End sorted_members.



(** ** Relative paths *)


Lemma shift_common_spec (fromParts toParts : list string) :
  match shift_common fromParts toParts with
  | Ok (fs, ts) => exists c, fromParts = c ++ fs /\ toParts = c ++ ts
  | Err e => e = Loop /\ fromParts = toParts
  end.
Proof.
  revert toParts. induction fromParts as [|f fs IH]; intros [|t ts]; simpl.
  - split; reflexivity.
  - exists []. split; reflexivity.
  - exists []. split; reflexivity.
  - destruct (str_eqb f t) eqn:E.
    + apply str_eqb_eq in E as ->. specialize (IH ts).
      destruct (shift_common fs ts) as [[fs' ts']|e].
      * destruct IH as (c & -> & ->). exists (t :: c). split; reflexivity.
      * destruct IH as [-> ->]. split; reflexivity.
    + exists []. split; reflexivity.
Qed.

Lemma shift_common_same (parts : list string) : shift_common parts parts = Err Loop.
Proof.
  induction parts as [|p parts IH]; [reflexivity|].
  simpl. rewrite str_eqb_refl. exact IH.
Qed.

(** The parts that [split] returns hold no separator. *)
Lemma split_on_parts (p : ascii -> bool) (s : string) :
  Forall (fun part => all_chars (fun c => negb (p c)) part = true) (split_on p s).
Proof.
  induction s as [|c s IH]; simpl.
  - repeat constructor.
  - destruct (p c) eqn:E.
    + constructor; [reflexivity | exact IH].
    + destruct (split_on p s) as [|h t]; [repeat constructor; simpl; rewrite E; reflexivity|].
      inversion IH as [|? ? Hh Ht]; subst. constructor; [|exact Ht].
      simpl. rewrite E. exact Hh.
Qed.

Lemma split_on_nonempty (p : ascii -> bool) (s : string) : split_on p s <> [].
Proof.
  destruct s as [|c s]; simpl; [discriminate|].
  destruct (p c); [discriminate|]. destruct (split_on p s); discriminate.
Qed.

Lemma split_on_app (p : ascii -> bool) (a b : string) :
  all_chars (fun c => negb (p c)) a = true ->
  split_on p (a +:+ b) =
    match split_on p b with h :: t => (a +:+ h) :: t | [] => [a] end.
Proof.
  induction a as [|c a IH]; intros Ha.
  - simpl. change ("" +:+ b) with b. destruct (split_on p b) eqn:E; [|reflexivity].
    exfalso. eapply split_on_nonempty. exact E.
  - simpl in Ha. apply andb_true_iff in Ha as [Hc Ha].
    change (String c a +:+ b) with (String c (a +:+ b)). simpl.
    apply negb_true_iff in Hc. rewrite Hc. rewrite (IH Ha).
    destruct (split_on p b); reflexivity.
Qed.

Lemma split_on_single (p : ascii -> bool) (a : string) :
  all_chars (fun c => negb (p c)) a = true -> split_on p a = [a].
Proof.
  induction a as [|c a IH]; intros Ha; [reflexivity|].
  simpl in Ha. apply andb_true_iff in Ha as [Hc Ha]. simpl.
  apply negb_true_iff in Hc. rewrite Hc, (IH Ha). reflexivity.
Qed.

(** Splitting what [join] has put together gives the parts back. *)
Lemma splitPath_join (parts : list string) :
  parts <> [] ->
  Forall (fun part => all_chars (fun c => negb (pathSplitRE c)) part = true) parts ->
  splitPath (join "/" parts) = parts.
Proof.
  unfold splitPath. induction parts as [|a parts IH]; intros Hne Hall; [done|].
  inversion Hall as [|? ? Ha Hrest]; subst.
  destruct parts as [|b parts].
  - simpl. apply split_on_single. exact Ha.
  - change (join "/" (a :: b :: parts)) with (a +:+ "/" +:+ join "/" (b :: parts)).
    rewrite (split_on_app _ _ _ Ha).
    change ("/" +:+ join "/" (b :: parts)) with (String "/" (join "/" (b :: parts))).
    assert (Hsep : forall x, split_on pathSplitRE (String "/" x)
                             = "" :: split_on pathSplitRE x) by reflexivity.
    rewrite Hsep, IH by (done || exact Hrest).
    f_equal. clear. induction a as [|c a IH]; [reflexivity|].
    change (String c a +:+ "") with (String c (a +:+ "")). by rewrite IH.
Qed.

Lemma join_splitPath (path : string) : join "/" (splitPath path) = slashify path.
Proof.
  unfold splitPath. induction path as [|c path IH]; [reflexivity|].
  simpl. unfold pathSplitRE at 1.
  destruct (Ascii.eqb c "/") eqn:E1; simpl.
  - apply Ascii.eqb_eq in E1 as ->. simpl.
    destruct (split_on pathSplitRE path) as [|h t] eqn:E.
    + exfalso. eapply split_on_nonempty. exact E.
    + rewrite <- IH. reflexivity.
  - destruct (Ascii.eqb c "\") eqn:E2.
    + apply Ascii.eqb_eq in E2 as ->. simpl.
      destruct (split_on pathSplitRE path) as [|h t] eqn:E.
      * exfalso. eapply split_on_nonempty. exact E.
      * rewrite <- IH. reflexivity.
    + destruct (split_on pathSplitRE path) as [|h t] eqn:E.
      * exfalso. eapply split_on_nonempty. exact E.
      * rewrite <- IH. destruct t; reflexivity.
Qed.

Lemma iter_removelast_app (c fs : list string) :
  Nat.iter (length fs) (@removelast string) (c ++ fs) = c.
Proof.
  induction fs as [|f fs IH] using rev_ind; [by rewrite app_nil_r|].
  rewrite length_app, Nat.add_comm. simpl length. simpl Nat.add.
  rewrite Nat.iter_succ_r, app_assoc, removelast_last. exact IH.
Qed.

Lemma repeat_dotdot (fs : list string) : map (fun _ => "..") fs = repeat ".." (length fs).
Proof. induction fs as [|f fs IH]; [reflexivity|]. simpl. by rewrite IH. Qed.

(** X6. [getRelativePath] and [resolveId] undo each other: when no part of
    [to] is [.] or [..], resolving the relative path from [from] to [to]
    against [from] gives [to] back, with [/] as the separator and a final
    [.js] taken off.  The only call that gives no path is the one with
    [to] the directory of [from], part by part: there the loop that drops
    the common parts compares [undefined] with [undefined] and never ends. *)
Theorem getRelativePath_resolveId (from to : string) :
  (forall rel, getRelativePath from to = Ok rel -> plain_parts to = true ->
               resolveId rel from = strip_js (slashify to)) /\
  (forall e, getRelativePath from to = Err e <->
             e = Loop /\ removelast (splitPath from) = splitPath to).
Proof.
  unfold getRelativePath.
  pose proof (shift_common_spec (removelast (splitPath from)) (splitPath to)) as Hs.
  destruct (shift_common (removelast (splitPath from)) (splitPath to)) as [[fs ts]|e0] eqn:E.
  - destruct Hs as (c & Hf & Ht). split.
    + intros rel Hrel Hplain. cbn [mbind result_bind] in Hrel.
      assert (Hseps : Forall (fun part => all_chars (fun c => negb (pathSplitRE c)) part = true)
                        ts).
      { pose proof (split_on_parts pathSplitRE to) as H. fold (splitPath to) in H.
        rewrite Ht in H. apply Forall_app in H as [_ H]. exact H. }
      assert (Hdot : head_is "." ts = false /\ head_is ".." ts = false).
      { unfold plain_parts in Hplain. rewrite Ht, forallb_app in Hplain.
        apply andb_true_iff in Hplain as [_ Hplain].
        destruct ts as [|t ts]; [split; reflexivity|]. simpl in *.
        apply andb_true_iff in Hplain as [Hp _].
        apply andb_true_iff in Hp as [H1 H2].
        apply negb_true_iff in H1, H2. split; assumption. }
      destruct Hdot as [Hdot Hdotdot].
      rewrite <- join_splitPath, Ht.
      destruct fs as [|f fs].
      * assert (Hr : rel = join "/" ("." :: ts)) by (injection Hrel as <-; reflexivity).
        rewrite Hr. clear Hr Hrel. unfold resolveId.
        assert (Hfirst : first_is_dot (join "/" ("." :: ts)) = true).
        { destruct ts; reflexivity. }
        rewrite Hfirst. simpl negb. cbv iota.
        rewrite splitPath_join; [|done|].
        2:{ constructor; [reflexivity | exact Hseps]. }
        simpl shift_one_dot. rewrite Hf, app_nil_r.
        replace (shift_dotdot ts c) with (ts, c).
        2:{ destruct ts as [|t ts]; [reflexivity|]. simpl in *. by rewrite Hdotdot. }
        replace (shift_dot ts) with ts.
        2:{ destruct ts as [|t ts]; [reflexivity|]. simpl in *. by rewrite Hdot. }
        reflexivity.
      * assert (Hr : rel = join "/" (map (fun _ => "..") (f :: fs) ++ ts))
          by (injection Hrel as <-; reflexivity).
        rewrite Hr. clear Hr Hrel. unfold resolveId.
        assert (Hfirst : first_is_dot (join "/" (map (fun _ => "..") (f :: fs) ++ ts)) = true).
        { simpl. destruct (map (fun _ => "..") fs ++ ts); reflexivity. }
        rewrite Hfirst. simpl negb. cbv iota.
        rewrite splitPath_join; [|done|].
        2:{ apply Forall_app. split; [|exact Hseps].
            apply Forall_forall. intros x Hx. apply list_elem_of_In, in_map_iff in Hx.
            destruct Hx as (? & <- & _). reflexivity. }
        rewrite repeat_dotdot.
        replace (shift_one_dot (repeat ".." (length (f :: fs)) ++ ts))
          with (repeat ".." (length (f :: fs)) ++ ts) by reflexivity.
        rewrite (shift_dotdot_repeat _ _ _ Hdotdot).
        rewrite Hf, iter_removelast_app.
        replace (shift_dot ts) with ts.
        2:{ destruct ts as [|t ts]; [reflexivity|]. simpl in *. by rewrite Hdot. }
        reflexivity.
    + intros e. cbn [mbind result_bind]. split.
      * destruct fs; discriminate.
      * intros [_ Hsame]. rewrite Hsame, shift_common_same in E. discriminate.
  - destruct Hs as [-> Hsame]. split.
    + intros rel Hrel. discriminate.
    + intros e. cbn [mbind result_bind]. split.
      * intros [= <-]. done.
      * intros [-> _]. reflexivity.
Qed.

(** From [/lib/out/app.js] to [/lib/src/main.js], and back. *)
Lemma getRelativePath_resolveId_witness :
  getRelativePath "/lib/out/app.js" "/lib/src/main.js" = Ok "../src/main.js" /\
  resolveId "../src/main.js" "/lib/out/app.js" = "/lib/src/main".
Proof.
  split; [reflexivity|].
  apply (proj1 (getRelativePath_resolveId "/lib/out/app.js" "/lib/src/main.js")
           "../src/main.js"); reflexivity.
Defined.

(** ** The summary of the imports *)


Lemma fill_placeholders_spec (placeholders : nat) (importNames : list string) :
  fill_placeholders placeholders importNames =
    importNames ++ map (fun i => "__dep" +:+ nat_to_string i +:+ "__")
                       (seq (length importNames) placeholders).
Proof.
  revert importNames. induction placeholders as [|p IH]; intros importNames.
  - simpl. by rewrite app_nil_r.
  - simpl. rewrite IH, length_app, <- app_assoc. simpl.
    rewrite Nat.add_1_r. reflexivity.
Qed.

Lemma first_import_app_found (done rest : list ImportDecl) (p : string) (x : ImportDecl) :
  first_import done p = Some x -> first_import (done ++ rest) p = Some x.
Proof.
  unfold first_import. induction done as [|y done IH]; [discriminate|].
  simpl. destruct (str_eqb (i_path y) p); [done|exact IH].
Qed.

Lemma first_import_new (done : list ImportDecl) (x : ImportDecl) :
  (forall y, y ∈ done -> i_path y <> i_path x) ->
  first_import (done ++ [x]) (i_path x) = Some x.
Proof.
  unfold first_import. induction done as [|y done IH]; intros H.
  - simpl. by rewrite str_eqb_refl.
  - simpl. destruct (str_eqb (i_path y) (i_path x)) eqn:E.
    + apply str_eqb_eq in E. exfalso. apply (H y); [left|exact E].
    + apply IH. intros z Hz. apply H. by right.
Qed.

Lemma summary_step_keeps (done : list ImportDecl) (x : ImportDecl)
  (st : list string * list string * list string * nat) :
  summarised done st -> summarised (done ++ [x]) (summary_step st x).
Proof.
  destruct st as [[[paths names] seen] ph].
  intros (Hseen & Hnd & Hin & Hlen & Hal). subst seen. unfold summary_step. cbv beta iota.
  assert (Hold : forall i p, paths !! i = Some p ->
                   exists y, first_import (done ++ [x]) p = Some y /\
                             match names !! i with
                             | Some name => name = summary_name i y
                             | None => i_specifiers y = []
                             end).
  { intros i p Hp. destruct (Hal i p Hp) as (y & Hy & Hn).
    exists y. split; [by apply first_import_app_found|exact Hn]. }
  destruct (mem (i_path x) paths) eqn:Hm.
  - split; [done|]. split; [done|]. split; [|split; [done|exact Hold]].
    intros p. rewrite Hin. split.
    + intros (y & Hy & <-). exists y. split; [apply elem_of_app; by left|done].
    + intros (y & Hy & <-). apply elem_of_app in Hy as [Hy|Hy]; [eauto|].
      apply list_elem_of_singleton in Hy as ->.
      apply Hin. apply mem_true_iff. exact Hm.
  - assert (Hfresh : i_path x ∉ paths) by (by apply mem_false_iff).
    assert (Hnew : first_import (done ++ [x]) (i_path x) = Some x).
    { apply first_import_new. intros y Hy E. apply Hfresh, Hin. eauto. }
    assert (Hin' : forall p, p ∈ paths ++ [i_path x] <->
                             exists y, y ∈ done ++ [x] /\ i_path y = p).
    { intros p. rewrite elem_of_app, Hin, list_elem_of_singleton. split.
      - intros [(y & Hy & <-)| ->].
        + exists y. split; [apply elem_of_app; by left|done].
        + exists x. split; [apply elem_of_app; right; by apply list_elem_of_singleton|done].
      - intros (y & Hy & <-). apply elem_of_app in Hy as [Hy|Hy]; [left; eauto|].
        apply list_elem_of_singleton in Hy as ->. by right. }
    assert (Hnd' : NoDup (paths ++ [i_path x])).
    { apply NoDup_app. split; [exact Hnd|]. split; [|apply NoDup_singleton].
      intros p Hp Hq. apply list_elem_of_singleton in Hq as ->. done. }
    destruct (i_specifiers x) as [|s ss] eqn:Hsp.
    + split; [done|]. split; [exact Hnd'|]. split; [exact Hin'|].
      split; [rewrite length_app; simpl; lia|].
      intros i p Hp. apply lookup_app_Some in Hp as [Hp|[Hge Hp]]; [by apply Hold|].
      apply list_lookup_singleton_Some in Hp as [Hi <-].
      exists x. split; [exact Hnew|].
      rewrite lookup_ge_None_2 by lia. exact Hsp.
    + split; [done|]. split; [exact Hnd'|]. split; [exact Hin'|].
      rewrite fill_placeholders_spec.
      split; [rewrite !length_app, length_map, length_seq; simpl; lia|].
      intros i p Hp. apply lookup_app_Some in Hp as [Hp|[Hge Hp]].
      * destruct (Hold i p Hp) as (y & Hy & Hn). exists y. split; [exact Hy|].
        apply lookup_lt_Some in Hp.
        destruct (decide (i < length names)) as [Hlt|Hnlt].
        -- rewrite <- app_assoc, lookup_app_l by exact Hlt.
           destruct (names !! i) eqn:En; [exact Hn|].
           apply lookup_ge_None in En. lia.
        -- rewrite lookup_ge_None_2 in Hn by lia.
           rewrite lookup_app_l by (rewrite length_app, length_map, length_seq; lia).
           rewrite lookup_app_r by lia.
           rewrite list_lookup_fmap, lookup_seq_lt by lia. simpl.
           unfold summary_name. rewrite Hn.
           replace (length names + (i - length names)) with i by lia. reflexivity.
      * apply list_lookup_singleton_Some in Hp as [Hi <-].
        exists x. split; [exact Hnew|].
        rewrite lookup_app_r by (rewrite length_app, length_map, length_seq; lia).
        rewrite length_app, length_map, length_seq.
        replace (i - (length names + ph)) with 0 by lia. simpl.
        unfold summary_name. rewrite Hsp. reflexivity.
Qed.

Lemma summary_loop (rest done : list ImportDecl)
  (st : list string * list string * list string * nat) :
  summarised done st -> summarised (done ++ rest) (fold_left summary_step rest st).
Proof.
  revert done st. induction rest as [|x rest IH]; intros done st H.
  - by rewrite app_nil_r.
  - simpl. replace (done ++ x :: rest) with ((done ++ [x]) ++ rest)
      by (by rewrite <- app_assoc).
    apply IH. by apply summary_step_keeps.
Qed.



(** ** Names for the imports of a module *)


Lemma length_append (a b : string) :
  String.length (a +:+ b) = String.length a + String.length b.
Proof.
  induction a as [|c a IH]; [reflexivity|].
  change (String c a +:+ b) with (String c (a +:+ b)). simpl. by rewrite IH.
Qed.

Lemma length_grown (k : nat) (prefix : string) :
  String.length (grown k prefix) = String.length prefix + k.
Proof.
  revert prefix. induction k as [|k IH]; intros prefix; simpl; [lia|].
  rewrite IH, length_append. simpl. lia.
Qed.

Lemma first_candidate_free (prefix sep : string) (suffixes : list (list string))
  (usedNames : list string) (name : string) :
  first_candidate prefix sep suffixes usedNames = Some name -> mem name usedNames = false.
Proof.
  induction suffixes as [|parts rest IH]; [discriminate|]. simpl.
  destruct (mem (prefix +:+ sanitize (join sep parts)) usedNames) eqn:E; [exact IH|].
  intros [= <-]. exact E.
Qed.

(** A round that gives no name has found its first candidate used, or
    has found the empty text. *)
Lemma first_candidate_fails (prefix sep : string) (parts : list string)
  (rest : list (list string)) (usedNames : list string) :
  match first_candidate prefix sep (parts :: rest) usedNames with
  | Some name => truthy name = false -> 
                 mem (prefix +:+ sanitize (join sep parts)) usedNames = true \/ prefix = ""
  | None => mem (prefix +:+ sanitize (join sep parts)) usedNames = true
  end.
Proof.
  simpl. destruct (mem (prefix +:+ sanitize (join sep parts)) usedNames) eqn:E.
  - destruct (first_candidate prefix sep rest usedNames); auto.
  - intros H. right. unfold truthy in H. apply negb_false_iff, str_eqb_eq in H.
    destruct prefix; [reflexivity|discriminate].
Qed.

Lemma suffixes_up_first {A : Type} (l : list A) :
  l <> [] -> exists a rest, suffixes_up l = [a] :: rest.
Proof.
  induction l as [|a l IH]; [done|]. intros _. simpl.
  destruct l as [|b l].
  - exists a, []. reflexivity.
  - destruct IH as (c & rest & H); [done|].
    rewrite H. exists c, (rest ++ [a :: b :: l]). reflexivity.
Qed.

Lemma name_loop_ok (fuel : nat) (prefix : string) (parts usedNames : list string)
  (name : string) :
  name_loop fuel prefix parts usedNames = Ok name ->
  truthy name = true /\ mem name usedNames = false.
Proof.
  revert prefix. induction fuel as [|fuel IH]; intros prefix; [discriminate|]. simpl.
  destruct (first_candidate prefix "__" (suffixes_up parts) usedNames) as [c|] eqn:E;
    [|apply IH].
  destruct (truthy c) eqn:Ht; [|apply IH].
  intros [= <-]. split; [exact Ht|]. eapply first_candidate_free. exact E.
Qed.

Lemma name_loop_fails (fuel : nat) (prefix : string) (a : string) (rest : list (list string))
  (parts usedNames : list string) (e : error) :
  suffixes_up parts = [a] :: rest ->
  name_loop fuel prefix parts usedNames = Err e ->
  forall j, j < fuel ->
            mem (grown j prefix +:+ sanitize a) usedNames = true \/ grown j prefix = "".
Proof.
  intros Hs. revert prefix. induction fuel as [|fuel IH]; intros prefix H j Hj; [lia|].
  simpl in H. rewrite Hs in H.
  pose proof (first_candidate_fails prefix "__" [a] rest usedNames) as Hf.
  change (join "__" [a]) with a in Hf.
  destruct j as [|j].
  - simpl. destruct (first_candidate prefix "__" ([a] :: rest) usedNames) as [c|].
    + destruct (truthy c); [discriminate|]. by apply Hf.
    + by left.
  - simpl. apply IH; [|lia].
    destruct (first_candidate prefix "__" ([a] :: rest) usedNames) as [c|]; [|exact H].
    destruct (truthy c); [discriminate|exact H].
Qed.

(** The naming loop ends before its fuel does. *)
Lemma name_loop_total (parts usedNames : list string) :
  parts <> [] ->
  exists name, name_loop (S (S (length usedNames))) "" parts usedNames = Ok name.
Proof.
  intros Hne.
  destruct (name_loop (S (S (length usedNames))) "" parts usedNames) as [name|e] eqn:E;
    [eauto|exfalso].
  destruct (suffixes_up_first parts Hne) as (a & rest & Hs).
  pose proof (name_loop_fails _ _ _ _ _ _ _ Hs E) as Hused.
  pose (cands := map (fun j => grown (S j) "" +:+ sanitize a)
                   (seq 0 (S (length usedNames)))).
  assert (Hnd : NoDup cands).
  { unfold cands. apply NoDup_fmap_2; [|apply NoDup_seq].
    intros i j Hij. apply (f_equal String.length) in Hij.
    rewrite !length_append, !length_grown in Hij. simpl in Hij. lia. }
  assert (Hsub : cands ⊆ usedNames).
  { intros c Hc. unfold cands in Hc. apply list_elem_of_In, in_map_iff in Hc.
    destruct Hc as (j & <- & Hj). apply in_seq in Hj.
    apply mem_true_iff.
    destruct (Hused (S j)) as [H|H]; [lia|exact H|].
    apply (f_equal String.length) in H. rewrite length_grown in H. simpl in H. lia. }
  pose proof (submseteq_length cands usedNames (NoDup_submseteq _ _ Hnd Hsub)) as Hle.
  unfold cands in Hle. rewrite length_map, length_seq in Hle. lia.
Qed.

Lemma unnamed_set_name (name : string) (x : ImportDecl) :
  unnamed (import_set_name name x) = unnamed x.
Proof. reflexivity. Qed.

Lemma mem_set_key (n k : string) (keys : list string) :
  mem n keys = true -> mem n (set_key k keys) = true.
Proof.
  intros H. unfold set_key. destruct (mem k keys); [exact H|].
  rewrite mem_app, H. reflexivity.
Qed.

(** X8. [determineImportNames] gives every import a name and changes
    nothing else: the name is none of the names in use, and imports of one
    path get one name.  Without a function of the user it always returns;
    the only error is the naming collision, for a name of the user's
    function that is in use. *)
Theorem determineImportNames_names (imports : list ImportDecl)
  (userFn : option (string -> string)) (usedNames : list string) :
  match determineImportNames imports userFn usedNames with
  | Ok chosen =>
      map unnamed chosen = map unnamed imports /\
      (forall x, x ∈ chosen ->
                 exists name, i_name x = Some name /\ mem name usedNames = false) /\
      (forall x y, x ∈ chosen -> y ∈ chosen -> i_path x = i_path y -> i_name x = i_name y)
  | Err e =>
      exists f x, userFn = Some f /\ x ∈ imports /\
                  e = Error ("Naming collision: module " +:+ i_path x
                             +:+ " cannot be called " +:+ sanitize (f (i_path x)))
  end.
Proof.
  unfold determineImportNames.
  match goal with |- context [forEach ?f imports _] => set (step := f) end.
  pose (inv := fun st : list ImportDecl * dict * list string =>
                 let '(done, nameById, used) := st in
                 (forall x, x ∈ done -> i_name x = get (i_path x) nameById
                                        /\ is_Some (i_name x)) /\
                 (forall k v, get k nameById = Some v -> mem v usedNames = false) /\
                 (forall n, mem n usedNames = true -> mem n used = true)).
  assert (Hpass : forall l st,
             inv st ->
             match forEach step l st with
             | Ok st' => inv st' /\ map unnamed st'.1.1 = map unnamed st.1.1 ++ map unnamed l
             | Err e =>
                 exists f x, userFn = Some f /\ x ∈ l /\
                             e = Error ("Naming collision: module " +:+ i_path x
                                        +:+ " cannot be called " +:+ sanitize (f (i_path x)))
             end).
  { induction l as [|x l IH]; intros st Hinv.
    - simpl. split; [exact Hinv|]. by rewrite app_nil_r.
    - destruct st as [[done nameById] used]. destruct Hinv as (Hdone & Hnames & Hused).
      cbn [forEach]. unfold step at 2.
      assert (Hnext : forall name,
                 get (i_path x) nameById = None -> mem name used = false ->
                 inv (done ++ [import_set_name name x], put (i_path x) name nameById,
                      set_key name used)).
      { intros name Hnone Hfree. split; [|split].
        - intros y Hy. apply elem_of_app in Hy as [Hy|Hy].
          + destruct (Hdone y Hy) as [H1 H2]. split; [|exact H2].
            rewrite get_put_ne; [exact H1|].
            intros Heq. rewrite H1, Heq, Hnone in H2. by destruct H2.
          + apply list_elem_of_singleton in Hy as ->. simpl.
            rewrite get_put_eq. eauto.
        - intros k v Hk. destruct (decide (k = i_path x)) as [->|Hne].
          + rewrite get_put_eq in Hk. injection Hk as <-.
            destruct (mem name usedNames) eqn:E; [|reflexivity].
            rewrite (Hused _ E) in Hfree. discriminate.
          + rewrite get_put_ne in Hk by exact Hne. eauto.
        - intros n Hn. apply mem_set_key. by apply Hused. }
      assert (Hrest : forall st1,
                 inv st1 -> map unnamed st1.1.1 = map unnamed done ++ [unnamed x] ->
                 match forEach step l st1 with
                 | Ok st' => inv st' /\ map unnamed st'.1.1
                                        = map unnamed (done, nameById, used).1.1
                                          ++ map unnamed (x :: l)
                 | Err e =>
                     exists f y, userFn = Some f /\ y ∈ x :: l /\
                                 e = Error ("Naming collision: module " +:+ i_path y
                                            +:+ " cannot be called "
                                            +:+ sanitize (f (i_path y)))
                 end).
      { intros st1 Hinv1 Hmap. specialize (IH st1 Hinv1).
        destruct (forEach step l st1) as [st'|e].
        - destruct IH as [H1 H2]. split; [exact H1|].
          rewrite H2, Hmap. simpl. by rewrite <- app_assoc.
        - destruct IH as (f & y & Hf & Hy & He). exists f, y.
          split; [exact Hf|]. split; [by right|exact He]. }
      assert (Hloop : get (i_path x) nameById = None ->
                      exists name,
                        name_loop (S (S (length used))) "" (splitPath (i_path x)) used
                        = Ok name /\
                        inv (done ++ [import_set_name name x],
                             put (i_path x) name nameById, set_key name used)).
      { intros Hnone.
        destruct (name_loop_total (splitPath (i_path x)) used) as [name Hname].
        { apply split_on_nonempty. }
        exists name. split; [exact Hname|].
        apply Hnext; [exact Hnone|]. by apply name_loop_ok in Hname as [_ ?]. }
      destruct (get (i_path x) nameById) as [name|] eqn:Hget.
      + cbn [mbind result_bind]. apply Hrest.
        * split; [|split; [exact Hnames|exact Hused]].
          intros y Hy. apply elem_of_app in Hy as [Hy|Hy]; [by apply Hdone|].
          apply list_elem_of_singleton in Hy as ->. simpl. rewrite Hget. eauto.
        * simpl. rewrite map_app. reflexivity.
      + destruct userFn as [f|].
        * destruct (truthy (f (i_path x))) eqn:Ht.
          -- destruct (mem (sanitize (f (i_path x))) used) eqn:Hm.
             ++ cbn [mbind result_bind]. exists f, x.
                split; [reflexivity|]. split; [by left|reflexivity].
             ++ cbn [mbind result_bind]. apply Hrest.
                ** apply Hnext; [reflexivity|exact Hm].
                ** simpl. rewrite map_app. reflexivity.
          -- destruct (Hloop eq_refl) as (name & Hname & Hinv').
             rewrite Hname. cbn [mbind result_bind]. apply Hrest; [exact Hinv'|].
             simpl. rewrite map_app. reflexivity.
        * destruct (Hloop eq_refl) as (name & Hname & Hinv').
          rewrite Hname. cbn [mbind result_bind]. apply Hrest; [exact Hinv'|].
          simpl. rewrite map_app. reflexivity. }
  assert (Hstart : inv ([], [], usedNames)).
  { split; [|split].
    - intros x Hx. by apply elem_of_nil in Hx.
    - intros k v Hk. discriminate.
    - auto. }
  specialize (Hpass imports ([], [], usedNames) Hstart).
  destruct (forEach step imports ([], [], usedNames)) as [[[imports1 nameById] used]|e].
  - cbn [mbind result_bind].
    destruct Hpass as [(Hdone & Hnames & Hused) Hmap].
    simpl in Hmap.
    match goal with
    | |- context [fold_left ?f imports1 []] => set (inferredNames := fold_left f imports1 [])
    end.
    assert (Hinf : forall p a, get p inferredNames = Some a -> mem a usedNames = false).
    { unfold inferredNames. generalize imports1 as l.
      assert (Hgen : forall (l : list ImportDecl) (d : dict),
                 (forall p a, get p d = Some a -> mem a usedNames = false) ->
                 forall p a,
                   get p (fold_left (fun inferred x =>
                                       match i_as x with
                                       | Some as_ => if mem as_ used then inferred
                                                     else put (i_path x) as_ inferred
                                       | None => inferred
                                       end) l d) = Some a ->
                   mem a usedNames = false).
      { induction l as [|x l IH]; intros d Hd; [exact Hd|]. simpl. apply IH.
        destruct (i_as x) as [as_|]; [|exact Hd].
        destruct (mem as_ used) eqn:E; [exact Hd|].
        intros p a Hp. destruct (decide (p = i_path x)) as [->|Hne].
        - rewrite get_put_eq in Hp. injection Hp as <-.
          destruct (mem as_ usedNames) eqn:E'; [|reflexivity].
          rewrite (Hused _ E') in E. discriminate.
        - rewrite get_put_ne in Hp by exact Hne. eauto. }
      intros l. apply Hgen. intros p a Hp. discriminate. }
    clearbody inferredNames.
    set (final := fun x => match get (i_path x) inferredNames with
                           | Some name => import_set_name name x
                           | None => x
                           end).
    assert (Hfinal : forall x, unnamed (final x) = unnamed x /\ i_path (final x) = i_path x).
    { intros x. unfold final. destruct (get (i_path x) inferredNames); split; reflexivity. }
    split; [|split].
    + rewrite <- Hmap, map_map. apply map_ext. intros x. apply Hfinal.
    + intros x' Hx'. apply list_elem_of_In, in_map_iff in Hx' as (x & <- & Hx).
      apply list_elem_of_In in Hx. unfold final.
      destruct (get (i_path x) inferredNames) as [name|] eqn:E.
      * exists name. split; [reflexivity|]. eapply Hinf. exact E.
      * destruct (Hdone x Hx) as [H1 [name H2]]. exists name. split; [exact H2|].
        rewrite H2 in H1. eapply Hnames. symmetry. exact H1.
    + intros x' y' Hx' Hy' Hpath.
      apply list_elem_of_In, in_map_iff in Hx' as (x & <- & Hx).
      apply list_elem_of_In, in_map_iff in Hy' as (y & <- & Hy).
      apply list_elem_of_In in Hx, Hy.
      rewrite !(proj2 (Hfinal _)) in Hpath. unfold final. rewrite Hpath.
      destruct (get (i_path y) inferredNames); [reflexivity|].
      rewrite (proj1 (Hdone x Hx)), (proj1 (Hdone y Hy)), Hpath. reflexivity.
  - cbn [mbind result_bind]. exact Hpass.
Qed.

(** The import of [./m], with [m] in use. *)
Lemma determineImportNames_names_witness :
  exists chosen,
    determineImportNames (imports (module_at renamed_bundle 1)) None ["m"] = Ok chosen /\
    forall x, x ∈ chosen -> exists name, i_name x = Some name /\ mem name ["m"] = false.
Proof.
  pose proof (determineImportNames_names (imports (module_at renamed_bundle 1)) None ["m"])
    as H.
  destruct (determineImportNames (imports (module_at renamed_bundle 1)) None ["m"])
    as [chosen|e].
  - exists chosen. split; [reflexivity|]. exact (proj1 (proj2 H)).
  - destruct H as (f & x & Hf & _). discriminate.
Defined.

(** ** Unique names for the modules of a bundle *)


Lemma fold_left_keeps {A S : Type} (P : S -> Prop) (f : S -> A -> S) (l : list A) (s : S) :
  (forall s a, P s -> P (f s a)) -> P s -> P (fold_left f l s).
Proof.
  intros Hf. revert s. induction l as [|a l IH]; intros s Hs; [exact Hs|].
  simpl. apply IH, Hf, Hs.
Qed.

Lemma mem_set_key_same (k : string) (keys : list string) : mem k (set_key k keys) = true.
Proof.
  unfold set_key. destruct (mem k keys) eqn:E; [exact E|].
  rewrite mem_app. unfold mem. simpl. rewrite str_eqb_refl. apply orb_true_r.
Qed.

Lemma unique_names_add (given names : dict) (used : list string) (id name : string) :
  unique_names given (names, used) ->
  get id names = None -> mem name used = false ->
  unique_names given (put id name names, set_key name used).
Proof.
  intros (Ha & Hb & Hc & Hd & He) Hnone Hfree.
  assert (Hgiven : get id given = None).
  { destruct (get id given) as [v|] eqn:E; [|reflexivity].
    rewrite (Ha _ _ E) in Hnone. discriminate. }
  assert (Hother : forall k v, get k names = Some v -> k <> id /\ v <> name).
  { intros k v Hk. split.
    - intros ->. rewrite Hk in Hnone. discriminate.
    - intros ->. rewrite (Hb _ _ Hk) in Hfree. discriminate. }
  split; [|split; [|split; [|split]]].
  - intros k v Hk. rewrite get_put_ne; [by apply Ha|].
    intros ->. rewrite Hk in Hgiven. discriminate.
  - intros k v Hk. destruct (decide (k = id)) as [->|Hne].
    + rewrite get_put_eq in Hk. injection Hk as <-. apply mem_set_key_same.
    + rewrite get_put_ne in Hk by exact Hne. apply mem_set_key. eauto.
  - intros n Hn. apply mem_set_key. eauto.
  - intros k v Hk Hg. destruct (decide (k = id)) as [->|Hne].
    + rewrite get_put_eq in Hk. injection Hk as <-.
      destruct (mem name builtins) eqn:E; [|reflexivity].
      rewrite (Hc _ E) in Hfree. discriminate.
    + rewrite get_put_ne in Hk by exact Hne. eauto.
  - intros k1 k2 v Hne H1 H2.
    destruct (decide (k1 = id)) as [->|Hne1]; destruct (decide (k2 = id)) as [->|Hne2].
    + done.
    + rewrite get_put_eq in H1. injection H1 as <-.
      rewrite get_put_ne in H2 by exact Hne2. by destruct (Hother _ _ H2).
    + rewrite get_put_eq in H2. injection H2 as <-.
      rewrite get_put_ne in H1 by exact Hne1. by destruct (Hother _ _ H1).
    + rewrite get_put_ne in H1 by exact Hne1. rewrite get_put_ne in H2 by exact Hne2.
      eauto.
Qed.

Lemma given_names_values (userNames : dict) (start : dict) (used : list string) :
  (forall k v, get k start = Some v -> mem v used = true) ->
  forall k v,
    get k (fold_left (fun ns '(k, v) => put k v ns) userNames start) = Some v ->
    mem v (fold_left (fun u '(_, v) => set_key v u) userNames used) = true.
Proof.
  revert start used. induction userNames as [|[k0 v0] l IH]; intros start used H k v Hk.
  - simpl in *. eauto.
  - simpl in *. eapply IH; [|exact Hk].
    intros k' v' Hk'. destruct (decide (k' = k0)) as [->|Hne].
    + rewrite get_put_eq in Hk'. injection Hk' as <-. apply mem_set_key_same.
    + rewrite get_put_ne in Hk' by exact Hne. apply mem_set_key. eauto.
Qed.



(** ** What the loader stores *)


Lemma mapM_Forall2 {A B : Type} (f : A -> result B) (l : list A) (l' : list B) :
  mapM f l = Ok l' -> Forall2 (fun a b => f a = Ok b) l l'.
Proof.
  revert l'. induction l as [|a l IH]; intros l' H; simpl in H.
  - injection H as <-. constructor.
  - destruct (f a) as [b|e] eqn:E; [|discriminate]. cbn [mbind result_bind] in H.
    destruct (mapM f l) as [bs|e]; [|discriminate]. cbn [mbind result_bind] in H.
    injection H as <-. constructor; [exact E | by apply IH].
Qed.

Lemma getModule_id acorn_parse guessIndent (source id relativePath path : string)
  (mdl : Module) :
  getModule acorn_parse guessIndent source id relativePath path = Ok mdl ->
  m_id mdl = id /\ m_relativePath mdl = relativePath /\ m_path mdl = path
  /\ m_source mdl = source.
Proof.
  unfold getModule. intros H.
  destruct (acorn_parse source) as [[tree cs]|e]; [|discriminate].
  cbn [mbind result_bind] in H.
  destruct (annotateAst tree) as [a|e]; [|discriminate]. cbn [mbind result_bind] in H.
  destruct (findImportsAndExports source (ast a)) as [[[imports exports] d]|e];
    [|discriminate].
  cbn [mbind result_bind] in H.
  destruct (disallowConflictingImports imports) as [u|e]; [|discriminate].
  cbn [mbind result_bind] in H.
  destruct (forEach _ exports []) as [doesExport|e]; [|discriminate].
  cbn [mbind result_bind] in H. injection H as <-. done.
Qed.

Section loading.
Variable acorn_parse : string -> result (node * list comment).
Variable guessIndent : string -> string.
Variable stat : string -> result unit.
Variable readFile : string -> result string.
Variable path_resolve : list string -> string.
Variable path_relative : string -> string -> string.
Variable options : loader_options.
Variable base : string.

Local Abbreviation fetch :=
    (fun fuel => fetchModule acorn_parse guessIndent stat readFile path_resolve path_relative
                   fuel options base).

Lemma fetchModule_keeps (fuel : nat) : forall moduleId modulePath st st',
      fetch fuel moduleId modulePath st = Ok st' ->
      loaded (ld_moduleLookup st) ->
      loaded (ld_moduleLookup st') /\
      (forall k, is_Some (ld_moduleLookup st !! k) -> is_Some (ld_moduleLookup st' !! k)) /\
      (mem modulePath (promiseByPath st) = false -> is_Some (ld_moduleLookup st' !! moduleId)).
Proof.
    induction fuel as [|fuel IH]; intros moduleId modulePath st st' H Hl; [discriminate|].
    cbn [fetchModule] in H.
    destruct (mem modulePath (promiseByPath st)) eqn:Hseen.
    { injection H as <-. split; [exact Hl|]. split; [auto|discriminate]. }
    destruct (readFile modulePath) as [source|e]; [|discriminate].
    cbn [mbind result_bind] in H.
    destruct (match l_transform options with
              | Some transform => transform source modulePath
              | None => Ok source
              end) as [source'|e]; [|discriminate].
    cbn [mbind result_bind] in H.
    destruct (getModule acorn_parse guessIndent source' moduleId
                (path_relative base modulePath) modulePath) as [mdl|e] eqn:Hm;
      [|discriminate].
    cbn [mbind result_bind] in H.
    apply getModule_id in Hm as (Hid & Hrel & _).
    destruct (mapM _ (imports mdl)) as [xs|e] eqn:Hxs; [|discriminate].
    cbn [mbind result_bind] in H.
    apply mapM_Forall2 in Hxs.
    set (st1 := {| promiseByPath := promiseByPath st ++ [modulePath];
                   ld_modules := ld_modules st ++ [module_set_imports xs mdl];
                   ld_moduleLookup := <[moduleId:=module_set_imports xs mdl]>
                                        (ld_moduleLookup st);
                   ld_externalModules := ld_externalModules st |}) in H.
    assert (H1 : loaded (ld_moduleLookup st1)).
    { intros k m Hk. simpl in Hk. destruct (decide (k = moduleId)) as [->|Hne].
      - rewrite lookup_insert_eq in Hk. injection Hk as <-. simpl.
        split; [exact Hid|]. intros x' Hx'.
        apply list_elem_of_lookup in Hx' as [i Hi].
        destruct (Forall2_lookup_r _ _ _ _ _ Hxs Hi) as (x & _ & Hx).
        simpl in Hx.
        destruct (str_eqb (resolveId (i_path x) (m_relativePath mdl)) moduleId) eqn:E;
          [discriminate|].
        injection Hx as <-. split; [reflexivity|].
        unfold import_id. simpl. by apply str_eqb_neq.
      - rewrite lookup_insert_ne in Hk by done. by apply Hl. }
    assert (Hkeep : forall k, is_Some (ld_moduleLookup st !! k) ->
                              is_Some (ld_moduleLookup st1 !! k)).
    { intros k Hk. simpl. destruct (decide (k = moduleId)) as [->|Hne].
      - rewrite lookup_insert_eq. eauto.
      - by rewrite lookup_insert_ne. }
    assert (Hentry : is_Some (ld_moduleLookup st1 !! moduleId)).
    { simpl. rewrite lookup_insert_eq. eauto. }
    pose (P := fun s : loader_state =>
                 loaded (ld_moduleLookup s) /\
                 forall k, is_Some (ld_moduleLookup st1 !! k) ->
                           is_Some (ld_moduleLookup s !! k)).
    assert (Hend : P st').
    { eapply (forEach_invariant P); [|split; [exact H1|auto] | exact H].
      intros x s s' _ [Hs1 Hs2] Hf. unfold fetchImport in Hf.
      destruct (match l_skip options with
                | Some skip => mem (import_id x) skip
                | None => false
                end); [by injection Hf as <-|].
      destruct (resolvePath stat path_resolve base (import_id x) (Some modulePath)
                  (l_resolvePath options)) as [path|err].
      - destruct (mem path (promiseByPath s)); [by injection Hf as <-|].
        destruct (IH _ _ _ _ Hf Hs1) as (I1 & I2 & _). split; [exact I1|auto].
      - unfold handleError in Hf. destruct (is_ENOENT err); [|discriminate].
        destruct (existsb _ (ld_externalModules s)); injection Hf as <-; by split. }
    destruct Hend as [E1 E2]. split; [exact E1|]. split; [auto|]. intros _. auto.
Qed.
End loading.

(** X10. What [fetchModule] stores: when the load of a bundle succeeds,
    the entry module is stored, every module is stored under its own id,
    each of its imports carries the id that [resolveId] gives to its path
    against the relative path of the module, and no stored module imports
    itself. *)
Theorem fetchModule_loaded
  acorn_parse guessIndent stat readFile path_resolve path_relative
  (fuel : nat) (options : loader_options) (base entry entryPath : string)
  (st : loader_state) :
  fetchModule acorn_parse guessIndent stat readFile path_resolve path_relative
    fuel options base entry entryPath
    {| promiseByPath := []; ld_modules := []; ld_moduleLookup := ∅;
       ld_externalModules := [] |} = Ok st ->
  is_Some (ld_moduleLookup st !! entry) /\
  own_ids (ld_moduleLookup st) /\
  (forall k m x, ld_moduleLookup st !! k = Some m -> x ∈ imports m ->
                 i_id x = Some (resolveId (i_path x) (m_relativePath m))) /\
  (forall k, ~ imports_local (ld_moduleLookup st) k k).
Proof.
  intros H.
  destruct (fetchModule_keeps _ _ _ _ _ _ _ _ _ _ _ _ _ H) as (Hl & _ & He).
  { intros k m Hk. simpl in Hk. rewrite lookup_empty in Hk. discriminate. }
  split; [by apply He|]. split; [|split].
  - intros k m Hk. by destruct (Hl k m Hk).
  - intros k m x Hk Hx. destruct (Hl k m Hk) as [_ Hm]. by destruct (Hm x Hx).
  - intros k (m & x & Hk & Hx & Hid & _).
    destruct (Hl k m Hk) as [_ Hm]. destruct (Hm x Hx) as [_ Hne]. done.
Qed.

(** The sample [a.js] that imports [b.js]. *)
Lemma fetchModule_loaded_witness :
  is_Some (ld_moduleLookup chain_state !! "a") /\ own_ids (ld_moduleLookup chain_state).
Proof.
  destruct (fetchModule_loaded chain_parser (fun _ => tab) (files_stat chain_files)
              (files_read chain_files) sample_resolve sample_relative
              10 (sample_options "a") "/proj/" "a" "/proj/a.js" chain_state)
    as (H1 & H2 & _).
  - vm_compute. reflexivity.
  - split; [exact H1|exact H2].
Defined.

(** ** Conflicts between the top-level scopes *)


Lemma Ok_inj {A : Type} (a b : A) : Ok a = Ok b -> a = b.
Proof. intros H. injection H as ->. reflexivity. Qed.

Lemma occurrences_app (n : string) (l1 l2 : list string) :
  occurrences n (l1 ++ l2) = occurrences n l1 + occurrences n l2.
Proof. unfold occurrences. rewrite List.filter_app, length_app. reflexivity. Qed.

Lemma occurrences_mem (n : string) (l : list string) :
  mem n l = true <-> 1 <= occurrences n l.
Proof.
  unfold occurrences, mem. induction l as [|a l IH]; simpl.
  - split; [discriminate|lia].
  - destruct (str_eqb n a); simpl; [split; [lia|reflexivity]|exact IH].
Qed.

Lemma mem_set_key_iff (n k : string) (keys : list string) :
  mem n (set_key k keys) = true <-> n = k \/ mem n keys = true.
Proof.
  unfold set_key. destruct (mem k keys) eqn:E.
  - split; [auto|]. intros [->|H]; assumption.
  - rewrite mem_app. unfold mem at 2. simpl. rewrite orb_false_r, orb_true_iff.
    rewrite str_eqb_eq. tauto.
Qed.

Lemma merge_names_spec (extra : string -> Prop) (ns seen : list string)
  (st : list string * list string) :
  (forall n, mem n st.2 = mem n seen) ->
  (forall n, mem n st.1 = true <-> 2 <= occurrences n seen \/ extra n) ->
  (forall n, mem n (fold_left merge_names ns st).2 = mem n (seen ++ ns)) /\
  (forall n, mem n (fold_left merge_names ns st).1 = true
             <-> 2 <= occurrences n (seen ++ ns) \/ extra n).
Proof.
  revert seen st. induction ns as [|a ns IH]; intros seen [conflicts inBundle] H1 H2.
  - simpl. rewrite app_nil_r. split; assumption.
  - simpl in H1, H2. cbn [fold_left].
    replace (seen ++ a :: ns) with ((seen ++ [a]) ++ ns) by (by rewrite <- app_assoc).
    apply IH; unfold merge_names; destruct (mem a inBundle) eqn:E; cbn [fst snd].
    + intros n. rewrite mem_app, H1. unfold mem at 3. simpl. rewrite orb_false_r.
      destruct (str_eqb n a) eqn:En; [|by rewrite orb_false_r].
      apply str_eqb_eq in En as ->. rewrite <- H1, E. reflexivity.
    + intros n. rewrite !mem_app, H1. reflexivity.
    + intros n. rewrite mem_set_key_iff, H2, occurrences_app.
      unfold occurrences at 3. simpl.
      destruct (str_eqb n a) eqn:En; simpl.
      * apply str_eqb_eq in En as ->. rewrite H1 in E. apply occurrences_mem in E.
        split; [intros _; left; lia|auto].
      * apply str_eqb_neq in En. split; [intros [?|[?|?]]; [done|left; lia|by right]|].
        intros [?|?]; [right; left; lia|right; by right].
    + intros n. rewrite H2, occurrences_app.
      unfold occurrences at 3. simpl.
      destruct (str_eqb n a) eqn:En; simpl; [|by rewrite Nat.add_0_r].
      apply str_eqb_eq in En as ->. rewrite H1 in E.
      assert (occurrences a seen = 0) as ->.
      { destruct (occurrences a seen) eqn:Eo; [reflexivity|].
        assert (mem a seen = true) by (apply occurrences_mem; lia). congruence. }
      split; [intros [?|?]; [lia|by right]|intros [?|?]; [lia|by right]].
Qed.

Lemma occurrences_concat (n : string) (scopes : list (list string)) (i j : nat)
  (ns1 ns2 : list string) :
  i < j -> scopes !! i = Some ns1 -> scopes !! j = Some ns2 ->
  occurrences n ns1 + occurrences n ns2 <= occurrences n (List.concat scopes).
Proof.
  revert i j. induction scopes as [|s scopes IH]; intros i j Hij H1 H2; [done|].
  simpl. rewrite occurrences_app. destruct j as [|j]; [lia|]. simpl in H2.
  destruct i as [|i].
  - injection H1 as ->.
    assert (occurrences n ns2 <= occurrences n (List.concat scopes)); [|lia].
    clear -H2. revert j H2. induction scopes as [|s scopes IH]; intros j H; [done|].
    simpl. rewrite occurrences_app. destruct j as [|j].
    + injection H as ->. lia.
    + simpl in H. specialize (IH j H). lia.
  - simpl in H1. specialize (IH i j ltac:(lia) H1 H2). lia.
Qed.



(** ** Chains of re-exports *)


Lemma get_key (k v : string) (d : dict) : get k d = Some v -> k ∈ map fst d.
Proof.
  induction d as [|[k' v'] d IH]; [discriminate|]. simpl.
  destruct (str_eqb k k') eqn:E.
  - apply str_eqb_eq in E as ->. intros _. by left.
  - intros H. right. by apply IH.
Qed.

Lemma follow_chain_ok (fuel : nat) (chains : dict) (hash : string) (c : bool)
  (origin : string) (isChained : bool) :
  follow_chain fuel chains hash c = Ok (origin, isChained) ->
  get origin chains = None /\
  (origin = hash /\ isChained = c /\ get hash chains = None
   \/ isChained = true /\ tc (chained chains) hash origin).
Proof.
  revert hash c. induction fuel as [|fuel IH]; intros hash c H.
  - simpl in H. destruct (get hash chains) eqn:E; [discriminate|].
    injection H as <- <-. split; [exact E|]. by left.
  - simpl in H. destruct (get hash chains) as [next|] eqn:E.
    + destruct (IH _ _ H) as [Hn [(-> & -> & _)|[-> Ht]]].
      * split; [exact Hn|]. right. split; [reflexivity|]. by apply tc_once.
      * split; [exact Hn|]. right. split; [reflexivity|].
        eapply tc_l; [exact E|exact Ht].
    + injection H as <- <-. split; [exact E|]. by left.
Qed.

Lemma follow_chain_err (fuel : nat) (chains : dict) (hash : string) (c : bool) (e : error) :
  follow_chain fuel chains hash c = Err e -> e = Loop.
Proof.
  revert hash c. induction fuel as [|fuel IH]; intros hash c H; simpl in H.
  - destruct (get hash chains); [by injection H as <-|discriminate].
  - destruct (get hash chains); [eauto|discriminate].
Qed.

(** A walk that outlasts its fuel has come back to a hash it has seen. *)
Lemma follow_chain_cycle (chains : dict) (fuel : nat) :
  forall (seen : list string) (hash : string) (c : bool) (e : error),
    NoDup seen ->
    (forall v, v ∈ seen -> v ∈ map fst chains /\ tc (chained chains) v hash) ->
    length chains <= length seen + fuel ->
    follow_chain fuel chains hash c = Err e ->
    e = Loop /\ exists h, rtc (chained chains) hash h /\ tc (chained chains) h h.
Proof.
  induction fuel as [|fuel IH]; intros seen hash c e Hnd Hseen Hlen H.
  - simpl in H. destruct (get hash chains) as [next|] eqn:E; [|discriminate].
    injection H as <-. split; [reflexivity|].
    destruct (decide (hash ∈ seen)) as [Hin|Hnin].
    + exists hash. split; [apply rtc_refl|]. by destruct (Hseen hash Hin).
    + exfalso.
      assert (Hnd' : NoDup (hash :: seen)) by (by constructor).
      assert (Hsub : hash :: seen ⊆ map fst chains).
      { intros v Hv. apply elem_of_cons in Hv as [->|Hv].
        - eapply get_key. exact E.
        - by destruct (Hseen v Hv). }
      pose proof (submseteq_length _ _ (NoDup_submseteq _ _ Hnd' Hsub)) as Hle.
      rewrite length_map in Hle. simpl in Hle. lia.
  - simpl in H. destruct (get hash chains) as [next|] eqn:E; [|discriminate].
    destruct (decide (hash ∈ seen)) as [Hin|Hnin].
    + split; [eapply follow_chain_err; exact H|].
      exists hash. split; [apply rtc_refl|]. by destruct (Hseen hash Hin).
    + destruct (IH (hash :: seen) next true e) as [He (h & Hr & Ht)].
      * by constructor.
      * intros v Hv. apply elem_of_cons in Hv as [->|Hv].
        -- split; [eapply get_key; exact E|]. by apply tc_once.
        -- destruct (Hseen v Hv) as [Hk Ht]. split; [exact Hk|].
           eapply tc_r; [exact Ht|exact E].
      * simpl. lia.
      * exact H.
      * split; [exact He|]. exists h. split; [|exact Ht].
        eapply rtc_l; [exact E|exact Hr].
Qed.

(** X12. The walk along the chains of re-exports, as
    [populateIdentifierReplacements] and [resolveExports] make it: it ends
    at the origin, a hash that is re-exported from nowhere, reached from
    the first hash link by link; it is marked as chained exactly when the
    first hash has a link.  The walk fails to end only when the links run
    in a circle that the first hash reaches. *)
Theorem follow_chain_origin (chains : dict) (hash : string) :
  match follow_chain (length chains) chains hash false with
  | Ok (origin, isChained) =>
      get origin chains = None /\
      rtc (chained chains) hash origin /\
      (isChained = true <-> get hash chains <> None) /\
      (isChained = false -> origin = hash)
  | Err e =>
      e = Loop /\
      exists h, rtc (chained chains) hash h /\ tc (chained chains) h h
  end.
Proof.
  destruct (follow_chain (length chains) chains hash false) as [[origin isChained]|e] eqn:E.
  - destruct (follow_chain_ok _ _ _ _ _ _ E) as [Hn [(-> & -> & Hh)|[-> Ht]]].
    + split; [exact Hn|]. split; [apply rtc_refl|]. split; [|done].
      split; [discriminate|]. intros H. by destruct H.
    + split; [exact Hn|]. split; [by apply tc_rtc|]. split; [|discriminate].
      split; [|done]. intros _.
      inversion Ht as [? ? Hs|? ? ? Hs]; unfold chained in Hs; congruence.
  - apply (follow_chain_cycle chains (length chains) [] hash false e).
    + constructor.
    + intros v Hv. by apply elem_of_nil in Hv.
    + simpl. lia.
    + exact E.
Qed.

(** ** The declarations of a module and what follows them *)


Lemma first_statement_app (l l' : list node) :
  first_statement (l ++ l') =
    match first_statement l with Some n => Some n | None => first_statement l' end.
Proof.
  unfold first_statement. induction l as [|a l IH]; [reflexivity|]. simpl.
  destruct (negb (is_type (n_type a) EmptyStatement)); [reflexivity|exact IH].
Qed.

Lemma settled_more (pre : list node) (n : node) (k : nat) (next : option nat)
  (previous previous' : option decl_ref) (r : decl_ref) :
  pre !! k = Some n ->
  settled pre k next previous r -> previous <> Some r -> previous' <> Some r ->
  forall m, settled (pre ++ [m]) k next previous' r.
Proof.
  intros Hk Hs Hp Hp' m. unfold settled in *.
  apply lookup_lt_Some in Hk.
  rewrite drop_app_le by lia. rewrite first_statement_app.
  destruct (first_statement (drop (S k) pre)) as [n'|]; [|done].
  destruct Hs as [Hs _]. done.
Qed.

Lemma settled_previous (pre : list node) (n m : node) (k : nat) (next : option nat)
  (r : decl_ref) :
  pre !! k = Some n ->
  settled pre k next (Some r) r ->
  settled (pre ++ [m]) k (Some (n_start m))
    (if is_type (n_type m) EmptyStatement then Some r else None) r.
Proof.
  intros Hk Hs. unfold settled in *. apply lookup_lt_Some in Hk.
  rewrite drop_app_le by lia. rewrite first_statement_app.
  destruct (first_statement (drop (S k) pre)) as [n'|]; [by destruct Hs|].
  unfold first_statement. simpl.
  destruct (is_type (n_type m) EmptyStatement); simpl; [reflexivity|done].
Qed.

Lemma settled_new (pre : list node) (n : node) (next : option nat) (r : decl_ref) :
  settled (pre ++ [n]) (length pre) next (Some r) r.
Proof.
  unfold settled. rewrite drop_app_ge by lia.
  replace (S (length pre) - length pre) with 1 by lia. reflexivity.
Qed.

Lemma lookup_app_old {A : Type} (l : list A) (a : A) (k : nat) (x : A) :
  l !! k = Some x -> (l ++ [a]) !! k = Some x.
Proof. intros H. rewrite lookup_app_l; [exact H|]. by apply lookup_lt_Some in H. Qed.

Lemma map_alter_same {A B : Type} (f : A -> B) (g : A -> A) (i : nat) (l : list A) :
  (forall a, f (g a) = f a) -> map f (alter g i l) = map f l.
Proof.
  intros H. revert i. induction l as [|a l IH]; intros [|i]; simpl; try reflexivity.
  - by rewrite H.
  - f_equal. apply IH.
Qed.

(** The write to [previousDeclaration.next], for the next statement. *)
Lemma settle_keeps (pre : list node) (n : node) (st : fie_state) :
  declarations_of pre st ->
  map e_node (f_exports (settle n st)) = List.filter is_export_node pre /\
  map i_node (f_imports (settle n st)) = List.filter is_import_node pre /\
  f_default (settle n st) = f_default st /\
  (is_type (n_type n) EmptyStatement = false -> f_previous (settle n st) = None) /\
  (forall j x, f_exports (settle n st) !! j = Some x ->
               e_isFinal x = false /\
               exists k, pre !! k = Some (e_node x) /\
                         settled (pre ++ [n]) k (e_next x) (f_previous (settle n st))
                           (ExportRef j)) /\
  (forall j x, f_imports (settle n st) !! j = Some x ->
               if i_passthrough x
               then i_next x = None /\ f_previous (settle n st) <> Some (ImportRef j)
               else exists k, pre !! k = Some (i_node x) /\
                              settled (pre ++ [n]) k (i_next x) (f_previous (settle n st))
                                (ImportRef j)).
Proof.
  intros (He & Hi & Hex & Him). unfold settle.
  destruct (f_previous st) as [[r|r]|] eqn:Hp; simpl.
  - (* the previous declaration is an import *)
    split; [exact He|]. split.
    { rewrite <- Hi. apply map_alter_same. reflexivity. }
    split; [reflexivity|]. split; [by intros ->|]. split.
    + intros j x Hj. destruct (Hex j x Hj) as (Hf & k & Hk & Hs).
      split; [exact Hf|]. exists k. split; [exact Hk|].
      assert (Hne : Some (ImportRef r) <> Some (ExportRef j)) by discriminate.
      eapply settled_more; eauto. destruct (is_type _ _); discriminate.
    + intros j x' Hj. destruct (decide (j = r)) as [->|Hne].
      * rewrite list_lookup_alter_eq in Hj.
        destruct (f_imports st !! r) as [x|] eqn:Hx; [|discriminate].
        simpl in Hj. injection Hj as <-.
        specialize (Him r x Hx). simpl.
        destruct (i_passthrough x); [by destruct Him|].
        destruct Him as (k & Hk & Hs). exists k. split; [exact Hk|].
        eapply settled_previous; eauto.
      * rewrite list_lookup_alter_ne in Hj by (intros ->; done).
        specialize (Him j x' Hj).
        destruct (i_passthrough x').
        -- destruct Him as [H1 _]. split; [exact H1|].
           destruct (is_type _ _); [|discriminate]. intros [= ->]. done.
        -- destruct Him as (k & Hk & Hs). exists k. split; [exact Hk|].
           assert (Hne' : Some (ImportRef r) <> Some (ImportRef j))
             by (intros [= ->]; done).
           eapply settled_more; eauto.
           destruct (is_type _ _); [exact Hne'|discriminate].
  - (* the previous declaration is an export *)
    split.
    { rewrite <- He. apply map_alter_same. reflexivity. }
    split; [exact Hi|]. split; [reflexivity|]. split; [by intros ->|]. split.
    + intros j x' Hj. destruct (decide (j = r)) as [->|Hne].
      * rewrite list_lookup_alter_eq in Hj.
        destruct (f_exports st !! r) as [x|] eqn:Hx; [|discriminate].
        simpl in Hj. injection Hj as <-.
        destruct (Hex r x Hx) as (Hf & k & Hk & Hs). simpl.
        split; [exact Hf|]. exists k. split; [exact Hk|].
        eapply settled_previous; eauto.
      * rewrite list_lookup_alter_ne in Hj by (intros ->; done).
        destruct (Hex j x' Hj) as (Hf & k & Hk & Hs).
        split; [exact Hf|]. exists k. split; [exact Hk|].
        assert (Hne' : Some (ExportRef r) <> Some (ExportRef j))
          by (intros [= ->]; done).
        eapply settled_more; eauto.
        destruct (is_type _ _); [exact Hne'|discriminate].
    + intros j x Hj. specialize (Him j x Hj).
      destruct (i_passthrough x).
      * destruct Him as [H1 _]. split; [exact H1|]. destruct (is_type _ _); discriminate.
      * destruct Him as (k & Hk & Hs). exists k. split; [exact Hk|].
        assert (Hne : Some (ExportRef r) <> Some (ImportRef j)) by discriminate.
        eapply settled_more; eauto. destruct (is_type _ _); discriminate.
  - (* no previous declaration *)
    split; [exact He|]. split; [exact Hi|]. split; [reflexivity|].
    split; [by rewrite Hp|]. split.
    + intros j x Hj. destruct (Hex j x Hj) as (Hf & k & Hk & Hs).
      split; [exact Hf|]. exists k. split; [exact Hk|]. rewrite Hp.
      apply (settled_more pre _ k _ None None _ Hk Hs); discriminate.
    + intros j x Hj. specialize (Him j x Hj). rewrite Hp.
      destruct (i_passthrough x); [done|].
      destruct Him as (k & Hk & Hs). exists k. split; [exact Hk|].
      apply (settled_more pre _ k _ None None _ Hk Hs); discriminate.
Qed.

Lemma processImport_fields (n : node) (passthrough : bool) (x : ImportDecl) :
  processImport n passthrough = Ok x ->
  i_node x = n /\ i_passthrough x = passthrough /\ i_next x = None.
Proof.
  unfold processImport. intros H.
  destruct (child "source" n); [|discriminate]. cbn [mbind result_bind] in H.
  destruct (mapM _ _) as [specifiers|]; [|discriminate]. cbn [mbind result_bind] in H.
  injection H as <-.
  destruct specifiers as [|s [|s' l]]; [done| |done].
  destruct (sp_isDefault s); [done|]. destruct (sp_isBatch s); done.
Qed.

Lemma processExport_fields (n : node) (source : string) (x : ExportDecl) :
  processExport n source = Ok x ->
  e_node x = n /\ e_next x = None /\ e_isFinal x = false /\ e_isDefault x = false.
Proof.
  unfold processExport. intros H. destruct (child "declaration" n) as [d|].
  - destruct (n_type d); try (injection H as <-; done).
    + destruct (child_list "declarations" d) as [|d0 ?]; [discriminate|].
      destruct (id_name d0); [|discriminate]. injection H as <-. done.
    + destruct (id_name d); [|discriminate]. injection H as <-. done.
    + destruct (id_name d); [|discriminate]. injection H as <-. done.
  - destruct (mapM _ _); [|discriminate]. injection H as <-. done.
Qed.

Lemma processDefaultExport_fields (n : node) (source : string) (x : ExportDecl) :
  processDefaultExport n source = Ok x ->
  e_node x = n /\ e_next x = None /\ e_isFinal x = false /\ e_isDefault x = true.
Proof.
  unfold processDefaultExport. intros H. destruct (child "declaration" n) as [d|];
    [|discriminate].
  destruct (n_type d); try (injection H as <-; done).
  - destruct (id_name d); [|discriminate]. injection H as <-. done.
  - destruct (id_name d); [|discriminate]. injection H as <-. done.
Qed.

Lemma filter_snoc {A : Type} (p : A -> bool) (l : list A) (a : A) :
  List.filter p (l ++ [a]) = List.filter p l ++ (if p a then [a] else []).
Proof. rewrite List.filter_app. reflexivity. Qed.

(** A statement that is no declaration. *)
Lemma step_other (pre : list node) (n : node) (st : fie_state) :
  is_export_node n = false -> is_import_node n = false ->
  declarations_of pre st -> declarations_of (pre ++ [n]) (settle n st).
Proof.
  intros Hne Hni H.
  destruct (settle_keeps pre n st H) as (He & Hi & _ & _ & Hex & Him).
  split; [|split; [|split]].
  - rewrite filter_snoc, Hne, app_nil_r. exact He.
  - rewrite filter_snoc, Hni, app_nil_r. exact Hi.
  - intros j x Hj. destruct (Hex j x Hj) as (Hf & k & Hk & Hs).
    split; [exact Hf|]. exists k. split; [by apply lookup_app_old|exact Hs].
  - intros j x Hj. specialize (Him j x Hj). destruct (i_passthrough x); [exact Him|].
    destruct Him as (k & Hk & Hs). exists k. split; [by apply lookup_app_old|exact Hs].
Qed.

(** The exports and imports that are there stay settled when a
    declaration is added. *)
Lemma settled_old (pre : list node) (n m : node) (k : nat) (next : option nat)
  (r r' : decl_ref) :
  pre !! k = Some m -> r <> r' ->
  settled (pre ++ [n]) k next None r -> settled (pre ++ [n]) k next (Some r') r.
Proof.
  intros Hk Hne. unfold settled.
  destruct (first_statement (drop (S k) (pre ++ [n]))); [|discriminate].
  intros [H _]. split; [exact H|]. intros [= ->]. done.
Qed.

Lemma step_keeps (source : string) (pre : list node) (n : node) (st st' : fie_state) :
  declarations_of pre st ->
  findImportsAndExports_step source n st = Ok st' ->
  declarations_of (pre ++ [n]) st'.
Proof.
  intros Hd H. unfold findImportsAndExports_step in H. fold (settle n st) in H.
  pose proof (settle_keeps pre n st Hd) as (He & Hi & _ & Hnone & Hex & Him).
  assert (Hother : is_export_node n = false -> is_import_node n = false ->
                   Ok (settle n st) = Ok st' -> declarations_of (pre ++ [n]) st').
  { intros H1 H2 [= <-]. by apply step_other. }
  assert (Hold_e : forall r, f_previous (settle n st) = None ->
                     (forall j, r <> ExportRef j \/ length (f_exports (settle n st)) <= j) ->
                     forall j x, f_exports (settle n st) !! j = Some x ->
                       e_isFinal x = false /\
                       exists k, (pre ++ [n]) !! k = Some (e_node x) /\
                                 settled (pre ++ [n]) k (e_next x) (Some r) (ExportRef j)).
  { intros r Hp Hr j x Hj. destruct (Hex j x Hj) as (Hf & k & Hk & Hs).
    split; [exact Hf|]. exists k. split; [by apply lookup_app_old|].
    rewrite Hp in Hs. eapply settled_old; [exact Hk| |exact Hs].
    intros <-. destruct (Hr j) as [?|Hlen]; [done|].
    apply lookup_lt_Some in Hj. lia. }
  assert (Hold_i : forall r, f_previous (settle n st) = None ->
                     (forall j, r <> ImportRef j \/ length (f_imports (settle n st)) <= j) ->
                     forall j x, f_imports (settle n st) !! j = Some x ->
                       if i_passthrough x
                       then i_next x = None /\ Some r <> Some (ImportRef j)
                       else exists k, (pre ++ [n]) !! k = Some (i_node x) /\
                                      settled (pre ++ [n]) k (i_next x) (Some r)
                                        (ImportRef j)).
  { intros r Hp Hr j x Hj. specialize (Him j x Hj).
    assert (Hne : ImportRef j <> r).
    { intros <-. destruct (Hr j) as [?|Hlen]; [done|].
      apply lookup_lt_Some in Hj. lia. }
    destruct (i_passthrough x).
    - destruct Him as [H1 _]. split; [exact H1|]. intros [= ->]. done.
    - destruct Him as (k & Hk & Hs). exists k. split; [by apply lookup_app_old|].
      rewrite Hp in Hs. eapply settled_old; [exact Hk|exact Hne|exact Hs]. }
  destruct (n_type n) eqn:Et;
    try (apply Hother; [unfold is_export_node| unfold is_import_node| exact H];
         rewrite Et; reflexivity).
  - (* an import declaration *)
    destruct (processImport n false) as [x|] eqn:Ex; [|discriminate].
    cbn [mbind result_bind] in H. injection H as <-.
    apply processImport_fields in Ex as (Hn & Hpass & Hnext).
    assert (Hp : f_previous (settle n st) = None) by (apply Hnone; reflexivity).
    split; [|split; [|split]]; simpl.
    + rewrite filter_snoc. unfold is_export_node at 2. rewrite Et. simpl.
      by rewrite app_nil_r.
    + rewrite filter_snoc. unfold is_import_node at 2. rewrite Et. simpl.
      rewrite map_app, Hi. simpl. by rewrite Hn.
    + apply Hold_e; [exact Hp|]. intros j. by left.
    + intros j y Hj. apply lookup_app_Some in Hj as [Hj|[Hge Hj]].
      * apply (Hold_i _ Hp); [|exact Hj]. intros j'.
        destruct (decide (j' = length (f_imports (settle n st)))) as [->|?];
          [right; lia|left; congruence].
      * apply list_lookup_singleton_Some in Hj as [Hj <-].
        rewrite Hpass. exists (length pre). rewrite Hn.
        split; [by rewrite lookup_app_r, Nat.sub_diag|].
        replace j with (length (f_imports (settle n st))) by lia.
        apply settled_new.
  - (* a named export *)
    destruct (processExport n source) as [x|] eqn:Ex; [|discriminate].
    cbn [mbind result_bind] in H.
    apply processExport_fields in Ex as (Hn & Hnext & Hfin & _).
    assert (Hp : f_previous (settle n st) = None) by (apply Hnone; reflexivity).
    destruct (child "source" n) as [src|] eqn:Es.
    + destruct (processImport n true) as [p|] eqn:Ep; [|discriminate].
      cbn [mbind result_bind] in H. injection H as <-.
      apply processImport_fields in Ep as (Hpn & Hpass & Hpnext).
      split; [|split; [|split]]; simpl.
      * rewrite filter_snoc. unfold is_export_node at 2. rewrite Et. simpl.
        rewrite map_app, He. simpl. by rewrite Hn.
      * rewrite filter_snoc. unfold is_import_node at 2. rewrite Et, Es. simpl.
        rewrite ?bool_decide_eq_true_2 by eauto.
        rewrite map_app, Hi. simpl. by rewrite Hpn.
      * intros j y Hj. apply lookup_app_Some in Hj as [Hj|[Hge Hj]].
        -- apply (Hold_e _ Hp); [|exact Hj]. intros j'.
           destruct (decide (j' = length (f_exports (settle n st)))) as [->|?];
             [right; lia|left; congruence].
        -- apply list_lookup_singleton_Some in Hj as [Hj <-]. simpl.
           split; [exact Hfin|]. exists (length pre). rewrite Hn.
           split; [by rewrite lookup_app_r, Nat.sub_diag|].
           replace j with (length (f_exports (settle n st))) by lia.
           apply settled_new.
      * intros j y Hj. apply lookup_app_Some in Hj as [Hj|[Hge Hj]].
        -- apply (Hold_i _ Hp); [|exact Hj]. intros j'. by left.
        -- apply list_lookup_singleton_Some in Hj as [Hj <-].
           rewrite Hpass. split; [exact Hpnext|discriminate].
    + injection H as <-.
      split; [|split; [|split]]; simpl.
      * rewrite filter_snoc. unfold is_export_node at 2. rewrite Et. simpl.
        rewrite map_app, He. simpl. by rewrite Hn.
      * rewrite filter_snoc. unfold is_import_node at 2. rewrite Et, Es. simpl.
        rewrite ?bool_decide_eq_false_2 by (by intros [? ?]). by rewrite app_nil_r.
      * intros j y Hj. apply lookup_app_Some in Hj as [Hj|[Hge Hj]].
        -- apply (Hold_e _ Hp); [|exact Hj]. intros j'.
           destruct (decide (j' = length (f_exports (settle n st)))) as [->|?];
             [right; lia|left; congruence].
        -- apply list_lookup_singleton_Some in Hj as [Hj <-].
           split; [exact Hfin|]. exists (length pre). rewrite Hn.
           split; [by rewrite lookup_app_r, Nat.sub_diag|].
           replace j with (length (f_exports (settle n st))) by lia.
           apply settled_new.
      * apply Hold_i; [exact Hp|]. intros j. by left.
  - (* a default export *)
    destruct (processDefaultExport n source) as [x|] eqn:Ex; [|discriminate].
    cbn [mbind result_bind] in H.
    destruct (f_default (settle n st)); [discriminate|]. injection H as <-.
    apply processDefaultExport_fields in Ex as (Hn & Hnext & Hfin & _).
    assert (Hp : f_previous (settle n st) = None) by (apply Hnone; reflexivity).
    split; [|split; [|split]]; simpl.
    + rewrite filter_snoc. unfold is_export_node at 2. rewrite Et. simpl.
      rewrite map_app, He. simpl. by rewrite Hn.
    + rewrite filter_snoc. unfold is_import_node at 2. rewrite Et. simpl.
      by rewrite app_nil_r.
    + intros j y Hj. apply lookup_app_Some in Hj as [Hj|[Hge Hj]].
      * apply (Hold_e _ Hp); [|exact Hj]. intros j'.
        destruct (decide (j' = length (f_exports (settle n st)))) as [->|?];
          [right; lia|left; congruence].
      * apply list_lookup_singleton_Some in Hj as [Hj <-].
        split; [exact Hfin|]. exists (length pre). rewrite Hn.
        split; [by rewrite lookup_app_r, Nat.sub_diag|].
        replace j with (length (f_exports (settle n st))) by lia.
        apply settled_new.
    + apply Hold_i; [exact Hp|]. intros j. by left.
Qed.

Lemma loop_keeps (source : string) (rest pre : list node) (st st' : fie_state) :
  declarations_of pre st ->
  forEach (findImportsAndExports_step source) rest st = Ok st' ->
  declarations_of (pre ++ rest) st'.
Proof.
  revert pre st. induction rest as [|n rest IH]; intros pre st Hd H.
  - simpl in H. injection H as <-. by rewrite app_nil_r.
  - cbn [forEach] in H.
    destruct (findImportsAndExports_step source n st) as [st1|] eqn:E; [|discriminate].
    cbn [mbind result_bind] in H.
    replace (pre ++ n :: rest) with ((pre ++ [n]) ++ rest) by (by rewrite <- app_assoc).
    eapply IH; [|exact H]. eapply step_keeps; eauto.
Qed.

(** X13. [findImportsAndExports] makes one export of every export
    statement and one import of every import statement and of every
    export with a source, in the order of the statements.  The [next] of
    an export or import is the start of the first statement after it that
    is no empty statement, or the length of the source when there is
    none, and then the export is marked as final; only the import made of
    an export with a source has no [next]. *)
Theorem findImportsAndExports_next (source : string) (ast : node)
  (imports : list ImportDecl) (exports : list ExportDecl) (d : option ExportDecl) :
  findImportsAndExports source ast = Ok (imports, exports, d) ->
  map e_node exports = List.filter is_export_node (child_list "body" ast) /\
  map i_node imports = List.filter is_import_node (child_list "body" ast) /\
  (forall x, x ∈ exports ->
             exists k, child_list "body" ast !! k = Some (e_node x) /\
                       e_next x = Some (next_of source (drop (S k) (child_list "body" ast))) /\
                       e_isFinal x = match first_statement
                                             (drop (S k) (child_list "body" ast)) with
                                     | Some _ => false
                                     | None => true
                                     end) /\
  (forall x, x ∈ imports ->
             if i_passthrough x then i_next x = None
             else exists k, child_list "body" ast !! k = Some (i_node x) /\
                            i_next x
                            = Some (next_of source (drop (S k) (child_list "body" ast)))).
Proof.
  unfold findImportsAndExports. intros H.
  destruct (forEach _ _ _) as [st|] eqn:E; [|discriminate].
  cbn [mbind result_bind] in H.
  apply (loop_keeps source _ []) in E.
  2:{ split; [reflexivity|]. split; [reflexivity|].
      split; intros j x Hj; simpl in Hj; by rewrite lookup_nil in Hj. }
  simpl in E. destruct E as (He & Hi & Hex & Him).
  set (body := child_list "body" ast) in *.
  injection H as <- <- _.
  destruct (f_previous st) as [[r|r]|] eqn:Hp; simpl.
  - (* the last declaration is an import *)
    split; [exact He|]. split; [rewrite <- Hi; by apply map_alter_same|]. split.
    + intros x Hx. apply list_elem_of_lookup in Hx as [j Hj].
      destruct (Hex j x Hj) as (Hf & k & Hk & Hs). exists k. split; [exact Hk|].
      unfold settled, next_of in *.
      destruct (first_statement (drop (S k) body)); [|discriminate].
      destruct Hs as [-> _]. done.
    + intros x' Hx'. apply list_elem_of_lookup in Hx' as [j Hj].
      destruct (decide (j = r)) as [->|Hne].
      * rewrite list_lookup_alter_eq in Hj.
        destruct (f_imports st !! r) as [x|] eqn:Hx; [|discriminate].
        simpl in Hj. injection Hj as <-. specialize (Him r x Hx). simpl.
        destruct (i_passthrough x); [by destruct Him|].
        destruct Him as (k & Hk & Hs). exists k. split; [exact Hk|].
        unfold settled, next_of in *.
        destruct (first_statement (drop (S k) body)); [by destruct Hs|reflexivity].
      * rewrite list_lookup_alter_ne in Hj by (intros ->; done).
        specialize (Him j x' Hj).
        destruct (i_passthrough x'); [by destruct Him|].
        destruct Him as (k & Hk & Hs). exists k. split; [exact Hk|].
        unfold settled, next_of in *.
        destruct (first_statement (drop (S k) body)); [by destruct Hs|].
        injection Hs as ->. done.
  - (* the last declaration is an export *)
    split; [rewrite <- He; by apply map_alter_same|]. split; [exact Hi|]. split.
    + intros x' Hx'. apply list_elem_of_lookup in Hx' as [j Hj].
      destruct (decide (j = r)) as [->|Hne].
      * rewrite list_lookup_alter_eq in Hj.
        destruct (f_exports st !! r) as [x|] eqn:Hx; [|discriminate].
        simpl in Hj. injection Hj as <-.
        destruct (Hex r x Hx) as (Hf & k & Hk & Hs). simpl.
        exists k. split; [exact Hk|].
        unfold settled, next_of in *.
        destruct (first_statement (drop (S k) body)); [by destruct Hs|done].
      * rewrite list_lookup_alter_ne in Hj by (intros ->; done).
        destruct (Hex j x' Hj) as (Hf & k & Hk & Hs).
        exists k. split; [exact Hk|].
        unfold settled, next_of in *.
        destruct (first_statement (drop (S k) body)); [by destruct Hs as [-> _]|].
        injection Hs as ->. done.
    + intros x Hx. apply list_elem_of_lookup in Hx as [j Hj].
      specialize (Him j x Hj). destruct (i_passthrough x); [by destruct Him|].
      destruct Him as (k & Hk & Hs). exists k. split; [exact Hk|].
      unfold settled, next_of in *.
      destruct (first_statement (drop (S k) body)); [by destruct Hs|discriminate].
  - (* every declaration has its next *)
    split; [exact He|]. split; [exact Hi|]. split.
    + intros x Hx. apply list_elem_of_lookup in Hx as [j Hj].
      destruct (Hex j x Hj) as (Hf & k & Hk & Hs). exists k. split; [exact Hk|].
      unfold settled, next_of in *.
      destruct (first_statement (drop (S k) body)); [|discriminate].
      destruct Hs as [-> _]. done.
    + intros x Hx. apply list_elem_of_lookup in Hx as [j Hj].
      specialize (Him j x Hj). destruct (i_passthrough x); [by destruct Him|].
      destruct Him as (k & Hk & Hs). exists k. split; [exact Hk|].
      unfold settled, next_of in *.
      destruct (first_statement (drop (S k) body)); [by destruct Hs|discriminate].
Qed.

(** [import { a as b } from './m'; export { b };] *)
Lemma findImportsAndExports_next_witness :
  exists imports exports d,
    findImportsAndExports renamed_entry_source renamed_entry_ast = Ok (imports, exports, d) /\
    map e_node exports = List.filter is_export_node (child_list "body" renamed_entry_ast) /\
    map i_node imports = List.filter is_import_node (child_list "body" renamed_entry_ast).
Proof.
  destruct (findImportsAndExports renamed_entry_source renamed_entry_ast)
    as [[[imports exports] d]|] eqn:E; [|vm_compute in E; discriminate].
  exists imports, exports, d. split; [reflexivity|].
  destruct (findImportsAndExports_next _ _ _ _ _ E) as (H1 & H2 & _).
  split; assumption.
Defined.

(** ** Texts in quotes *)


Lemma quoted_char (c : ascii) (s : string) :
  literal_body (escape_quotes (json_escape s)) = true ->
  literal_body (escape_quotes (json_escape (String c s))) = true.
Proof.
  intros IH.
  destruct c as [[] [] [] [] [] [] [] []]; exact IH.
Qed.

(** X14. [quote] answers one string literal in single quotes: between the
    quotes that it adds, every quote, backslash, line feed and carriage
    return of the text is behind a backslash, so the literal ends where
    the result ends. *)
Theorem quote_literal (str : string) :
  exists body, quote str = "'" +:+ body +:+ "'" /\ literal_body body = true.
Proof.
  exists (escape_quotes (json_escape str)). split; [reflexivity|].
  induction str as [|c str IH]; [reflexivity|]. by apply quoted_char.
Qed.

(** ** The kinds of imports *)

Lemma processSpecifier_kind (passthrough : bool) (n : node) (s : Specifier) :
  processSpecifier passthrough n = Ok s ->
  (sp_isBatch s = true -> sp_isDefault s = false /\ sp_name s = sp_as s) /\
  (sp_isDefault s = true -> sp_isBatch s = false /\ sp_name s = "default").
Proof.
  unfold processSpecifier. intros H.
  destruct (n_type n);
    repeat match type of H with
      | context [prop_name ?k n] => destruct (prop_name k n); [|discriminate]
      end;
    cbn [mbind result_bind] in H; injection H as <-; simpl; split; intros; done.
Qed.

(** X15. The kind that [processImport] gives to an import: exactly one of
    empty, default, batch and named.  An import is empty without
    specifiers, default or batch with one specifier of that kind, and
    named in every other case, so also with a default specifier and a
    namespace specifier together; [as] is set for the default and the batch
    import only, to the local name of the one specifier. *)
Theorem processImport_kind (n : node) (passthrough : bool) (x : ImportDecl) :
  processImport n passthrough = Ok x ->
  Nat.b2n (i_isEmpty x) + Nat.b2n (i_isDefault x) + Nat.b2n (i_isBatch x)
  + Nat.b2n (i_isNamed x) = 1 /\
  (i_isEmpty x = true <-> i_specifiers x = []) /\
  (i_isDefault x = true <-> exists s, i_specifiers x = [s] /\ sp_isDefault s = true) /\
  (i_isBatch x = true <-> exists s, i_specifiers x = [s] /\ sp_isBatch s = true) /\
  i_as x = (if i_isDefault x || i_isBatch x then sp_as <$> head (i_specifiers x) else None).
Proof.
  unfold processImport. intros H.
  destruct (child "source" n); [|discriminate]. cbn [mbind result_bind] in H.
  destruct (mapM (processSpecifier passthrough) (child_list "specifiers" n))
    as [specifiers|] eqn:E; [|discriminate].
  cbn [mbind result_bind] in H. injection H as <-.
  apply mapM_Forall2 in E.
  destruct specifiers as [|s [|s' l]].
  - simpl. split; [reflexivity|]. split; [done|].
    split; [split; [discriminate|intros (s & Hs & _); discriminate]|].
    split; [split; [discriminate|intros (s & Hs & _); discriminate]|reflexivity].
  - assert (Hs : exists m, processSpecifier passthrough m = Ok s).
    { inversion E; subst. eauto. }
    destruct Hs as [m Hm]. apply processSpecifier_kind in Hm as [Hb Hd].
    destruct (sp_isDefault s) eqn:Ed.
    + destruct (Hd eq_refl) as [Hnb _]. simpl. split; [reflexivity|].
      split; [split; discriminate|]. split; [split; eauto|].
      split; [|reflexivity]. split; [discriminate|].
      intros (s0 & [= <-] & H). congruence.
    + destruct (sp_isBatch s) eqn:Eb.
      * destruct (Hb eq_refl) as [_ Hname]. simpl. split; [reflexivity|].
        split; [split; discriminate|]. split.
        { split; [discriminate|]. intros (s0 & [= <-] & H). congruence. }
        split; [split; eauto|]. by rewrite Hname.
      * simpl. split; [reflexivity|]. split; [split; discriminate|].
        split; [split; [discriminate|intros (s0 & [= <-] & H); congruence]|].
        split; [split; [discriminate|intros (s0 & [= <-] & H); congruence]|reflexivity].
  - simpl. split; [reflexivity|]. split; [split; discriminate|].
    split; [split; [discriminate|intros (s0 & [=] & _)]|].
    split; [split; [discriminate|intros (s0 & [=] & _)]|reflexivity].
Qed.

(** [import { x } from 'a'] is a named import. *)
Lemma processImport_kind_witness :
  exists x, processImport import_x false = Ok x /\ i_isNamed x = true /\ i_as x = None.
Proof.
  destruct (processImport import_x false) as [x|] eqn:E; [|vm_compute in E; discriminate].
  exists x. split; [reflexivity|].
  destruct (processImport_kind _ _ _ E) as (Hone & Hempty & Hdefault & Hbatch & Has).
  assert (Hd : i_isDefault x = false).
  { destruct (i_isDefault x); [|reflexivity].
    destruct (proj1 Hdefault eq_refl) as (s & Hs & Hsd).
    vm_compute in E. injection E as <-. simpl in Hs. injection Hs as <-. discriminate. }
  assert (Hb : i_isBatch x = false).
  { destruct (i_isBatch x); [|reflexivity].
    destruct (proj1 Hbatch eq_refl) as (s & Hs & Hsb).
    vm_compute in E. injection E as <-. simpl in Hs. injection Hs as <-. discriminate. }
  assert (He : i_isEmpty x = false).
  { destruct (i_isEmpty x); [|reflexivity].
    pose proof (proj1 Hempty eq_refl) as Hs.
    vm_compute in E. injection E as <-. discriminate. }
  rewrite Hd, Hb, He in Hone. rewrite Hd, Hb in Has. simpl in *.
  split; [destruct (i_isNamed x); [reflexivity|discriminate]|exact Has].
Defined.

(** ** Placeholders for imports without a name *)


Lemma string_of_uint_digits (d : Decimal.uint) :
  all_chars is_digit (DecimalString.NilEmpty.string_of_uint d) = true.
Proof. induction d; simpl; try rewrite IHd; reflexivity. Qed.

Lemma string_of_uint_length (d : Decimal.uint) :
  d <> Decimal.Nil -> 1 <= String.length (DecimalString.NilEmpty.string_of_uint d).
Proof. destruct d; simpl; intros H; try lia. done. Qed.

Lemma nat_to_string_digits (n : nat) :
  all_chars is_digit (nat_to_string n) = true /\ 1 <= String.length (nat_to_string n).
Proof.
  unfold nat_to_string. split; [apply string_of_uint_digits|].
  apply string_of_uint_length.
  rewrite <- (DecimalNat.Unsigned.of_to n) at 1. rewrite DecimalNat.Unsigned.to_of.
  unfold Decimal.unorm. destruct (Decimal.nzhead (Nat.to_uint n)); discriminate.
Qed.

Lemma substring_all (s t : string) : String.substring 0 (String.length s) (s +:+ t) = s.
Proof.
  induction s as [|c s IH]; simpl.
  - change ("" +:+ t) with t. destruct t; reflexivity.
  - change (String c s +:+ t) with (String c (s +:+ t)). simpl. by rewrite IH.
Qed.

Lemma substring_self (s : string) : String.substring 0 (String.length s) s = s.
Proof. induction s as [|c s IH]; [reflexivity|]. simpl. by rewrite IH. Qed.

Lemma substring_rest (s t : string) :
  String.substring (String.length s) (String.length t) (s +:+ t) = t.
Proof.
  induction s as [|c s IH]; simpl.
  - change ("" +:+ t) with t. apply substring_self.
  - change (String c s +:+ t) with (String c (s +:+ t)). simpl. exact IH.
Qed.

Lemma placeholder_is_placeholder (n : nat) :
  is_placeholder ("__dep" +:+ nat_to_string n +:+ "__") = true.
Proof.
  destruct (nat_to_string_digits n) as [Hd Hl].
  generalize dependent (nat_to_string n). intros d Hd Hl.
  unfold is_placeholder.
  change ("__dep" +:+ d +:+ "__")
    with (String "_" (String "_" (String "d" (String "e" (String "p" (d +:+ "__")))))).
  cbn [prefix_of Ascii.eqb Bool.eqb andb String.length].
  replace (S (S (S (S (S (String.length (d +:+ "__")))))) - 5)
    with (String.length (d +:+ "__")) by lia.
  cbn [String.substring].
  assert (Hself : String.substring 0 (String.length (d +:+ "__")) (d +:+ "__") = d +:+ "__")
    by apply substring_self.
  rewrite Hself, length_append. simpl String.length.
  replace (String.length d + 2 - 2) with (String.length d) by lia.
  rewrite substring_all.
  replace (String.substring (String.length d) 2 (d +:+ "__")) with "__"
    by (symmetry; apply (substring_rest d "__")).
  rewrite Hd. destruct (String.length d) as [|k]; [lia|].
  replace (S k + 2) with (S (S (S k))) by lia. reflexivity.
Qed.

(** X16. The names that the builders write for imports without a name,
    [__dep<i>__] with [i] the position, are the names that [globalify]
    reads as placeholders: it answers [undefined] for each of them, and
    [global.<name>] for a name that starts differently. *)
Theorem globalify_placeholder :
  (forall (placeholders : nat) (importNames : list string) (i : nat) (name : string),
      fill_placeholders placeholders importNames !! i = Some name ->
      length importNames <= i ->
      name = "__dep" +:+ nat_to_string i +:+ "__" /\ globalify name = "undefined") /\
  (forall name, prefix_of "__dep" name = false -> globalify name = "global." +:+ name).
Proof.
  split.
  - intros placeholders importNames i name H Hi.
    rewrite fill_placeholders_spec in H.
    rewrite lookup_app_r in H by exact Hi.
    rewrite list_lookup_fmap in H.
    destruct (seq (length importNames) placeholders !! (i - length importNames))
      as [j|] eqn:E; [|discriminate].
    apply lookup_seq in E as [-> _]. simpl in H. injection H as <-.
    replace (length importNames + (i - length importNames)) with i by lia.
    split; [reflexivity|]. unfold globalify. by rewrite placeholder_is_placeholder.
  - intros name H. unfold globalify, is_placeholder. by rewrite H.
Qed.

(** The second name after two imports without a name. *)
Lemma globalify_placeholder_witness :
  fill_placeholders 2 ["a"] !! 2 = Some "__dep2__" /\ globalify "__dep2__" = "undefined".
Proof.
  destruct (proj1 globalify_placeholder 2 ["a"] 2 "__dep2__") as [_ H].
  - reflexivity.
  - simpl. lia.
  - split; [reflexivity|exact H].
Defined.

(** ** Imports inside a bundle *)


Lemma forEach_each {A S : Type} (f : A -> S -> result S) (l : list A) (st st' : S) :
  forEach f l st = Ok st' -> forall a, a ∈ l -> exists s s', f a s = Ok s'.
Proof.
  revert st. induction l as [|b l IH]; intros st H a Ha; [by apply elem_of_nil in Ha|].
  simpl in H. destruct (f b st) as [s1|] eqn:E; [|discriminate].
  apply elem_of_cons in Ha as [->|Ha]; eauto.
Qed.

Lemma forEach_unit {A : Type} (f : A -> unit -> result unit) (l : list A) (u : unit) :
  forEach f l tt = Ok u -> forall a, a ∈ l -> f a tt = Ok tt.
Proof.
  intros H a Ha. destruct (forEach_each _ _ _ _ H a Ha) as ([] & [] & E). exact E.
Qed.

Lemma find_same {A : Type} (R : A -> A -> Prop) (p : A -> bool) (l l' : list A) (a' : A) :
  Forall2 R l l' -> (forall a b, R a b -> p b = p a) ->
  find p l' = Some a' -> exists a, find p l = Some a /\ R a a'.
Proof.
  intros HF Hp. induction HF as [|a b l l' HR HF IH]; [discriminate|].
  simpl. rewrite (Hp a b HR). destruct (p a); [|exact IH].
  intros [= <-]. eauto.
Qed.



(** ** The names a module exports *)

Lemma mem_fold_set_key (n : string) (specifiers keys : list string) :
  mem n (fold_left (fun d s => set_key s d) specifiers keys) = true
  <-> mem n keys = true \/ n ∈ specifiers.
Proof.
  revert keys. induction specifiers as [|s l IH]; intros keys; simpl.
  - split; [auto|]. intros [H|H]; [exact H|by apply elem_of_nil in H].
  - rewrite IH, mem_set_key_iff, elem_of_cons. tauto.
Qed.



(** ** What a bundle needs of its external modules *)


Lemma need_more_twice (d1 n1 d2 n2 : bool) (e : ExternalModule) :
  need_more d2 n2 (need_more d1 n1 e) = need_more (d1 || d2) (n1 || n2) e.
Proof. unfold need_more. simpl. by rewrite !orb_assoc. Qed.

Lemma need_more_nothing (e : ExternalModule) : need_more false false e = e.
Proof. destruct e. unfold need_more. simpl. by rewrite !orb_false_r. Qed.

(** X19. [populateExternalModuleImports] only ever sets flags: an external
    module keeps its id and name, needs its default export exactly when it
    needed it before or some import of it in the bundle has a default
    specifier, and needs named exports exactly when it needed them before
    or some import of it has a specifier that is no default specifier (a
    namespace specifier included). *)
Theorem populateExternalModuleImports_flags (ms : list Module)
  (externals : list ExternalModule) :
  populateExternalModuleImports ms externals =
    map (fun e => need_more (imported_as sp_isDefault ms (x_id e))
                            (imported_as (fun s => negb (sp_isDefault s)) ms (x_id e)) e)
        externals.
Proof.
  unfold populateExternalModuleImports.
  (* one specifier *)
  set (one := fun (x : ImportDecl) (externals : list ExternalModule) (s : Specifier) =>
                map (fun e =>
                       if str_eqb (x_id e) (import_id x)
                       then if sp_isDefault s
                            then {| x_id := x_id e; x_name := x_name e;
                                    needsDefault := true; needsNamed := needsNamed e |}
                            else {| x_id := x_id e; x_name := x_name e;
                                    needsDefault := needsDefault e; needsNamed := true |}
                       else e) externals).
  assert (Hone : forall x s l,
             one x l s =
               map (fun e => need_more (str_eqb (x_id e) (import_id x) && sp_isDefault s)
                                       (str_eqb (x_id e) (import_id x)
                                        && negb (sp_isDefault s)) e) l).
  { intros x s l. unfold one. apply map_ext. intros e.
    destruct (str_eqb (x_id e) (import_id x)); simpl; [|by rewrite need_more_nothing].
    destruct e as [i n d m]. unfold need_more. simpl.
    destruct (sp_isDefault s); simpl; by rewrite ?orb_true_r, ?orb_false_r. }
  assert (Hspecs : forall x specs l,
             fold_left (one x) specs l =
               map (fun e => need_more
                               (str_eqb (x_id e) (import_id x) && existsb sp_isDefault specs)
                               (str_eqb (x_id e) (import_id x)
                                && existsb (fun s => negb (sp_isDefault s)) specs) e) l).
  { intros x specs. induction specs as [|s specs IH]; intros l; simpl.
    - rewrite <- (map_id l) at 1. apply map_ext. intros e.
      by rewrite !andb_false_r, need_more_nothing.
    - rewrite IH, Hone, map_map. apply map_ext. intros e.
      rewrite need_more_twice. simpl.
      destruct (str_eqb (x_id e) (import_id x)); reflexivity. }
  assert (Himports : forall xs l,
             fold_left (fun externals x => fold_left (one x) (i_specifiers x) externals) xs l =
               map (fun e => need_more
                               (existsb (fun x => str_eqb (x_id e) (import_id x)
                                                  && existsb sp_isDefault (i_specifiers x)) xs)
                               (existsb (fun x => str_eqb (x_id e) (import_id x)
                                                  && existsb (fun s => negb (sp_isDefault s))
                                                       (i_specifiers x)) xs) e) l).
  { induction xs as [|x xs IH]; intros l; simpl.
    - rewrite <- (map_id l) at 1. apply map_ext. intros e. by rewrite need_more_nothing.
    - rewrite IH, Hspecs, map_map. apply map_ext. intros e.
      rewrite need_more_twice. reflexivity. }
  change (fold_left _ ms externals)
    with (fold_left (fun externals mdl =>
                       fold_left (fun externals x =>
                                    fold_left (one x) (i_specifiers x) externals)
                                 (imports mdl) externals) ms externals).
  revert externals. induction ms as [|mdl ms IH]; intros externals; simpl.
  - rewrite <- (map_id externals) at 1. apply map_ext. intros e.
    by rewrite need_more_nothing.
  - rewrite IH, Himports, map_map. apply map_ext. intros e.
    rewrite need_more_twice. reflexivity.
Qed.

(** ** The default export of a module *)


Lemma type_error_bind {A B : Type} (r : result A) (k : A -> result B) :
  type_error r -> (forall a, type_error (k a)) -> type_error (r ≫= k).
Proof.
  intros Hr Hk e H. destruct r as [a|e']; simpl in H; [by apply (Hk a)|].
  injection H as <-. by apply Hr.
Qed.

Lemma type_error_ok {A : Type} (a : A) : type_error (Ok a).
Proof. intros e H. discriminate. Qed.

Lemma type_error_err {A : Type} (message : string) : type_error (@Err A (TypeError message)).
Proof. intros e [= <-]. eauto. Qed.

Lemma type_error_mapM {A B : Type} (f : A -> result B) (l : list A) :
  (forall a, type_error (f a)) -> type_error (mapM f l).
Proof.
  intros Hf. induction l as [|a l IH]; simpl; [apply type_error_ok|].
  apply type_error_bind; [apply Hf|]. intros b.
  apply type_error_bind; [exact IH|]. intros bs. apply type_error_ok.
Qed.

Lemma type_error_prop_name (k : string) (n : node) : type_error (prop_name k n).
Proof. unfold prop_name. destruct (child k n); [apply type_error_ok|apply type_error_err]. Qed.

Lemma type_error_id_name (n : node) : type_error (id_name n).
Proof. unfold id_name. destruct (child "id" n); [apply type_error_ok|apply type_error_err]. Qed.

Lemma type_error_processImport (n : node) (passthrough : bool) :
  type_error (processImport n passthrough).
Proof.
  unfold processImport.
  apply type_error_bind; [destruct (child "source" n);
                          [apply type_error_ok|apply type_error_err]|].
  intros src. apply type_error_bind; [|intros; apply type_error_ok].
  apply type_error_mapM. intros s. unfold processSpecifier.
  destruct (n_type s);
    repeat (apply type_error_bind; [apply type_error_prop_name|intros ?]);
    apply type_error_ok.
Qed.

Lemma type_error_processExport (n : node) (source : string) :
  type_error (processExport n source).
Proof.
  unfold processExport. destruct (child "declaration" n) as [d|].
  - destruct (n_type d); try apply type_error_ok.
    + destruct (child_list "declarations" d); [apply type_error_err|].
      apply type_error_bind; [apply type_error_id_name|intros; apply type_error_ok].
    + apply type_error_bind; [apply type_error_id_name|intros; apply type_error_ok].
    + apply type_error_bind; [apply type_error_id_name|intros; apply type_error_ok].
  - apply type_error_bind; [|intros; apply type_error_ok].
    apply type_error_mapM. intros s. apply type_error_prop_name.
Qed.

Lemma type_error_processDefaultExport (n : node) (source : string) :
  type_error (processDefaultExport n source).
Proof.
  unfold processDefaultExport. destruct (child "declaration" n) as [d|];
    [|apply type_error_err].
  destruct (n_type d); try apply type_error_ok;
    (apply type_error_bind; [apply type_error_id_name|intros; apply type_error_ok]).
Qed.

Lemma default_settle (pre : list node) (n : node) (st : fie_state) :
  default_of pre st ->
  f_default (settle n st) = f_default st /\
  (forall j x, f_exports (settle n st) !! j = Some x ->
               e_isDefault x = is_default_node (e_node x) /\ e_node x ∈ pre) /\
  (forall i x, f_exports st !! i = Some x -> e_isDefault x = true ->
               exists x', f_exports (settle n st) !! i = Some x' /\ e_isDefault x' = true).
Proof.
  intros [Hx Hd]. unfold settle. destruct (f_previous st) as [[r|r]|]; simpl.
  - split; [reflexivity|]. split; [exact Hx|]. eauto.
  - split; [reflexivity|]. split.
    + intros j x Hj. destruct (decide (j = r)) as [->|Hne].
      * rewrite list_lookup_alter_eq in Hj.
        destruct (f_exports st !! r) as [x0|] eqn:E; [|discriminate].
        simpl in Hj. injection Hj as <-. simpl. by apply (Hx r).
      * rewrite list_lookup_alter_ne in Hj by (intros ->; done). by apply (Hx j).
    + intros i x Hi Hdef. destruct (decide (i = r)) as [->|Hne].
      * rewrite list_lookup_alter_eq, Hi. simpl. eauto.
      * rewrite list_lookup_alter_ne by (intros ->; done). eauto.
  - split; [reflexivity|]. split; [exact Hx|]. eauto.
Qed.

Lemma default_step (source : string) (pre : list node) (n : node) (st : fie_state) :
  default_of pre st ->
  match findImportsAndExports_step source n st with
  | Ok st' => default_of (pre ++ [n]) st'
  | Err e => e = Error "Duplicate default exports" ->
             2 <= length (List.filter is_default_node (pre ++ [n]))
  end.
Proof.
  intros Hd. pose proof Hd as [_ Hdef].
  destruct (default_settle pre n st Hd) as (Hsame & Hx & Hkeep).
  unfold findImportsAndExports_step. fold (settle n st).
  assert (Hold : forall j x, f_exports (settle n st) !! j = Some x ->
                   e_isDefault x = is_default_node (e_node x) /\ e_node x ∈ pre ++ [n]).
  { intros j x Hj. destruct (Hx j x Hj) as [H1 H2]. split; [exact H1|].
    apply elem_of_app. by left. }
  assert (Hnew : forall x, e_node x = n -> e_isDefault x = is_default_node n ->
                   forall j y, (f_exports (settle n st) ++ [x]) !! j = Some y ->
                               e_isDefault y = is_default_node (e_node y)
                               /\ e_node y ∈ pre ++ [n]).
  { intros x Hn Hisd j y Hj. apply lookup_app_Some in Hj as [Hj|[_ Hj]]; [eauto|].
    apply list_lookup_singleton_Some in Hj as [_ <-]. rewrite Hn.
    split; [exact Hisd|]. apply elem_of_app. right. by left. }
  assert (Hcount : forall st', f_default st' = f_default st ->
                     (forall i x, f_exports (settle n st) !! i = Some x ->
                                  e_isDefault x = true ->
                                  exists x', f_exports st' !! i = Some x'
                                             /\ e_isDefault x' = true) ->
                     is_default_node n = false ->
                     match f_default st' with
                     | None => List.filter is_default_node (pre ++ [n]) = []
                     | Some i => length (List.filter is_default_node (pre ++ [n])) = 1 /\
                                 exists x, f_exports st' !! i = Some x /\ e_isDefault x = true
                     end).
  { intros st' Hf Hk Hn. rewrite Hf, filter_snoc, Hn, app_nil_r.
    destruct (f_default st) as [i|]; [|exact Hdef].
    destruct Hdef as [Hone (x & Hi & Hxd)]. split; [exact Hone|].
    destruct (Hkeep i x Hi Hxd) as (x' & Hi' & Hxd'). eauto. }
  destruct (n_type n) eqn:Et;
    try (split; [exact Hold|];
         apply (Hcount (settle n st) Hsame); [by eauto|];
         unfold is_default_node; by rewrite Et).
  - (* an import declaration *)
    destruct (processImport n false) as [x|e] eqn:Ex; cbn [mbind result_bind].
    + split; [exact Hold|]. simpl.
      apply (Hcount {| f_imports := f_imports (settle n st) ++ [x];
                       f_exports := f_exports (settle n st);
                       f_previous := Some (ImportRef (length (f_imports (settle n st))));
                       f_default := f_default (settle n st) |} Hsame); [by eauto|].
      unfold is_default_node. by rewrite Et.
    + intros ->. destruct (type_error_processImport n false _ Ex) as [? [=]].
  - (* a named export *)
    assert (Hn : is_default_node n = false) by (unfold is_default_node; by rewrite Et).
    destruct (processExport n source) as [x|e] eqn:Ex; cbn [mbind result_bind].
    + apply processExport_fields in Ex as (Hnode & _ & _ & Hxd).
      assert (Hkeep' : forall l i y, f_exports (settle n st) !! i = Some y ->
                         e_isDefault y = true ->
                         exists x', (f_exports (settle n st) ++ l) !! i = Some x'
                                    /\ e_isDefault x' = true).
      { intros l i y Hi Hy. exists y. split; [|exact Hy].
        rewrite lookup_app_l; [exact Hi|]. by apply lookup_lt_Some in Hi. }
      destruct (child "source" n).
      * destruct (processImport n true) as [p|e] eqn:Ep; cbn [mbind result_bind].
        -- split.
           ++ apply Hnew; [exact Hnode|]. simpl. by rewrite Hxd, Hn.
           ++ simpl. apply (Hcount {| f_imports := f_imports (settle n st) ++ [p];
                                      f_exports := f_exports (settle n st)
                                                   ++ [export_set_passthrough p x];
                                      f_previous :=
                                        Some (ExportRef (length (f_exports (settle n st))));
                                      f_default := f_default (settle n st) |} Hsame);
                [apply Hkeep'|exact Hn].
        -- intros ->. destruct (type_error_processImport n true _ Ep) as [? [=]].
      * split.
        -- apply Hnew; [exact Hnode|]. by rewrite Hxd, Hn.
        -- simpl. apply (Hcount {| f_imports := f_imports (settle n st);
                                   f_exports := f_exports (settle n st) ++ [x];
                                   f_previous :=
                                     Some (ExportRef (length (f_exports (settle n st))));
                                   f_default := f_default (settle n st) |} Hsame);
             [apply Hkeep'|exact Hn].
    + intros ->. destruct (type_error_processExport n source _ Ex) as [? [=]].
  - (* a default export *)
    assert (Hn : is_default_node n = true) by (unfold is_default_node; by rewrite Et).
    destruct (processDefaultExport n source) as [x|e] eqn:Ex; cbn [mbind result_bind].
    + apply processDefaultExport_fields in Ex as (Hnode & _ & _ & Hxd).
      rewrite Hsame. destruct (f_default st) as [i|].
      * intros _. rewrite filter_snoc, Hn, length_app. simpl.
        destruct Hdef as [-> _]. lia.
      * split.
        -- apply Hnew; [exact Hnode|]. by rewrite Hxd, Hn.
        -- simpl. rewrite filter_snoc, Hn, Hdef. split; [reflexivity|].
           exists x. split; [|exact Hxd].
           by rewrite lookup_app_r, Nat.sub_diag.
    + intros ->. destruct (type_error_processDefaultExport n source _ Ex) as [? [=]].
Qed.

(** X20. A module has at most one default export: [findImportsAndExports]
    returns only for a program with at most one default export statement,
    and then [mod.defaultExport] is the export made of it, or is not set
    when there is none; each export is marked as default exactly when it
    is made of a default export statement.  It fails with [Duplicate
    default exports] only for a program with two such statements. *)
Theorem findImportsAndExports_default (source : string) (ast : node) :
  match findImportsAndExports source ast with
  | Ok (imports, exports, d) =>
      length (List.filter is_default_node (child_list "body" ast)) <= 1 /\
      (d = None <-> List.filter is_default_node (child_list "body" ast) = []) /\
      (forall x, d = Some x -> x ∈ exports /\ e_isDefault x = true) /\
      (forall x, x ∈ exports -> e_isDefault x = is_default_node (e_node x))
  | Err e =>
      e = Error "Duplicate default exports" ->
      2 <= length (List.filter is_default_node (child_list "body" ast))
  end.
Proof.
  unfold findImportsAndExports.
  assert (Hgen : forall rest pre st,
             default_of pre st ->
             match forEach (findImportsAndExports_step source) rest st with
             | Ok st' => default_of (pre ++ rest) st'
             | Err e => e = Error "Duplicate default exports" ->
                        2 <= length (List.filter is_default_node (pre ++ rest))
             end).
  { induction rest as [|n rest IH]; intros pre st Hd.
    - simpl. by rewrite app_nil_r.
    - cbn [forEach]. pose proof (default_step source pre n st Hd) as Hs.
      replace (pre ++ n :: rest) with ((pre ++ [n]) ++ rest) by (by rewrite <- app_assoc).
      destruct (findImportsAndExports_step source n st) as [st1|e];
        cbn [mbind result_bind].
      + by apply IH.
      + intros He. specialize (Hs He). rewrite List.filter_app, length_app. lia. }
  specialize (Hgen (child_list "body" ast) []
                {| f_imports := []; f_exports := []; f_previous := None; f_default := None |}).
  simpl in Hgen.
  destruct (forEach _ _ _) as [st|e]; cbn [mbind result_bind].
  - destruct Hgen as [Hx Hd].
    { split; [|reflexivity]. intros j x Hj. simpl in Hj. by rewrite lookup_nil in Hj. }
    set (body := child_list "body" ast) in *.
    assert (Hfinal : forall j x,
               (match f_previous st with
                | Some r => set_next r (String.length source) true st
                | None => st
                end).(f_exports) !! j = Some x ->
               exists x0, f_exports st !! j = Some x0 /\ e_isDefault x = e_isDefault x0
                          /\ e_node x = e_node x0).
    { intros j x Hj. destruct (f_previous st) as [[r|r]|]; simpl in Hj; eauto.
      destruct (decide (j = r)) as [->|Hne].
      - rewrite list_lookup_alter_eq in Hj.
        destruct (f_exports st !! r) as [x0|]; [|discriminate].
        simpl in Hj. injection Hj as <-. eauto.
      - rewrite list_lookup_alter_ne in Hj by (intros ->; done). eauto. }
    assert (Hsame : (match f_previous st with
                     | Some r => set_next r (String.length source) true st
                     | None => st
                     end).(f_default) = f_default st).
    { destruct (f_previous st) as [[r|r]|]; reflexivity. }
    rewrite Hsame.
    split; [destruct (f_default st); [destruct Hd as [-> _]; lia|rewrite Hd; simpl; lia]|].
    split; [|split].
    + destruct (f_default st) as [i|].
      * destruct Hd as [Hone (x & Hi & _)]. split.
        -- intros Hnone. exfalso.
           assert (Hlen : i < length (f_exports st)) by (by apply lookup_lt_Some in Hi).
           apply lookup_ge_None in Hnone.
           assert (length (match f_previous st with
                           | Some r => set_next r (String.length source) true st
                           | None => st
                           end).(f_exports) = length (f_exports st)); [|lia].
           destruct (f_previous st) as [[r|r]|]; simpl; try reflexivity.
           apply length_alter.
        -- intros H. rewrite H in Hone. discriminate.
      * done.
    + intros x Hdx. destruct (f_default st) as [i|]; [|discriminate].
      destruct Hd as [_ (x0 & Hi & Hx0)].
      split; [eapply list_elem_of_lookup_2; exact Hdx|].
      destruct (Hfinal i x Hdx) as (x1 & Hi1 & -> & _). congruence.
    + intros x Hin. apply list_elem_of_lookup in Hin as [j Hj].
      destruct (Hfinal j x Hj) as (x0 & Hj0 & -> & ->). by apply (Hx j).
  - intros He. apply Hgen; [|exact He].
    split; [|reflexivity]. intros j x Hj. simpl in Hj. by rewrite lookup_nil in Hj.
Qed.

(** Two default exports. *)
Lemma findImportsAndExports_default_witness :
  findImportsAndExports twice_default_source twice_default_ast
  = Err (Error "Duplicate default exports") /\
  2 <= length (List.filter is_default_node (child_list "body" twice_default_ast)).
Proof.
  pose proof (findImportsAndExports_default twice_default_source twice_default_ast) as H.
  destruct (findImportsAndExports twice_default_source twice_default_ast)
    as [r|e] eqn:E; [vm_compute in E; discriminate|].
  vm_compute in E. injection E as <-. split; [reflexivity|]. apply H. reflexivity.
Defined.

(** ** The chains of a bundle *)


Lemma exports_namespace_twice (b1 b2 : bool) (m : Module) :
  exports_namespace b2 (exports_namespace b1 m) = exports_namespace (b1 || b2) m.
Proof. unfold exports_namespace. simpl. by rewrite orb_assoc. Qed.

Lemma exports_namespace_nothing (m : Module) : exports_namespace false m = m.
Proof. destruct m. unfold exports_namespace. simpl. by rewrite orb_false_r. Qed.

Lemma set_exportsNamespace_spec (id : string) (store : list Module) :
  set_exportsNamespace id store
  = map (fun m => exports_namespace (str_eqb (m_id m) id) m) store.
Proof.
  unfold set_exportsNamespace. apply map_ext. intros m.
  destruct (str_eqb (m_id m) id); [|by rewrite exports_namespace_nothing].
  unfold exports_namespace. simpl. by rewrite orb_true_r.
Qed.

Lemma origin_of_specifiers (x : ImportDecl) (specs : list Specifier) (origin : dict)
  (store : list Module) :
  (fold_left (origin_of_specifier x) specs (origin, store)).2
  = map (fun m => exports_namespace (str_eqb (m_id m) (import_id x)
                                     && existsb sp_isBatch specs) m) store /\
  forall k v, get k (fold_left (origin_of_specifier x) specs (origin, store)).1 = Some v ->
              get k origin = Some v
              \/ exists sp, sp ∈ specs /\ sp_isBatch sp = false /\ k = sp_as sp
                            /\ v = import_id x +:+ "@" +:+ sp_name sp.
Proof.
  revert origin store. induction specs as [|s specs IH]; intros origin store.
  - simpl. split; [|auto]. rewrite <- (map_id store) at 1. apply map_ext. intros m.
    by rewrite andb_false_r, exports_namespace_nothing.
  - cbn [fold_left]. unfold origin_of_specifier at 2 4. destruct (sp_isBatch s) eqn:Eb.
    + destruct (IH origin (set_exportsNamespace (import_id x) store)) as [H1 H2]. split.
      * rewrite H1, set_exportsNamespace_spec, map_map. apply map_ext. intros m.
        rewrite exports_namespace_twice. simpl. rewrite Eb. simpl.
        destruct (str_eqb (m_id m) (import_id x)); reflexivity.
      * intros k v Hk. destruct (H2 k v Hk) as [?|(sp & Hsp & ?)]; [by left|].
        right. exists sp. split; [by right|done].
    + destruct (IH (put (sp_as s) (import_id x +:+ "@" +:+ sp_name s) origin) store)
        as [H1 H2]. split.
      * rewrite H1. apply map_ext. intros m. simpl. by rewrite Eb.
      * intros k v Hk. destruct (H2 k v Hk) as [Hg|(sp & Hsp & ?)].
        -- destruct (decide (k = sp_as s)) as [->|Hne].
           ++ rewrite get_put_eq in Hg. injection Hg as <-. right. exists s.
              split; [by left|done].
           ++ rewrite get_put_ne in Hg by exact Hne. by left.
        -- right. exists sp. split; [by right|done].
Qed.

Lemma origin_of_imports (xs : list ImportDecl) (origin : dict) (store : list Module) :
  (fold_left origin_of_import xs (origin, store)).2
  = map (fun m => exports_namespace
                    (existsb (fun x => str_eqb (m_id m) (import_id x)
                                       && existsb sp_isBatch (i_specifiers x)) xs) m)
        store /\
  forall k v, get k (fold_left origin_of_import xs (origin, store)).1 = Some v ->
              get k origin = Some v
              \/ exists x sp, x ∈ xs /\ sp ∈ i_specifiers x /\ sp_isBatch sp = false
                              /\ k = sp_as sp /\ v = import_id x +:+ "@" +:+ sp_name sp.
Proof.
  revert origin store. induction xs as [|x xs IH]; intros origin store.
  - simpl. split; [|auto]. rewrite <- (map_id store) at 1. apply map_ext. intros m.
    by rewrite exports_namespace_nothing.
  - cbn [fold_left]. unfold origin_of_import at 2 4.
    destruct (fold_left (origin_of_specifier x) (i_specifiers x) (origin, store))
      as [o1 s1] eqn:E.
    pose proof (origin_of_specifiers x (i_specifiers x) origin store) as [S1 S2].
    rewrite E in S1, S2. simpl in S1, S2.
    destruct (IH o1 s1) as [H1 H2]. split.
    + rewrite H1, S1, map_map. apply map_ext. intros m.
      rewrite exports_namespace_twice. reflexivity.
    + intros k v Hk. destruct (H2 k v Hk) as [Hg|(y & sp & Hy & ?)].
      * destruct (S2 k v Hg) as [?|(sp & ? & ?)]; [by left|].
        right. exists x, sp. split; [by left|done].
      * right. exists y, sp. split; [by right|done].
Qed.

(** X21. [resolveChains] writes a link from [id@name] only for a module
    [id] that exports, in an export list, the local [name] of a specifier
    it imports, and the link leads to the imported module and the
    imported name.  The modules stay as they are, but that a module whose
    namespace some module of the bundle imports is marked to export its
    namespace. *)
Theorem resolveChains_links (ms : list Module) :
  (forall k v, get k (resolveChains ms).1 = Some v -> chain_link ms k v) /\
  (resolveChains ms).2
  = map (fun m => exports_namespace (imported_as sp_isBatch ms (m_id m)) m) ms.
Proof.
  unfold resolveChains.
  match goal with |- context [fold_left ?f ms ([], ms)] => set (step := f) end.
  assert (Hgen : forall todo done chains store,
             (forall k v, get k chains = Some v -> chain_link (done ++ todo) k v) ->
             (forall k v, get k (fold_left step todo (chains, store)).1 = Some v ->
                          chain_link (done ++ todo) k v) /\
             (fold_left step todo (chains, store)).2
             = map (fun m => exports_namespace (imported_as sp_isBatch todo (m_id m)) m)
                   store).
  { induction todo as [|mdl todo IH]; intros done chains store Hc.
    - simpl. split; [exact Hc|]. rewrite <- (map_id store) at 1. apply map_ext.
      intros m. by rewrite exports_namespace_nothing.
    - cbn [fold_left]. unfold step at 2 4. cbv beta iota.
      change (fold_left _ (imports mdl) ([], store))
        with (fold_left origin_of_import (imports mdl) ([], store)).
      set (r := fold_left origin_of_import (imports mdl) ([], store)).
      pose proof (origin_of_imports (imports mdl) [] store) as [S1 S2].
      change (fold_left origin_of_import (imports mdl) ([], store)) with r in S1, S2.
      destruct r as [origin s1]. simpl in S1, S2.
      match goal with
      | |- context [fold_left step todo (?c, s1)] => set (chains1 := c)
      end.
      assert (Hc1 : forall k v, get k chains1 = Some v ->
                                chain_link ((done ++ [mdl]) ++ todo) k v).
      { unfold chains1.
        assert (Hexp : forall es c,
                   (forall e, e ∈ es -> e ∈ exports mdl) ->
                   (forall k v, get k c = Some v ->
                                chain_link ((done ++ [mdl]) ++ todo) k v) ->
                   forall k v,
                     get k (fold_left
                              (fun chains x =>
                                 match e_specifiers x with
                                 | None => chains
                                 | Some specifiers =>
                                     fold_left
                                       (fun chains s =>
                                          match get s origin with
                                          | Some o => put (m_id mdl +:+ "@" +:+ s) o chains
                                          | None => chains
                                          end) specifiers chains
                                 end) es c) = Some v ->
                     chain_link ((done ++ [mdl]) ++ todo) k v).
        { induction es as [|e es IHes]; intros c Hes Hcc; [exact Hcc|].
          simpl. apply IHes; [intros e' He'; apply Hes; by right|].
          destruct (e_specifiers e) as [specifiers|] eqn:Esp; [|exact Hcc].
          assert (Hsp : forall ss c',
                     (forall s, s ∈ ss -> s ∈ specifiers) ->
                     (forall k v, get k c' = Some v ->
                                  chain_link ((done ++ [mdl]) ++ todo) k v) ->
                     forall k v,
                       get k (fold_left
                                (fun chains s =>
                                   match get s origin with
                                   | Some o => put (m_id mdl +:+ "@" +:+ s) o chains
                                   | None => chains
                                   end) ss c') = Some v ->
                       chain_link ((done ++ [mdl]) ++ todo) k v).
          { induction ss as [|s ss IHss]; intros c' Hss Hc'; [exact Hc'|].
            simpl. apply IHss; [intros s' Hs'; apply Hss; by right|].
            destruct (get s origin) as [o|] eqn:Eo; [|exact Hc'].
            intros k v Hk.
            destruct (decide (k = m_id mdl +:+ "@" +:+ s)) as [->|Hne].
            - rewrite get_put_eq in Hk. injection Hk as <-.
              destruct (S2 s o Eo) as [?|(x & sp & Hx & Hsp' & Hb & -> & ->)];
                [discriminate|].
              exists mdl, x, sp, e, specifiers.
              split; [apply elem_of_app; left; apply elem_of_app; right; by left|].
              split; [exact Hx|]. split; [exact Hsp'|]. split; [exact Hb|].
              split; [apply Hes; by left|]. split; [exact Esp|].
              split; [apply Hss; by left|]. done.
            - rewrite get_put_ne in Hk by exact Hne. eauto. }
          apply Hsp; [auto|exact Hcc]. }
        apply Hexp; [auto|]. intros k v Hk. rewrite <- app_assoc. simpl. eauto. }
      destruct (IH (done ++ [mdl]) chains1 s1 Hc1) as [H1 H2].
      rewrite <- app_assoc in H1. simpl in H1. split; [exact H1|].
      rewrite H2, S1, map_map. apply map_ext. intros m.
      rewrite exports_namespace_twice. reflexivity. }
  destruct (Hgen ms [] [] ms) as [H1 H2]; [intros k v [=]|].
  simpl in H1. split; [exact H1|exact H2].
Qed.

(** [import { a as b } from './m'; export { b };]: the export [b] of
    the entry is the export [a] of [m]. *)
Lemma resolveChains_links_witness :
  get "e@b" (resolveChains (planning_input renamed_bundle)).1 = Some "m@a" /\
  chain_link (planning_input renamed_bundle) "e@b" "m@a".
Proof.
  assert (H : get "e@b" (resolveChains (planning_input renamed_bundle)).1 = Some "m@a")
    by (vm_compute; reflexivity).
  split; [exact H|]. exact (proj1 (resolveChains_links _) _ _ H).
Defined.

(** ** The tree under the annotations *)

Lemma annotate_erase (n : node) :
  forall marked st n' st', annotate marked n st = Ok (n', st') -> erase n' = erase n.
Proof.
  induction n as [a x cs IH] using node_induction. intros marked st n' st' H.
  rewrite annotate_unfold in H.
  destruct (_ || _ || _ || _).
  - destruct (annotate_leave _ st); [|discriminate]. cbn [mbind result_bind] in H.
    injection H as <- _. reflexivity.
  - destruct (annotate_enter (Node a x cs) st) as [[ann st1]|]; [|discriminate].
    cbn [mbind result_bind] in H.
    destruct (annotate_children (Node a x cs) (n_children (Node a x cs)) st1)
      as [[cs' st2]|] eqn:Ec; [|discriminate].
    cbn [mbind result_bind] in H.
    destruct (annotate_leave _ st2); [|discriminate]. cbn [mbind result_bind] in H.
    injection H as <- _. simpl. f_equal.
    simpl in Ec. generalize dependent (Node a x cs). intros p. clear st ann.
    revert st1 cs' st2. induction IH as [|c cs Hc _ IHcs]; intros st1 cs' st2 Ec.
    + simpl in Ec. by injection Ec as <- _.
    + simpl in Ec.
      destruct (annotate (marks p c) c st1) as [[c' s1]|] eqn:E1; [|discriminate].
      cbn [mbind result_bind] in Ec.
      destruct (annotate_children p cs s1) as [[rest s2]|] eqn:E2; [|discriminate].
      cbn [mbind result_bind] in Ec. injection Ec as <- _. simpl.
      rewrite (Hc _ _ _ _ E1), (IHcs _ _ _ E2). reflexivity.
Qed.

(** X22. [annotateAst] only annotates: in the tree that it returns, every
    node has the type, the positions, the texts and the children, in
    their order, that it had before; only the marks [_skip], [_topLevel],
    [_scope] and [_blockScope] are written. *)
Theorem annotateAst_keeps_tree (tree : node) (a : annotated) :
  annotateAst tree = Ok a -> erase (ast a) = erase tree.
Proof.
  unfold annotateAst. intros H.
  destruct (annotate false tree _) as [[ast' st]|] eqn:E; [|discriminate].
  cbn [mbind result_bind] in H. apply annotate_erase in E.
  destruct (s_scope st) as [|scope_id ?]; [discriminate|].
  destruct (s_blockScope st) as [|blockScope_id ?]; [discriminate|].
  injection H as <-. simpl. rewrite <- E. destruct ast'. reflexivity.
Qed.

(** [import { x } from 'a'; function f(x) { x = 1; }] *)
Lemma annotateAst_keeps_tree_witness :
  exists a, annotateAst shadow_ast = Ok a /\ erase (ast a) = erase shadow_ast.
Proof.
  destruct (annotateAst shadow_ast) as [a|] eqn:E; [|vm_compute in E; discriminate].
  exists a. split; [reflexivity|]. exact (annotateAst_keeps_tree _ _ E).
Defined.

(** ** Imported names in a single module *)


Lemma binds_nil (p : Specifier -> bool) (n : string) : ~ binds p [] n.
Proof. intros (x & s & Hx & _). by apply elem_of_nil in Hx. Qed.

Lemma binds_snoc (p : Specifier -> bool) (xs : list ImportDecl) (x : ImportDecl) (n : string) :
  binds p (xs ++ [x]) n <->
  binds p xs n \/ i_passthrough x = false /\ exists s, s ∈ i_specifiers x /\ p s = true
                                                       /\ sp_as s = n.
Proof.
  split.
  - intros (y & s & Hy & Hp & Hs & Hps & Hn). apply elem_of_app in Hy as [Hy|Hy].
    + left. exists y, s. done.
    + apply list_elem_of_singleton in Hy as ->. right. eauto.
  - intros [(y & s & Hy & H)|[Hp (s & Hs & H)]].
    + exists y, s. split; [apply elem_of_app; by left|exact H].
    + exists x, s. split; [apply elem_of_app; right; by left|done].
Qed.

Lemma readOnly_specifiers (specs : list Specifier) (b ns : list string) (n : string) :
  let r := fold_left (fun '(importedBindings, importedNamespaces) s =>
                        if sp_isBatch s
                        then (importedBindings, set_key (sp_as s) importedNamespaces)
                        else (set_key (sp_as s) importedBindings, importedNamespaces))
                     specs (b, ns) in
  (mem n r.1 = true <->
   mem n b = true \/ exists s, s ∈ specs /\ negb (sp_isBatch s) = true /\ sp_as s = n) /\
  (mem n r.2 = true <->
   mem n ns = true \/ exists s, s ∈ specs /\ sp_isBatch s = true /\ sp_as s = n).
Proof.
  revert b ns. induction specs as [|s specs IH]; intros b ns; simpl.
  - split; (split; [auto|intros [H|(s & Hs & _)]; [exact H|by apply elem_of_nil in Hs]]).
  - destruct (sp_isBatch s) eqn:Eb.
    + destruct (IH b (set_key (sp_as s) ns)) as [H1 H2]. split.
      * rewrite H1. split; (intros [?|(s' & Hs' & Hb & Hn)]; [by left|right]).
        -- exists s'. split; [by right|done].
        -- apply elem_of_cons in Hs' as [->|Hs']; [by rewrite Eb in Hb|eauto].
      * rewrite H2, mem_set_key_iff. split.
        -- intros [[->|?]|(s' & Hs' & ?)]; [right|by left|right].
           ++ exists s. split; [by left|done].
           ++ exists s'. split; [by right|done].
        -- intros [?|(s' & Hs' & Hb & Hn)]; [left; by right|].
           apply elem_of_cons in Hs' as [->|Hs']; [left; left; done|right; eauto].
    + destruct (IH (set_key (sp_as s) b) ns) as [H1 H2]. split.
      * rewrite H1, mem_set_key_iff. split.
        -- intros [[->|?]|(s' & Hs' & ?)]; [right|by left|right].
           ++ exists s. split; [by left|]. by rewrite Eb.
           ++ exists s'. split; [by right|done].
        -- intros [?|(s' & Hs' & Hb & Hn)]; [left; by right|].
           apply elem_of_cons in Hs' as [->|Hs']; [left; left; done|right; eauto].
      * rewrite H2. split; (intros [?|(s' & Hs' & Hb & Hn)]; [by left|right]).
        -- exists s'. split; [by right|done].
        -- apply elem_of_cons in Hs' as [->|Hs']; [congruence|eauto].
Qed.

Lemma replaced_specifiers (x : ImportDecl) (specs : list Specifier) (c r : dict)
  (n : string) :
  let g := fold_left
             (fun '(chains, identifierReplacements) s =>
                if sp_isBatch s then (chains, identifierReplacements)
                else
                  let name := sp_as s in
                  let replacement :=
                    str (i_name x) +:+ (if sp_isDefault s then "['default']"
                                        else "." +:+ sp_name s) in
                  (put name replacement chains,
                   if i_passthrough x then identifierReplacements
                   else put name replacement identifierReplacements))
             specs (c, r) in
  is_Some (get n g.2) <->
  is_Some (get n r)
  \/ i_passthrough x = false
     /\ exists s, s ∈ specs /\ negb (sp_isBatch s) = true /\ sp_as s = n.
Proof.
  revert c r. induction specs as [|s specs IH]; intros c r; simpl.
  - split; [auto|]. intros [H|(_ & s & Hs & _)]; [exact H|by apply elem_of_nil in Hs].
  - destruct (sp_isBatch s) eqn:Eb.
    + rewrite (IH c r). split; (intros [?|(Hp & s' & Hs' & Hb & Hn)]; [by left|right]).
      * split; [exact Hp|]. exists s'. split; [by right|done].
      * split; [exact Hp|].
        apply elem_of_cons in Hs' as [->|Hs']; [by rewrite Eb in Hb|eauto].
    + rewrite IH. destruct (i_passthrough x) eqn:Ep.
      * split; (intros [?|(Hp & _)]; [by left|discriminate]).
      * split.
        -- intros [Hg|(_ & s' & Hs' & ?)].
           ++ destruct (decide (n = sp_as s)) as [->|Hne].
              ** right. split; [reflexivity|]. exists s. split; [by left|]. by rewrite Eb.
              ** rewrite get_put_ne in Hg by exact Hne. by left.
           ++ right. split; [reflexivity|]. exists s'. split; [by right|done].
        -- intros [Hg|(_ & s' & Hs' & Hb & Hn)].
           ++ left. destruct (decide (n = sp_as s)) as [->|Hne].
              ** rewrite get_put_eq. eauto.
              ** by rewrite get_put_ne.
           ++ apply elem_of_cons in Hs' as [->|Hs'].
              ** left. rewrite <- Hn, get_put_eq. eauto.
              ** right. split; [reflexivity|]. eauto.
Qed.



(** ** The names a single module exports *)


Lemma get_fold_put_self (specifiers : list string) (r : dict) (k : string) :
  get k (fold_left (fun r s => put s s r) specifiers r)
  = if mem k specifiers then Some k else get k r.
Proof.
  revert r. induction specifiers as [|s l IH]; intros r; [reflexivity|].
  simpl. rewrite IH. unfold mem. simpl.
  destruct (existsb (str_eqb k) l) eqn:E; [by rewrite orb_true_r|].
  rewrite orb_false_r. destruct (str_eqb k s) eqn:Es.
  - apply str_eqb_eq in Es as ->. by rewrite get_put_eq.
  - apply str_eqb_neq in Es. by rewrite get_put_ne.
Qed.


